(** * LinguaFlow playback core: subtitle parser, cue resolver, media store,
      synchronisation driver and worker manager.

    A shallow embedding of
      - [src/services/SubtitleParser.ts]
      - [src/store/mediaStore.ts]
      - the [useMediaSync] hook
      - [src/services/SubtitleWorkerManager.ts]
      - the cache and [loadFromText] of [src/services/SubtitleLoader.ts]
    followed by the properties of the specification that concern them.

    Conventions.
    - A JavaScript [number] that carries a time or a factor is an IEEE 754
      binary64 value: Rocq's primitive [float].  Comparisons are the
      primitive ones, so [NaN] compares false with everything, as in JS.
    - A [number] that only ever carries an index or a counter
      ([activeIndex], [segmentLoopCurrent], array positions) is a [Z].
    - A JavaScript string is a [string]; its characters stand for the
      UTF-16 code units U+0000..U+00FF. *)

From Stdlib Require Import ZArith Zpower QArith Qround Qabs Qpower String Ascii List
  Bool Lia Lqa Sorted.
From Stdlib Require Import PrimFloat FloatOps SpecFloat FloatAxioms FloatLemmas
  Uint63.
From stdpp Require Import base option list gmap strings.

Local Open Scope Z_scope.
Set Warnings "-inexact-float".

(* ===================================================================== *)
(** ** JavaScript numbers *)
(* ===================================================================== *)

Module JS.

Abbreviation number := float.

(** [a < b], [a <= b], [a > b], [a >= b] on numbers. *)
Definition lt (a b : number) : bool := PrimFloat.ltb a b.
Definition le (a b : number) : bool := PrimFloat.leb a b.
Definition gt (a b : number) : bool := PrimFloat.ltb b a.
Definition ge (a b : number) : bool := PrimFloat.leb b a.

Definition isNaN (a : number) : bool := PrimFloat.is_nan a.

(** The number with integer value [z], for [|z| < 2^63]. *)
Definition of_Z (z : Z) : number :=
  if z <? 0 then PrimFloat.opp (PrimFloat.of_uint63 (Uint63.of_Z (- z)))
  else PrimFloat.of_uint63 (Uint63.of_Z z).

(** The number nearest to the integer [z], ties to even: what a run of
    decimal digits of any length denotes. *)
Definition ofInteger (z : Z) : number :=
  SF2Prim (binary_normalize prec emax z 0 false).

Definition Math_abs (a : number) : number := PrimFloat.abs a.

(** [Math.min(a, b)]: NaN when either argument is, and [-0] below [+0]. *)
Definition Math_min (a b : number) : number :=
  if isNaN a || isNaN b then PrimFloat.nan
  else if lt a b then a
  else if lt b a then b
  else if PrimFloat.is_zero a then PrimFloat.opp (PrimFloat.add (PrimFloat.opp a) (PrimFloat.opp b))
  else a.

(** [Math.max(a, b)]: NaN when either argument is, and [+0] above [-0]. *)
Definition Math_max (a b : number) : number :=
  if isNaN a || isNaN b then PrimFloat.nan
  else if lt a b then b
  else if lt b a then a
  else if PrimFloat.is_zero a then PrimFloat.add a b
  else a.

(** The integer value of a finite number without fractional part. *)
Definition toInteger (x : number) : option Z :=
  match Prim2SF x with
  | S754_zero _ => Some 0
  | S754_finite sgn m e =>
    let z :=
      if 0 <=? e then Some (Z.shiftl (Zpos m) e)
      else
        let q := Z.shiftr (Zpos m) (- e) in
        if Z.shiftl q (- e) =? Zpos m then Some q else None in
    match z with
    | Some z => Some (if sgn then - z else z)
    | None => None
    end
  | _ => None
  end.

(** [Math.floor(x)]. *)
Definition Math_floor (x : number) : number :=
  match Prim2SF x with
  | S754_finite sgn m e =>
    if 0 <=? e then x
    else
      let q := Z.shiftr (Zpos m) (- e) in
      if sgn then
        if Z.shiftl q (- e) =? Zpos m then of_Z (- q) else of_Z (- (q + 1))
      else of_Z q
  | _ => x
  end.

(** [x % y]: the exact remainder of the truncating division, with the sign
    of [x]. *)
Definition rem (x y : number) : number :=
  match Prim2SF x, Prim2SF y with
  | S754_nan, _ | _, S754_nan => PrimFloat.nan
  | S754_infinity _, _ => PrimFloat.nan
  | _, S754_zero _ => PrimFloat.nan
  | S754_zero _, _ => x
  | _, S754_infinity _ => x
  | S754_finite sx mx ex, S754_finite _ my ey =>
    let e := Z.min ex ey in
    match (Z.shiftl (Zpos mx) (ex - e)) mod (Z.shiftl (Zpos my) (ey - e)) with
    | Zpos r => SF2Prim (S754_finite sx r e)
    | _ => if sx then PrimFloat.neg_zero else PrimFloat.zero
    end
  end.

End JS.

(* ===================================================================== *)
(** ** JavaScript strings and the regular expressions of the sources *)
(* ===================================================================== *)

Module Str.

Local Open Scope string_scope.

Definition code (c : ascii) : N := N_of_ascii c.

(** [\s], which is also what [trim] strips: TAB, LF, VT, FF, CR, space
    and U+00A0. *)
Definition isSpace (c : ascii) : bool :=
  let n := code c in
  ((9 <=? n) && (n <=? 13) || (n =? 32) || (n =? 160))%N.

(** [\d]. *)
Definition isDigit (c : ascii) : bool :=
  let n := code c in ((48 <=? n) && (n <=? 57))%N.

(** Line terminators: the characters [.] does not match, and where [^]
    and [$] match under the [m] flag. *)
Definition isLineTerminator (c : ascii) : bool :=
  let n := code c in ((n =? 10) || (n =? 13))%N.

Definition LF : ascii := ascii_of_N 10.
Definition CR : ascii := ascii_of_N 13.

Definition eqc (a b : ascii) : bool := Ascii.eqb a b.

Fixpoint rev_onto (s acc : string) : string :=
  match s with
  | "" => acc
  | String c r => rev_onto r (String c acc)
  end.

Definition rev (s : string) : string := rev_onto s "".

Fixpoint trimStart (s : string) : string :=
  match s with
  | String c r => if isSpace c then trimStart r else s
  | "" => ""
  end.

Definition trimEnd (s : string) : string := rev (trimStart (rev s)).

Definition trim (s : string) : string := trimEnd (trimStart s).

(** [s.startsWith(p)]; on success also the rest of [s]. *)
Fixpoint stripPrefix (p s : string) : option string :=
  match p, s with
  | "", _ => Some s
  | String a p', String b s' => if eqc a b then stripPrefix p' s' else None
  | String _ _, "" => None
  end.

Definition startsWith (s p : string) : bool :=
  match stripPrefix p s with Some _ => true | None => false end.

Fixpoint includes (s p : string) : bool :=
  startsWith s p ||
  match s with
  | "" => false
  | String _ r => includes r p
  end.

(** [s.split(sep)] for a one-character separator. *)
Fixpoint splitChar (sep : ascii) (s : string) (cur : string) : list string :=
  match s with
  | "" => [rev cur]
  | String c r =>
    if eqc c sep then rev cur :: splitChar sep r ""
    else splitChar sep r (String c cur)
  end.

Definition split (s : string) (sep : ascii) : list string :=
  splitChar sep s "".

(** [lines.join(sep)]. *)
Fixpoint join (sep : string) (l : list string) : string :=
  match l with
  | [] => ""
  | [x] => x
  | x :: r => x ++ sep ++ join sep r
  end.

Fixpoint dropChars (n : nat) (s : string) : string :=
  match n, s with
  | O, _ => s
  | S k, String _ r => dropChars k r
  | S _, "" => ""
  end.

Fixpoint takeChars (n : nat) (s : string) : string :=
  match n, s with
  | O, _ => ""
  | S k, String c r => String c (takeChars k r)
  | S _, "" => ""
  end.

(** [s.padStart(n, '0')]. *)
Definition padStart0 (n : nat) (s : string) : string :=
  String.concat "" (repeat "0" (n - String.length s)) ++ s.

(** *** Regular expressions

    A pattern is given by what it matches at the head of a string: the
    length of the match the backtracking matcher finds there, if any.
    Every pattern of the sources matches at least one character. *)
Definition pattern := string -> option nat.

(** All matches, leftmost first and not overlapping; [skip] counts the
    characters of the current match still to pass. *)
Fixpoint scan {A} (p : pattern) (onPiece : string -> A -> A)
    (onMatch : string -> A -> A) (s : string) (skip : nat)
    (piece matched : string) (finish : string -> A) : A :=
  match s with
  | "" => match skip with
          | O => finish (rev piece)
          | S _ => onMatch (rev matched) (finish "")
          end
  | String c r =>
    match skip with
    | S O => onMatch (rev (String c matched))
               (scan p onPiece onMatch r 0 "" "" finish)
    | S k => scan p onPiece onMatch r k piece (String c matched) finish
    | O =>
      match p s with
      | Some (S O) =>
          onPiece (rev piece)
            (onMatch (String c "") (scan p onPiece onMatch r 0 "" "" finish))
      | Some (S k) =>
          onPiece (rev piece)
            (scan p onPiece onMatch r k "" (String c "") finish)
      | _ => scan p onPiece onMatch r 0 (String c piece) "" finish
      end
    end
  end.

(** [s.split(re)] for a pattern without capture groups. *)
Definition splitRe (p : pattern) (s : string) : list string :=
  scan p (fun x l => x :: l) (fun _ l => l) s 0 "" "" (fun x => [x]).

(** [s.split(re)] when the whole pattern is one capture group: the
    separators are kept between the pieces. *)
Definition splitReKeep (p : pattern) (s : string) : list string :=
  scan p (fun x l => x :: l) (fun x l => x :: l) s 0 "" "" (fun x => [x]).

(** [s.replace(re, by)] with the [g] flag. *)
Definition replaceAll (p : pattern) (by_ : string) (s : string) : string :=
  scan p (fun x acc => x ++ acc) (fun _ acc => by_ ++ acc) s 0 "" ""
    (fun x => x).

(** The leftmost match: the text before it, the match, the text after. *)
Fixpoint search (p : pattern) (s : string) (before : string)
    : option (string * string * string) :=
  match p s with
  | Some n => Some (rev before, takeChars n s, dropChars n s)
  | None =>
    match s with
    | "" => None
    | String c r => search p r (String c before)
    end
  end.

(** [re.test(s)]. *)
Definition test (p : pattern) (s : string) : bool :=
  match search p s "" with Some _ => true | None => false end.

(** [s.replace(re, by)] without the [g] flag. *)
Definition replaceFirst (p : pattern) (by_ : string) (s : string) : string :=
  match search p s "" with
  | Some (a, _, b) => a ++ by_ ++ b
  | None => s
  end.

(** *** Pattern pieces.  A piece consumes a prefix and hands back the
    rest, or fails. *)
Definition piece := string -> option string.

Definition lit (l : string) : piece := stripPrefix l.

Definition one (f : ascii -> bool) : piece := fun s =>
  match s with
  | String c r => if f c then Some r else None
  | "" => None
  end.

(** Greedy [c*]; what follows in the sources' patterns never starts with a
    character of the class, so no backtracking into it is needed. *)
Fixpoint many (f : ascii -> bool) (s : string) : string :=
  match s with
  | String c r => if f c then many f r else s
  | "" => ""
  end.

Definition star (f : ascii -> bool) : piece := fun s => Some (many f s).

Definition plus (f : ascii -> bool) : piece := fun s =>
  match one f s with
  | Some r => Some (many f r)
  | None => None
  end.

Definition andThen (a b : piece) : piece := fun s =>
  match a s with Some r => b r | None => None end.

Fixpoint times (n : nat) (a : piece) : piece :=
  match n with
  | O => Some
  | S k => andThen a (times k a)
  end.

Fixpoint sequence (l : list piece) : piece :=
  match l with
  | [] => Some
  | a :: r => andThen a (sequence r)
  end.

Definition toPattern (a : piece) : pattern := fun s =>
  match a s with
  | Some r => Some (String.length s - String.length r)%nat
  | None => None
  end.

(** The integer that [parseInt(s, 10)] reads: leading white space, a
    sign, then the longest run of digits; [None] when there is no digit. *)
Fixpoint digitsValue (s : string) (acc : Z) : Z :=
  match s with
  | String c r =>
    if isDigit c then digitsValue r (10 * acc + (Z.of_N (code c) - 48))
    else acc
  | "" => acc
  end.

Definition integerOf (s : string) : option Z :=
  let s := trimStart s in
  let '(neg, s) :=
    match s with
    | String c r =>
      if eqc c "-" then (true, r)
      else if eqc c "+" then (false, r) else (false, s)
    | "" => (false, s)
    end in
  match s with
  | String c _ =>
    if isDigit c then
      Some (if neg then - digitsValue s 0 else digitsValue s 0)
    else None
  | "" => None
  end.

(** Decimal digits of a natural number, as [Number.prototype.toString]
    prints an integer. *)
Definition digitChar (n : Z) : ascii := ascii_of_N (Z.to_N (48 + n)).

Fixpoint decimalAux (fuel : nat) (n : Z) (acc : string) : string :=
  match fuel with
  | O => acc
  | S f =>
    let acc := String (digitChar (n mod 10)) acc in
    if (n / 10 =? 0)%Z then acc else decimalAux f (n / 10) acc
  end.

Definition decimal (n : Z) : string :=
  if (n <? 0)%Z then "-" ++ decimalAux (Z.to_nat (Z.log2 (- n)) + 1) (- n) ""
  else decimalAux (Z.to_nat (Z.log2 n) + 1) n "".

Local Open Scope Z_scope.

(** [parseInt(s, 10)]: the number nearest to the integer read, [-0] for a
    negative zero, NaN when there is no digit.  (The digits are all read;
    ECMAScript lets an implementation replace the digits after the 20th
    by zeros.) *)
Definition parseInt (s : string) : JS.number :=
  match integerOf s with
  | Some z =>
    if (z =? 0) && startsWith (trimStart s) "-" then PrimFloat.neg_zero
    else JS.ofInteger z
  | None => PrimFloat.nan
  end.

(** *** Number::toString

    A positive number [num/den] is printed with the fewest digits that
    read back as that number and, among those, the digits nearest to it.
    A text with the digits [s] and the exponent [p] denotes [s * 10^p]. *)

(** [n] with [10^(n-1) <= num/den < 10^n]. *)
Fixpoint magnitudeUp (fuel : nat) (num den : Z) (n : Z) : Z :=
  match fuel with
  | O => n
  | S f => if num <? den * 10 ^ n then n else magnitudeUp f num den (n + 1)
  end.

Fixpoint magnitudeDown (fuel : nat) (num den : Z) (n : Z) : Z :=
  match fuel with
  | O => n
  | S f =>
    if den <=? num * 10 ^ (1 - n) then n else magnitudeDown f num den (n - 1)
  end.

Definition magnitude (num den : Z) : Z :=
  if den <=? num then magnitudeUp 400 num den 1
  else magnitudeDown 400 num den 0.

(** [lo] and [hi], over the denominator [den4], bound the values that are
    rounded to the number; the bounds themselves are when [closed]. *)
Definition readsBack (lo hi den4 : Z) (closed : bool) (s p : Z) : bool :=
  let scale := if 0 <=? p then 1 else 10 ^ (- p) in
  let c := if 0 <=? p then s * 10 ^ p * den4 else s * den4 in
  if closed then (lo * scale <=? c) && (c <=? hi * scale)
  else (lo * scale <? c) && (c <? hi * scale).

(** The digits [s], their count [k] and the exponent [n] of
    Number::toString, step 5: [s * 10^(n-k)] reads back as the number. *)
Fixpoint shortest (fuel : nat) (k : Z) (num den lo hi : Z) (closed : bool)
    (n : Z) : Z * Z * Z :=
  let p := n - k in
  let s := if 0 <=? p then num / (den * 10 ^ p) else (num * 10 ^ (- p)) / den in
  let below := readsBack lo hi (4 * den) closed s p in
  let above := readsBack lo hi (4 * den) closed (s + 1) p in
  let up := if s + 1 =? 10 ^ k then (10 ^ (k - 1), n + 1) else (s + 1, n) in
  let scale := if 0 <=? p then 1 else 10 ^ (- p) in
  let unit := if 0 <=? p then 10 ^ p * den else den in
  let dBelow := num * scale - s * unit in
  let dAbove := (s + 1) * unit - num * scale in
  match fuel with
  | O => (s, k, n)
  | S f =>
    if below && above then
      if (dBelow <? dAbove) || ((dBelow =? dAbove) && Z.even s) then (s, k, n)
      else (fst up, k, snd up)
    else if below then (s, k, n)
    else if above then (fst up, k, snd up)
    else shortest f (k + 1) num den lo hi closed n
  end.

Fixpoint zeros (n : nat) : string :=
  match n with
  | O => ""
  | S n => String "0" (zeros n)
  end.

(** The text of [m * 2^e], for a mantissa and an exponent of binary64. *)
Definition positiveToString (m : positive) (e : Z) : string :=
  let num := if 0 <=? e then Zpos m * 2 ^ e else Zpos m in
  let den := if 0 <=? e then 1 else 2 ^ (- e) in
  let ulp := if 0 <=? e then 2 ^ e else 1 in
  let lowerHalf :=
    if (Zpos m =? 2 ^ 52) && (-1074 <? e) then ulp else 2 * ulp in
  let lo := 4 * num - lowerHalf in
  let hi := 4 * num + 2 * ulp in
  let '(s, k, n) :=
    shortest 17 1 num den lo hi (Z.even (Zpos m)) (magnitude num den) in
  let digits := decimal s in
  if (k <=? n) && (n <=? 21) then digits ++ zeros (Z.to_nat (n - k))
  else if (0 <? n) && (n <=? 21) then
    takeChars (Z.to_nat n) digits ++ "." ++ dropChars (Z.to_nat n) digits
  else if (-6 <? n) && (n <=? 0) then
    "0." ++ zeros (Z.to_nat (- n)) ++ digits
  else
    let exponent :=
      (if 0 <=? n - 1 then "+" else "-") ++ decimal (Z.abs (n - 1)) in
    if k =? 1 then digits ++ "e" ++ exponent
    else takeChars 1 digits ++ "." ++ dropChars 1 digits ++ "e" ++ exponent.

(** [x.toString()], which is also [`${x}`].  An integer below [2^53] is
    printed with all its digits: every shorter text reads back as another
    number. *)
Definition numberToString (x : JS.number) : string :=
  match JS.toInteger x with
  | Some z => if Z.abs z <? 2 ^ 53 then decimal z else
    match Prim2SF x with
    | S754_finite s m e => (if s then "-" else "") ++ positiveToString m e
    | _ => "0"
    end
  | None =>
    match Prim2SF x with
    | S754_nan => "NaN"
    | S754_zero _ => "0"
    | S754_infinity s => if s then "-Infinity" else "Infinity"
    | S754_finite s m e => (if s then "-" else "") ++ positiveToString m e
    end
  end.

End Str.

(* ===================================================================== *)
(** ** Subtitle cues ([src/types.ts]) *)
(* ===================================================================== *)

(** [SubtitleCue].  The language fields are filled by the language
    utilities, which the parser calls once per cue. *)
Record SubtitleCue := mkCue {
  cue_id : string;
  cue_index : Z;
  cue_start : JS.number;
  cue_end : JS.number;
  cue_text : string;
  cue_textEn : option string;
  cue_textZh : option string;
  cue_languages : list (string * string);
  cue_detectedLanguages : list string;
  cue_primaryLanguage : string
}.

(** [cues[i]]: [undefined] outside the array. *)
Definition cueAt (cues : list SubtitleCue) (i : Z) : option SubtitleCue :=
  if i <? 0 then None else cues !! Z.to_nat i.

(** [time >= cue.start && time < cue.end]. *)
Definition activeAt (cue : SubtitleCue) (time : JS.number) : bool :=
  JS.ge time (cue_start cue) && JS.lt time (cue_end cue).

(* ===================================================================== *)
(** ** Cue index resolver ([SubtitleParser.findIndexAtTime]) *)
(* ===================================================================== *)

Module Resolver.

(** The [while (left <= right)] loop.  Every iteration shrinks the
    interval, so [fuel = cues.length] iterations are never used up
    (lemma [binarySearch_fuel] below). *)
Fixpoint binarySearch (fuel : nat) (cues : list SubtitleCue)
    (time : JS.number) (left right result : Z) : Z :=
  match fuel with
  | O => result
  | S fuel' =>
    if left <=? right then
      let mid := (left + right) / 2 in
      match cueAt cues mid with
      | None => result
      | Some cue =>
        if JS.ge time (cue_start cue) && JS.lt time (cue_end cue) then mid
        else if JS.lt time (cue_start cue) then
          binarySearch fuel' cues time left (mid - 1) result
        else
          binarySearch fuel' cues time (mid + 1) right
            (if JS.ge time (cue_start cue) then mid else result)
      end
    else result
  end.

(** The hint fast path: [Some r] when it returns [r], [None] when control
    falls through to the binary search. *)
Definition hintPath (cues : list SubtitleCue) (time : JS.number)
    (hintIndex : Z) : option Z :=
  let len := Z.of_nat (length cues) in
  if (0 <=? hintIndex) && (hintIndex <? len) then
    let current := cueAt cues hintIndex in
    if match current with
       | Some c => JS.ge time (cue_start c) && JS.lt time (cue_end c)
       | None => false
       end
    then Some hintIndex
    else
      let nextIndex := hintIndex + 1 in
      if nextIndex <? len then
        let next := cueAt cues nextIndex in
        if match next with
           | Some n => JS.ge time (cue_start n) && JS.lt time (cue_end n)
           | None => false
           end
        then Some nextIndex
        else if match current, next with
                | Some c, Some n =>
                    JS.ge time (cue_end c) && JS.lt time (cue_start n)
                | _, _ => false
                end
        then Some (-1)
        else None
      else None
  else None.

Definition findIndexAtTime (cues : list SubtitleCue) (time : JS.number)
    (hintIndex : Z) : Z :=
  let len := Z.of_nat (length cues) in
  if len =? 0 then -1
  else match hintPath cues time hintIndex with
       | Some r => r
       | None => binarySearch (length cues) cues time 0 (len - 1) (-1)
       end.

(** A bare cue [start, end) for examples. *)
Definition span (i : Z) (s e : JS.number) : SubtitleCue :=
  mkCue "cue" i s e "text" None None [] [] "en".

End Resolver.

(* ===================================================================== *)
(** ** Subtitle parser ([src/services/SubtitleParser.ts]) *)
(* ===================================================================== *)

Inductive SubtitleFormat := srt | vtt | ass | unknown.

Module SubtitleParser.

Import Str.
Local Open Scope string_scope.

(** *** The regular expressions of the class *)

Definition notGt (c : ascii) : bool := negb (eqc c ">").
Definition notLineTerminator (c : ascii) : bool := negb (isLineTerminator c).

(** [\d{2}:\d{2}:\d{2}<sep>\d{3}]. *)
Definition timestampRe (sep : string) : piece :=
  sequence [times 2 (one isDigit); lit ":"; times 2 (one isDigit); lit ":";
            times 2 (one isDigit); lit sep; times 3 (one isDigit)].

(** [/<\d{2}:\d{2}:\d{2}\.\d{3}>/g] *)
Definition INLINE_TIMESTAMP_REGEX : pattern :=
  toPattern (sequence [lit "<"; timestampRe "."; lit ">"]).

(** [/<\/?[cibu]>/g] *)
Definition STYLE_TAG_REGEX : pattern :=
  toPattern (sequence
    [lit "<";
     (fun s => match lit "/" s with Some r => Some r | None => Some s end);
     one (fun c => eqc c "c" || eqc c "i" || eqc c "b" || eqc c "u");
     lit ">"]).

(** [/<c\.[^>]+>/g] *)
Definition CLASS_STYLE_REGEX : pattern :=
  toPattern (sequence [lit "<c."; plus notGt; lit ">"]).

(** [/<v\s+[^>]+>/g]: white space is also [[^>]], so [\s+] gives back all
    but its first character when needed. *)
Definition VOICE_TAG_REGEX : pattern :=
  toPattern (sequence [lit "<v"; one isSpace; plus notGt; lit ">"]).

(** [/<\/v>/g] *)
Definition VOICE_CLOSE_REGEX : pattern := toPattern (lit "</v>").

(** [/<[^>]+>/g] *)
Definition ANY_TAG_REGEX : pattern :=
  toPattern (sequence [lit "<"; plus notGt; lit ">"]).

(** [/\s+/g] *)
Definition WHITESPACE_REGEX : pattern := toPattern (plus isSpace).

(** [/\n\s*\n/]: a line feed, then white space up to the last line feed of
    the white-space run that follows. *)
Fixpoint lastLF (s : string) (pos : nat) (found : option nat) : option nat :=
  match s with
  | String c r =>
    if isSpace c then
      lastLF r (S pos) (if eqc c LF then Some (S pos) else found)
    else found
  | "" => found
  end.

Definition BLANK_LINE_REGEX : pattern := fun s =>
  match s with
  | String c r =>
    if eqc c LF then
      match lastLF r 0 None with
      | Some n => Some (S n)
      | None => None
      end
    else None
  | "" => None
  end.

(** [/^\d+\s*$/m.test(line)]: at the start of some line, digits, then
    white space up to the end of the input or to a line terminator. *)
Definition indexLineAt (s : string) : bool :=
  match plus isDigit s with
  | Some r =>
    match many isSpace r with
    | "" => true
    | _ =>
      let ws := takeChars (String.length r - String.length (many isSpace r)) r in
      existsb isLineTerminator (list_ascii_of_string ws)
    end
  | None => false
  end.

Fixpoint indexLineFrom (atLineStart : bool) (s : string) : bool :=
  (atLineStart && indexLineAt s) ||
  match s with
  | String c r => indexLineFrom (isLineTerminator c) r
  | "" => false
  end.

Definition isIndexLine (line : string) : bool := indexLineFrom true line.

(** [line.match(/(ts)\s*-->\s*(ts)/)]: the two captured timestamps of the
    leftmost match. *)
Definition timeRangeAt (sep : string) (s : string) : option (string * string) :=
  match timestampRe sep s with
  | Some r =>
    match lit "-->" (many isSpace r) with
    | Some r' =>
      let r'' := many isSpace r' in
      match timestampRe sep r'' with
      | Some _ => Some (takeChars 12 s, takeChars 12 r'')
      | None => None
      end
    | None => None
    end
  | None => None
  end.

Fixpoint matchTimeRange (sep : string) (s : string) : option (string * string) :=
  match timeRangeAt sep s with
  | Some g => Some g
  | None =>
    match s with
    | String _ r => matchTimeRange sep r
    | "" => None
    end
  end.

(** *** detectFormat *)
Definition detectFormat (text : string) : SubtitleFormat :=
  let trimmed := trim text in
  if startsWith trimmed "WEBVTT" then vtt
  else
    let firstLine := hd "" (split trimmed LF) in
    if negb (String.eqb firstLine "") && isIndexLine firstLine then srt
    else if includes trimmed "[Script Info]" then ass
    else unknown.

(** *** parseTimestamp and formatTimestamp *)

(** [timestamp.replace(',', '.')]: the first comma only. *)
Definition commaToDot (t : string) : string :=
  replaceFirst (toPattern (lit ",")) "." t.

Definition parseTimestamp (timestamp : string) : JS.number :=
  let timestamp := commaToDot timestamp in
  match search (toPattern (timestampRe ".")) timestamp "" with
  | None => 0%float
  | Some (_, m, _) =>
    let hours := parseInt (takeChars 2 m) in
    let minutes := parseInt (takeChars 2 (dropChars 3 m)) in
    let seconds := parseInt (takeChars 2 (dropChars 6 m)) in
    let milliseconds := parseInt (takeChars 3 (dropChars 9 m)) in
    (hours * 3600 + minutes * 60 + seconds + milliseconds / 1000)%float
  end.

(** [format] defaults to [srt]. *)
Definition formatTimestamp (seconds : JS.number) (format : SubtitleFormat)
    : string :=
  let hours := JS.Math_floor (seconds / 3600)%float in
  let minutes := JS.Math_floor (JS.rem seconds 3600 / 60)%float in
  let secs := JS.Math_floor (JS.rem seconds 60) in
  let ms := JS.Math_floor (JS.rem seconds 1 * 1000)%float in
  let separator := match format with srt => "," | _ => "." end in
  padStart0 2 (numberToString hours) ++ ":"
    ++ padStart0 2 (numberToString minutes) ++ ":"
    ++ padStart0 2 (numberToString secs) ++ separator
    ++ padStart0 3 (numberToString ms).

(** The text [HH:MM:SS<sep>mmm] of the four fields. *)
Definition render (h m s ms : Z) (sep : string) : string :=
  padStart0 2 (decimal h) ++ ":" ++ padStart0 2 (decimal m) ++ ":"
  ++ padStart0 2 (decimal s) ++ sep ++ padStart0 3 (decimal ms).

(** *** cleanVTTText *)
Definition cleanVTTText (text : string) : string :=
  trim
    (replaceAll WHITESPACE_REGEX " "
      (replaceAll ANY_TAG_REGEX ""
        (replaceAll VOICE_CLOSE_REGEX ""
          (replaceAll VOICE_TAG_REGEX ""
            (replaceAll CLASS_STYLE_REGEX ""
              (replaceAll STYLE_TAG_REGEX ""
                (replaceAll INLINE_TIMESTAMP_REGEX "" text))))))).

(** [text.split(/\n\s*\n/).filter(block => block.trim())] *)
Definition splitBlocks (text : string) : list string :=
  List.filter (fun block => negb (String.eqb (trim block) ""))
    (splitRe BLANK_LINE_REGEX text).

Section WithLanguages.

(** The language utilities ([separateLanguages], [detectLanguage] of
    [utils/languageUtils.ts]); what they answer does not reach [start],
    [end] or [text]. *)
Variable separateLanguages : string -> list (string * string).
Variable detectLanguage : string -> string.

Definition lookupLanguage (lang : string) (m : list (string * string))
    : option string :=
  match List.find (fun kv => String.eqb (fst kv) lang) m with
  | Some kv => Some (snd kv)
  | None => None
  end.

Definition makeCue (id : string) (i : Z) (start end_ : JS.number)
    (text : string) : SubtitleCue :=
  let languages := separateLanguages text in
  let detectedLangs := map fst languages in
  let primaryLang :=
    match detectedLangs with
    | l :: _ => if String.eqb l "" then detectLanguage text else l
    | [] => detectLanguage text
    end in
  mkCue id i start end_ text (lookupLanguage "en" languages)
    (lookupLanguage "zh" languages) languages detectedLangs primaryLang.

(** One iteration of the loop of [parseSRT]: [None] is [continue]. *)
Definition parseSRTBlock (i : Z) (block : string) : option SubtitleCue :=
  if String.eqb block "" then None
  else
    let lines := map trim (split block LF) in
    if (length lines <? 3)%nat then None
    else
      let firstLine := nth 0 lines "" in
      if String.eqb firstLine "" then None
      else
        let index := parseInt firstLine in
        if JS.isNaN index then None
        else
          let secondLine := nth 1 lines "" in
          if String.eqb secondLine "" then None
          else match matchTimeRange "," secondLine with
          | None => None
          | Some (m1, m2) =>
            let start := parseTimestamp m1 in
            let end_ := parseTimestamp m2 in
            let text := join (String LF "") (skipn 2 lines) in
            Some (makeCue ("srt-" ++ numberToString index) i start end_ text)
          end.

(** The loop over the blocks; [i] is the position of the block. *)
Fixpoint parseBlocks (f : Z -> string -> option SubtitleCue) (i : Z)
    (blocks : list string) : list SubtitleCue :=
  match blocks with
  | [] => []
  | b :: r =>
    match f i b with
    | Some cue => cue :: parseBlocks f (i + 1) r
    | None => parseBlocks f (i + 1) r
    end
  end.

Definition parseSRT (text : string) : list SubtitleCue :=
  parseBlocks parseSRTBlock 0 (splitBlocks text).

(** [text.replace(/^WEBVTT.*?\n/, '')] *)
Definition stripHeader (text : string) : string :=
  match sequence [lit "WEBVTT"; star notLineTerminator; lit (String LF "")]
          text with
  | Some r => r
  | None => text
  end.

(** [text.replace(/NOTE.*?\n\n/g, '')] *)
Definition stripNotes (text : string) : string :=
  replaceAll
    (toPattern (sequence [lit "NOTE"; star notLineTerminator;
                          lit (String LF (String LF ""))]))
    "" text.

(** The position of the first line that includes [-->]. *)
Fixpoint findTimeLine (lines : list string) (j : nat) : option nat :=
  match lines with
  | [] => None
  | l :: r =>
    if negb (String.eqb l "") && includes l "-->" then Some j
    else findTimeLine r (S j)
  end.

Definition parseVTTBlock (i : Z) (block : string) : option SubtitleCue :=
  if String.eqb block "" then None
  else
    let lines := map trim (split block LF) in
    match findTimeLine lines 0 with
    | None => None
    | Some timeLineIndex =>
      let timeLine := nth timeLineIndex lines "" in
      if String.eqb timeLine "" then None
      else match matchTimeRange "." timeLine with
      | None => None
      | Some (m1, m2) =>
        let start := parseTimestamp m1 in
        let end_ := parseTimestamp m2 in
        let text :=
          cleanVTTText (join (String LF "") (skipn (timeLineIndex + 1) lines)) in
        let fallbackId := "vtt-" ++ decimal i in
        let id :=
          match timeLineIndex with
          | S k =>
            let prev := nth k lines "" in
            if String.eqb prev "" then fallbackId else prev
          | O => fallbackId
          end in
        Some (makeCue id i start end_ text)
      end
    end.

Definition parseVTT (text : string) : list SubtitleCue :=
  parseBlocks parseVTTBlock 0 (splitBlocks (stripNotes (stripHeader text))).

(** *** parse *)
Definition parse (text : string) (format : option SubtitleFormat)
    : list SubtitleCue :=
  if String.eqb text "" || (String.length (trim text) =? 0)%nat then []
  else
    let detectedFormat :=
      match format with
      | Some f => f
      | None => detectFormat text
      end in
    match detectedFormat with
    | srt => parseSRT text
    | vtt => parseVTT text
    | ass => []
    | unknown => []
    end.

End WithLanguages.

(** *** validate *)
Definition invalidCue (cue : SubtitleCue) : bool :=
  String.eqb (cue_id cue) "" || JS.lt (cue_start cue) 0
  || JS.le (cue_end cue) (cue_start cue) || String.eqb (cue_text cue) "".

Definition validate (cues : list SubtitleCue) : bool :=
  match cues with
  | [] => false
  | _ => negb (existsb invalidCue cues)
  end.

(** *** mergeBilingual *)

(** [mergeBilingual]: the English cues, each with the text
    of the first Chinese cue that starts within half a second of it. *)
Definition mergeBilingual (enCues zhCues : list SubtitleCue)
    : list SubtitleCue :=
  map (fun enCue =>
         let zhCue :=
           List.find
             (fun zh => JS.lt (JS.Math_abs (cue_start zh - cue_start enCue)%float) 0.5)
             zhCues in
         mkCue (cue_id enCue) (cue_index enCue) (cue_start enCue)
           (cue_end enCue) (cue_text enCue) (Some (cue_text enCue))
           (option_map cue_text zhCue) (cue_languages enCue)
           (cue_detectedLanguages enCue) (cue_primaryLanguage enCue))
      enCues.

End SubtitleParser.

(* ===================================================================== *)
(** ** Playback mode state store ([src/store/mediaStore.ts]) *)
(* ===================================================================== *)

(** Calls received by the external player ([PlayerRef]). *)
Inductive PlayerCall :=
| SeekTo (seconds : JS.number)
| PlayVideo
| PauseVideo.

(** The store keeps a reference to the player; the player itself lives
    outside the store. *)
Inductive PlayerRef := ThePlayer.

Inductive VideoFit := Contain | Cover | Fill.
Inductive Position := Top | Center | Bottom.

Record SubtitleConfig := mkSubtitleConfig {
  fontSize : JS.number;
  fontColor : string;
  translationColor : string;
  highlightColor : string;
  backgroundColor : string;
  position : Position;
  showEnglish : bool;
  showChinese : bool;
  visibleLanguages : list string;
  primaryLanguage : string;
  showIndexAndTime : bool;
  wordByWordHighlight : bool
}.

Module MediaStore.

(** [MediaState]. *)
Record MediaState := mkMediaState {
  currentTime : JS.number;
  duration : JS.number;
  playing : bool;
  volume : JS.number;
  playbackRate : JS.number;
  videoFit : VideoFit;
  showInlineSubtitles : bool;
  playerRef : option PlayerRef;
  subtitles : list SubtitleCue;
  activeIndex : Z;
  activeWordIndex : Z;
  subtitleConfig : SubtitleConfig;
  loopEnabled : bool;
  loopStart : JS.number;
  loopEnd : JS.number;
  segmentPlayEnabled : bool;
  segmentPlayEnd : JS.number;
  segmentLoopEnabled : bool;
  segmentLoopTotal : Z;
  segmentLoopCurrent : Z;
  segmentLoopIndex : Z;
  abRepeatEnabled : bool;
  pointA : option JS.number;
  pointB : option JS.number;
  shadowingEnabled : bool;
  shadowingPauseFactor : JS.number
}.

(** Field updates, one per field: [set({ f: v })]. *)
Definition set_currentTime (v : JS.number) (s : MediaState) : MediaState :=
  mkMediaState v (duration s) (playing s) (volume s) (playbackRate s) (videoFit s) (showInlineSubtitles s) (playerRef s) (subtitles s) (activeIndex s) (activeWordIndex s) (subtitleConfig s) (loopEnabled s) (loopStart s) (loopEnd s) (segmentPlayEnabled s) (segmentPlayEnd s) (segmentLoopEnabled s) (segmentLoopTotal s) (segmentLoopCurrent s) (segmentLoopIndex s) (abRepeatEnabled s) (pointA s) (pointB s) (shadowingEnabled s) (shadowingPauseFactor s).
Definition set_duration (v : JS.number) (s : MediaState) : MediaState :=
  mkMediaState (currentTime s) v (playing s) (volume s) (playbackRate s) (videoFit s) (showInlineSubtitles s) (playerRef s) (subtitles s) (activeIndex s) (activeWordIndex s) (subtitleConfig s) (loopEnabled s) (loopStart s) (loopEnd s) (segmentPlayEnabled s) (segmentPlayEnd s) (segmentLoopEnabled s) (segmentLoopTotal s) (segmentLoopCurrent s) (segmentLoopIndex s) (abRepeatEnabled s) (pointA s) (pointB s) (shadowingEnabled s) (shadowingPauseFactor s).
Definition set_playing (v : bool) (s : MediaState) : MediaState :=
  mkMediaState (currentTime s) (duration s) v (volume s) (playbackRate s) (videoFit s) (showInlineSubtitles s) (playerRef s) (subtitles s) (activeIndex s) (activeWordIndex s) (subtitleConfig s) (loopEnabled s) (loopStart s) (loopEnd s) (segmentPlayEnabled s) (segmentPlayEnd s) (segmentLoopEnabled s) (segmentLoopTotal s) (segmentLoopCurrent s) (segmentLoopIndex s) (abRepeatEnabled s) (pointA s) (pointB s) (shadowingEnabled s) (shadowingPauseFactor s).
Definition set_volume (v : JS.number) (s : MediaState) : MediaState :=
  mkMediaState (currentTime s) (duration s) (playing s) v (playbackRate s) (videoFit s) (showInlineSubtitles s) (playerRef s) (subtitles s) (activeIndex s) (activeWordIndex s) (subtitleConfig s) (loopEnabled s) (loopStart s) (loopEnd s) (segmentPlayEnabled s) (segmentPlayEnd s) (segmentLoopEnabled s) (segmentLoopTotal s) (segmentLoopCurrent s) (segmentLoopIndex s) (abRepeatEnabled s) (pointA s) (pointB s) (shadowingEnabled s) (shadowingPauseFactor s).
Definition set_playbackRate (v : JS.number) (s : MediaState) : MediaState :=
  mkMediaState (currentTime s) (duration s) (playing s) (volume s) v (videoFit s) (showInlineSubtitles s) (playerRef s) (subtitles s) (activeIndex s) (activeWordIndex s) (subtitleConfig s) (loopEnabled s) (loopStart s) (loopEnd s) (segmentPlayEnabled s) (segmentPlayEnd s) (segmentLoopEnabled s) (segmentLoopTotal s) (segmentLoopCurrent s) (segmentLoopIndex s) (abRepeatEnabled s) (pointA s) (pointB s) (shadowingEnabled s) (shadowingPauseFactor s).
Definition set_videoFit (v : VideoFit) (s : MediaState) : MediaState :=
  mkMediaState (currentTime s) (duration s) (playing s) (volume s) (playbackRate s) v (showInlineSubtitles s) (playerRef s) (subtitles s) (activeIndex s) (activeWordIndex s) (subtitleConfig s) (loopEnabled s) (loopStart s) (loopEnd s) (segmentPlayEnabled s) (segmentPlayEnd s) (segmentLoopEnabled s) (segmentLoopTotal s) (segmentLoopCurrent s) (segmentLoopIndex s) (abRepeatEnabled s) (pointA s) (pointB s) (shadowingEnabled s) (shadowingPauseFactor s).
Definition set_showInlineSubtitles (v : bool) (s : MediaState) : MediaState :=
  mkMediaState (currentTime s) (duration s) (playing s) (volume s) (playbackRate s) (videoFit s) v (playerRef s) (subtitles s) (activeIndex s) (activeWordIndex s) (subtitleConfig s) (loopEnabled s) (loopStart s) (loopEnd s) (segmentPlayEnabled s) (segmentPlayEnd s) (segmentLoopEnabled s) (segmentLoopTotal s) (segmentLoopCurrent s) (segmentLoopIndex s) (abRepeatEnabled s) (pointA s) (pointB s) (shadowingEnabled s) (shadowingPauseFactor s).
Definition set_playerRef (v : option PlayerRef) (s : MediaState) : MediaState :=
  mkMediaState (currentTime s) (duration s) (playing s) (volume s) (playbackRate s) (videoFit s) (showInlineSubtitles s) v (subtitles s) (activeIndex s) (activeWordIndex s) (subtitleConfig s) (loopEnabled s) (loopStart s) (loopEnd s) (segmentPlayEnabled s) (segmentPlayEnd s) (segmentLoopEnabled s) (segmentLoopTotal s) (segmentLoopCurrent s) (segmentLoopIndex s) (abRepeatEnabled s) (pointA s) (pointB s) (shadowingEnabled s) (shadowingPauseFactor s).
Definition set_subtitles (v : list SubtitleCue) (s : MediaState) : MediaState :=
  mkMediaState (currentTime s) (duration s) (playing s) (volume s) (playbackRate s) (videoFit s) (showInlineSubtitles s) (playerRef s) v (activeIndex s) (activeWordIndex s) (subtitleConfig s) (loopEnabled s) (loopStart s) (loopEnd s) (segmentPlayEnabled s) (segmentPlayEnd s) (segmentLoopEnabled s) (segmentLoopTotal s) (segmentLoopCurrent s) (segmentLoopIndex s) (abRepeatEnabled s) (pointA s) (pointB s) (shadowingEnabled s) (shadowingPauseFactor s).
Definition set_activeIndex (v : Z) (s : MediaState) : MediaState :=
  mkMediaState (currentTime s) (duration s) (playing s) (volume s) (playbackRate s) (videoFit s) (showInlineSubtitles s) (playerRef s) (subtitles s) v (activeWordIndex s) (subtitleConfig s) (loopEnabled s) (loopStart s) (loopEnd s) (segmentPlayEnabled s) (segmentPlayEnd s) (segmentLoopEnabled s) (segmentLoopTotal s) (segmentLoopCurrent s) (segmentLoopIndex s) (abRepeatEnabled s) (pointA s) (pointB s) (shadowingEnabled s) (shadowingPauseFactor s).
Definition set_activeWordIndex (v : Z) (s : MediaState) : MediaState :=
  mkMediaState (currentTime s) (duration s) (playing s) (volume s) (playbackRate s) (videoFit s) (showInlineSubtitles s) (playerRef s) (subtitles s) (activeIndex s) v (subtitleConfig s) (loopEnabled s) (loopStart s) (loopEnd s) (segmentPlayEnabled s) (segmentPlayEnd s) (segmentLoopEnabled s) (segmentLoopTotal s) (segmentLoopCurrent s) (segmentLoopIndex s) (abRepeatEnabled s) (pointA s) (pointB s) (shadowingEnabled s) (shadowingPauseFactor s).
Definition set_subtitleConfig (v : SubtitleConfig) (s : MediaState) : MediaState :=
  mkMediaState (currentTime s) (duration s) (playing s) (volume s) (playbackRate s) (videoFit s) (showInlineSubtitles s) (playerRef s) (subtitles s) (activeIndex s) (activeWordIndex s) v (loopEnabled s) (loopStart s) (loopEnd s) (segmentPlayEnabled s) (segmentPlayEnd s) (segmentLoopEnabled s) (segmentLoopTotal s) (segmentLoopCurrent s) (segmentLoopIndex s) (abRepeatEnabled s) (pointA s) (pointB s) (shadowingEnabled s) (shadowingPauseFactor s).
Definition set_loopEnabled (v : bool) (s : MediaState) : MediaState :=
  mkMediaState (currentTime s) (duration s) (playing s) (volume s) (playbackRate s) (videoFit s) (showInlineSubtitles s) (playerRef s) (subtitles s) (activeIndex s) (activeWordIndex s) (subtitleConfig s) v (loopStart s) (loopEnd s) (segmentPlayEnabled s) (segmentPlayEnd s) (segmentLoopEnabled s) (segmentLoopTotal s) (segmentLoopCurrent s) (segmentLoopIndex s) (abRepeatEnabled s) (pointA s) (pointB s) (shadowingEnabled s) (shadowingPauseFactor s).
Definition set_loopStart (v : JS.number) (s : MediaState) : MediaState :=
  mkMediaState (currentTime s) (duration s) (playing s) (volume s) (playbackRate s) (videoFit s) (showInlineSubtitles s) (playerRef s) (subtitles s) (activeIndex s) (activeWordIndex s) (subtitleConfig s) (loopEnabled s) v (loopEnd s) (segmentPlayEnabled s) (segmentPlayEnd s) (segmentLoopEnabled s) (segmentLoopTotal s) (segmentLoopCurrent s) (segmentLoopIndex s) (abRepeatEnabled s) (pointA s) (pointB s) (shadowingEnabled s) (shadowingPauseFactor s).
Definition set_loopEnd (v : JS.number) (s : MediaState) : MediaState :=
  mkMediaState (currentTime s) (duration s) (playing s) (volume s) (playbackRate s) (videoFit s) (showInlineSubtitles s) (playerRef s) (subtitles s) (activeIndex s) (activeWordIndex s) (subtitleConfig s) (loopEnabled s) (loopStart s) v (segmentPlayEnabled s) (segmentPlayEnd s) (segmentLoopEnabled s) (segmentLoopTotal s) (segmentLoopCurrent s) (segmentLoopIndex s) (abRepeatEnabled s) (pointA s) (pointB s) (shadowingEnabled s) (shadowingPauseFactor s).
Definition set_segmentPlayEnabled (v : bool) (s : MediaState) : MediaState :=
  mkMediaState (currentTime s) (duration s) (playing s) (volume s) (playbackRate s) (videoFit s) (showInlineSubtitles s) (playerRef s) (subtitles s) (activeIndex s) (activeWordIndex s) (subtitleConfig s) (loopEnabled s) (loopStart s) (loopEnd s) v (segmentPlayEnd s) (segmentLoopEnabled s) (segmentLoopTotal s) (segmentLoopCurrent s) (segmentLoopIndex s) (abRepeatEnabled s) (pointA s) (pointB s) (shadowingEnabled s) (shadowingPauseFactor s).
Definition set_segmentPlayEnd (v : JS.number) (s : MediaState) : MediaState :=
  mkMediaState (currentTime s) (duration s) (playing s) (volume s) (playbackRate s) (videoFit s) (showInlineSubtitles s) (playerRef s) (subtitles s) (activeIndex s) (activeWordIndex s) (subtitleConfig s) (loopEnabled s) (loopStart s) (loopEnd s) (segmentPlayEnabled s) v (segmentLoopEnabled s) (segmentLoopTotal s) (segmentLoopCurrent s) (segmentLoopIndex s) (abRepeatEnabled s) (pointA s) (pointB s) (shadowingEnabled s) (shadowingPauseFactor s).
Definition set_segmentLoopEnabled (v : bool) (s : MediaState) : MediaState :=
  mkMediaState (currentTime s) (duration s) (playing s) (volume s) (playbackRate s) (videoFit s) (showInlineSubtitles s) (playerRef s) (subtitles s) (activeIndex s) (activeWordIndex s) (subtitleConfig s) (loopEnabled s) (loopStart s) (loopEnd s) (segmentPlayEnabled s) (segmentPlayEnd s) v (segmentLoopTotal s) (segmentLoopCurrent s) (segmentLoopIndex s) (abRepeatEnabled s) (pointA s) (pointB s) (shadowingEnabled s) (shadowingPauseFactor s).
Definition set_segmentLoopTotal (v : Z) (s : MediaState) : MediaState :=
  mkMediaState (currentTime s) (duration s) (playing s) (volume s) (playbackRate s) (videoFit s) (showInlineSubtitles s) (playerRef s) (subtitles s) (activeIndex s) (activeWordIndex s) (subtitleConfig s) (loopEnabled s) (loopStart s) (loopEnd s) (segmentPlayEnabled s) (segmentPlayEnd s) (segmentLoopEnabled s) v (segmentLoopCurrent s) (segmentLoopIndex s) (abRepeatEnabled s) (pointA s) (pointB s) (shadowingEnabled s) (shadowingPauseFactor s).
Definition set_segmentLoopCurrent (v : Z) (s : MediaState) : MediaState :=
  mkMediaState (currentTime s) (duration s) (playing s) (volume s) (playbackRate s) (videoFit s) (showInlineSubtitles s) (playerRef s) (subtitles s) (activeIndex s) (activeWordIndex s) (subtitleConfig s) (loopEnabled s) (loopStart s) (loopEnd s) (segmentPlayEnabled s) (segmentPlayEnd s) (segmentLoopEnabled s) (segmentLoopTotal s) v (segmentLoopIndex s) (abRepeatEnabled s) (pointA s) (pointB s) (shadowingEnabled s) (shadowingPauseFactor s).
Definition set_segmentLoopIndex (v : Z) (s : MediaState) : MediaState :=
  mkMediaState (currentTime s) (duration s) (playing s) (volume s) (playbackRate s) (videoFit s) (showInlineSubtitles s) (playerRef s) (subtitles s) (activeIndex s) (activeWordIndex s) (subtitleConfig s) (loopEnabled s) (loopStart s) (loopEnd s) (segmentPlayEnabled s) (segmentPlayEnd s) (segmentLoopEnabled s) (segmentLoopTotal s) (segmentLoopCurrent s) v (abRepeatEnabled s) (pointA s) (pointB s) (shadowingEnabled s) (shadowingPauseFactor s).
Definition set_abRepeatEnabled (v : bool) (s : MediaState) : MediaState :=
  mkMediaState (currentTime s) (duration s) (playing s) (volume s) (playbackRate s) (videoFit s) (showInlineSubtitles s) (playerRef s) (subtitles s) (activeIndex s) (activeWordIndex s) (subtitleConfig s) (loopEnabled s) (loopStart s) (loopEnd s) (segmentPlayEnabled s) (segmentPlayEnd s) (segmentLoopEnabled s) (segmentLoopTotal s) (segmentLoopCurrent s) (segmentLoopIndex s) v (pointA s) (pointB s) (shadowingEnabled s) (shadowingPauseFactor s).
Definition set_pointA (v : option JS.number) (s : MediaState) : MediaState :=
  mkMediaState (currentTime s) (duration s) (playing s) (volume s) (playbackRate s) (videoFit s) (showInlineSubtitles s) (playerRef s) (subtitles s) (activeIndex s) (activeWordIndex s) (subtitleConfig s) (loopEnabled s) (loopStart s) (loopEnd s) (segmentPlayEnabled s) (segmentPlayEnd s) (segmentLoopEnabled s) (segmentLoopTotal s) (segmentLoopCurrent s) (segmentLoopIndex s) (abRepeatEnabled s) v (pointB s) (shadowingEnabled s) (shadowingPauseFactor s).
Definition set_pointB (v : option JS.number) (s : MediaState) : MediaState :=
  mkMediaState (currentTime s) (duration s) (playing s) (volume s) (playbackRate s) (videoFit s) (showInlineSubtitles s) (playerRef s) (subtitles s) (activeIndex s) (activeWordIndex s) (subtitleConfig s) (loopEnabled s) (loopStart s) (loopEnd s) (segmentPlayEnabled s) (segmentPlayEnd s) (segmentLoopEnabled s) (segmentLoopTotal s) (segmentLoopCurrent s) (segmentLoopIndex s) (abRepeatEnabled s) (pointA s) v (shadowingEnabled s) (shadowingPauseFactor s).
Definition set_shadowingEnabled (v : bool) (s : MediaState) : MediaState :=
  mkMediaState (currentTime s) (duration s) (playing s) (volume s) (playbackRate s) (videoFit s) (showInlineSubtitles s) (playerRef s) (subtitles s) (activeIndex s) (activeWordIndex s) (subtitleConfig s) (loopEnabled s) (loopStart s) (loopEnd s) (segmentPlayEnabled s) (segmentPlayEnd s) (segmentLoopEnabled s) (segmentLoopTotal s) (segmentLoopCurrent s) (segmentLoopIndex s) (abRepeatEnabled s) (pointA s) (pointB s) v (shadowingPauseFactor s).
Definition set_shadowingPauseFactor (v : JS.number) (s : MediaState) : MediaState :=
  mkMediaState (currentTime s) (duration s) (playing s) (volume s) (playbackRate s) (videoFit s) (showInlineSubtitles s) (playerRef s) (subtitles s) (activeIndex s) (activeWordIndex s) (subtitleConfig s) (loopEnabled s) (loopStart s) (loopEnd s) (segmentPlayEnabled s) (segmentPlayEnd s) (segmentLoopEnabled s) (segmentLoopTotal s) (segmentLoopCurrent s) (segmentLoopIndex s) (abRepeatEnabled s) (pointA s) (pointB s) (shadowingEnabled s) v.

(** [initialState]. *)
Definition initialState : MediaState := {|
  currentTime := 0; duration := 0; playing := false; volume := 0.8;
  playbackRate := 1.0; videoFit := Contain; showInlineSubtitles := false;
  playerRef := None; subtitles := []; activeIndex := -1;
  activeWordIndex := -1;
  subtitleConfig := {|
    fontSize := 16; fontColor := "#FFFFFF"; translationColor := "";
    highlightColor := ""; backgroundColor := "rgba(0, 0, 0, 0.7)";
    position := Bottom; showEnglish := true; showChinese := true;
    visibleLanguages := ["en"; "zh"]; primaryLanguage := "en";
    showIndexAndTime := false; wordByWordHighlight := false |};
  loopEnabled := false; loopStart := 0; loopEnd := 0;
  segmentPlayEnabled := false; segmentPlayEnd := 0;
  segmentLoopEnabled := false; segmentLoopTotal := 3;
  segmentLoopCurrent := 0; segmentLoopIndex := -1;
  abRepeatEnabled := false; pointA := None; pointB := None;
  shadowingEnabled := false; shadowingPauseFactor := 1.0 |}.

(** The store together with the player its actions drive: the calls the
    player has received, oldest first. *)
Record World := mkWorld {
  store : MediaState;
  calls : list PlayerCall
}.

Definition onStore (f : MediaState -> MediaState) (w : World) : World :=
  mkWorld (f (store w)) (calls w).

Definition call (c : PlayerCall) (w : World) : World :=
  mkWorld (store w) (calls w ++ [c]).

(** *** Playback control *)

Definition setCurrentTime (time : JS.number) : MediaState -> MediaState :=
  set_currentTime time.

Definition setDuration (d : JS.number) : MediaState -> MediaState :=
  set_duration d.

Definition setPlaying (p : bool) : MediaState -> MediaState :=
  set_playing p.

Definition setVolume (v : JS.number) : MediaState -> MediaState :=
  set_volume (JS.Math_max 0 (JS.Math_min 1 v)).

Definition setPlaybackRate (rate : JS.number) : MediaState -> MediaState :=
  set_playbackRate (JS.Math_max 0.25 (JS.Math_min 2 rate)).

Definition setVideoFit (fit : VideoFit) : MediaState -> MediaState :=
  set_videoFit fit.

Definition setShowInlineSubtitles (b : bool) : MediaState -> MediaState :=
  set_showInlineSubtitles b.

(** *** Subtitles *)

Definition setPlayerRef (r : option PlayerRef) : MediaState -> MediaState :=
  set_playerRef r.

Definition setSubtitles (subs : list SubtitleCue) (s : MediaState)
    : MediaState :=
  set_activeIndex (-1) (set_subtitles subs s).

Definition setActiveIndex (index : Z) (s : MediaState) : MediaState :=
  if activeIndex s =? index then s
  else if (0 <=? index) && (index <? Z.of_nat (length (subtitles s))) then
    set_activeWordIndex (-1) (set_activeIndex index s)
  else if index =? -1 then
    if negb (activeIndex s =? -1) || negb (activeWordIndex s =? -1) then
      set_activeWordIndex (-1) (set_activeIndex (-1) s)
    else s
  else s.

Definition setActiveWordIndex (index : Z) (s : MediaState) : MediaState :=
  if activeWordIndex s =? index then s else set_activeWordIndex index s.

Definition updateSubtitleConfig (merge : SubtitleConfig -> SubtitleConfig)
    (s : MediaState) : MediaState :=
  set_subtitleConfig (merge (subtitleConfig s)) s.

(** *** Disabling a mode *)

Definition disableLoop (s : MediaState) : MediaState :=
  set_loopEnd 0 (set_loopStart 0 (set_loopEnabled false s)).

Definition stopSegmentLoop (s : MediaState) : MediaState :=
  set_loopEnd 0 (set_loopStart 0
    (set_segmentLoopIndex (-1) (set_segmentLoopCurrent 0
      (set_segmentLoopTotal 3 (set_segmentLoopEnabled false s))))).

Definition disableABRepeat (s : MediaState) : MediaState :=
  set_abRepeatEnabled false s.

Definition disableShadowing (s : MediaState) : MediaState :=
  set_shadowingEnabled false s.

(** [if (get().flag) get().action()]. *)
Definition when (flag : MediaState -> bool)
    (action : MediaState -> MediaState) (s : MediaState) : MediaState :=
  if flag s then action s else s.

(** *** Simple loop *)

Definition enableLoop (start end_ : JS.number) (s : MediaState)
    : MediaState :=
  let s := when segmentLoopEnabled stopSegmentLoop s in
  let s := when abRepeatEnabled disableABRepeat s in
  let s := when shadowingEnabled disableShadowing s in
  set_loopEnd end_ (set_loopStart start (set_loopEnabled true s)).

Definition toggleLoop (s : MediaState) : MediaState :=
  if loopEnabled s then disableLoop s
  else
    if (0 <=? activeIndex s)
       && (activeIndex s <? Z.of_nat (length (subtitles s))) then
      match cueAt (subtitles s) (activeIndex s) with
      | Some cue => enableLoop (cue_start cue) (cue_end cue) s
      | None => s
      end
    else s.

(** *** Play one segment once *)

Definition playSegment (start end_ : JS.number) (s : MediaState)
    : MediaState :=
  let s := when loopEnabled disableLoop s in
  let s := when segmentLoopEnabled stopSegmentLoop s in
  let s := when abRepeatEnabled disableABRepeat s in
  let s := when shadowingEnabled disableShadowing s in
  set_playing true (set_currentTime start
    (set_segmentPlayEnd end_ (set_segmentPlayEnabled true s))).

(** *** Segment loop *)

Definition startSegmentLoop (start end_ : JS.number) (count index : Z)
    (w : World) : World :=
  let w := match playerRef (store w) with
           | Some _ => call (SeekTo start) w
           | None => w
           end in
  let s := store w in
  let s := when loopEnabled disableLoop s in
  let s := when segmentPlayEnabled (set_segmentPlayEnabled false) s in
  let s := when abRepeatEnabled disableABRepeat s in
  let s := when shadowingEnabled disableShadowing s in
  let playing_ := playing s in
  let s :=
    set_playing playing_ (set_currentTime start
      (set_loopEnd end_ (set_loopStart start
        (set_segmentLoopIndex index (set_segmentLoopCurrent 0
          (set_segmentLoopTotal count (set_segmentLoopEnabled true s))))))) in
  mkWorld s (calls w).

Definition incrementLoopCount (s : MediaState) : MediaState :=
  set_segmentLoopCurrent (segmentLoopCurrent s + 1) s.

Definition playNextSegment (w : World) : World :=
  let s := store w in
  let subs := subtitles s in
  let segmentLoopIndex_ := segmentLoopIndex s in
  let segmentLoopTotal_ := segmentLoopTotal s in
  if Z.of_nat (length subs) =? 0 then w
  else
    let currentIndex :=
      if negb (segmentLoopIndex_ =? -1) then segmentLoopIndex_
      else activeIndex s in
    let nextIndex := currentIndex + 1 in
    if Z.of_nat (length subs) <=? nextIndex then w
    else match cueAt subs nextIndex with
    | None => w
    | Some nextCue =>
      if negb (segmentLoopIndex_ =? -1) then
        let w := onStore (set_playing true) w in
        let w := match playerRef (store w) with
                 | Some _ => call PlayVideo (call (SeekTo (cue_start nextCue)) w)
                 | None => w
                 end in
        let w := onStore (fun s => set_segmentLoopCurrent 0
                                     (set_segmentLoopEnabled false s)) w in
        startSegmentLoop (cue_start nextCue) (cue_end nextCue)
          segmentLoopTotal_ nextIndex w
      else
        let w := onStore (set_activeIndex nextIndex) w in
        match playerRef (store w) with
        | Some _ => call (SeekTo (cue_start nextCue)) w
        | None => w
        end
    end.

Definition playPreviousSegment (w : World) : World :=
  let s := store w in
  let subs := subtitles s in
  let segmentLoopIndex_ := segmentLoopIndex s in
  let segmentLoopTotal_ := segmentLoopTotal s in
  if Z.of_nat (length subs) =? 0 then w
  else
    let currentIndex :=
      if negb (segmentLoopIndex_ =? -1) then segmentLoopIndex_
      else activeIndex s in
    let prevIndex := currentIndex - 1 in
    if prevIndex <? 0 then w
    else match cueAt subs prevIndex with
    | None => w
    | Some prevCue =>
      if negb (segmentLoopIndex_ =? -1) then
        let w := match playerRef (store w) with
                 | Some _ =>
                     onStore (setPlaying true)
                       (call PlayVideo (call (SeekTo (cue_start prevCue)) w))
                 | None => w
                 end in
        let w := onStore (fun s => set_segmentLoopCurrent 0
                                     (set_segmentLoopEnabled false s)) w in
        startSegmentLoop (cue_start prevCue) (cue_end prevCue)
          segmentLoopTotal_ prevIndex w
      else
        let w := onStore (set_activeIndex prevIndex) w in
        match playerRef (store w) with
        | Some _ => call (SeekTo (cue_start prevCue)) w
        | None => w
        end
    end.

(** *** A/B repeat *)

Definition setPointA (time : JS.number) (s : MediaState) : MediaState :=
  if JS.isNaN time || JS.lt time 0 then s
  else set_pointA (Some time) s.

Definition setPointB (time : JS.number) (s : MediaState) : MediaState :=
  if JS.isNaN time || JS.lt time 0 then s
  else
    match pointA s with
    | Some a => if JS.gt time a then set_pointB (Some time) s else s
    | None => s
    end.

Definition enableABRepeat (s : MediaState) : MediaState :=
  match pointA s, pointB s with
  | Some a, Some b =>
    if JS.gt b a then
      let s := when segmentLoopEnabled stopSegmentLoop s in
      let s := when loopEnabled disableLoop s in
      let s := when shadowingEnabled disableShadowing s in
      set_abRepeatEnabled true s
    else s
  | _, _ => s
  end.

Definition clearABPoints (s : MediaState) : MediaState :=
  set_abRepeatEnabled false (set_pointB None (set_pointA None s)).

(** *** Shadowing *)

Definition enableShadowing (s : MediaState) : MediaState :=
  let s := when segmentLoopEnabled stopSegmentLoop s in
  let s := when loopEnabled disableLoop s in
  let s := when abRepeatEnabled disableABRepeat s in
  set_shadowingEnabled true s.

Definition toggleShadowing (s : MediaState) : MediaState :=
  if shadowingEnabled s then disableShadowing s else enableShadowing s.

Definition setShadowingPauseFactor (factor : JS.number)
    : MediaState -> MediaState :=
  set_shadowingPauseFactor factor.

(** *** Reset: everything back to [initialState] but the user's
    preferences. *)

Definition reset (s : MediaState) : MediaState :=
  set_volume (volume s)
    (set_showInlineSubtitles (showInlineSubtitles s)
      (set_videoFit (videoFit s)
        (set_subtitleConfig (subtitleConfig s) initialState))).

(** *** Selectors *)

Definition selectCurrentSubtitle (s : MediaState) : option SubtitleCue :=
  if (0 <=? activeIndex s)
     && (activeIndex s <? Z.of_nat (length (subtitles s)))
  then cueAt (subtitles s) (activeIndex s)
  else None.

Definition selectIsLooping (s : MediaState) : bool := loopEnabled s.

Definition selectIsABRepeating (s : MediaState) : bool :=
  abRepeatEnabled s && bool_decide (pointA s <> None)
                    && bool_decide (pointB s <> None).

(** *** The playback modes of the store *)

Inductive Mode := SimpleLoop | SegmentLoop | ABRepeat | Shadowing.

Definition modeEnabled (m : Mode) (s : MediaState) : bool :=
  match m with
  | SimpleLoop => loopEnabled s
  | SegmentLoop => segmentLoopEnabled s
  | ABRepeat => abRepeatEnabled s
  | Shadowing => shadowingEnabled s
  end.

(** The modes that are active, in the order above. *)
Definition activeModes (s : MediaState) : list Mode :=
  List.filter (fun m => modeEnabled m s)
    [SimpleLoop; SegmentLoop; ABRepeat; Shadowing].

(** Both points are set and B lies after A: the guard of [enableABRepeat]. *)
Definition pointsInOrder (s : MediaState) : bool :=
  match pointA s, pointB s with
  | Some a, Some b => JS.gt b a
  | _, _ => false
  end.

(** The fields of the store that the playback modes use, and the cues. *)
Definition modeFields (s : MediaState) :=
  (subtitles s, loopEnabled s, loopStart s, loopEnd s,
   (segmentPlayEnabled s, segmentPlayEnd s),
   (segmentLoopEnabled s, segmentLoopTotal s, segmentLoopCurrent s,
    segmentLoopIndex s),
   (abRepeatEnabled s, pointA s, pointB s),
   (shadowingEnabled s, shadowingPauseFactor s)).

End MediaStore.

(* ===================================================================== *)
(** ** Synchronisation driver (the [useMediaSync] hook) *)
(* ===================================================================== *)

Module MediaSync.

Import MediaStore.

(** A pending one-shot timer, as [window.setTimeout] registered it: its
    delay in milliseconds, and the [activeIndex] and the [subtitles] its
    callback closed over. *)
Record Timeout := mkTimeout {
  timeout_delay : JS.number;
  timeout_activeIndex : Z;
  timeout_subtitles : list SubtitleCue
}.

(** The refs of the hook. *)
Record Refs := mkRefs {
  rafId : bool;                       (* a frame is requested *)
  lastTime : JS.number;
  lastStoreUpdateTime : JS.number;
  lastSubtitleId : option string;
  cachedWords : list string;
  isShadowingWaiting : bool;
  lastShadowingSubtitleIndex : Z;
  shadowingTimeout : option Timeout;
  isPlayingRef : bool
}.

Definition initialRefs : Refs :=
  mkRefs false (-1) 0 None [] false (-1) None false.

(** What the frame loop works with.  [syncLoop] is a closure of the
    render whose effect started the loop ([startLoop], effect on
    [enabled] and [playerRef]), and every frame requests that same closure
    again: [isBlocked], [subtitles] and [loopEnd] are the values that
    render saw, not those of the store at the time of the frame.  The
    player and the setting are read through [playerRef.current] and
    [plugin.settings] at each frame. *)
Record Props := mkProps {
  player : bool;          (* [playerRef.current] is set *)
  enabled : bool;
  autoPlayNext : bool;    (* [plugin?.settings.autoPlayNext ?? false] *)
  isBlocked : bool;
  hookSubtitles : list SubtitleCue;  (* [subtitles] of the render *)
  hookLoopEnd : JS.number            (* [loopEnd] of the render *)
}.

Record Driver := mkDriver {
  world : World;
  refs : Refs
}.

Definition onWorld (f : World -> World) (d : Driver) : Driver :=
  mkDriver (f (world d)) (refs d).

Definition onState (f : MediaState -> MediaState) (d : Driver) : Driver :=
  onWorld (onStore f) d.

Definition onRefs (f : Refs -> Refs) (d : Driver) : Driver :=
  mkDriver (world d) (f (refs d)).

Definition set_rafId v (r : Refs) :=
  mkRefs v (lastTime r) (lastStoreUpdateTime r) (lastSubtitleId r)
    (cachedWords r) (isShadowingWaiting r) (lastShadowingSubtitleIndex r)
    (shadowingTimeout r) (isPlayingRef r).
Definition set_lastTime v (r : Refs) :=
  mkRefs (rafId r) v (lastStoreUpdateTime r) (lastSubtitleId r)
    (cachedWords r) (isShadowingWaiting r) (lastShadowingSubtitleIndex r)
    (shadowingTimeout r) (isPlayingRef r).
Definition set_lastStoreUpdateTime v (r : Refs) :=
  mkRefs (rafId r) (lastTime r) v (lastSubtitleId r)
    (cachedWords r) (isShadowingWaiting r) (lastShadowingSubtitleIndex r)
    (shadowingTimeout r) (isPlayingRef r).
Definition set_wordCache id words (r : Refs) :=
  mkRefs (rafId r) (lastTime r) (lastStoreUpdateTime r) id
    words (isShadowingWaiting r) (lastShadowingSubtitleIndex r)
    (shadowingTimeout r) (isPlayingRef r).
Definition set_isShadowingWaiting v (r : Refs) :=
  mkRefs (rafId r) (lastTime r) (lastStoreUpdateTime r) (lastSubtitleId r)
    (cachedWords r) v (lastShadowingSubtitleIndex r)
    (shadowingTimeout r) (isPlayingRef r).
Definition set_lastShadowingSubtitleIndex v (r : Refs) :=
  mkRefs (rafId r) (lastTime r) (lastStoreUpdateTime r) (lastSubtitleId r)
    (cachedWords r) (isShadowingWaiting r) v
    (shadowingTimeout r) (isPlayingRef r).
Definition set_shadowingTimeout v (r : Refs) :=
  mkRefs (rafId r) (lastTime r) (lastStoreUpdateTime r) (lastSubtitleId r)
    (cachedWords r) (isShadowingWaiting r) (lastShadowingSubtitleIndex r)
    v (isPlayingRef r).
Definition set_isPlayingRef v (r : Refs) :=
  mkRefs (rafId r) (lastTime r) (lastStoreUpdateTime r) (lastSubtitleId r)
    (cachedWords r) (isShadowingWaiting r) (lastShadowingSubtitleIndex r)
    (shadowingTimeout r) v.

(** [startLoop] and [stopLoop]. *)
Definition startLoop : Driver -> Driver := onRefs (set_rafId true).
Definition stopLoop : Driver -> Driver := onRefs (set_rafId false).

(** *** Word list of a cue *)

(** The punctuation class of the tokenizer: full stop, comma, semicolon,
    colon, exclamation and question marks, both quotes, and the round,
    square and curly brackets. *)
Definition isPunctuation (c : ascii) : bool :=
  existsb (N.eqb (Str.code c))
    [46; 44; 59; 58; 33; 63; 39; 34; 40; 41; 91; 93; 123; 125]%N.

(** The separator of the tokenizer: a run of white space or one
    punctuation character. *)
Definition TOKEN_REGEX : Str.pattern := fun s =>
  match Str.toPattern (Str.plus Str.isSpace) s with
  | Some n => Some n
  | None => Str.toPattern (Str.one isPunctuation) s
  end.

Definition allSpace (t : string) : bool :=
  negb (String.eqb t "") && forallb Str.isSpace (list_ascii_of_string t).

Definition onePunctuation (t : string) : bool :=
  match t with
  | String c EmptyString => isPunctuation c
  | _ => false
  end.

Definition wordsOf (cue : SubtitleCue) : list string :=
  let textForHighlight :=
    match cue_textEn cue with
    | Some t => if String.eqb t "" then cue_text cue else t
    | None => cue_text cue
    end in
  List.filter
    (fun token => negb (String.eqb (Str.trim token) "")
                  && negb (allSpace token) && negb (onePunctuation token))
    (Str.splitReKeep TOKEN_REGEX textForHighlight).

(** *** Shadowing pause *)

(** The delay of the resume timer, from the length of the sentence
    (seconds) and the pause factor. *)
Definition dynamicPauseDuration (sentenceDuration shadowingPauseFactor
    : JS.number) : JS.number :=
  if JS.lt (JS.Math_abs (shadowingPauseFactor - 1.1)%float) 0.01 then
    (sentenceDuration * 1000 * 1.1 + 1000)%float
  else if JS.le shadowingPauseFactor 1.0 then
    JS.Math_max 1000 (sentenceDuration * 1000 * shadowingPauseFactor)%float
  else
    JS.Math_max 1500 (sentenceDuration * 1000 * shadowingPauseFactor)%float.

(** The callback of the resume timer. *)
Definition shadowingResume (p : Props) (t : Timeout) (d : Driver) : Driver :=
  let subs := timeout_subtitles t in
  let nextIndex := timeout_activeIndex t + 1 in
  let d :=
    if nextIndex <? Z.of_nat (length subs) then
      match cueAt subs nextIndex with
      | Some nextCue =>
        if player p then
          onState (setPlaying true)
            (onWorld (fun w => call PlayVideo
                                 (call (SeekTo (cue_start nextCue)) w)) d)
        else d
      | None => d
      end
    else d in
  onRefs (fun r => set_shadowingTimeout None (set_isShadowingWaiting false r)) d.

(** *** One frame: the body of [syncLoop]

    [currentTime] is what [player.getCurrentTime()] answers and [now] what
    [Date.now()] answers.  [state] is the snapshot the frame takes with
    [getState()]; the actions work on the store itself.  The cue list is
    the one of the closure. *)

(** Subtitle and word highlighting. *)
Definition syncSubtitles (p : Props) (currentTime : JS.number)
    (state : MediaState) (d : Driver) : Driver :=
  let subs := hookSubtitles p in
  let resetWord (d : Driver) :=
    if negb (activeWordIndex state =? -1) then
      onState (setActiveWordIndex (-1)) d
    else d in
  if (0 <? Z.of_nat (length subs)) then
    let currentIndex := activeIndex state in
    let newIndex := Resolver.findIndexAtTime subs currentTime currentIndex in
    let d :=
      if negb (newIndex =? currentIndex) then onState (setActiveIndex newIndex) d
      else d in
    if wordByWordHighlight (subtitleConfig state)
       && (0 <=? newIndex) && (newIndex <? Z.of_nat (length subs)) then
      match cueAt subs newIndex with
      | Some currentCue =>
        let relativeTime := (currentTime - cue_start currentCue)%float in
        let duration_ := (cue_end currentCue - cue_start currentCue)%float in
        let d :=
          if bool_decide (lastSubtitleId (refs d) = Some (cue_id currentCue))
          then d
          else onRefs (set_wordCache (Some (cue_id currentCue))
                         (wordsOf currentCue)) d in
        let words := cachedWords (refs d) in
        let n := Z.of_nat (length words) in
        if (0 <? n) && JS.gt duration_ 0 then
          let timePerWord := (duration_ / JS.of_Z n)%float in
          let wordIndex := JS.Math_floor (relativeTime / timePerWord)%float in
          match JS.toInteger
                  (JS.Math_min (JS.Math_max 0 wordIndex) (JS.of_Z (n - 1))) with
          | Some safeWordIndex =>
            if negb (safeWordIndex =? activeWordIndex state) then
              onState (setActiveWordIndex safeWordIndex) d
            else d
          | None => d
          end
        else resetWord d
      | None => d
      end
    else resetWord d
  else resetWord d.

(** Shadowing: pause at the end of the sentence and arm the timer. *)
Definition syncShadowing (p : Props) (currentTime : JS.number)
    (state : MediaState) (d : Driver) : Driver :=
  let subs := hookSubtitles p in
  let activeIndex_ := activeIndex state in
  if negb (isBlocked p) && shadowingEnabled state
     && (0 <=? activeIndex_) && (activeIndex_ <? Z.of_nat (length subs)) then
    match cueAt subs activeIndex_ with
    | Some currentCue =>
      if negb (isShadowingWaiting (refs d))
         && negb (lastShadowingSubtitleIndex (refs d) =? activeIndex_)
         && JS.ge currentTime (cue_end currentCue - 0.1)%float then
        let d := onWorld (call PauseVideo) d in
        let d := onState (setPlaying false) d in
        let d := onRefs (fun r => set_lastShadowingSubtitleIndex activeIndex_
                                    (set_isShadowingWaiting true r)) d in
        let sentenceDuration := (cue_end currentCue - cue_start currentCue)%float in
        onRefs (set_shadowingTimeout
                  (Some (mkTimeout
                     (dynamicPauseDuration sentenceDuration
                        (shadowingPauseFactor state))
                     activeIndex_ subs))) d
      else d
    | None => d
    end
  else if negb (shadowingEnabled state) && isShadowingWaiting (refs d) then
    onRefs (fun r => set_shadowingTimeout None (set_isShadowingWaiting false r)) d
  else d.

(** Boundary actions: A/B repeat, then segment loop, then simple loop.
    The destructuring of the snapshot binds its [loopEnd] as [segEnd] only,
    so the test of the simple loop reads the [loopEnd] of the closure; its
    [loopEnabled] and [loopStart] are those of the snapshot. *)
Definition syncLoopControl (p : Props) (currentTime : JS.number)
    (state : MediaState) (d : Driver) : Driver :=
  match abRepeatEnabled state, pointA state, pointB state with
  | true, Some a, Some b =>
    if JS.ge currentTime b then onWorld (call (SeekTo a)) d
    else if JS.lt currentTime a then onWorld (call (SeekTo a)) d
    else d
  | _, _, _ =>
    if segmentLoopEnabled state && JS.ge currentTime (loopEnd state) then
      if segmentLoopCurrent state <? segmentLoopTotal state - 1 then
        onState incrementLoopCount
          (onWorld (call (SeekTo (loopStart state))) d)
      else if autoPlayNext p then onWorld playNextSegment d
      else onState stopSegmentLoop (onWorld (call PauseVideo) d)
    else if loopEnabled state && JS.ge currentTime (hookLoopEnd p) then
      onWorld (call (SeekTo (loopStart state))) d
    else d
  end.

(** Play-once: stop at the end of the segment. *)
Definition syncSegmentPlay (currentTime : JS.number) (d : Driver) : Driver :=
  let s := store (world d) in
  if segmentPlayEnabled s && JS.ge currentTime (segmentPlayEnd s) then
    onState (set_segmentPlayEnabled false) (onWorld (call PauseVideo) d)
  else d.

Definition syncLoop (p : Props) (currentTime now : JS.number) (d : Driver)
    : Driver :=
  if negb (player p) then d
  else if JS.lt (JS.Math_abs (currentTime - lastTime (refs d))%float) 0.01 then
    onRefs (set_rafId true) d
  else
    let d := onRefs (set_lastTime currentTime) d in
    let state := store (world d) in
    let d :=
      if JS.gt (now - lastStoreUpdateTime (refs d))%float 100 then
        onRefs (set_lastStoreUpdateTime now)
          (onState (setCurrentTime currentTime) d)
      else d in
    let d := syncSubtitles p currentTime state d in
    let d := syncShadowing p currentTime state d in
    let d := syncLoopControl p currentTime state d in
    let d := syncSegmentPlay currentTime d in
    onRefs (set_rafId true) d.

(** The subscription to [playing]: wake the frame loop up or put it to
    sleep. *)
Definition onPlayingChange (d : Driver) : Driver :=
  let playing_ := playing (store (world d)) in
  if playing_ && negb (isPlayingRef (refs d)) then
    startLoop (onRefs (set_isPlayingRef true) d)
  else if negb playing_ && isPlayingRef (refs d) then
    onRefs (set_lastTime (-1)) (stopLoop (onRefs (set_isPlayingRef false) d))
  else d.

(** The 100 ms poll that keeps the active cue right while paused.  Its
    effect depends on [subtitles] and is set up again whenever they
    change, so the poll works with the cue list of the store. *)
Definition checkPausedSubtitle (p : Props) (currentTime : JS.number)
    (d : Driver) : Driver :=
  let state := store (world d) in
  if negb (playing state) && player p
     && (0 <? Z.of_nat (length (subtitles state))) then
    let currentIndex := activeIndex state in
    let newIndex :=
      Resolver.findIndexAtTime (subtitles state) currentTime currentIndex in
    let d :=
      if negb (newIndex =? currentIndex) then onState (setActiveIndex newIndex) d
      else d in
    onState (setCurrentTime currentTime) d
  else d.

(** A step of the frame that leaves the modes and the player alone. *)
Definition quiet (d d' : Driver) : Prop :=
  modeFields (store (world d')) = modeFields (store (world d))
  /\ calls (world d') = calls (world d)
  /\ lastTime (refs d') = lastTime (refs d).

End MediaSync.

(* ===================================================================== *)
(** ** Worker offload manager ([src/services/SubtitleWorkerManager.ts]) *)
(* ===================================================================== *)

Module SubtitleWorkerManager.

Local Open Scope string_scope.

(** [ParseRequest], as posted to the worker. *)
Record ParseRequest := mkParseRequest {
  req_text : string;
  req_format : option SubtitleFormat;
  req_id : string
}.

(** [ParseResponse], as the worker posts it back. *)
Inductive ResponseType := result | error | progress.

Record ParseResponse := mkParseResponse {
  resp_type : ResponseType;
  resp_id : string;
  resp_data : option (list SubtitleCue);
  resp_error : option string;
  resp_progress : option JS.number
}.

(** How the promise of a request ended.  A request without an entry in
    [settled] has a promise that is still pending. *)
Inductive Outcome :=
| Resolved (cues : list SubtitleCue)
| Rejected (message : string).

(** [PendingRequest]: the [resolve] and [reject] of the promise of the
    request, and whether the caller passed [onProgress]. *)
Record PendingRequest := mkPendingRequest {
  hasOnProgress : bool
}.

(** The manager, the promises it handed out and what it told its callers
    and its worker. *)
Record Manager := mkManager {
  worker : bool;                              (* [this.worker !== null] *)
  pendingRequests : gmap string PendingRequest;
  requestIdCounter : Z;
  isSupported : bool;
  settled : gmap string Outcome;
  posted : list ParseRequest;                 (* [worker.postMessage] *)
  progressSeen : list (string * JS.number)    (* [onProgress] calls *)
}.

Definition set_pending (p : gmap string PendingRequest) (m : Manager) :=
  mkManager (worker m) p (requestIdCounter m) (isSupported m) (settled m)
    (posted m) (progressSeen m).

(** Settling a promise: only the first [resolve] or [reject] counts. *)
Definition settle (id : string) (o : Outcome) (m : Manager) : Manager :=
  match settled m !! id with
  | Some _ => m
  | None =>
    mkManager (worker m) (pendingRequests m) (requestIdCounter m)
      (isSupported m) (<[id := o]> (settled m)) (posted m) (progressSeen m)
  end.

(** A manager whose worker started, and one in an environment without
    workers. *)
Definition initial (supported : bool) : Manager :=
  mkManager supported ∅ 0 supported ∅ [] [].

(** [parseFallback]: not implemented, answers the empty list. *)
Definition parseFallback (text : string) (format : option SubtitleFormat)
    : list SubtitleCue := [].

(** The promise [parse] returns: already fulfilled (the synchronous
    fallback of the async function), or the promise of request [id]. *)
Inductive PromiseRef :=
| Fulfilled (cues : list SubtitleCue)
| OfRequest (id : string).

(** [parse]: the promise it returns, and the manager after. *)
Definition parse (text : string) (format : option SubtitleFormat)
    (onProgress : bool) (m : Manager) : PromiseRef * Manager :=
  if negb (isSupported m) || negb (worker m) then
    (Fulfilled (parseFallback text format), m)
  else
    let id := "request-" ++ Str.decimal (requestIdCounter m) in
    (OfRequest id,
     mkManager (worker m)
       (<[id := mkPendingRequest onProgress]> (pendingRequests m))
       (requestIdCounter m + 1) (isSupported m) (settled m)
       (posted m ++ [mkParseRequest text format id]) (progressSeen m)).

(** [handleMessage] *)
Definition handleMessage (r : ParseResponse) (m : Manager) : Manager :=
  match pendingRequests m !! resp_id r with
  | None => m
  | Some pending =>
    match resp_type r with
    | result =>
      match resp_data r with
      | Some data =>
        set_pending (delete (resp_id r) (pendingRequests m))
          (settle (resp_id r) (Resolved data) m)
      | None => m
      end
    | error =>
      let message :=
        match resp_error r with
        | Some e => if String.eqb e "" then "Unknown worker error" else e
        | None => "Unknown worker error"
        end in
      set_pending (delete (resp_id r) (pendingRequests m))
        (settle (resp_id r) (Rejected message) m)
    | progress =>
      match hasOnProgress pending, resp_progress r with
      | true, Some pr =>
        mkManager (worker m) (pendingRequests m) (requestIdCounter m)
          (isSupported m) (settled m) (posted m)
          (progressSeen m ++ [(resp_id r, pr)])
      | _, _ => m
      end
    end
  end.

(** [handleError]: reject everything that is pending, then forget it. *)
Definition handleError (message : string) (m : Manager) : Manager :=
  set_pending ∅
    (map_fold (fun id _ acc => settle id (Rejected ("Worker error: " ++ message)) acc)
       m (pendingRequests m)).

(** The 30 s timer of request [id] fires. *)
Definition timeout (id : string) (m : Manager) : Manager :=
  match pendingRequests m !! id with
  | Some _ =>
    settle id (Rejected "Worker timeout after 30s")
      (set_pending (delete id (pendingRequests m)) m)
  | None => m
  end.

(** [terminate] *)
Definition terminate (m : Manager) : Manager :=
  mkManager false ∅ (requestIdCounter m) (isSupported m) (settled m)
    (posted m) (progressSeen m).

Definition isWorkerSupported (m : Manager) : bool :=
  isSupported m && worker m.

(** What can happen to a manager after it was set up. *)
Inductive Event :=
| Parse (text : string) (format : option SubtitleFormat) (onProgress : bool)
| Message (r : ParseResponse)
| WorkerError (message : string)
| TimerFired (id : string)
| Terminate.

Definition step (e : Event) (m : Manager) : Manager :=
  match e with
  | Parse text format onProgress => snd (parse text format onProgress m)
  | Message r => handleMessage r m
  | WorkerError message => handleError message m
  | TimerFired id => timeout id m
  | Terminate => terminate m
  end.

Definition run (es : list Event) (m : Manager) : Manager :=
  fold_left (fun m e => step e m) es m.

End SubtitleWorkerManager.

(* ===================================================================== *)
(** ** Subtitle loader ([src/services/SubtitleLoader.ts]) *)
(* ===================================================================== *)

(** The cache of the loader and the loading of a text.  [Date.now()] is a
    number of milliseconds: an integer, given to each function that reads
    the clock.  The loaders of vault files and of URLs read files and the
    network and are not part of the model; they use the cache through
    [getFromCache] and [setCache] as [loadFromText] does. *)
Module SubtitleLoader.

Record LoadedSubtitle := mkLoadedSubtitle {
  cues : list SubtitleCue;
  source : string;
  format : SubtitleFormat;
  loadedAt : Z
}.

Record SubtitleCacheEntry := mkSubtitleCacheEntry {
  data : LoadedSubtitle;
  timestamp : Z
}.

(** A JavaScript [Map] with string keys: the entries in the order of
    their insertion. *)
Definition JSMap (V : Type) := list (string * V).

Fixpoint mapGet {V} (key : string) (m : JSMap V) : option V :=
  match m with
  | [] => None
  | (k, v) :: rest => if String.eqb k key then Some v else mapGet key rest
  end.

(** [Map.prototype.set]: the value of a key that is present is replaced
    where it is; a new key goes to the end. *)
Fixpoint mapSet {V} (key : string) (value : V) (m : JSMap V) : JSMap V :=
  match m with
  | [] => [(key, value)]
  | (k, v) :: rest =>
    if String.eqb k key then (k, value) :: rest
    else (k, v) :: mapSet key value rest
  end.

Definition mapDelete {V} (key : string) (m : JSMap V) : JSMap V :=
  List.filter (fun kv => negb (String.eqb (fst kv) key)) m.

Definition Cache := JSMap SubtitleCacheEntry.

Definition cacheMaxAge : Z := 5 * 60 * 1000.
Definition maxCacheSize : Z := 50.

(** [getFromCache]: the answer and the cache after. *)
Definition getFromCache (now : Z) (key : string) (cache : Cache)
    : option LoadedSubtitle * Cache :=
  match mapGet key cache with
  | None => (None, cache)
  | Some entry =>
    if now - timestamp entry >? cacheMaxAge then (None, mapDelete key cache)
    else (Some (data entry), cache)
  end.

(** [setCache].  [oldestKey] is the first key of the map; the empty
    string is falsy and is not deleted. *)
Definition setCache (now : Z) (key : string) (data_ : LoadedSubtitle)
    (cache : Cache) : Cache :=
  let cache :=
    if Z.of_nat (length cache) >=? maxCacheSize then
      match cache with
      | (oldestKey, _) :: _ =>
        if String.eqb oldestKey "" then cache else mapDelete oldestKey cache
      | [] => cache
      end
    else cache in
  mapSet key (mkSubtitleCacheEntry data_ now) cache.

Definition clearCache (cache : Cache) : Cache := [].

Definition clearCacheForSource (source_ : string) (cache : Cache) : Cache :=
  let keysToDelete :=
    List.filter (fun key => Str.includes key source_) (map fst cache) in
  fold_left (fun cache key => mapDelete key cache) keysToDelete cache.

(** [ToInt32]. *)
Definition toInt32 (z : Z) : Z := (z + 2 ^ 31) mod 2 ^ 32 - 2 ^ 31.

(** [n.toString(36)] for an integer. *)
Definition digit36 (d : Z) : ascii :=
  if d <? 10 then ascii_of_N (Z.to_N (48 + d)) else ascii_of_N (Z.to_N (87 + d)).

Fixpoint toString36Aux (fuel : nat) (n : Z) (acc : string) : string :=
  match fuel with
  | O => acc
  | S f =>
    let acc := String (digit36 (n mod 36)) acc in
    if n / 36 =? 0 then acc else toString36Aux f (n / 36) acc
  end.

Definition toString36 (n : Z) : string :=
  if n <? 0 then ("-" ++ toString36Aux (Z.to_nat (Z.log2 (- n)) + 1) (- n) "")%string
  else toString36Aux (Z.to_nat (Z.log2 n) + 1) n "".

(** [hashString]: [hash = ((hash << 5) - hash) + char; hash = hash & hash]
    for every code unit of the string. *)
Fixpoint hashLoop (str : string) (hash : Z) : Z :=
  match str with
  | EmptyString => hash
  | String c rest =>
    let char := Z.of_N (Str.code c) in
    let hash := toInt32 (Z.shiftl (toInt32 hash) 5) - hash + char in
    let hash := Z.land (toInt32 hash) (toInt32 hash) in
    hashLoop rest hash
  end.

Definition hashString (str : string) : string := toString36 (hashLoop str 0).

Section WithLanguages.

Variable separateLanguages : string -> list (string * string).
Variable detectLanguage : string -> string.

(** [loadFromText]: the answer and the cache after.  The clock is read
    by [getFromCache] when the key is cached, for [loadedAt], and by
    [setCache]. *)
Definition loadFromText (nowGet nowLoaded nowSet : Z)
    (content source_ : string) (cache : Cache)
    : option LoadedSubtitle * Cache :=
  let cacheKey := ("text:" ++ hashString content)%string in
  match getFromCache nowGet cacheKey cache with
  | (Some cached, cache) => (Some cached, cache)
  | (None, cache) =>
    if String.eqb content "" || (String.length (Str.trim content) =? 0)%nat
    then (None, cache)
    else
      let cues_ :=
        SubtitleParser.parse separateLanguages detectLanguage content None in
      if (length cues_ =? 0)%nat then (None, cache)
      else
        let result :=
          mkLoadedSubtitle cues_ source_ (SubtitleParser.detectFormat content)
            nowLoaded in
        (Some result, setCache nowSet cacheKey result cache)
  end.

End WithLanguages.

(** The uses of the cache. *)
Inductive CacheOp :=
| GetFromCache (now : Z) (key : string)
| SetCache (now : Z) (key : string) (data_ : LoadedSubtitle)
| ClearCache
| ClearCacheForSource (source_ : string).

Definition cacheStep (op : CacheOp) (cache : Cache) : Cache :=
  match op with
  | GetFromCache now key => snd (getFromCache now key cache)
  | SetCache now key data_ => setCache now key data_ cache
  | ClearCache => clearCache cache
  | ClearCacheForSource source_ => clearCacheForSource source_ cache
  end.

Definition cacheRun (ops : list CacheOp) (cache : Cache) : Cache :=
  fold_left (fun cache op => cacheStep op cache) ops cache.

End SubtitleLoader.

(* ===================================================================== *)
(** * The specified pause, and sample inputs *)
(* ===================================================================== *)

(** The pause as the specification words it, with an exact test
    [pauseFactor == 1.1] for the adaptive tier. *)
Definition pauseDurationAsSpecified (d pauseFactor : JS.number) : JS.number :=
  if PrimFloat.eqb pauseFactor 1.1 then (d * 1000 * 1.1 + 1000)%float
  else if JS.le pauseFactor 1.0 then
    JS.Math_max 1000 (d * 1000 * pauseFactor)%float
  else JS.Math_max 1500 (d * 1000 * pauseFactor)%float.

(** Two cues with a silent gap between them: [0, 1) and [2, 3). *)
Definition gapCues : list SubtitleCue :=
  [Resolver.span 0 0 1; Resolver.span 1 2 3].

(** What the language utilities answer on one line of unaccented Latin
    text: one entry, English; nothing for a blank text. *)
Definition latinLanguages (text : string) : list (string * string) :=
  if String.eqb (Str.trim text) "" then [] else [("en"%string, text)].

Definition latinLanguage (text : string) : string :=
  if String.eqb (Str.trim text) "" then "unknown"%string else "en"%string.

(** An SRT file of two blocks: the first ends before it starts, the second
    has a blank third line. *)
Definition reversedAndBlank : string :=
  Str.join (String Str.LF "")
    ["1"; "00:00:05,000 --> 00:00:01,000"; "Hi"; "";
     "2"; "00:00:06,000 --> 00:00:07,000"; " "]%string.

(* ===================================================================== *)
(** * Cues in order, the users of the store and of the driver, and inputs *)
(* ===================================================================== *)

(** Cues in playing order: no cue ends before it starts, and none starts
    before the one in front of it has ended. *)
Fixpoint inOrder (cues : list SubtitleCue) : bool :=
  match cues with
  | [] => true
  | c :: rest =>
    JS.le (cue_start c) (cue_end c)
    && match rest with
       | [] => true
       | n :: _ => JS.le (cue_end c) (cue_start n)
       end
    && inOrder rest
  end.

(** [hours * 3600 + minutes * 60 + seconds + milliseconds / 1000], the
    value [parseTimestamp] computes from the four fields it read. *)
Definition secondsOfFields (hours minutes seconds milliseconds : Z)
    : JS.number :=
  (JS.of_Z hours * 3600 + JS.of_Z minutes * 60 + JS.of_Z seconds
   + JS.of_Z milliseconds / 1000)%float.

(** No character of the string is a line feed. *)
Definition oneLine (s : string) : bool :=
  forallb (fun c => negb (Str.eqc c Str.LF)) (list_ascii_of_string s).

(** One cue in SRT: a number, a line with two timestamps, one line of
    text. *)
Definition srtCue (n : Z) (h1 m1 s1 ms1 h2 m2 s2 ms2 : Z) (body : string)
    : string :=
  (Str.decimal n ++ String Str.LF
     ((SubtitleParser.render h1 m1 s1 ms1 "," ++ " --> "
       ++ SubtitleParser.render h2 m2 s2 ms2 ",")
      ++ String Str.LF body))%string.

(** The id of the [k]-th request: [`request-${k}`]. *)
Definition requestId (k : Z) : string := ("request-" ++ Str.decimal k)%string.

(** The uses of the cache that the loader makes: its keys start with
    [vault:], [local:], [url:] or [text:], none is the empty string. *)
Definition namedKey (op : SubtitleLoader.CacheOp) : Prop :=
  match op with
  | SubtitleLoader.SetCache _ key _ => key <> ""%string
  | _ => True
  end.

(** Fifty cached subtitles, under the keys [0] to [49]. *)
Definition fiftyEntries : SubtitleLoader.Cache :=
  map (fun k =>
         (Str.decimal (Z.of_nat k),
          SubtitleLoader.mkSubtitleCacheEntry
            (SubtitleLoader.mkLoadedSubtitle gapCues "file" srt 0) 0))
      (seq 0 50).

(** Sixty writes to the cache, under sixty keys. *)
Definition sixtyWrites : list SubtitleLoader.CacheOp :=
  map (fun k =>
         SubtitleLoader.SetCache (Z.of_nat k)
           ("vault:" ++ Str.decimal (Z.of_nat k))%string
           (SubtitleLoader.mkLoadedSubtitle gapCues "file" srt 0))
      (seq 0 60).

Section Users.

Import MediaStore MediaSync.

(** The actions of the store, as its users call them. *)
Inductive Action :=
| SetCurrentTime (time : JS.number)
| SetDuration (duration_ : JS.number)
| SetPlaying (playing_ : bool)
| SetVolume (volume_ : JS.number)
| SetPlaybackRate (rate : JS.number)
| SetVideoFit (fit : VideoFit)
| SetShowInlineSubtitles (show : bool)
| SetPlayerRef (ref : option PlayerRef)
| SetSubtitles (subs : list SubtitleCue)
| SetActiveIndex (index : Z)
| SetActiveWordIndex (index : Z)
| UpdateSubtitleConfig (merge : SubtitleConfig -> SubtitleConfig)
| EnableLoop (start end_ : JS.number)
| DisableLoop
| ToggleLoop
| PlaySegment (start end_ : JS.number)
| StartSegmentLoop (start end_ : JS.number) (count index : Z)
| StopSegmentLoop
| IncrementLoopCount
| PlayNextSegment
| PlayPreviousSegment
| SetPointA (time : JS.number)
| SetPointB (time : JS.number)
| EnableABRepeat
| DisableABRepeat
| ClearABPoints
| ToggleShadowing
| EnableShadowing
| DisableShadowing
| SetShadowingPauseFactor (factor : JS.number)
| Reset.

Definition dispatch (a : Action) (w : World) : World :=
  match a with
  | SetCurrentTime time => onStore (setCurrentTime time) w
  | SetDuration d => onStore (setDuration d) w
  | SetPlaying p => onStore (setPlaying p) w
  | SetVolume v => onStore (setVolume v) w
  | SetPlaybackRate rate => onStore (setPlaybackRate rate) w
  | SetVideoFit fit => onStore (setVideoFit fit) w
  | SetShowInlineSubtitles show => onStore (setShowInlineSubtitles show) w
  | SetPlayerRef ref => onStore (setPlayerRef ref) w
  | SetSubtitles subs => onStore (setSubtitles subs) w
  | SetActiveIndex index => onStore (setActiveIndex index) w
  | SetActiveWordIndex index => onStore (setActiveWordIndex index) w
  | UpdateSubtitleConfig merge => onStore (updateSubtitleConfig merge) w
  | EnableLoop start end_ => onStore (enableLoop start end_) w
  | DisableLoop => onStore disableLoop w
  | ToggleLoop => onStore toggleLoop w
  | PlaySegment start end_ => onStore (playSegment start end_) w
  | StartSegmentLoop start end_ count index =>
      startSegmentLoop start end_ count index w
  | StopSegmentLoop => onStore stopSegmentLoop w
  | IncrementLoopCount => onStore incrementLoopCount w
  | PlayNextSegment => playNextSegment w
  | PlayPreviousSegment => playPreviousSegment w
  | SetPointA time => onStore (setPointA time) w
  | SetPointB time => onStore (setPointB time) w
  | EnableABRepeat => onStore enableABRepeat w
  | DisableABRepeat => onStore disableABRepeat w
  | ClearABPoints => onStore clearABPoints w
  | ToggleShadowing => onStore toggleShadowing w
  | EnableShadowing => onStore enableShadowing w
  | DisableShadowing => onStore disableShadowing w
  | SetShadowingPauseFactor factor => onStore (setShadowingPauseFactor factor) w
  | Reset => onStore reset w
  end.

(** The store after a sequence of actions, first action first. *)
Definition dispatchAll (actions : list Action) (w : World) : World :=
  fold_left (fun w a => dispatch a w) actions w.

(** The store as it is created, with a player that has received no call. *)
Definition initialWorld : World := mkWorld initialState [].

(** [lo <= x <= hi], or [x] is NaN. *)
Definition withinOrNaN (lo hi x : JS.number) : Prop :=
  JS.isNaN x = true \/ (JS.le lo x = true /\ JS.le x hi = true).

(** What happens to the store and the driver: an action of the store
    called from the user interface, a frame of [syncLoop], a tick of the
    100 ms poll, the resume timer of shadowing firing, and the subscription
    to [playing] running. *)
Inductive SyncEvent :=
| Dispatch (a : Action)
| Frame (currentTime now : JS.number)
| PausedPoll (currentTime : JS.number)
| ResumeTimer
| PlayingChanged.

Definition syncStep (p : Props) (e : SyncEvent) (d : Driver) : Driver :=
  match e with
  | Dispatch a => onWorld (dispatch a) d
  | Frame currentTime now => syncLoop p currentTime now d
  | PausedPoll currentTime => checkPausedSubtitle p currentTime d
  | ResumeTimer =>
    match shadowingTimeout (refs d) with
    | Some t => shadowingResume p t d
    | None => d
    end
  | PlayingChanged => onPlayingChange d
  end.

Definition syncRun (p : Props) (events : list SyncEvent) (d : Driver)
    : Driver :=
  fold_left (fun d e => syncStep p e d) events d.

(** The hook as it is mounted on a fresh store. *)
Definition initialDriver : Driver := mkDriver initialWorld initialRefs.

(** A store in A/B repeat between 2 s and 4 s, with a player. *)
Definition repeating2to4 : Driver :=
  mkDriver
    (mkWorld (enableABRepeat (setPointB 4 (setPointA 2 initialState))) [])
    initialRefs.

(** Two cues, the first one active, shadowing on. *)
Definition shadowingAtFirst : Driver :=
  mkDriver
    (mkWorld
       (enableShadowing (set_activeIndex 0 (setSubtitles gapCues initialState)))
       [])
    initialRefs.

End Users.

(* ===================================================================== *)
(** * Properties *)
(* ===================================================================== *)

(** ** Rounding to binary64 *)

Module Rounding.

(** ** The number of binary digits *)

Lemma digits2_size p : digits2_pos p = Pos.size p.
Proof. induction p as [p IH|p IH|]; simpl; rewrite ?IH; reflexivity. Qed.

Lemma Zdigits2_bounds m :
  0 < m -> 2 ^ (Zdigits2 m - 1) <= m < 2 ^ Zdigits2 m.
Proof.
  destruct m as [|p|p]; try lia. intros _. simpl Zdigits2.
  rewrite digits2_size.
  pose proof (Pos.size_gt p) as Hg. pose proof (Pos.size_le p) as Hl.
  apply Pos2Z.pos_lt_pos in Hg. apply Pos2Z.pos_le_pos in Hl.
  rewrite Pos2Z.inj_pow in Hg, Hl. change (Z.pos 2) with 2 in Hg, Hl.
  split; [|exact Hg].
  assert (E : 2 ^ Z.pos (Pos.size p) = 2 ^ (Z.pos (Pos.size p) - 1) * 2).
  { replace (Z.pos (Pos.size p)) with (Z.succ (Z.pos (Pos.size p) - 1)) at 1 by lia.
    rewrite Z.pow_succ_r by lia. lia. }
  rewrite E in Hl. lia.
Qed.

Lemma Zdigits2_unique m d :
  2 ^ (d - 1) <= m < 2 ^ d -> 0 < d -> Zdigits2 m = d.
Proof.
  intros [Hl Hu] Hd.
  assert (Hm : 0 < m) by (pose proof (Z.pow_pos_nonneg 2 (d - 1)); lia).
  destruct (Zdigits2_bounds m Hm) as [Hl' Hu'].
  assert (Hp : 0 < Zdigits2 m) by (destruct m; simpl; lia).
  destruct (Z.lt_trichotomy (Zdigits2 m) d) as [H|[H|H]]; [|exact H|].
  - assert (2 ^ Zdigits2 m <= 2 ^ (d - 1)) by (apply Z.pow_le_mono_r; lia). lia.
  - assert (2 ^ d <= 2 ^ (Zdigits2 m - 1)) by (apply Z.pow_le_mono_r; lia). lia.
Qed.

(** ** Shifting a mantissa to the right *)

Lemma iter_pos_nat {A} (f : A -> A) p x :
  SpecFloat.iter_pos f p x = Nat.iter (Pos.to_nat p) f x.
Proof.
  revert x. induction p as [p IH|p IH|]; intros x; cbn [SpecFloat.iter_pos].
  - rewrite !IH, Pos2Nat.inj_xI, <- Nat.iter_succ_r, <- Nat.iter_add.
    f_equal. lia.
  - rewrite !IH, Pos2Nat.inj_xO, <- Nat.iter_add. f_equal. lia.
  - reflexivity.
Qed.

Lemma shr_1_m r : 0 <= shr_m r -> shr_m (shr_1 r) = shr_m r / 2 /\ 0 <= shr_m (shr_1 r).
Proof.
  destruct r as [m r s]. cbn [shr_m]. intros Hm.
  destruct m as [|[p|p|]|p]; cbn [shr_1 shr_m]; try lia.
  - split; [reflexivity|lia].
  - split; [|lia]. apply Z.div_unique with 1; lia.
  - split; [|lia]. apply Z.div_unique with 0; lia.
  - split; [reflexivity|lia].
Qed.

Lemma shr_n_m n r :
  0 <= shr_m r ->
  shr_m (Nat.iter n shr_1 r) = shr_m r / 2 ^ Z.of_nat n
  /\ 0 <= shr_m (Nat.iter n shr_1 r).
Proof.
  intros Hm. induction n as [|n [IH1 IH2]].
  - simpl. rewrite Z.div_1_r. auto.
  - rewrite Nat.iter_succ. destruct (shr_1_m _ IH2) as [E1 E2]. split; [|exact E2].
    rewrite E1, IH1, Nat2Z.inj_succ, Z.pow_succ_r by lia.
    rewrite Z.div_div by (try apply Z.pow_pos_nonneg; lia).
    f_equal. lia.
Qed.

Lemma shr_1_exact m :
  0 <= m -> m mod 2 = 0 ->
  shr_1 (Build_shr_record m false false) = Build_shr_record (m / 2) false false.
Proof.
  intros Hm He. destruct m as [|[p|p|]|p]; cbn [shr_1]; try lia.
  - reflexivity.
  - exfalso. rewrite Pos2Z.inj_xI, Z.add_comm, Z.mul_comm, Z.mod_add in He by lia.
    discriminate.
  - f_equal. apply Z.div_unique with 0; lia.
  - discriminate.
Qed.

Lemma shr_n_exact n m :
  0 <= m -> m mod 2 ^ Z.of_nat n = 0 ->
  Nat.iter n shr_1 (Build_shr_record m false false)
  = Build_shr_record (m / 2 ^ Z.of_nat n) false false.
Proof.
  intros Hm. induction n as [|n IH]; intros He.
  - simpl. rewrite Z.div_1_r. reflexivity.
  - rewrite Nat2Z.inj_succ, Z.pow_succ_r in He by lia.
    assert (P : 0 < 2 ^ Z.of_nat n) by (apply Z.pow_pos_nonneg; lia).
    assert (E : m mod 2 ^ Z.of_nat n = 0).
    { apply Z.mod_divide; [lia|]. apply Z.mod_divide in He; [|lia].
      destruct He as [k ->]. exists (k * 2). lia. }
    rewrite Nat.iter_succ, (IH E).
    assert (E2 : (m / 2 ^ Z.of_nat n) mod 2 = 0).
    { apply Z.mod_divide in He; [|lia]. destruct He as [k ->].
      replace (k * (2 * 2 ^ Z.of_nat n)) with (k * 2 * 2 ^ Z.of_nat n) by lia.
      rewrite Z.div_mul by lia. rewrite Z.mul_comm, Z.mul_comm, Z.mod_mul; lia. }
    rewrite shr_1_exact; [|apply Z.div_pos; lia|exact E2].
    f_equal. rewrite Nat2Z.inj_succ, Z.pow_succ_r by lia.
    rewrite Z.div_div by lia. f_equal. lia.
Qed.

Lemma shr_spec r e n :
  0 <= shr_m r ->
  exists r',
    shr r e n = (r', if 0 <? n then e + n else e)
    /\ shr_m r' = shr_m r / 2 ^ Z.max 0 n
    /\ (n <= 0 -> r' = r)
    /\ (shr_r r = false -> shr_s r = false -> shr_m r mod 2 ^ Z.max 0 n = 0 ->
        shr_r r' = false /\ shr_s r' = false).
Proof.
  intros Hm. destruct n as [|p|p].
  - exists r. simpl. rewrite Z.div_1_r. repeat split; auto.
  - exists (Nat.iter (Pos.to_nat p) shr_1 r).
    destruct (shr_n_m (Pos.to_nat p) r Hm) as [E _].
    rewrite positive_nat_Z in E.
    replace (Z.max 0 (Z.pos p)) with (Z.pos p) by lia.
    split; [cbn [shr]; rewrite iter_pos_nat; reflexivity|].
    split; [exact E|]. split; [lia|].
    intros Hr Hs Hd. destruct r as [m r s]. simpl in *. subst r s.
    rewrite shr_n_exact; [auto|exact Hm|rewrite positive_nat_Z; exact Hd].
  - exists r. simpl. rewrite Z.div_1_r. repeat split; auto.
Qed.

Lemma loc_of_record_of m l :
  loc_of_shr_record (shr_record_of_loc m l) = l.
Proof. destruct l as [|[]]; reflexivity. Qed.

Lemma round_nearest_even_bounds m l :
  m <= round_nearest_even m l <= m + 1.
Proof.
  destruct l as [|[]]; simpl; try lia. destruct (Z.even m); lia.
Qed.

Local Abbreviation fexp := (SpecFloat.fexp prec emax).

Lemma fexp_normal e : -1021 <= e -> fexp e = e - 53.
Proof. intros H. unfold SpecFloat.fexp, SpecFloat.emin, prec, emax. lia. Qed.

(** ** Rounding a mantissa of 53 digits or more *)

(** The mantissa [m] and the exponent [e] of the result lie, in units of
    the result, within one of the mantissa [mx] that is rounded; a mantissa
    whose digits beyond the 53rd are zero, without a remainder attached to
    it, is kept. *)
Lemma binary_round_aux_spec sx mx ex lx :
  2 ^ 52 <= mx -> -1074 <= ex ->
  exists m e,
    binary_round_aux prec emax sx mx ex lx
    = (if e <=? 971 then S754_finite sx m e else S754_infinity sx)
    /\ 2 ^ 52 <= Zpos m < 2 ^ 53
    /\ ex <= e /\ Zdigits2 mx + ex - 53 <= e <= Zdigits2 mx + ex - 52
    /\ mx / 2 ^ (e - ex) <= Zpos m <= mx / 2 ^ (e - ex) + 1
    /\ (lx = loc_Exact -> mx mod 2 ^ (Zdigits2 mx - 53) = 0 ->
        Zpos m = mx / 2 ^ (Zdigits2 mx - 53) /\ e = ex + (Zdigits2 mx - 53)).
Proof.
  intros Hmx Hex.
  assert (Hpos : 0 < mx) by lia.
  destruct (Zdigits2_bounds mx Hpos) as [Dl Du].
  set (d := Zdigits2 mx) in *.
  assert (Hd : 53 <= d).
  { destruct (Z.lt_ge_cases d 53) as [H|H]; [|exact H].
    assert (2 ^ d <= 2 ^ 52) by (apply Z.pow_le_mono_r; lia). lia. }
  set (n := d - 53).
  assert (P : 0 < 2 ^ n) by (apply Z.pow_pos_nonneg; lia).
  assert (T : 2 ^ 52 <= mx / 2 ^ n < 2 ^ 53).
  { split.
    - apply Z.div_le_lower_bound; [lia|].
      rewrite <- Z.pow_add_r by lia. replace (n + 52) with (d - 1) by lia. exact Dl.
    - apply Z.div_lt_upper_bound; [lia|].
      rewrite <- Z.pow_add_r by lia. replace (n + 53) with d by lia. exact Du. }
  unfold binary_round_aux, shr_fexp. fold d.
  rewrite (fexp_normal (d + ex)) by lia.
  replace (d + ex - 53 - ex) with n by lia.
  destruct (shr_spec (shr_record_of_loc mx lx) ex n) as (r1 & E1 & M1 & Z1 & X1).
  { destruct lx as [|[]]; simpl; lia. }
  rewrite E1.
  assert (Hm : forall l, shr_m (shr_record_of_loc mx l) = mx)
    by (intros [|[]]; reflexivity).
  rewrite Hm in M1, X1. rewrite Z.max_r in M1, X1 by lia.
  set (e1 := if 0 <? n then ex + n else ex).
  assert (He1 : e1 = ex + n).
  { subst e1. destruct (Z.ltb_spec 0 n); lia. }
  set (m1 := round_nearest_even (shr_m r1) (loc_of_shr_record r1)).
  pose proof (round_nearest_even_bounds (shr_m r1) (loc_of_shr_record r1)) as B1.
  fold m1 in B1. rewrite M1 in B1.
  assert (Hexact : lx = loc_Exact -> mx mod 2 ^ n = 0 -> m1 = mx / 2 ^ n).
  { intros -> Hz. destruct X1 as [Xr Xs]; [reflexivity|reflexivity|exact Hz|].
    subst m1. destruct r1 as [a b c]. simpl in *. subst b c. simpl. exact M1. }
  assert (Hm1 : 0 < m1) by lia.
  destruct (Z.eq_dec m1 (2 ^ 53)) as [Hc|Hc].
  - (* the rounding carried into the next binade *)
    assert (D1 : Zdigits2 m1 = 54) by (rewrite Hc; reflexivity).
    rewrite D1, (fexp_normal (54 + e1)) by lia.
    replace (54 + e1 - 53 - e1) with 1 by lia.
    rewrite Hc. simpl.
    exists (Pos.pow 2 52), (e1 + 1).
    split; [reflexivity|]. split; [simpl; lia|].
    split; [lia|]. split; [lia|].
    replace (e1 + 1 - ex) with (n + 1) by lia.
    rewrite Z.pow_add_r, <- Z.div_div by lia.
    change (2 ^ 1) with 2.
    split.
    + assert (mx / 2 ^ n = 2 ^ 53 - 1) by lia.
      rewrite H. vm_compute. split; discriminate.
    + intros Hl Hz. specialize (Hexact Hl Hz). lia.
  - assert (D1 : Zdigits2 m1 = 53) by (apply Zdigits2_unique; lia).
    rewrite D1, (fexp_normal (53 + e1)) by lia.
    replace (53 + e1 - 53 - e1) with 0 by lia.
    simpl shr. cbn [shr_m shr_record_of_loc].
    destruct m1 as [|q|q] eqn:Eq; try lia.
    exists q, e1. split; [reflexivity|].
    split; [lia|]. split; [lia|]. split; [lia|].
    replace (e1 - ex) with n by lia.
    split; [lia|].
    intros Hl Hz. specialize (Hexact Hl Hz). split; [exact Hexact|lia].
Qed.


Lemma valid_canonical s m e :
  2 ^ 52 <= Zpos m < 2 ^ 53 -> -1074 <= e <= 971 ->
  SpecFloat.valid_binary prec emax (S754_finite s m e) = true.
Proof.
  intros Hm He. unfold SpecFloat.valid_binary, bounded, canonical_mantissa.
  change (Z.pos (digits2_pos m)) with (Zdigits2 (Zpos m)).
  rewrite (Zdigits2_unique (Zpos m) 53) by (simpl; lia).
  rewrite fexp_normal by lia.
  apply andb_true_intro. split; [apply Z.eqb_eq; lia|].
  apply Z.leb_le. unfold emax, prec. lia.
Qed.

(** ** Rounding a mantissa of any length *)

Lemma shl_align_spec mx ex ex' :
  ex' <= ex ->
  shl_align mx ex ex' = (Z.to_pos (Zpos mx * 2 ^ (ex - ex')), ex').
Proof.
  intros H. unfold shl_align.
  destruct (ex' - ex) as [|p|p] eqn:E; try lia.
  - replace (ex - ex') with 0 by lia. rewrite Z.mul_1_r. simpl.
    f_equal. lia.
  - f_equal. apply Pos2Z.inj.
    change (Z.pos (Pos.iter xO mx p)) with (Z.pos (shift_pos p mx)).
    rewrite shift_pos_correct, Z2Pos.id.
    + rewrite Z.pow_pos_fold. replace (ex - ex') with (Z.pos p) by lia. lia.
    + assert (0 < 2 ^ (ex - ex')) by (apply Z.pow_pos_nonneg; lia). lia.
Qed.

Lemma Zdigits2_shift m k :
  0 < m -> 0 <= k -> Zdigits2 (m * 2 ^ k) = Zdigits2 m + k.
Proof.
  intros Hm Hk. destruct (Zdigits2_bounds m Hm) as [Hl Hu].
  assert (Hd : 0 < Zdigits2 m) by (destruct m; simpl; lia).
  assert (P : 0 < 2 ^ k) by (apply Z.pow_pos_nonneg; lia).
  apply Zdigits2_unique; [|lia].
  replace (Zdigits2 m + k - 1) with (Zdigits2 m - 1 + k) by lia.
  rewrite !Z.pow_add_r by lia. split; nia.
Qed.

(** A mantissa of at most 53 digits is kept, shifted to 53 digits. *)
Lemma binary_round_short sx mx ex :
  Zdigits2 (Zpos mx) <= 53 ->
  -1074 <= Zdigits2 (Zpos mx) + ex - 53 <= 971 ->
  binary_round prec emax sx mx ex
  = S754_finite sx (Z.to_pos (Zpos mx * 2 ^ (53 - Zdigits2 (Zpos mx))))
      (Zdigits2 (Zpos mx) + ex - 53).
Proof.
  intros Hd He. unfold binary_round.
  change (Z.pos (digits2_pos mx)) with (Zdigits2 (Zpos mx)).
  set (d := Zdigits2 (Zpos mx)) in *.
  rewrite (fexp_normal (d + ex)) by lia.
  rewrite shl_align_spec by lia.
  replace (ex - (d + ex - 53)) with (53 - d) by lia.
  assert (P : 0 < 2 ^ (53 - d)) by (apply Z.pow_pos_nonneg; lia).
  set (mz := Z.pos mx * 2 ^ (53 - d)).
  assert (Hz : 0 < mz) by (subst mz; lia).
  assert (Dz : Zdigits2 mz = 53).
  { subst mz. rewrite Zdigits2_shift by lia. fold d. lia. }
  destruct (Zdigits2_bounds mz Hz) as [Bl Bu]. rewrite Dz in Bl, Bu.
  destruct (binary_round_aux_spec sx mz (d + ex - 53) loc_Exact)
    as (m & e & E & Hm & _ & _ & _ & Hx); [exact Bl|lia|].
  rewrite Z2Pos.id by exact Hz.
  destruct Hx as [Hx1 Hx2]; [reflexivity|rewrite Dz; apply Z.mod_1_r|].
  rewrite Dz in Hx1, Hx2. change (2 ^ (53 - 53)) with 1 in Hx1.
  rewrite Z.div_1_r in Hx1.
  rewrite E. replace e with (d + ex - 53) by lia.
  destruct (Z.leb_spec (d + ex - 53) 971); [|lia].
  f_equal. apply Pos2Z.inj. rewrite Hx1, Z2Pos.id by exact Hz. reflexivity.
Qed.

(** A longer mantissa is rounded to 53 digits, or to infinity. *)
Lemma binary_round_long sx mx ex :
  53 <= Zdigits2 (Zpos mx) -> -1074 <= ex ->
  binary_round prec emax sx mx ex
  = binary_round_aux prec emax sx (Zpos mx) ex loc_Exact.
Proof.
  intros Hd He. unfold binary_round.
  change (Z.pos (digits2_pos mx)) with (Zdigits2 (Zpos mx)).
  rewrite fexp_normal by lia. unfold shl_align.
  destruct (Zdigits2 (Z.pos mx) + ex - 53 - ex) eqn:E; try reflexivity. lia.
Qed.

(** ** Integers as numbers *)

Lemma Prim2SF_ofInteger n :
  0 < n < 2 ^ 53 ->
  Prim2SF (JS.ofInteger n)
  = S754_finite false (Z.to_pos (n * 2 ^ (53 - Zdigits2 n))) (Zdigits2 n - 53).
Proof.
  intros Hn. unfold JS.ofInteger.
  destruct n as [|p|p]; try lia. cbn [binary_normalize].
  assert (Hd : 0 < Zdigits2 (Zpos p) <= 53).
  { split; [simpl; lia|].
    destruct (Zdigits2_bounds (Zpos p)) as [Hl _]; [lia|].
    destruct (Z.le_gt_cases (Zdigits2 (Zpos p)) 53) as [H|H]; [exact H|].
    assert (2 ^ 53 <= 2 ^ (Zdigits2 (Z.pos p) - 1)) by (apply Z.pow_le_mono_r; lia).
    lia. }
  rewrite binary_round_short by lia.
  rewrite Z.add_0_r.
  apply Prim2SF_SF2Prim. apply valid_canonical; [|lia].
  assert (P : 0 < 2 ^ (53 - Zdigits2 (Zpos p))) by (apply Z.pow_pos_nonneg; lia).
  rewrite Z2Pos.id by lia.
  destruct (Zdigits2_bounds (Zpos p * 2 ^ (53 - Zdigits2 (Zpos p)))) as [Bl Bu]; [lia|].
  rewrite Zdigits2_shift in Bl, Bu by lia.
  replace (Zdigits2 (Z.pos p) + (53 - Zdigits2 (Z.pos p))) with 53 in Bl, Bu by lia.
  split; [exact Bl|exact Bu].
Qed.

(** The integers below [2^53] are numbers. *)
Lemma toInteger_ofInteger n :
  0 <= n < 2 ^ 53 -> JS.toInteger (JS.ofInteger n) = Some n.
Proof.
  intros Hn. destruct (Z.eq_dec n 0) as [->|Hz]; [reflexivity|].
  unfold JS.toInteger. rewrite Prim2SF_ofInteger by lia.
  assert (Hd : 0 < Zdigits2 n <= 53).
  { split; [destruct n; simpl; lia|].
    destruct (Zdigits2_bounds n) as [Hl _]; [lia|].
    destruct (Z.le_gt_cases (Zdigits2 n) 53) as [H|H]; [exact H|].
    assert (2 ^ 53 <= 2 ^ (Zdigits2 n - 1)) by (apply Z.pow_le_mono_r; lia).
    lia. }
  set (k := 53 - Zdigits2 n).
  assert (P : 0 < 2 ^ k) by (apply Z.pow_pos_nonneg; lia).
  rewrite Z2Pos.id by lia.
  destruct (Z.leb_spec 0 (Zdigits2 n - 53)) as [H|H].
  - replace (Zdigits2 n - 53) with 0 by lia. replace k with 0 by lia.
    rewrite Z.shiftl_0_r. simpl. f_equal. lia.
  - replace (- (Zdigits2 n - 53)) with k by lia.
    rewrite Z.shiftr_div_pow2, Z.div_mul by lia.
    rewrite Z.shiftl_mul_pow2, Z.eqb_refl by lia. reflexivity.
Qed.

(** A run of digits never reads as NaN. *)
Lemma isNaN_ofInteger n : 0 <= n -> JS.isNaN (JS.ofInteger n) = false.
Proof.
  intros Hn. unfold JS.ofInteger, JS.isNaN.
  destruct n as [|p|p]; try lia; [reflexivity|]. cbn [binary_normalize].
  assert (Hs : forall s, SpecFloat.valid_binary prec emax s = true -> s <> S754_nan ->
                         is_nan (SF2Prim s) = false).
  { intros s Hv Hs. pose proof (Prim2SF_SF2Prim s Hv) as E.
    unfold Prim2SF in E. destruct (is_nan (SF2Prim s)); [congruence|reflexivity]. }
  destruct (Z.le_gt_cases (Zdigits2 (Zpos p)) 53) as [Hd|Hd].
  - assert (Hp : 0 < Zdigits2 (Zpos p)) by (simpl; lia).
    rewrite binary_round_short by lia.
    apply Hs; [|discriminate].
    assert (P : 0 < 2 ^ (53 - Zdigits2 (Zpos p))) by (apply Z.pow_pos_nonneg; lia).
    apply valid_canonical; [|lia]. rewrite Z2Pos.id by lia.
    destruct (Zdigits2_bounds (Zpos p * 2 ^ (53 - Zdigits2 (Zpos p)))) as [Bl Bu]; [lia|].
    rewrite Zdigits2_shift in Bl, Bu by lia.
    replace (Zdigits2 (Z.pos p) + (53 - Zdigits2 (Z.pos p))) with 53 in Bl, Bu by lia.
    split; [exact Bl|exact Bu].
  - rewrite binary_round_long by lia.
    destruct (binary_round_aux_spec false (Zpos p) 0 loc_Exact)
      as (m & e & E & Hm & He & _); [|lia|].
    { destruct (Zdigits2_bounds (Zpos p)) as [Hl _]; [lia|].
      assert (2 ^ 52 <= 2 ^ (Zdigits2 (Z.pos p) - 1)) by (apply Z.pow_le_mono_r; lia).
      lia. }
    rewrite E. destruct (Z.leb_spec e 971); [|reflexivity].
    apply Hs; [|discriminate]. apply valid_canonical; [exact Hm|lia].
Qed.

End Rounding.

(** Up to [2^63] the number nearest to an integer is the one [of_Z] gives. *)
Lemma ofInteger_of_Z z : (0 <= z < 2 ^ 63)%Z -> JS.ofInteger z = JS.of_Z z.
Proof.
  intros Hz. unfold JS.ofInteger, JS.of_Z.
  destruct (Z.ltb_spec z 0); [lia|].
  rewrite <- (SF2Prim_Prim2SF (of_uint63 (Uint63.of_Z z))). f_equal.
  rewrite of_uint63_spec. f_equal. apply Uint63.is_int.
  change (2 ^ Uint63.to_Z Uint63.digits)%Z with (2 ^ 63)%Z. exact Hz.
Qed.

(** ** The value of a rounding *)

Module Exact.

Import Rounding.
Local Open Scope Q_scope.

Definition pow2 (e : Z) : Q := 2 ^ e.

Lemma pow2_pos e : 0 < pow2 e.
Proof. apply Qpower_0_lt. reflexivity. Qed.

Lemma pow2_add a b : pow2 (a + b) == pow2 a * pow2 b.
Proof. apply Qpower_plus. discriminate. Qed.

Lemma pow2_Z n : (0 <= n)%Z -> pow2 n == inject_Z (2 ^ n).
Proof. intros H. symmetry. apply (Zpower_Qpower 2 n H). Qed.

Lemma pow2_lt_inv a b : pow2 a < pow2 b -> (a < b)%Z.
Proof. intros H. apply (Qpower_lt_compat_l_inv 2); [exact H|reflexivity]. Qed.

Lemma pow2_le a b : (a <= b)%Z -> pow2 a <= pow2 b.
Proof. intros H. apply Qpower_le_compat_l; [exact H|discriminate]. Qed.

Lemma pow2_shift e n : (0 <= n)%Z -> pow2 (e + n) == inject_Z (2 ^ n) * pow2 e.
Proof. intros H. rewrite pow2_add, (pow2_Z n H). ring. Qed.

Lemma scaled_le a b e : inject_Z a * pow2 e <= inject_Z b * pow2 e -> (a <= b)%Z.
Proof.
  intros H. rewrite Zle_Qle. pose proof (pow2_pos e).
  apply (Qmult_le_r _ _ (pow2 e)); assumption.
Qed.

Lemma scaled_lt a b e : inject_Z a * pow2 e < inject_Z b * pow2 e -> (a < b)%Z.
Proof.
  intros H. rewrite Zlt_Qlt. pose proof (pow2_pos e).
  apply (Qmult_lt_r _ _ (pow2 e)); assumption.
Qed.

(** Where the value [v] that is rounded lies, given the mantissa [mx], the
    exponent [ex] and the location [lx] it is known by. *)
Definition located (mx ex : Z) (lx : location) (v : Q) : Prop :=
  (lx = loc_Exact /\ v == inject_Z mx * pow2 ex)
  \/ (inject_Z mx * pow2 ex < v /\ v < (inject_Z mx + 1) * pow2 ex).

(** The mantissa [m] and exponent [e] of a rounding of [v]: no number with
    exponent [e] lies strictly between it and [v], and a number of 53
    digits is its own rounding. *)
Record Rounded (v : Q) (m : positive) (e : Z) : Prop := {
  r_mantissa : (2 ^ 52 <= Zpos m < 2 ^ 53)%Z;
  r_below : forall K : Z, inject_Z K * pow2 e <= v -> (K <= Zpos m)%Z;
  r_above : forall K : Z, v <= inject_Z K * pow2 e -> (Zpos m <= K)%Z;
  r_exact : forall (N a : Z),
      (2 ^ 52 <= N < 2 ^ 53)%Z -> v == inject_Z N * pow2 a ->
      Zpos m = N /\ e = a
}.

Lemma round_located sx mx ex lx v :
  (2 ^ 52 <= mx)%Z -> (-1074 <= ex)%Z -> located mx ex lx v ->
  exists m e,
    binary_round_aux prec emax sx mx ex lx
    = (if (e <=? 971)%Z then S754_finite sx m e else S754_infinity sx)
    /\ (ex <= e)%Z /\ Rounded v m e.
Proof.
  intros Hmx Hex Hloc.
  destruct (binary_round_aux_spec sx mx ex lx Hmx Hex)
    as (m & e & E & Hm & Hee & Hed & Hfl & Hexact).
  exists m, e. split; [exact E|]. split; [exact Hee|].
  set (d := Zdigits2 mx) in *. set (n := (d - 53)%Z) in *.
  destruct (Zdigits2_bounds mx ltac:(lia)) as [Dl Du]. fold d in Dl, Du.
  assert (Hd : (53 <= d)%Z).
  { destruct (Z.lt_ge_cases d 53) as [H|H]; [|exact H].
    assert (2 ^ d <= 2 ^ 52)%Z by (apply Z.pow_le_mono_r; lia). lia. }
  set (k := (e - ex)%Z) in *.
  assert (Hk : (0 <= k)%Z) by lia.
  assert (Pk : (0 < 2 ^ k)%Z) by (apply Z.pow_pos_nonneg; lia).
  assert (Pn : (0 < 2 ^ n)%Z) by (apply Z.pow_pos_nonneg; lia).
  assert (Ee : pow2 e == inject_Z (2 ^ k) * pow2 ex).
  { replace e with (ex + k)%Z by lia. apply pow2_shift. exact Hk. }
  pose proof (pow2_pos ex) as Pex.
  assert (Vlo : inject_Z mx * pow2 ex <= v)
    by (destruct Hloc as [[_ ->]|[H _]]; lra).
  assert (Vhi : v < (inject_Z mx + 1) * pow2 ex)
    by (destruct Hloc as [[_ ->]|[_ H]]; lra).
  assert (Hx : v == inject_Z mx * pow2 ex -> (mx mod 2 ^ n = 0)%Z ->
               Zpos m = (mx / 2 ^ n)%Z /\ e = (ex + n)%Z).
  { intros Hv Hmod. apply Hexact; [|exact Hmod].
    destruct Hloc as [[H _]|[H _]]; [exact H|]. rewrite Hv in H. lra. }
  constructor.
  - exact Hm.
  - intros K HK. rewrite Ee in HK.
    assert (H1 : inject_Z (K * 2 ^ k) * pow2 ex < inject_Z (mx + 1) * pow2 ex).
    { rewrite inject_Z_mult, inject_Z_plus. change (inject_Z 1) with 1. lra. }
    apply scaled_lt in H1.
    assert (K <= mx / 2 ^ k)%Z by (apply Z.div_le_lower_bound; lia).
    lia.
  - intros K HK. rewrite Ee in HK.
    assert (H1 : inject_Z mx * pow2 ex <= inject_Z (K * 2 ^ k) * pow2 ex).
    { rewrite inject_Z_mult. lra. }
    apply scaled_le in H1.
    destruct (Z.eq_dec mx (K * 2 ^ k)%Z) as [Heq|Hne].
    + assert (Hv : v == inject_Z mx * pow2 ex).
      { apply Qle_antisym; [|exact Vlo]. rewrite Heq, inject_Z_mult. lra. }
      assert (Hdiv : (mx mod 2 ^ n = 0)%Z).
      { rewrite Heq. apply Z.mod_divide; [lia|].
        assert (Hkn : (k = n \/ k = n + 1)%Z) by lia.
        destruct Hkn as [->| ->].
        - exists K. reflexivity.
        - exists (K * 2)%Z. rewrite Z.pow_add_r by lia. change (2 ^ 1)%Z with 2%Z. ring. }
      destruct (Hx Hv Hdiv) as [Em Ee'].
      assert (k = n) by lia. rewrite Em, Heq. subst k.
      rewrite H, Z.div_mul by lia. lia.
    + assert (mx / 2 ^ k < K)%Z by (apply Z.div_lt_upper_bound; lia).
      lia.
  - intros N a HN Hv.
    assert (Ha : a = (ex + n)%Z).
    { assert (U1 : pow2 (52 + a) < pow2 (d + ex)).
      { rewrite (Z.add_comm 52 a), (pow2_shift a 52) by lia.
        rewrite (Z.add_comm d ex), (pow2_shift ex d) by lia.
        pose proof (pow2_pos a) as Pa.
        assert (inject_Z (2 ^ 52) <= inject_Z N) by (rewrite <- Zle_Qle; lia).
        assert (inject_Z mx + 1 <= inject_Z (2 ^ d)).
        { change (inject_Z mx + 1) with (inject_Z mx + inject_Z 1).
          rewrite <- (inject_Z_plus mx 1), <- Zle_Qle. lia. }
        nra. }
      assert (U2 : pow2 (d - 1 + ex) < pow2 (53 + a)).
      { rewrite (Z.add_comm 53 a), (pow2_shift a 53) by lia.
        rewrite (Z.add_comm (d - 1) ex), (pow2_shift ex (d - 1)) by lia.
        pose proof (pow2_pos a) as Pa.
        assert (inject_Z N < inject_Z (2 ^ 53)) by (rewrite <- Zlt_Qlt; lia).
        assert (inject_Z (2 ^ (d - 1)) <= inject_Z mx) by (rewrite <- Zle_Qle; lia).
        nra. }
      apply pow2_lt_inv in U1, U2. lia. }
    assert (Ea : pow2 a == inject_Z (2 ^ n) * pow2 ex).
    { rewrite Ha. apply pow2_shift. lia. }
    rewrite Ea in Hv.
    assert (H1 : inject_Z mx * pow2 ex <= inject_Z (N * 2 ^ n) * pow2 ex).
    { rewrite inject_Z_mult. lra. }
    assert (H2 : inject_Z (N * 2 ^ n) * pow2 ex < inject_Z (mx + 1) * pow2 ex).
    { rewrite inject_Z_mult, inject_Z_plus. change (inject_Z 1) with 1. lra. }
    apply scaled_le in H1. apply scaled_lt in H2.
    assert (Emx : mx = (N * 2 ^ n)%Z) by lia.
    destruct Hx as [Em Ee'].
    + rewrite Hv, Emx, inject_Z_mult. ring.
    + rewrite Emx. apply Z.mod_mul. lia.
    + rewrite Em, Ee', Emx, Z.div_mul by lia. split; [reflexivity|lia].
Qed.


(** ** Numbers as rationals *)

(** [x] is the number [+0], or a positive normal number, of value [v]. *)
Definition Val (x : float) (v : Q) : Prop :=
  (Prim2SF x = S754_zero false /\ v == 0)
  \/ exists m e,
      Prim2SF x = S754_finite false m e
      /\ (2 ^ 52 <= Zpos m < 2 ^ 53)%Z /\ (-1074 <= e <= 971)%Z
      /\ v == inject_Z (Zpos m) * pow2 e.

Definition small : Q := Eval vm_compute in pow2 (-60).
Definition big : Q := Eval vm_compute in pow2 20.
Definition eps : Q := Eval vm_compute in pow2 (-52).

(** Zero, or a value between [2^-60] and [2^20]. *)
Definition InRange (v : Q) : Prop := v == 0 \/ (small <= v /\ v <= big).

(** [r] is [v] up to a relative error of [2^-52], and [v] itself when [v]
    is an integer. *)
Definition Near (v r : Q) : Prop :=
  r * (1 - eps) <= v /\ v <= r * (1 + eps)
  /\ forall n : Z, v == inject_Z n -> r == inject_Z n.

Lemma Near_same v r : v == r -> 0 <= v -> Near v r.
Proof.
  intros E Hv. unfold Near, eps.
  split; [lra|]. split; [lra|]. intros n H. rewrite <- E. exact H.
Qed.

Lemma Val_ext x v v' : Val x v -> v == v' -> Val x v'.
Proof.
  intros [[H1 H2]|(m & e & H1 & H2 & H3 & H4)] E.
  - left. split; [exact H1|]. rewrite <- E. exact H2.
  - right. exists m, e. repeat split; try assumption; try lia.
    rewrite <- E. exact H4.
Qed.

Lemma Val_nonneg x v : Val x v -> 0 <= v.
Proof.
  intros [[_ H]|(m & e & _ & Hm & _ & H)]; rewrite H; [lra|].
  pose proof (pow2_pos e).
  assert (0 < inject_Z (Zpos m)) by (change 0 with (inject_Z 0); rewrite <- Zlt_Qlt; lia).
  nra.
Qed.

Lemma mantissa_bounds m :
  (2 ^ 52 <= Zpos m < 2 ^ 53)%Z ->
  4503599627370496 <= inject_Z (Zpos m) /\ inject_Z (Zpos m) <= 9007199254740991.
Proof.
  intros H. change 4503599627370496 with (inject_Z (2 ^ 52)).
  change 9007199254740991 with (inject_Z (2 ^ 53 - 1)).
  rewrite <- !Zle_Qle. lia.
Qed.

(** The exponent of a number between [2^-60] and [2^20]. *)
Lemma exponent_bounds m e v :
  (2 ^ 52 <= Zpos m < 2 ^ 53)%Z ->
  (inject_Z (Zpos m) - 1) * pow2 e < v -> v < (inject_Z (Zpos m) + 1) * pow2 e ->
  small <= v -> v <= big -> (-113 <= e <= -32)%Z.
Proof.
  intros Hm Hl Hu Hs Hb. destruct (mantissa_bounds m Hm) as [M1 M2].
  pose proof (pow2_pos e) as Pe. unfold small, big in *.
  split.
  - destruct (Z.le_gt_cases (-113) e) as [H|H]; [exact H|exfalso].
    pose proof (pow2_le e (-114) ltac:(lia)) as P.
    assert (E : pow2 (-114) == 1 # 20769187434139310514121985316880384) by reflexivity.
    rewrite E in P. nra.
  - destruct (Z.le_gt_cases e (-32)) as [H|H]; [exact H|exfalso].
    pose proof (pow2_le (-31) e ltac:(lia)) as P.
    assert (E : pow2 (-31) == 1 # 2147483648) by reflexivity.
    rewrite E in P. nra.
Qed.

Lemma Val_exponent x v m e :
  Prim2SF x = S754_finite false m e ->
  (2 ^ 52 <= Zpos m < 2 ^ 53)%Z -> v == inject_Z (Zpos m) * pow2 e ->
  InRange v -> (-113 <= e <= -32)%Z /\ small <= v /\ v <= big.
Proof.
  intros _ Hm Hv Hr. destruct (mantissa_bounds m Hm) as [M1 M2].
  pose proof (pow2_pos e) as Pe.
  destruct Hr as [H0|[Hs Hb]]; [rewrite Hv in H0; nra|].
  split; [|split; assumption].
  apply (exponent_bounds m e v Hm); try assumption; rewrite Hv; nra.
Qed.

(** An integer below [2^53], as a mantissa of 53 digits and an exponent. *)
Lemma integer_canonical n :
  (0 < n < 2 ^ 53)%Z ->
  (2 ^ 52 <= n * 2 ^ (53 - Zdigits2 n) < 2 ^ 53)%Z
  /\ (-52 <= Zdigits2 n - 53 <= 0)%Z
  /\ inject_Z n == inject_Z (n * 2 ^ (53 - Zdigits2 n)) * pow2 (Zdigits2 n - 53).
Proof.
  intros Hn.
  assert (Hd : (0 < Zdigits2 n <= 53)%Z).
  { split; [destruct n; simpl; lia|].
    destruct (Zdigits2_bounds n) as [Hl _]; [lia|].
    destruct (Z.le_gt_cases (Zdigits2 n) 53) as [H|H]; [exact H|].
    assert (2 ^ 53 <= 2 ^ (Zdigits2 n - 1))%Z by (apply Z.pow_le_mono_r; lia).
    lia. }
  set (k := (53 - Zdigits2 n)%Z).
  assert (P : (0 < 2 ^ k)%Z) by (apply Z.pow_pos_nonneg; lia).
  split; [|split; [lia|]].
  - destruct (Zdigits2_bounds (n * 2 ^ k)) as [Bl Bu]; [lia|].
    rewrite Zdigits2_shift in Bl, Bu by lia.
    replace (Zdigits2 n + k)%Z with 53%Z in Bl, Bu by lia.
    split; [exact Bl|exact Bu].
  - rewrite inject_Z_mult, <- (pow2_Z k) by lia.
    rewrite <- Qmult_assoc, <- pow2_add.
    replace (k + (Zdigits2 n - 53))%Z with 0%Z by lia.
    change (pow2 0) with 1. ring.
Qed.

(** What a rounding of a value between [2^-60] and [2^20] is. *)
Lemma Rounded_near v m e :
  Rounded v m e -> small <= v -> v <= big ->
  Near v (inject_Z (Zpos m) * pow2 e) /\ (-113 <= e <= -32)%Z.
Proof.
  intros [Hm Hlow Hhigh Hex] Hs Hb.
  destruct (mantissa_bounds m Hm) as [M1 M2].
  pose proof (pow2_pos e) as Pe.
  assert (Hl : (inject_Z (Zpos m) - 1) * pow2 e < v).
  { destruct (Qlt_le_dec ((inject_Z (Zpos m) - 1) * pow2 e) v) as [H|H]; [exact H|].
    assert (H' : v <= inject_Z (Zpos m - 1) * pow2 e).
    { unfold Z.sub. rewrite inject_Z_plus. exact H. }
    apply Hhigh in H'. lia. }
  assert (Hu : v < (inject_Z (Zpos m) + 1) * pow2 e).
  { destruct (Qlt_le_dec v ((inject_Z (Zpos m) + 1) * pow2 e)) as [H|H]; [exact H|].
    assert (H' : inject_Z (Zpos m + 1) * pow2 e <= v).
    { rewrite inject_Z_plus. exact H. }
    apply Hlow in H'. lia. }
  split; [|apply (exponent_bounds m e v); assumption].
  unfold Near, eps. split; [nra|]. split; [nra|].
  intros n Hn.
  assert (Hn0 : (0 < n < 2 ^ 53)%Z).
  { unfold small, big in *. rewrite Hn in Hs, Hb. split.
    - rewrite Zlt_Qlt. change (inject_Z 0) with 0. lra.
    - rewrite Zlt_Qlt. change (inject_Z (2 ^ 53)) with 9007199254740992. lra. }
  destruct (integer_canonical n Hn0) as (C1 & C2 & C3).
  destruct (Hex _ _ C1 (Qeq_trans _ _ _ Hn C3)) as [-> ->].
  symmetry. exact C3.
Qed.

Lemma digits_long z : (2 ^ 52 <= z)%Z -> (53 <= Zdigits2 z)%Z.
Proof.
  intros H. destruct (Zdigits2_bounds z ltac:(lia)) as [_ Hu].
  destruct (Z.lt_ge_cases (Zdigits2 z) 53) as [Hd|Hd]; [|exact Hd].
  assert (2 ^ Zdigits2 z <= 2 ^ 52)%Z by (apply Z.pow_le_mono_r; lia). lia.
Qed.

(** The outcome of an operation that rounds [v], located by [mx], [ex] and
    [lx]. *)
Lemma Val_rounded x mx ex lx v :
  Prim2SF x = binary_round_aux prec emax false mx ex lx ->
  (2 ^ 52 <= mx)%Z -> (-1074 <= ex)%Z -> located mx ex lx v ->
  small <= v -> v <= big ->
  exists r, Val x r /\ Near v r.
Proof.
  intros Hx Hmx Hex Hloc Hs Hb.
  destruct (round_located false mx ex lx v Hmx Hex Hloc) as (m & e & E & He & R).
  destruct (Rounded_near v m e R Hs Hb) as [N Hexp].
  destruct (Z.leb_spec e 971); [|lia].
  exists (inject_Z (Zpos m) * pow2 e). split; [|exact N].
  right. exists m, e. rewrite Hx, E.
  split; [reflexivity|]. split; [exact (r_mantissa _ _ _ R)|].
  split; [lia|reflexivity].
Qed.

Lemma shifted_value m e ez :
  (ez <= e)%Z ->
  inject_Z (Zpos m) * pow2 e == inject_Z (Zpos m * 2 ^ (e - ez)) * pow2 ez.
Proof.
  intros H. replace e with (ez + (e - ez))%Z at 1 by lia.
  rewrite pow2_shift by lia. rewrite inject_Z_mult. ring.
Qed.

(** *** The sum *)
Lemma Val_add x y a b :
  Val x a -> Val y b -> InRange a -> InRange b -> a + b <= big ->
  exists r, Val (x + y)%float r /\ Near (a + b) r.
Proof.
  intros Hx Hy Ra Rb Hb.
  pose proof (Val_nonneg _ _ Hx) as Pa. pose proof (Val_nonneg _ _ Hy) as Pb.
  destruct Hx as [[X Xa]|(mx & ex & X & Mx & Ex & Xa)],
           Hy as [[Y Yb]|(my & ey & Y & My & Ey & Yb)].
  - exists 0. split; [|apply Near_same; lra].
    left. rewrite FloatAxioms.add_spec, X, Y. split; reflexivity.
  - exists b. split; [|apply Near_same; lra].
    right. exists my, ey. rewrite FloatAxioms.add_spec, X, Y. repeat split; try assumption; lia.
  - exists a. split; [|apply Near_same; lra].
    right. exists mx, ex. rewrite FloatAxioms.add_spec, X, Y. repeat split; try assumption; lia.
  - destruct (Val_exponent x a mx ex X Mx Xa Ra) as (Ex' & Sa & Ba).
    destruct (Val_exponent y b my ey Y My Yb Rb) as (Ey' & Sb & Bb).
    set (ez := Z.min ex ey).
    assert (Px : (0 < 2 ^ (ex - ez))%Z) by (apply Z.pow_pos_nonneg; lia).
    assert (Py : (0 < 2 ^ (ey - ez))%Z) by (apply Z.pow_pos_nonneg; lia).
    set (S := (Zpos mx * 2 ^ (ex - ez) + Zpos my * 2 ^ (ey - ez))%Z).
    assert (HS : (2 ^ 52 <= S)%Z) by (subst S; nia).
    apply (Val_rounded _ S ez loc_Exact).
    + rewrite FloatAxioms.add_spec, X, Y. unfold SF64add, SFadd. fold ez.
      rewrite !shl_align_spec by lia. cbn [fst cond_Zopp].
      rewrite !Z2Pos.id by lia. fold S.
      destruct S as [|p|p] eqn:ES; try lia. cbn [binary_normalize].
      apply binary_round_long; [apply digits_long; lia|lia].
    + exact HS.
    + lia.
    + left. split; [reflexivity|].
      rewrite Xa, Yb, (shifted_value mx ex ez), (shifted_value my ey ez) by lia.
      subst S. rewrite inject_Z_plus. ring.
    + lra.
    + exact Hb.
Qed.

(** *** The product *)
Lemma Val_mul x y a b :
  Val x a -> Val y b -> InRange a -> InRange b ->
  a * b == 0 \/ small <= a * b -> a * b <= big ->
  exists r, Val (x * y)%float r /\ Near (a * b) r.
Proof.
  intros Hx Hy Ra Rb Hs Hb.
  pose proof (Val_nonneg _ _ Hx) as Pa. pose proof (Val_nonneg _ _ Hy) as Pb.
  destruct Hx as [[X Xa]|(mx & ex & X & Mx & Ex & Xa)],
           Hy as [[Y Yb]|(my & ey & Y & My & Ey & Yb)].
  - exists 0. split; [|apply Near_same; [rewrite Xa; ring|nra]].
    left. rewrite FloatAxioms.mul_spec, X, Y. split; reflexivity.
  - exists 0. split; [|apply Near_same; [rewrite Xa; ring|nra]].
    left. rewrite FloatAxioms.mul_spec, X, Y. split; reflexivity.
  - exists 0. split; [|apply Near_same; [rewrite Yb; ring|nra]].
    left. rewrite FloatAxioms.mul_spec, X, Y. split; reflexivity.
  - destruct (Val_exponent x a mx ex X Mx Xa Ra) as (Ex' & Sa & Ba).
    destruct (Val_exponent y b my ey Y My Yb Rb) as (Ey' & Sb & Bb).
    assert (Hpos : small <= a * b).
    { destruct Hs as [H|H]; [|exact H]. unfold small in *. nra. }
    apply (Val_rounded _ (Zpos mx * Zpos my) (ex + ey) loc_Exact).
    + rewrite FloatAxioms.mul_spec, X, Y. reflexivity.
    + nia.
    + lia.
    + left. split; [reflexivity|].
      rewrite Xa, Yb, pow2_add, inject_Z_mult. ring.
    + exact Hpos.
    + exact Hb.
Qed.


(** *** The quotient *)
Lemma div_core mx ex my ey :
  (2 ^ 52 <= Zpos mx < 2 ^ 53)%Z -> (2 ^ 52 <= Zpos my < 2 ^ 53)%Z ->
  (-1021 <= ex - ey)%Z ->
  SFdiv_core_binary prec emax (Zpos mx) ex (Zpos my) ey
  = ((Zpos mx * 2 ^ 53) / Zpos my, ex - ey - 53,
     new_location (Zpos my) ((Zpos mx * 2 ^ 53) mod Zpos my))%Z.
Proof.
  intros Mx My He. unfold SFdiv_core_binary.
  rewrite (Zdigits2_unique (Zpos mx) 53), (Zdigits2_unique (Zpos my) 53)
    by (simpl; lia).
  rewrite (fexp_normal (53 + ex - (53 + ey))) by lia.
  rewrite Z.min_l by lia.
  replace (ex - ey - (53 + ex - (53 + ey) - 53))%Z with 53%Z by lia.
  cbv iota. rewrite Z.shiftl_mul_pow2 by lia.
  replace (53 + ex - (53 + ey) - 53)%Z with (ex - ey - 53)%Z by lia.
  unfold Z.div, Z.modulo.
  destruct (Z.div_eucl (Z.pos mx * 2 ^ 53) (Z.pos my)) as [q r]. reflexivity.
Qed.

Lemma new_location_zero n : new_location n 0 = loc_Exact.
Proof. unfold new_location. destruct (Z.even n); reflexivity. Qed.

Lemma Val_div x y a b :
  Val x a -> Val y b -> InRange a -> small <= b -> b <= big ->
  a / b == 0 \/ small <= a / b -> a / b <= big ->
  exists r, Val (x / y)%float r /\ Near (a / b) r.
Proof.
  intros Hx Hy Ra Sb Bb Hs Hb.
  assert (Rb : InRange b) by (right; split; assumption).
  assert (Pb : 0 < b) by (unfold small in Sb; lra).
  destruct Hy as [[Y Yb]|(my & ey & Y & My & Ey & Yb)]; [lra|].
  destruct Hx as [[X Xa]|(mx & ex & X & Mx & Ex & Xa)].
  - exists 0.
    assert (E : a / b == 0) by (rewrite Xa; unfold Qdiv; ring).
    split; [|apply Near_same; lra].
    left. rewrite FloatAxioms.div_spec, X, Y. split; reflexivity.
  - destruct (Val_exponent x a mx ex X Mx Xa Ra) as (Ex' & Sa & Ba).
    destruct (Val_exponent y b my ey Y My Yb Rb) as (Ey' & _ & _).
    assert (Pa : 0 < a) by (unfold small in Sa; lra).
    assert (Pq : 0 < a / b) by (apply Qlt_shift_div_l; lra).
    assert (Hpos : small <= a / b).
    { destruct Hs as [H|H]; [lra|exact H]. }
    set (q := (Zpos mx * 2 ^ 53 / Zpos my)%Z).
    set (r := ((Zpos mx * 2 ^ 53) mod Zpos my)%Z).
    pose proof (Z.div_mod (Zpos mx * 2 ^ 53) (Zpos my) ltac:(lia)) as Hqr.
    pose proof (Z.mod_pos_bound (Zpos mx * 2 ^ 53) (Zpos my) ltac:(lia)) as Hr.
    fold q r in Hqr, Hr.
    assert (Hq : (2 ^ 52 <= q)%Z).
    { subst q. apply Z.div_le_lower_bound; [lia|]. nia. }
    assert (Qmy : 0 < inject_Z (Zpos my))
      by (change 0 with (inject_Z 0); rewrite <- Zlt_Qlt; lia).
    pose proof (pow2_pos ey) as Pey. pose proof (pow2_pos (ex - ey - 53)) as Pe'.
    assert (V : a / b
                == (inject_Z q + inject_Z r / inject_Z (Zpos my))
                   * pow2 (ex - ey - 53)).
    { rewrite Xa, Yb.
      replace ex with ((ex - ey - 53) + (ey + 53))%Z at 1 by lia.
      rewrite pow2_add, pow2_add, (pow2_Z 53) by lia.
      assert (E : inject_Z (Zpos mx) * inject_Z (2 ^ 53)
                  == inject_Z q * inject_Z (Zpos my) + inject_Z r).
      { rewrite <- !inject_Z_mult, <- inject_Z_plus. rewrite Hqr.
        f_equiv. ring. }
      transitivity (inject_Z (Zpos mx) * inject_Z (2 ^ 53)
                    / inject_Z (Zpos my) * pow2 (ex - ey - 53)).
      - field. split; lra.
      - rewrite E. field. lra. }
    apply (Val_rounded _ q (ex - ey - 53) (new_location (Zpos my) r)).
    + rewrite FloatAxioms.div_spec, X, Y. unfold SF64div, SFdiv.
      rewrite div_core by (assumption || lia). reflexivity.
    + exact Hq.
    + lia.
    + destruct (Z.eq_dec r 0%Z) as [Hz|Hz].
      * left. rewrite Hz, new_location_zero. split; [reflexivity|].
        rewrite V, Hz. unfold Qdiv. ring.
      * right.
        assert (T0 : 0 < inject_Z r / inject_Z (Zpos my)).
        { apply Qlt_shift_div_l; [exact Qmy|].
          rewrite Qmult_0_l. change 0 with (inject_Z 0). rewrite <- Zlt_Qlt. lia. }
        assert (T1 : inject_Z r / inject_Z (Zpos my) < 1).
        { apply Qlt_shift_div_r; [exact Qmy|].
          rewrite Qmult_1_l, <- Zlt_Qlt. lia. }
        rewrite V. split; nra.
    + exact Hpos.
    + exact Hb.
Qed.

(** *** Integers *)

Lemma Val_of_Z n : (0 <= n < 2 ^ 53)%Z -> Val (JS.of_Z n) (inject_Z n).
Proof.
  intros Hn. destruct (Z.eq_dec n 0%Z) as [->|Hz].
  - left. split; reflexivity.
  - rewrite <- ofInteger_of_Z by lia.
    destruct (integer_canonical n ltac:(lia)) as (C1 & C2 & C3).
    right. eexists _, _. rewrite Prim2SF_ofInteger by lia.
    split; [reflexivity|]. rewrite Z2Pos.id by lia.
    split; [exact C1|]. split; [lia|exact C3].
Qed.

Lemma Qfloor_unique q (n : Z) :
  inject_Z n <= q -> q < inject_Z n + 1 -> Qfloor q = n.
Proof.
  intros Hl Hu.
  pose proof (Qfloor_le q) as H1. pose proof (Qlt_floor q) as H2.
  rewrite inject_Z_plus in H2. change (inject_Z 1) with 1 in H2.
  assert (A : (Qfloor q < n + 1)%Z).
  { rewrite Zlt_Qlt, inject_Z_plus. change (inject_Z 1) with 1. lra. }
  assert (B : (n < Qfloor q + 1)%Z).
  { rewrite Zlt_Qlt, inject_Z_plus. change (inject_Z 1) with 1. lra. }
  lia.
Qed.

(** The floor of a quotient of integers. *)
Lemma Qfloor_quotient (A B : Z) (v : Q) :
  (0 < B)%Z -> v * inject_Z B == inject_Z A -> Qfloor v = (A / B)%Z.
Proof.
  intros HB Hv.
  pose proof (Z.div_mod A B ltac:(lia)) as Hqr.
  pose proof (Z.mod_pos_bound A B HB) as Hr.
  assert (QB : 0 < inject_Z B) by (change 0 with (inject_Z 0); rewrite <- Zlt_Qlt; lia).
  assert (E : inject_Z A == inject_Z B * inject_Z (A / B) + inject_Z (A mod B)).
  { rewrite <- inject_Z_mult, <- inject_Z_plus, <- Hqr. reflexivity. }
  assert (R0 : 0 <= inject_Z (A mod B))
    by (change 0 with (inject_Z 0); rewrite <- Zle_Qle; lia).
  assert (R1 : inject_Z (A mod B) < inject_Z B) by (rewrite <- Zlt_Qlt; lia).
  apply Qfloor_unique; nra.
Qed.

(** *** The floor *)
Lemma toInteger_floor x a :
  Val x a -> a <= big ->
  JS.toInteger (JS.Math_floor x) = Some (Qfloor a)
  /\ (0 <= Qfloor a < 2 ^ 53)%Z.
Proof.
  intros [[X Xa]|(m & e & X & Mx & Ex & Xa)] Ba.
  - rewrite (Qfloor_comp _ _ Xa). change (Qfloor 0) with 0%Z.
    unfold JS.Math_floor. rewrite X. unfold JS.toInteger. rewrite X.
    split; [reflexivity|lia].
  - assert (He : (e < 0)%Z).
    { destruct (Z.lt_ge_cases e 0) as [H|H]; [exact H|exfalso].
      pose proof (pow2_le 0 e H) as P. change (pow2 0) with 1 in P.
      destruct (mantissa_bounds m Mx) as [M1 _].
      unfold big in Ba. rewrite Xa in Ba. nra. }
    set (k := (- e)%Z).
    assert (Pk : (0 < 2 ^ k)%Z) by (apply Z.pow_pos_nonneg; lia).
    assert (F : Qfloor a = (Zpos m / 2 ^ k)%Z).
    { apply Qfloor_quotient; [exact Pk|].
      rewrite Xa, <- (pow2_Z k) by lia. rewrite <- Qmult_assoc, <- pow2_add.
      replace (e + k)%Z with 0%Z by lia. change (pow2 0) with 1. ring. }
    assert (B : (0 <= Zpos m / 2 ^ k < 2 ^ 53)%Z).
    { split; [apply Z.div_pos; lia|].
      apply Z.div_lt_upper_bound; [lia|]. nia. }
    rewrite F. split; [|exact B].
    unfold JS.Math_floor. rewrite X.
    destruct (Z.leb_spec 0 e); [lia|].
    fold k. rewrite Z.shiftr_div_pow2 by lia.
    rewrite <- ofInteger_of_Z by lia.
    apply toInteger_ofInteger. exact B.
Qed.

(** *** The remainder *)
Lemma Val_unnormalised r e :
  (0 < Zpos r < 2 ^ 53)%Z -> (-900 <= e <= 900)%Z ->
  Val (SF2Prim (S754_finite false r e)) (inject_Z (Zpos r) * pow2 e).
Proof.
  intros Hr He.
  destruct (integer_canonical (Zpos r) Hr) as (C1 & C2 & C3).
  set (d := Zdigits2 (Zpos r)) in *.
  set (M := (Zpos r * 2 ^ (53 - d))%Z) in *.
  assert (HM : (0 < M)%Z) by lia.
  right. exists (Z.to_pos M), (d - 53 + e)%Z.
  rewrite Z2Pos.id by exact HM.
  split; [|split; [exact C1|split; [lia|]]].
  - unfold SF2Prim. rewrite Z_ldexp_spec, of_uint63_spec.
    rewrite <- Uint63.is_int
      by (change (2 ^ Uint63.to_Z Uint63.digits)%Z with (2 ^ 63)%Z; lia).
    cbn [binary_normalize].
    rewrite binary_round_short by (fold d; lia). fold d. fold M.
    unfold SFldexp. rewrite Z.add_0_r.
    assert (DM : Zdigits2 (Zpos (Z.to_pos M)) = 53%Z).
    { rewrite Z2Pos.id by exact HM. apply Zdigits2_unique; lia. }
    rewrite binary_round_short by (rewrite DM; lia).
    rewrite DM. f_equal; [|lia].
    rewrite Z2Pos.id by exact HM. change (2 ^ (53 - 53))%Z with 1%Z.
    rewrite Z.mul_1_r. reflexivity.
  - rewrite C3. rewrite <- Qmult_assoc, <- pow2_add. reflexivity.
Qed.

Lemma Val_rem x y a b :
  Val x a -> Val y b -> InRange a -> small <= b -> b <= big ->
  Val (JS.rem x y) (a - b * inject_Z (Qfloor (a / b))).
Proof.
  intros Hx Hy Ra Sb Bb.
  assert (Rb : InRange b) by (right; split; assumption).
  assert (Pb : 0 < b) by (unfold small in Sb; lra).
  destruct Hy as [[Y Yb]|(my & ey & Y & My & Ey & Yb)]; [lra|].
  destruct Hx as [[X Xa]|(mx & ex & X & Mx & Ex & Xa)].
  - left. unfold JS.rem. rewrite X, Y. split; [exact X|].
    assert (E : a / b == 0) by (rewrite Xa; unfold Qdiv; ring).
    rewrite (Qfloor_comp _ _ E), Xa. change (Qfloor 0) with 0%Z.
    change (inject_Z 0) with 0. ring.
  - destruct (Val_exponent x a mx ex X Mx Xa Ra) as (Ex' & Sa & Ba).
    destruct (Val_exponent y b my ey Y My Yb Rb) as (Ey' & _ & _).
    set (e := Z.min ex ey).
    assert (Px : (0 < 2 ^ (ex - e))%Z) by (apply Z.pow_pos_nonneg; lia).
    assert (Py : (0 < 2 ^ (ey - e))%Z) by (apply Z.pow_pos_nonneg; lia).
    set (A := (Zpos mx * 2 ^ (ex - e))%Z).
    set (B := (Zpos my * 2 ^ (ey - e))%Z).
    assert (HA : (0 < A)%Z) by (subst A; lia).
    assert (HB : (0 < B)%Z) by (subst B; lia).
    assert (Va : a == inject_Z A * pow2 e)
      by (rewrite Xa; apply shifted_value; lia).
    assert (Vb : b == inject_Z B * pow2 e)
      by (rewrite Yb; apply shifted_value; lia).
    pose proof (pow2_pos e) as Pe.
    assert (QB : 0 < inject_Z B)
      by (change 0 with (inject_Z 0); rewrite <- Zlt_Qlt; lia).
    assert (F : Qfloor (a / b) = (A / B)%Z).
    { apply Qfloor_quotient; [exact HB|].
      rewrite Va, Vb. field. split; lra. }
    pose proof (Z.div_mod A B ltac:(lia)) as Hqr.
    pose proof (Z.mod_pos_bound A B HB) as Hr.
    assert (V : a - b * inject_Z (Qfloor (a / b)) == inject_Z (A mod B) * pow2 e).
    { rewrite F, Va, Vb.
      assert (E : inject_Z A == inject_Z B * inject_Z (A / B) + inject_Z (A mod B)).
      { rewrite <- inject_Z_mult, <- inject_Z_plus, <- Hqr. reflexivity. }
      rewrite E. ring. }
    assert (Hlt : (A mod B < 2 ^ 53)%Z).
    { destruct (Z.le_ge_cases ex ey) as [H|H].
      - assert (A = Zpos mx).
        { subst A e. rewrite Z.min_l by lia. rewrite Z.sub_diag. lia. }
        pose proof (Z.mod_le A B ltac:(lia) HB). lia.
      - assert (B = Zpos my).
        { subst B e. rewrite Z.min_r by lia. rewrite Z.sub_diag. lia. }
        lia. }
    apply (Val_ext _ (inject_Z (A mod B) * pow2 e)); [|symmetry; exact V].
    unfold JS.rem. rewrite X, Y. fold e.
    rewrite !Z.shiftl_mul_pow2 by lia. fold A B.
    destruct (A mod B)%Z as [|r|r] eqn:ER; try lia.
    + left. split; [reflexivity|]. ring.
    + apply Val_unnormalised; lia.
Qed.

End Exact.

(** ** Order facts about binary64 comparisons *)

Module FloatOrder.

Lemma SFcompare_antisym x y c :
  SFcompare x y = Some c -> SFcompare y x = Some (CompOpp c).
Proof.
  destruct x as [[]|[]| |[] mx ex], y as [[]|[]| |[] my ey]; simpl;
    try (intros [= <-]; reflexivity); try discriminate;
    change (Pos.compare_cont Eq mx my) with (Pos.compare mx my);
    change (Pos.compare_cont Eq my mx) with (Pos.compare my mx);
    rewrite (Z.compare_antisym ex ey), (Pos.compare_antisym mx my);
    destruct (ex ?= ey)%Z, (mx ?= my)%positive; simpl;
    intros [= <-]; reflexivity.
Qed.

(** [a <= b] excludes [b < a]. *)
Lemma leb_not_ltb a b : PrimFloat.leb a b = true -> PrimFloat.ltb b a = false.
Proof.
  rewrite FloatAxioms.leb_spec, FloatAxioms.ltb_spec.
  unfold SFleb, SFltb.
  destruct (SFcompare (Prim2SF a) (Prim2SF b)) as [c|] eqn:E; [|discriminate].
  rewrite (SFcompare_antisym _ _ _ E). destruct c; simpl; congruence.
Qed.

(** [a < b] excludes [b <= a]. *)
Lemma ltb_not_leb a b : PrimFloat.ltb a b = true -> PrimFloat.leb b a = false.
Proof.
  rewrite FloatAxioms.leb_spec, FloatAxioms.ltb_spec.
  unfold SFleb, SFltb.
  destruct (SFcompare (Prim2SF a) (Prim2SF b)) as [c|] eqn:E; [|discriminate].
  rewrite (SFcompare_antisym _ _ _ E). destruct c; simpl; congruence.
Qed.

(** A number that compares is not NaN. *)
Lemma SFcompare_self x c y :
  SFcompare x y = Some c -> SFcompare x x = Some Eq.
Proof.
  destruct x as [[]|[]| |[] mx ex], y; simpl; try discriminate; intros _;
    try reflexivity;
    rewrite Z.compare_refl;
    change (Pos.compare_cont Eq mx mx) with (Pos.compare mx mx);
    rewrite Pos.compare_refl; reflexivity.
Qed.

Lemma ltb_not_nan_l a b : PrimFloat.ltb a b = true -> PrimFloat.is_nan a = false.
Proof.
  unfold PrimFloat.is_nan.
  rewrite FloatAxioms.ltb_spec, FloatAxioms.eqb_spec. unfold SFltb, SFeqb.
  destruct (SFcompare (Prim2SF a) (Prim2SF b)) as [c|] eqn:E; [|discriminate].
  rewrite (SFcompare_self _ _ _ E). reflexivity.
Qed.

Lemma ltb_not_nan_r a b : PrimFloat.ltb a b = true -> PrimFloat.is_nan b = false.
Proof.
  unfold PrimFloat.is_nan.
  rewrite FloatAxioms.ltb_spec, FloatAxioms.eqb_spec. unfold SFltb, SFeqb.
  destruct (SFcompare (Prim2SF a) (Prim2SF b)) as [c|] eqn:E; [|discriminate].
  apply SFcompare_antisym in E. rewrite (SFcompare_self _ _ _ E). reflexivity.
Qed.

(** [0 <= a] and [a < b] exclude [b < 0]. *)
Lemma nonneg_ltb_nonneg a b :
  PrimFloat.leb 0 a = true -> PrimFloat.ltb a b = true ->
  PrimFloat.ltb b 0 = false.
Proof.
  rewrite FloatAxioms.leb_spec, !FloatAxioms.ltb_spec.
  change (Prim2SF 0) with (S754_zero false).
  unfold SFleb, SFltb.
  destruct (Prim2SF a) as [[]|[]| |[] ma ea], (Prim2SF b) as [[]|[]| |[] mb eb];
    simpl; try discriminate; try reflexivity.
Qed.

End FloatOrder.

(* ===================================================================== *)
(** ** The cue index resolver *)
(* ===================================================================== *)

Section ResolverFacts.

Import Resolver.

Variable cues : list SubtitleCue.
Variable time : JS.number.

Lemma cueAt_elem i c : cueAt cues i = Some c -> c ∈ cues.
Proof.
  unfold cueAt. destruct (i <? 0); [discriminate|].
  apply list_elem_of_lookup_2.
Qed.

(** The loop never runs out of fuel: from [cues.length] on, more fuel
    changes nothing. *)
Lemma binarySearch_fuel fuel fuel' left right result :
  right - left + 1 <= Z.of_nat fuel ->
  right - left + 1 <= Z.of_nat fuel' ->
  binarySearch fuel cues time left right result
  = binarySearch fuel' cues time left right result.
Proof.
  revert fuel' left right result.
  induction fuel as [|fuel IH]; intros fuel' left right result Hf Hf'.
  - destruct fuel' as [|fuel']; [reflexivity|]. simpl.
    destruct (Z.leb_spec left right); [lia|reflexivity].
  - destruct fuel' as [|fuel']; simpl.
    + destruct (Z.leb_spec left right); [lia|reflexivity].
    + destruct (Z.leb_spec left right) as [Hle|]; [|reflexivity].
      assert (left <= (left + right) / 2 <= right)
        by (split; [apply Z.div_le_lower_bound|apply Z.div_le_upper_bound]; lia).
      destruct (cueAt cues ((left + right) / 2)); [|reflexivity].
      destruct (_ && _); [reflexivity|].
      destruct (JS.lt _ _); apply IH; lia.
Qed.

(** What the search returns is [result], or the index of a cue it looked
    at that starts at or before [time]. *)
Lemma binarySearch_starts_before fuel left right result :
  (result = -1 \/
   exists c, cueAt cues result = Some c /\ JS.ge time (cue_start c) = true) ->
  let r := binarySearch fuel cues time left right result in
  r = -1 \/ exists c, cueAt cues r = Some c /\ JS.ge time (cue_start c) = true.
Proof.
  revert left right result.
  induction fuel as [|fuel IH]; intros left right result Hres; simpl; [assumption|].
  destruct (left <=? right); [|assumption].
  destruct (cueAt cues ((left + right) / 2)) as [cue|] eqn:Hcue; [|assumption].
  destruct (JS.ge time (cue_start cue)) eqn:Hge; simpl.
  - destruct (JS.lt time (cue_end cue)); [right; eauto|].
    destruct (JS.lt time (cue_start cue)); apply IH; [assumption|right; eauto].
  - destruct (JS.lt time (cue_start cue)); apply IH; assumption.
Qed.

(** Before the start of every cue the search finds nothing. *)
Lemma binarySearch_before_all fuel left right :
  (forall c, c ∈ cues -> JS.ge time (cue_start c) = false) ->
  binarySearch fuel cues time left right (-1) = -1.
Proof.
  intros Hall. revert left right.
  induction fuel as [|fuel IH]; intros left right; simpl; [reflexivity|].
  destruct (left <=? right); [|reflexivity].
  destruct (cueAt cues ((left + right) / 2)) as [cue|] eqn:Hcue; [|reflexivity].
  rewrite (Hall cue (cueAt_elem _ _ Hcue)). simpl.
  destruct (JS.lt time (cue_start cue)); apply IH.
Qed.

Lemma hintPath_starts_before hintIndex r :
  hintPath cues time hintIndex = Some r ->
  r = -1 \/ exists c, cueAt cues r = Some c /\ JS.ge time (cue_start c) = true.
Proof.
  unfold hintPath.
  destruct (_ && _); [|discriminate].
  destruct (cueAt cues hintIndex) as [c|] eqn:Hc.
  - destruct (JS.ge time (cue_start c)) eqn:Hge; simpl.
    + destruct (JS.lt time (cue_end c)).
      { intros [= <-]. right; eauto. }
      destruct (_ <? _); [|discriminate].
      destruct (cueAt cues (hintIndex + 1)) as [n|] eqn:Hn; [|discriminate].
      destruct (JS.ge time (cue_start n)) eqn:Hgn; simpl.
      * destruct (JS.lt time (cue_end n)).
        { intros [= <-]. right; eauto. }
        destruct (_ && _); [intros [= <-]; left; reflexivity|discriminate].
      * destruct (_ && _); [intros [= <-]; left; reflexivity|discriminate].
    + destruct (_ <? _); [|discriminate].
      destruct (cueAt cues (hintIndex + 1)) as [n|] eqn:Hn; [|discriminate].
      destruct (JS.ge time (cue_start n)) eqn:Hgn; simpl.
      * destruct (JS.lt time (cue_end n)).
        { intros [= <-]. right; eauto. }
        destruct (_ && _); [intros [= <-]; left; reflexivity|discriminate].
      * destruct (_ && _); [intros [= <-]; left; reflexivity|discriminate].
  - destruct (_ <? _); [|discriminate].
    destruct (cueAt cues (hintIndex + 1)) as [n|] eqn:Hn; [|discriminate].
    destruct (JS.ge time (cue_start n)) eqn:Hgn; simpl; [|discriminate].
    destruct (JS.lt time (cue_end n)); [|discriminate].
    intros [= <-]. right; eauto.
Qed.

Lemma hintPath_before_all hintIndex r :
  (forall c, c ∈ cues -> JS.ge time (cue_start c) = false) ->
  hintPath cues time hintIndex = Some r -> r = -1.
Proof.
  intros Hall H.
  destruct (hintPath_starts_before _ _ H) as [->|(c & Hc & Hge)]; [reflexivity|].
  rewrite (Hall c (cueAt_elem _ _ Hc)) in Hge. discriminate.
Qed.

(** The gap test of the hint path. *)
Lemma hintPath_gap hintIndex c n :
  cueAt cues hintIndex = Some c ->
  cueAt cues (hintIndex + 1) = Some n ->
  JS.ge time (cue_end c) = true ->
  JS.lt time (cue_start n) = true ->
  hintPath cues time hintIndex = Some (-1).
Proof.
  intros Hc Hn Hend Hstart. unfold hintPath.
  assert (Hin : 0 <= hintIndex /\ hintIndex + 1 < Z.of_nat (length cues)).
  { unfold cueAt in Hc, Hn.
    destruct (Z.ltb_spec hintIndex 0); [discriminate|].
    destruct (Z.ltb_spec (hintIndex + 1) 0); [discriminate|].
    apply lookup_lt_Some in Hn. lia. }
  destruct (Z.leb_spec 0 hintIndex); [|lia].
  destruct (Z.ltb_spec hintIndex (Z.of_nat (length cues))); [|lia].
  destruct (Z.ltb_spec (hintIndex + 1) (Z.of_nat (length cues))); [|lia].
  simpl. rewrite Hc, Hn.
  unfold JS.ge, JS.lt in *.
  rewrite (FloatOrder.leb_not_ltb _ _ Hend), andb_false_r.
  rewrite (FloatOrder.ltb_not_leb _ _ Hstart). simpl.
  rewrite Hend, Hstart. reflexivity.
Qed.

End ResolverFacts.

(** C2 fails on the code: in the gap the hint path answers -1 and the
    search from scratch answers the cue before the gap. *)
Theorem findIndexAtTime_hint_disagrees :
  Resolver.findIndexAtTime gapCues 1.5 0 = -1
  /\ Resolver.findIndexAtTime gapCues 1.5 (-1) = 0.
Proof. split; vm_compute; reflexivity. Qed.


(* ===================================================================== *)
(** ** The playback mode state store *)
(* ===================================================================== *)

(** Case analysis on every flag of a store state. *)
Ltac flags :=
  repeat match goal with
         | b : bool |- _ => destruct b
         end.

Section StoreFacts.

Import MediaStore.

(** Every function below is total: an action always returns a state and
    raises nothing. *)

Lemma enableLoop_modes start end_ s :
  activeModes (enableLoop start end_ s) = [SimpleLoop].
Proof. destruct s. flags; reflexivity. Qed.

Lemma enableShadowing_modes s :
  activeModes (enableShadowing s) = [Shadowing].
Proof. destruct s. flags; reflexivity. Qed.

Lemma startSegmentLoop_modes start end_ count index w :
  activeModes (store (startSegmentLoop start end_ count index w))
  = [SegmentLoop].
Proof.
  destruct w as [s c]. destruct s as [? ? ? ? ? ? ? [r|]].
  all: flags; reflexivity.
Qed.

Lemma enableABRepeat_modes s :
  pointsInOrder s = true -> activeModes (enableABRepeat s) = [ABRepeat].
Proof.
  unfold pointsInOrder, enableABRepeat.
  destruct (pointA s) as [a|], (pointB s) as [b|]; try discriminate.
  intros ->. destruct s. flags; reflexivity.
Qed.

Lemma enableABRepeat_ignored s :
  pointsInOrder s = false -> enableABRepeat s = s.
Proof.
  unfold pointsInOrder, enableABRepeat.
  destruct (pointA s), (pointB s); try reflexivity.
  intros ->. reflexivity.
Qed.

End StoreFacts.

(** C3, as stated, fails at [enableABRepeat] when the points are not set:
    it leaves a simple loop running and does not become active; and from a
    state that has two modes active it leaves both. *)
Lemma enableABRepeat_without_points_disables_nothing :
  let looping := MediaStore.enableLoop 1 2 MediaStore.initialState in
  let both := MediaStore.set_shadowingEnabled true looping in
  MediaStore.activeModes looping = [MediaStore.SimpleLoop]
  /\ MediaStore.activeModes (MediaStore.enableABRepeat looping)
     = [MediaStore.SimpleLoop]
  /\ MediaStore.activeModes (MediaStore.enableABRepeat both)
     = [MediaStore.SimpleLoop; MediaStore.Shadowing].
Proof. repeat split. Qed.

(** C3 (amended): from every store state, [enableLoop], [startSegmentLoop]
    and [enableShadowing] leave exactly their own mode active among the four,
    and so does [enableABRepeat] when both points are set with B after A;
    otherwise [enableABRepeat] changes nothing. *)
Theorem enable_leaves_one_mode s :
  (forall start end_,
      MediaStore.activeModes (MediaStore.enableLoop start end_ s)
      = [MediaStore.SimpleLoop])
  /\ (forall start end_ count index calls,
        MediaStore.activeModes
          (MediaStore.store
             (MediaStore.startSegmentLoop start end_ count index
                (MediaStore.mkWorld s calls)))
        = [MediaStore.SegmentLoop])
  /\ MediaStore.activeModes (MediaStore.enableShadowing s)
     = [MediaStore.Shadowing]
  /\ (MediaStore.pointsInOrder s = true ->
      MediaStore.activeModes (MediaStore.enableABRepeat s)
      = [MediaStore.ABRepeat])
  /\ (MediaStore.pointsInOrder s = false -> MediaStore.enableABRepeat s = s).
Proof.
  repeat split; intros.
  - apply enableLoop_modes.
  - apply startSegmentLoop_modes.
  - apply enableShadowing_modes.
  - apply enableABRepeat_modes; assumption.
  - apply enableABRepeat_ignored; assumption.
Qed.

(** The amended C3 on a shadowing session with both points set. *)
Lemma enable_leaves_one_mode_witness :
  let s := MediaStore.enableShadowing
             (MediaStore.set_pointB (Some 9%float)
                (MediaStore.set_pointA (Some 4%float) MediaStore.initialState)) in
  MediaStore.activeModes s = [MediaStore.Shadowing]
  /\ MediaStore.activeModes (MediaStore.enableABRepeat s) = [MediaStore.ABRepeat].
Proof.
  split; [reflexivity|].
  apply (proj1 (proj2 (proj2 (proj2 (enable_leaves_one_mode _))))).
  reflexivity.
Defined.

(** C5, as stated, fails: with point A at 1, [setPointB 2] records B and
    leaves A/B repeat disabled. *)
Lemma setPointB_does_not_enable :
  let s := MediaStore.setPointB 2 (MediaStore.setPointA 1 MediaStore.initialState) in
  MediaStore.pointA s = Some 1%float /\ MediaStore.pointB s = Some 2%float
  /\ MediaStore.abRepeatEnabled s = false.
Proof. repeat split. Qed.

(** C5 (amended): with point A set to a valid value [a] and [t > a],
    [setPointB t] records [pointB = t] and changes nothing else, so A/B
    repeat stays as it was.  It takes a separate call of
    [enableABRepeat]: made after [setPointB t], it leaves A/B repeat as
    the only active mode. *)
Theorem setPointB_then_enableABRepeat s a t :
  MediaStore.pointA s = Some a ->
  JS.ge a 0 = true ->
  JS.gt t a = true ->
  MediaStore.setPointB t s = MediaStore.set_pointB (Some t) s
  /\ MediaStore.abRepeatEnabled (MediaStore.setPointB t s)
     = MediaStore.abRepeatEnabled s
  /\ MediaStore.activeModes
       (MediaStore.enableABRepeat (MediaStore.setPointB t s))
     = [MediaStore.ABRepeat].
Proof.
  intros HA Hvalid Hgt. unfold JS.ge, JS.gt in *.
  assert (Hset : MediaStore.setPointB t s = MediaStore.set_pointB (Some t) s).
  { unfold MediaStore.setPointB, JS.isNaN, JS.lt, JS.gt.
    rewrite (FloatOrder.ltb_not_nan_r _ _ Hgt).
    rewrite (FloatOrder.nonneg_ltb_nonneg _ _ Hvalid Hgt).
    simpl. rewrite HA, Hgt. reflexivity. }
  rewrite Hset. repeat split.
  apply enableABRepeat_modes.
  unfold MediaStore.pointsInOrder. simpl. rewrite HA. exact Hgt.
Qed.

(** The amended C5 with A at 1 and B at 2. *)
Lemma setPointB_then_enableABRepeat_witness :
  let s := MediaStore.setPointA 1 MediaStore.initialState in
  MediaStore.abRepeatEnabled (MediaStore.setPointB 2 s) = false
  /\ MediaStore.activeModes
       (MediaStore.enableABRepeat (MediaStore.setPointB 2 s))
     = [MediaStore.ABRepeat].
Proof.
  pose proof (setPointB_then_enableABRepeat
                (MediaStore.setPointA 1 MediaStore.initialState) 1 2
                eq_refl eq_refl eq_refl) as (_ & H1 & H2).
  split; [exact H1 | exact H2].
Defined.

(** C6: [setPointA] rejects a negative or NaN time, and [setPointB] rejects
    a negative or NaN time, a time that is not strictly after point A, and
    any time while point A is not set; a rejected call returns the store
    state it was given. *)
Theorem invalid_points_rejected s t :
  (JS.isNaN t = true \/ JS.lt t 0 = true -> MediaStore.setPointA t s = s)
  /\ (JS.isNaN t = true \/ JS.lt t 0 = true \/ MediaStore.pointA s = None
      \/ (exists a, MediaStore.pointA s = Some a /\ JS.gt t a = false) ->
      MediaStore.setPointB t s = s).
Proof.
  unfold MediaStore.setPointA, MediaStore.setPointB. split.
  - intros [-> | ->]; [reflexivity | apply orb_true_r || (rewrite orb_true_r; reflexivity)].
  - intros H. destruct (JS.isNaN t || JS.lt t 0) eqn:E; [reflexivity|].
    apply orb_false_elim in E as [E1 E2].
    destruct H as [H | [H | [H | (a & H & Hle)]]]; try congruence.
    + rewrite H. reflexivity.
    + rewrite H, Hle. reflexivity.
Qed.

(** C6 at the examples of the specification: [setPointB 5] with no point
    A, [setPointB 3] after [setPointA 5], and a negative point A. *)
Lemma invalid_points_rejected_witness :
  let s5 := MediaStore.setPointA 5 MediaStore.initialState in
  MediaStore.setPointB 5 MediaStore.initialState = MediaStore.initialState
  /\ MediaStore.setPointB 3 s5 = s5
  /\ MediaStore.setPointA (-1) s5 = s5
  /\ MediaStore.setPointA PrimFloat.nan s5 = s5.
Proof.
  intros s5. split; [|split; [|split]].
  - apply (proj2 (invalid_points_rejected MediaStore.initialState 5)).
    right; right; left; reflexivity.
  - apply (proj2 (invalid_points_rejected _ 3)).
    right; right; right. exists 5%float. split; reflexivity.
  - apply (proj1 (invalid_points_rejected _ (-1))). right; reflexivity.
  - apply (proj1 (invalid_points_rejected _ PrimFloat.nan)). left; reflexivity.
Defined.

(* ===================================================================== *)
(** ** The synchronisation driver *)
(* ===================================================================== *)

(** *** Shadowing pause *)

(** A number equal to a finite non-zero number is that number. *)
Lemma eqb_finite a c s m e :
  Prim2SF c = S754_finite s m e -> PrimFloat.eqb a c = true -> a = c.
Proof.
  intros Hc. rewrite FloatAxioms.eqb_spec, Hc. unfold SFeqb.
  intros H. apply Prim2SF_inj. rewrite Hc.
  destruct (Prim2SF a) as [sa|sa| |sa ma ea]; simpl in H.
  - destruct s; discriminate.
  - destruct sa, s; discriminate.
  - discriminate.
  - change (Pos.compare_cont Eq ma m) with (Pos.compare ma m) in H.
    destruct sa, s; try discriminate;
      destruct (Z.compare ea e) eqn:Ez; try discriminate;
      destruct (Pos.compare ma m) eqn:Ep; try discriminate;
      apply Z.compare_eq in Ez; apply Pos.compare_eq in Ep; subst;
      reflexivity.
Qed.

(** C8, as stated, fails: a pause factor of 1.105 is not 1.1 and is above
    1.0, so the specified pause for a one-second sentence is
    [max(1500, 1105) = 1500] ms; the driver waits 2100 ms, the adaptive
    pause. *)
Lemma pause_factor_near_adaptive :
  PrimFloat.eqb 1.105 1.1 = false
  /\ pauseDurationAsSpecified 1 1.105 = 1500%float
  /\ MediaSync.dynamicPauseDuration 1 1.105 = 2100%float.
Proof. repeat split. Qed.

(** C8 (amended): the adaptive tier covers every pause factor within 0.01
    of 1.1, [|pauseFactor - 1.1| < 0.01], where the pause is
    [d*1000*1.1 + 1000]; for every other pause factor the pause is the
    specified one: [max(1000, d*1000*pauseFactor)] when
    [pauseFactor <= 1.0] and [max(1500, d*1000*pauseFactor)] otherwise.  In
    particular (1.1, 2.0 s) gives 3200 ms, (0.8, 0.5 s) gives 1000 ms and
    (2.0, 1.0 s) gives 2000 ms. *)
Theorem dynamicPauseDuration_tiers d pauseFactor :
  (JS.lt (JS.Math_abs (pauseFactor - 1.1)%float) 0.01 = true ->
   MediaSync.dynamicPauseDuration d pauseFactor = (d * 1000 * 1.1 + 1000)%float)
  /\ (JS.lt (JS.Math_abs (pauseFactor - 1.1)%float) 0.01 = false ->
      MediaSync.dynamicPauseDuration d pauseFactor
      = pauseDurationAsSpecified d pauseFactor)
  /\ MediaSync.dynamicPauseDuration 2.0 1.1 = 3200%float
  /\ MediaSync.dynamicPauseDuration 0.5 0.8 = 1000%float
  /\ MediaSync.dynamicPauseDuration 1.0 2.0 = 2000%float.
Proof.
  unfold MediaSync.dynamicPauseDuration, pauseDurationAsSpecified.
  split; [|split; [|repeat split]].
  - intros ->. reflexivity.
  - intros H. rewrite H.
    destruct (PrimFloat.eqb pauseFactor 1.1) eqn:E; [|reflexivity].
    apply (eqb_finite _ _ false 4953959590107546%positive (-52)) in E;
      [|reflexivity].
    subst pauseFactor. discriminate H.
Qed.

(** The amended C8 at pause factors 1.095 (adaptive) and 1.5 (relaxed). *)
Lemma dynamicPauseDuration_tiers_witness :
  MediaSync.dynamicPauseDuration 2 1.095 = 3200%float
  /\ MediaSync.dynamicPauseDuration 2 1.5 = pauseDurationAsSpecified 2 1.5.
Proof.
  split.
  - apply (proj1 (dynamicPauseDuration_tiers 2 1.095)). reflexivity.
  - apply (proj1 (proj2 (dynamicPauseDuration_tiers 2 1.5))). reflexivity.
Defined.

(** *** Segment loop *)

Section SegmentLoopFacts.

Import MediaStore MediaSync.

Lemma quiet_refl d : quiet d d.
Proof. repeat split. Qed.

Lemma quiet_trans d1 d2 d3 : quiet d1 d2 -> quiet d2 d3 -> quiet d1 d3.
Proof. unfold quiet. intros (-> & -> & ->) (-> & -> & ->). repeat split. Qed.

Lemma setActiveIndex_quiet i d : quiet d (onState (setActiveIndex i) d).
Proof.
  unfold quiet, onState, onWorld, onStore, setActiveIndex. simpl.
  repeat match goal with
         | |- context [if ?b then _ else _] => destruct b
         end; repeat split.
Qed.

Lemma setActiveWordIndex_quiet i d : quiet d (onState (setActiveWordIndex i) d).
Proof.
  unfold quiet, onState, onWorld, onStore, setActiveWordIndex. simpl.
  destruct (_ =? _); repeat split.
Qed.

Lemma setCurrentTime_quiet t d : quiet d (onState (setCurrentTime t) d).
Proof. repeat split. Qed.

Lemma set_wordCache_quiet i ws d : quiet d (onRefs (set_wordCache i ws) d).
Proof. repeat split. Qed.

Lemma syncSubtitles_quiet p t state d : quiet d (syncSubtitles p t state d).
Proof.
  unfold syncSubtitles.
  assert (Hreset : forall d', quiet d d' -> quiet d
            (if negb (activeWordIndex state =? -1)
             then onState (setActiveWordIndex (-1)) d' else d')).
  { intros d' H. destruct (negb (activeWordIndex state =? -1)); [|exact H].
    eapply quiet_trans; [exact H | apply setActiveWordIndex_quiet]. }
  destruct (0 <? _); [|apply Hreset, quiet_refl].
  set (newIndex := Resolver.findIndexAtTime _ _ _).
  set (d1 := if negb (newIndex =? activeIndex state)
             then onState (setActiveIndex newIndex) d else d).
  assert (H1 : quiet d d1).
  { subst d1. destruct (negb (newIndex =? activeIndex state));
      [apply setActiveIndex_quiet | apply quiet_refl]. }
  destruct (_ && _ && _); [|apply Hreset, H1].
  destruct (cueAt _ newIndex) as [cue|]; [|exact H1].
  set (d2 := if bool_decide _ then d1 else _).
  assert (H2 : quiet d d2).
  { subst d2. destruct (bool_decide _); [exact H1|].
    eapply quiet_trans; [exact H1 | apply set_wordCache_quiet]. }
  destruct (_ && _); [|apply Hreset, H2].
  destruct (JS.toInteger _) as [z|]; [|exact H2].
  destruct (negb (z =? activeWordIndex state)); [|exact H2].
  eapply quiet_trans; [exact H2 | apply setActiveWordIndex_quiet].
Qed.

Lemma syncShadowing_quiet p t state d :
  shadowingEnabled state = false -> quiet d (syncShadowing p t state d).
Proof.
  intros H. unfold syncShadowing. rewrite H, andb_false_r. simpl.
  destruct (isShadowingWaiting _); repeat split.
Qed.

Lemma syncSegmentPlay_quiet t d :
  segmentPlayEnabled (store (world d)) = false ->
  syncSegmentPlay t d = d.
Proof. intros H. unfold syncSegmentPlay. rewrite H. reflexivity. Qed.

(** What a frame does, up to the boundary actions: [before] is the driver
    the boundary actions start from. *)
Lemma syncLoop_frame p t now d :
  player p = true ->
  JS.lt (JS.Math_abs (t - lastTime (refs d))%float) 0.01 = false ->
  shadowingEnabled (store (world d)) = false ->
  exists before,
    modeFields (store (world before)) = modeFields (store (world d))
    /\ calls (world before) = calls (world d)
    /\ lastTime (refs before) = t
    /\ syncLoop p t now d
       = onRefs (set_rafId true)
           (syncSegmentPlay t (syncLoopControl p t (store (world d)) before)).
Proof.
  intros Hp Hnew Hsh. unfold syncLoop. rewrite Hp, Hnew. simpl.
  set (d0 := onRefs (set_lastTime t) d).
  set (d1 := if JS.gt _ _ then _ else d0).
  assert (H1 : quiet d0 d1).
  { subst d1. destruct (JS.gt _ _); repeat split. }
  change (store (world d0)) with (store (world d)).
  set (d2 := syncSubtitles p t (store (world d)) d1).
  assert (H2 : quiet d1 d2) by apply syncSubtitles_quiet.
  set (d3 := syncShadowing p t (store (world d)) d2).
  assert (H3 : quiet d2 d3) by (apply syncShadowing_quiet; exact Hsh).
  destruct (quiet_trans _ _ _ (quiet_trans _ _ _ H1 H2) H3) as (Hm & Hc & Ht).
  exists d3. repeat split; assumption.
Qed.

Lemma activeModes_segmentLoop s :
  activeModes s = [SegmentLoop] ->
  loopEnabled s = false /\ segmentLoopEnabled s = true
  /\ abRepeatEnabled s = false /\ shadowingEnabled s = false.
Proof.
  unfold activeModes. simpl.
  destruct (loopEnabled s), (segmentLoopEnabled s), (abRepeatEnabled s),
    (shadowingEnabled s); simpl; intros [=]; repeat split.
Qed.

(** The rule of the boundary: while a segment loop is the active mode
    and the time has reached [loopEnd], the loop is left exactly when
    [completedReps >= totalReps - 1]. *)
Lemma syncLoopControl_segment p t state d :
  activeModes state = [SegmentLoop] ->
  JS.ge t (loopEnd state) = true ->
  syncLoopControl p t state d =
    if segmentLoopTotal state - 1 <=? segmentLoopCurrent state then
      if autoPlayNext p then onWorld playNextSegment d
      else onState stopSegmentLoop (onWorld (call PauseVideo) d)
    else
      onState incrementLoopCount (onWorld (call (SeekTo (loopStart state))) d).
Proof.
  intros Hm Ht. apply activeModes_segmentLoop in Hm as (_ & Hs & Ha & _).
  unfold syncLoopControl. rewrite Ha, Hs, Ht. simpl.
  destruct (Z.ltb_spec (segmentLoopCurrent state) (segmentLoopTotal state - 1)),
    (Z.leb_spec (segmentLoopTotal state - 1) (segmentLoopCurrent state));
    try lia; reflexivity.
Qed.

Lemma modeFields_segmentPlay s s' :
  modeFields s = modeFields s' -> segmentPlayEnabled s = segmentPlayEnabled s'.
Proof. unfold modeFields. intros [=]. assumption. Qed.

Lemma modeFields_incrementLoopCount s s' :
  modeFields s = modeFields s' ->
  modeFields (incrementLoopCount s) = modeFields (incrementLoopCount s').
Proof. unfold modeFields. simpl. intros [=]. congruence. Qed.

Lemma modeFields_stopSegmentLoop s s' :
  modeFields s = modeFields s' ->
  modeFields (stopSegmentLoop s) = modeFields (stopSegmentLoop s').
Proof. unfold modeFields. simpl. intros [=]. congruence. Qed.

(** A frame at the boundary of a segment loop that has repetitions left:
    seek to the start and count one repetition. *)
Lemma syncLoop_repeat p t now d :
  player p = true ->
  JS.lt (JS.Math_abs (t - lastTime (refs d))%float) 0.01 = false ->
  activeModes (store (world d)) = [SegmentLoop] ->
  segmentPlayEnabled (store (world d)) = false ->
  JS.ge t (loopEnd (store (world d))) = true ->
  segmentLoopCurrent (store (world d)) < segmentLoopTotal (store (world d)) - 1 ->
  modeFields (store (world (syncLoop p t now d)))
  = modeFields (incrementLoopCount (store (world d)))
  /\ calls (world (syncLoop p t now d))
     = calls (world d) ++ [SeekTo (loopStart (store (world d)))]
  /\ lastTime (refs (syncLoop p t now d)) = t.
Proof.
  intros Hp Hnew Hm Hsp Ht Hlt.
  destruct (activeModes_segmentLoop _ Hm) as (_ & _ & _ & Hsh).
  destruct (syncLoop_frame p t now d Hp Hnew Hsh) as (b & Hbm & Hbc & Hbt & ->).
  rewrite (syncLoopControl_segment _ _ _ _ Hm Ht).
  destruct (Z.leb_spec (segmentLoopTotal (store (world d)) - 1)
              (segmentLoopCurrent (store (world d)))); [lia|].
  rewrite syncSegmentPlay_quiet.
  - simpl. rewrite Hbc.
    split; [apply modeFields_incrementLoopCount; exact Hbm|].
    split; [reflexivity | exact Hbt].
  - simpl. rewrite <- Hsp. apply modeFields_segmentPlay. exact Hbm.
Qed.

(** What [playNextSegment] does to the count of repetitions: it restarts
    it, or leaves it. *)
Lemma playNextSegment_count w :
  (segmentLoopCurrent (store (playNextSegment w)) = 0
   \/ segmentLoopCurrent (store (playNextSegment w))
      = segmentLoopCurrent (store w))
  /\ (segmentPlayEnabled (store w) = false ->
      segmentPlayEnabled (store (playNextSegment w)) = false).
Proof.
  unfold playNextSegment.
  destruct (_ =? 0); [auto|].
  destruct (_ <=? _); [auto|].
  destruct (cueAt _ _) as [next|]; [|auto].
  destruct (negb _).
  - split; [left; reflexivity|].
    intros H. destruct w as [s c]. destruct s. simpl in H. subst.
    unfold startSegmentLoop, when. simpl.
    repeat match goal with
           | |- context [match ?b with _ => _ end] => destruct b; simpl
           end; reflexivity.
  - split; [right|intros H];
      destruct (playerRef _); simpl; try reflexivity; exact H.
Qed.

(** After [startSegmentLoop] the segment loop is the only active mode. *)
Lemma startSegmentLoop_fields start end_ count index w :
  let s := store (startSegmentLoop start end_ count index w) in
  activeModes s = [SegmentLoop] /\ segmentPlayEnabled s = false
  /\ loopStart s = start /\ loopEnd s = end_
  /\ segmentLoopTotal s = count /\ segmentLoopCurrent s = 0.
Proof.
  destruct w as [s c]. destruct s as [? ? ? ? ? ? ? [r|]]; flags; repeat split.
Qed.

Lemma incrementLoopCount_fields s :
  activeModes (incrementLoopCount s) = activeModes s
  /\ segmentPlayEnabled (incrementLoopCount s) = segmentPlayEnabled s
  /\ loopStart (incrementLoopCount s) = loopStart s
  /\ loopEnd (incrementLoopCount s) = loopEnd s
  /\ segmentLoopTotal (incrementLoopCount s) = segmentLoopTotal s
  /\ segmentLoopCurrent (incrementLoopCount s) = segmentLoopCurrent s + 1.
Proof. repeat split. Qed.

(** What the frame lemmas read from [modeFields]. *)
Lemma modeFields_read s s' :
  modeFields s = modeFields s' ->
  activeModes s = activeModes s'
  /\ segmentPlayEnabled s = segmentPlayEnabled s'
  /\ loopStart s = loopStart s' /\ loopEnd s = loopEnd s'
  /\ segmentLoopTotal s = segmentLoopTotal s'
  /\ segmentLoopCurrent s = segmentLoopCurrent s'.
Proof.
  unfold modeFields, activeModes. simpl. intros H. inversion H.
  repeat split; congruence.
Qed.

Lemma modeFields_cues s s' :
  modeFields s = modeFields s' ->
  subtitles s = subtitles s' /\ segmentLoopIndex s = segmentLoopIndex s'.
Proof. unfold modeFields. intros H. inversion H. split; congruence. Qed.

Lemma startSegmentLoop_cues start end_ count index w :
  subtitles (store (startSegmentLoop start end_ count index w))
  = subtitles (store w)
  /\ segmentLoopIndex (store (startSegmentLoop start end_ count index w))
     = index.
Proof.
  destruct w as [s c]. destruct s as [? ? ? ? ? ? ? [r|]]; flags; split; reflexivity.
Qed.

End SegmentLoopFacts.

(* ===================================================================== *)
(** ** The worker offload manager *)
(* ===================================================================== *)

Section WorkerFacts.

Import SubtitleWorkerManager.

(** A manager without worker and without pending request stays so, and
    settles no promise any more. *)
Lemma step_after_terminate e m :
  worker m = false -> pendingRequests m = ∅ ->
  worker (step e m) = false /\ pendingRequests (step e m) = ∅
  /\ settled (step e m) = settled m.
Proof.
  intros Hw Hp. destruct e as [text format onProgress|r|message|id|]; simpl.
  - unfold parse. rewrite Hw, orb_true_r. simpl. auto.
  - unfold handleMessage. rewrite Hp, lookup_empty. auto.
  - unfold handleError. rewrite Hp, map_fold_empty. simpl. auto.
  - unfold timeout. rewrite Hp, lookup_empty. auto.
  - auto.
Qed.

Lemma run_after_terminate es m :
  worker m = false -> pendingRequests m = ∅ ->
  worker (run es m) = false /\ pendingRequests (run es m) = ∅
  /\ settled (run es m) = settled m.
Proof.
  revert m. induction es as [|e es IH]; intros m Hw Hp; simpl; [auto|].
  destruct (step_after_terminate e m Hw Hp) as (Hw' & Hp' & Hs').
  destruct (IH _ Hw' Hp') as (? & ? & ->). auto.
Qed.

(** C10 fails on the code: a request is in flight (its promise is that of
    [request-0], pending and not settled); [terminate] releases the worker
    and empties the table, and whatever happens afterwards the promise is
    never settled: it is not rejected. *)
Theorem terminate_never_settles_pending text format onProgress es :
  let m1 := snd (parse text format onProgress (initial true)) in
  let m2 := run es (terminate m1) in
  fst (parse text format onProgress (initial true)) = OfRequest "request-0"
  /\ pendingRequests m1 !! "request-0"%string = Some (mkPendingRequest onProgress)
  /\ settled m1 !! "request-0"%string = None
  /\ worker m2 = false
  /\ settled m2 !! "request-0"%string = None.
Proof.
  intros m1 m2.
  destruct (run_after_terminate es (terminate m1) eq_refl eq_refl)
    as (Hw & _ & Hs).
  split; [reflexivity|]. split; [apply lookup_insert_eq|].
  split; [reflexivity|]. split; [exact Hw|].
  subst m2. rewrite Hs. reflexivity.
Qed.

End WorkerFacts.

(* ===================================================================== *)
(** ** The subtitle parser *)
(* ===================================================================== *)

(** C4, as stated, fails: [parse] turns [reversedAndBlank] into a cue from
    5 s to 1 s and a cue with empty text. *)
Lemma parse_keeps_reversed_and_blank_cues :
  map (fun c => (cue_start c, cue_end c, cue_text c))
    (SubtitleParser.parse latinLanguages latinLanguage reversedAndBlank None)
  = [(5%float, 1%float, "Hi"%string); (6%float, 7%float, ""%string)].
Proof. vm_compute. reflexivity. Qed.

Section ParserFacts.

Import SubtitleParser.

Variable separateLanguages : string -> list (string * string).
Variable detectLanguage : string -> string.

Lemma parseBlocks_Forall (P : SubtitleCue -> Prop) f i blocks :
  (forall i b c, f i b = Some c -> P c) ->
  Forall P (parseBlocks f i blocks).
Proof.
  intros Hf. revert i.
  induction blocks as [|b blocks IH]; intros i; simpl; [constructor|].
  destruct (f i b) as [c|] eqn:E; [constructor; eauto|apply IH].
Qed.

Lemma parseSRTBlock_id i b c :
  parseSRTBlock separateLanguages detectLanguage i b = Some c ->
  cue_id c <> ""%string.
Proof.
  unfold parseSRTBlock.
  repeat match goal with
         | |- context [match ?x with _ => _ end] => destruct x; try discriminate
         end.
  intros [= <-]. simpl. discriminate.
Qed.

Lemma parseVTTBlock_id i b c :
  parseVTTBlock separateLanguages detectLanguage i b = Some c ->
  cue_id c <> ""%string.
Proof.
  unfold parseVTTBlock.
  destruct (String.eqb b ""); [discriminate|].
  destruct (findTimeLine _ 0) as [k|]; [|discriminate].
  destruct (String.eqb (nth k _ _) ""); [discriminate|].
  destruct (matchTimeRange _ _) as [[m1 m2]|]; [|discriminate].
  intros [= <-]. simpl.
  destruct k as [|k]; [discriminate|].
  destruct (String.eqb_spec (nth k (map Str.trim (Str.split b Str.LF)) "") "");
    [discriminate | assumption].
Qed.

Lemma parse_ids text format :
  Forall (fun c => cue_id c <> ""%string)
    (parse separateLanguages detectLanguage text format).
Proof.
  unfold parse. destruct (_ || _); [constructor|].
  destruct (match format with Some f => f | None => detectFormat text end);
    try constructor.
  - apply parseBlocks_Forall, parseSRTBlock_id.
  - apply parseBlocks_Forall, parseVTTBlock_id.
Qed.

(** What [validate] checks. *)
Lemma validate_spec cues :
  validate cues = true <->
  cues <> [] /\
  Forall (fun c => cue_id c <> ""%string
                   /\ JS.lt (cue_start c) 0 = false
                   /\ JS.le (cue_end c) (cue_start c) = false
                   /\ cue_text c <> ""%string) cues.
Proof.
  assert (H : forall l,
             existsb invalidCue l = false <->
             Forall (fun c => cue_id c <> ""%string
                              /\ JS.lt (cue_start c) 0 = false
                              /\ JS.le (cue_end c) (cue_start c) = false
                              /\ cue_text c <> ""%string) l).
  { induction l as [|c l IH]; simpl.
    - split; [constructor | reflexivity].
    - rewrite orb_false_iff, IH, Forall_cons. unfold invalidCue.
      rewrite !orb_false_iff, !String.eqb_neq. tauto. }
  unfold validate. destruct cues as [|c l].
  - split; [discriminate | intros [[] _]; reflexivity].
  - rewrite negb_true_iff, H. split; [intros; split; [discriminate|assumption] | tauto].
Qed.

End ParserFacts.

(** *** Timestamps *)

Import SubtitleParser Str.

Section DigitFacts.

Local Open Scope string_scope.

(** A check on every number below [n] holds for each of them. *)
Lemma forall_below (P : Z -> bool) (n : nat) :
  forallb P (map Z.of_nat (seq 0 n)) = true ->
  forall z, (0 <= z < Z.of_nat n)%Z -> P z = true.
Proof.
  rewrite forallb_forall. intros H z Hz. apply H.
  apply in_map_iff. exists (Z.to_nat z). split; [lia|].
  apply in_seq. lia.
Qed.

Definition digit (c : ascii) : Z := Z.of_N (code c) - 48.

Lemma pad2_digits z :
  (0 <= z < 100)%Z ->
  padStart0 2 (decimal z)
  = String (digitChar (z / 10)) (String (digitChar (z mod 10)) "").
Proof.
  intros Hz.
  apply (forall_below
           (fun z => String.eqb (padStart0 2 (decimal z))
                       (String (digitChar (z / 10))
                          (String (digitChar (z mod 10)) ""))) 100) in Hz.
  - apply String.eqb_eq. exact Hz.
  - vm_compute. reflexivity.
Qed.

Lemma pad3_digits z :
  (0 <= z < 1000)%Z ->
  padStart0 3 (decimal z)
  = String (digitChar (z / 100))
      (String (digitChar (z / 10 mod 10)) (String (digitChar (z mod 10)) "")).
Proof.
  intros Hz.
  apply (forall_below
           (fun z => String.eqb (padStart0 3 (decimal z))
                       (String (digitChar (z / 100))
                          (String (digitChar (z / 10 mod 10))
                             (String (digitChar (z mod 10)) "")))) 1000) in Hz.
  - apply String.eqb_eq. exact Hz.
  - vm_compute. reflexivity.
Qed.

(** What the patterns and [parseInt] see of a digit. *)
Record isDigitChar (c : ascii) : Prop := {
  dc_digit : isDigit c = true;
  dc_space : isSpace c = false;
  dc_comma : eqc "," c = false;
  dc_minus : eqc c "-" = false;
  dc_plus : eqc c "+" = false
}.

Lemma digitChar_isDigitChar d :
  (0 <= d <= 9)%Z -> isDigitChar (digitChar d) /\ digit (digitChar d) = d.
Proof.
  intros Hd.
  assert (E : (d = 0 \/ d = 1 \/ d = 2 \/ d = 3 \/ d = 4 \/ d = 5 \/ d = 6
               \/ d = 7 \/ d = 8 \/ d = 9)%Z) by lia.
  repeat destruct E as [->|E]; try subst d; (split; [constructor|]); reflexivity.
Qed.

Lemma digit_bounds c : isDigitChar c -> (0 <= digit c <= 9)%Z.
Proof.
  intros [H _ _ _ _]. unfold isDigit in H. unfold digit.
  apply andb_true_iff in H as [H1 H2]. apply N.leb_le in H1, H2. lia.
Qed.

End DigitFacts.

Section ParseChars.

Local Open Scope string_scope.

Variables c1 c2 c3 c4 c5 c6 c7 c8 c9 : ascii.
Hypothesis D1 : isDigitChar c1.
Hypothesis D2 : isDigitChar c2.
Hypothesis D3 : isDigitChar c3.
Hypothesis D4 : isDigitChar c4.
Hypothesis D5 : isDigitChar c5.
Hypothesis D6 : isDigitChar c6.
Hypothesis D7 : isDigitChar c7.
Hypothesis D8 : isDigitChar c8.
Hypothesis D9 : isDigitChar c9.

Definition stamp (sep : ascii) : string :=
  String c1 (String c2 (String ":" (String c3 (String c4 (String ":"
    (String c5 (String c6 (String sep (String c7 (String c8 (String c9 ""))))))))))).

Local Arguments eqc : simpl nomatch.
Local Arguments isDigit : simpl nomatch.
Local Arguments isSpace : simpl nomatch.

Ltac digits :=
  repeat (simpl;
          rewrite ?(dc_digit _ D1), ?(dc_digit _ D2), ?(dc_digit _ D3),
            ?(dc_digit _ D4), ?(dc_digit _ D5), ?(dc_digit _ D6),
            ?(dc_digit _ D7), ?(dc_digit _ D8), ?(dc_digit _ D9),
            ?(dc_comma _ D1), ?(dc_comma _ D2), ?(dc_comma _ D3),
            ?(dc_comma _ D4), ?(dc_comma _ D5), ?(dc_comma _ D6),
            ?(dc_comma _ D7), ?(dc_comma _ D8), ?(dc_comma _ D9),
            ?(dc_space _ D1), ?(dc_space _ D3), ?(dc_space _ D5), ?(dc_space _ D7),
            ?(dc_minus _ D1), ?(dc_minus _ D3), ?(dc_minus _ D5), ?(dc_minus _ D7),
            ?(dc_plus _ D1), ?(dc_plus _ D3), ?(dc_plus _ D5), ?(dc_plus _ D7)).

Lemma commaToDot_stamp (sep : ascii) :
  sep = ","%char \/ sep = "."%char ->
  commaToDot (stamp sep) = stamp ".".
Proof.
  unfold commaToDot, replaceFirst, stamp, toPattern, lit.
  intros [-> | ->]; digits; reflexivity.
Qed.

Lemma search_stamp :
  search (toPattern (timestampRe ".")) (stamp ".") "" = Some ("", stamp ".", "").
Proof.
  unfold stamp, toPattern, timestampRe, sequence, times, andThen, one, lit.
  digits. reflexivity.
Qed.

Lemma parseTimestamp_stamp (sep : ascii) :
  sep = ","%char \/ sep = "."%char ->
  parseTimestamp (stamp sep)
  = (JS.of_Z (10 * digit c1 + digit c2) * 3600
     + JS.of_Z (10 * digit c3 + digit c4) * 60
     + JS.of_Z (10 * digit c5 + digit c6)
     + JS.of_Z (100 * digit c7 + 10 * digit c8 + digit c9) / 1000)%float.
Proof.
  intros Hsep. unfold parseTimestamp.
  rewrite (commaToDot_stamp _ Hsep), search_stamp.
  unfold stamp, parseInt, integerOf, startsWith. digits. unfold digit.
  pose proof (digit_bounds _ D1). pose proof (digit_bounds _ D2).
  pose proof (digit_bounds _ D3). pose proof (digit_bounds _ D4).
  pose proof (digit_bounds _ D5). pose proof (digit_bounds _ D6).
  pose proof (digit_bounds _ D7). pose proof (digit_bounds _ D8).
  pose proof (digit_bounds _ D9). unfold digit in *.
  assert (M : forall c, isDigitChar c -> eqc "-" c = false).
  { intros c Hc. unfold eqc. rewrite Ascii.eqb_sym. apply (dc_minus _ Hc). }
  rewrite (M _ D1), (M _ D3), (M _ D5), (M _ D7), !andb_false_r.
  rewrite !ofInteger_of_Z by lia.
  repeat f_equal; lia.
Qed.

End ParseChars.

Section Render.

Local Open Scope string_scope.

(** A timestamp text parses to the sum of its four fields. *)
Lemma parseTimestamp_render h m s ms (sep : ascii) :
  (0 <= h < 100)%Z -> (0 <= m < 100)%Z -> (0 <= s < 100)%Z ->
  (0 <= ms < 1000)%Z ->
  sep = ","%char \/ sep = "."%char ->
  parseTimestamp (render h m s ms (String sep ""))
  = (JS.of_Z h * 3600 + JS.of_Z m * 60 + JS.of_Z s + JS.of_Z ms / 1000)%float.
Proof.
  intros Hh Hm Hs Hms Hsep. unfold render.
  rewrite (pad2_digits h Hh), (pad2_digits m Hm), (pad2_digits s Hs),
    (pad3_digits ms Hms).
  assert (D : forall d, (0 <= d <= 9)%Z ->
                isDigitChar (digitChar d) /\ digit (digitChar d) = d)
    by apply digitChar_isDigitChar.
  destruct (D (h / 10)%Z) as [H1 E1]; [Z.to_euclidean_division_equations; lia|].
  destruct (D (h mod 10)%Z) as [H2 E2]; [Z.to_euclidean_division_equations; lia|].
  destruct (D (m / 10)%Z) as [H3 E3]; [Z.to_euclidean_division_equations; lia|].
  destruct (D (m mod 10)%Z) as [H4 E4]; [Z.to_euclidean_division_equations; lia|].
  destruct (D (s / 10)%Z) as [H5 E5]; [Z.to_euclidean_division_equations; lia|].
  destruct (D (s mod 10)%Z) as [H6 E6]; [Z.to_euclidean_division_equations; lia|].
  destruct (D (ms / 100)%Z) as [H7 E7]; [Z.to_euclidean_division_equations; lia|].
  destruct (D (ms / 10 mod 10)%Z) as [H8 E8]; [Z.to_euclidean_division_equations; lia|].
  destruct (D (ms mod 10)%Z) as [H9 E9]; [Z.to_euclidean_division_equations; lia|].
  pose proof (parseTimestamp_stamp _ _ _ _ _ _ _ _ _ H1 H2 H3 H4 H5 H6 H7 H8 H9
                sep Hsep) as P.
  rewrite E1, E2, E3, E4, E5, E6, E7, E8, E9 in P.
  etransitivity; [exact P|].
  repeat f_equal; Z.to_euclidean_division_equations; lia.
Qed.

End Render.


Section RoundTrip.

Import Exact.
Local Open Scope Q_scope.

Lemma InRange_ext v v' : InRange v -> v == v' -> InRange v'.
Proof.
  intros [H|[H1 H2]] E; [left|right]; rewrite <- E; [exact H|split; assumption].
Qed.

Lemma InRange_integer n : (0 <= n <= 2 ^ 20)%Z -> InRange (inject_Z n).
Proof.
  intros Hn. destruct (Z.eq_dec n 0%Z) as [->|Hz]; [left; reflexivity|].
  right. unfold small, big.
  assert (1 <= inject_Z n) by (change 1 with (inject_Z 1); rewrite <- Zle_Qle; lia).
  assert (inject_Z n <= 1048576)
    by (change 1048576 with (inject_Z (2 ^ 20)); rewrite <- Zle_Qle; lia).
  split; lra.
Qed.

(** Sums and products of small integers are exact. *)
Lemma Val_mul_integer x y (p q : Z) :
  Val x (inject_Z p) -> Val y (inject_Z q) ->
  (0 <= p <= 2 ^ 20)%Z -> (0 <= q <= 2 ^ 20)%Z -> (p * q <= 2 ^ 20)%Z ->
  Val (x * y)%float (inject_Z (p * q)).
Proof.
  intros Hx Hy Hp Hq Hpq.
  assert (R : InRange (inject_Z p * inject_Z q)).
  { apply (InRange_ext (inject_Z (p * q))); [|rewrite inject_Z_mult; reflexivity].
    apply InRange_integer. nia. }
  destruct (Val_mul x y _ _ Hx Hy) as (r & Hr & _ & _ & Hn).
  - apply InRange_integer; exact Hp.
  - apply InRange_integer; exact Hq.
  - destruct R as [R|[R _]]; [left|right]; exact R.
  - destruct R as [R|[_ R]]; [rewrite R; discriminate|exact R].
  - apply (Val_ext _ r); [exact Hr|]. apply Hn. rewrite inject_Z_mult. reflexivity.
Qed.

Lemma Val_add_integer x y (p q : Z) :
  Val x (inject_Z p) -> Val y (inject_Z q) ->
  (0 <= p)%Z -> (0 <= q)%Z -> (p + q <= 2 ^ 20)%Z ->
  Val (x + y)%float (inject_Z (p + q)).
Proof.
  intros Hx Hy Hp Hq Hpq.
  assert (R : InRange (inject_Z p + inject_Z q)).
  { apply (InRange_ext (inject_Z (p + q))); [|rewrite inject_Z_plus; reflexivity].
    apply InRange_integer. lia. }
  destruct (Val_add x y _ _ Hx Hy) as (r & Hr & _ & _ & Hn).
  - apply InRange_integer; lia.
  - apply InRange_integer; lia.
  - destruct R as [R|[_ R]]; [rewrite R; discriminate|exact R].
  - apply (Val_ext _ r); [exact Hr|]. apply Hn. rewrite inject_Z_plus. reflexivity.
Qed.

Lemma Val_literals :
  Val 3600%float 3600 /\ Val 60%float 60 /\ Val 1000%float 1000 /\ Val 1%float 1.
Proof.
  assert (E3600 : 3600%float = JS.of_Z 3600) by (vm_compute; reflexivity).
  assert (E60 : 60%float = JS.of_Z 60) by (vm_compute; reflexivity).
  assert (E1000 : 1000%float = JS.of_Z 1000) by (vm_compute; reflexivity).
  assert (E1 : 1%float = JS.of_Z 1) by (vm_compute; reflexivity).
  rewrite E3600, E60, E1000, E1.
  repeat split; [exact (Val_of_Z 3600 ltac:(lia)) | exact (Val_of_Z 60 ltac:(lia))
                 | exact (Val_of_Z 1000 ltac:(lia)) | exact (Val_of_Z 1 ltac:(lia))].
Qed.

(** The digits of the floor of a number. *)
Lemma floor_string y r :
  Val y r -> r <= big -> numberToString (JS.Math_floor y) = decimal (Qfloor r).
Proof.
  intros Hy Hr. destruct (toInteger_floor y r Hy Hr) as [E B].
  unfold numberToString. rewrite E.
  destruct (Z.ltb_spec (Z.abs (Qfloor r)) (2 ^ 53)); [reflexivity|lia].
Qed.

(** An integer, or a value comfortably inside a unit interval, keeps its
    floor through a rounding. *)
Lemma floor_near v r (n : Z) :
  Near v r -> (0 <= n <= 1000)%Z ->
  v == inject_Z n
  \/ (inject_Z n + (2 # 10000000) <= v /\ v <= inject_Z n + 1 - (2 # 10000000)) ->
  Qfloor r = n /\ r <= big.
Proof.
  intros (N1 & N2 & N3) Hn Hv.
  assert (B0 : 0 <= inject_Z n)
    by (change 0 with (inject_Z 0); rewrite <- Zle_Qle; lia).
  assert (B1 : inject_Z n <= 1000)
    by (change 1000 with (inject_Z 1000); rewrite <- Zle_Qle; lia).
  unfold eps, big in *.
  destruct Hv as [E|[Hl Hu]].
  - specialize (N3 n E). split; [|lra].
    rewrite (Qfloor_comp _ _ N3). apply Qfloor_Z.
  - split; [|lra]. apply Qfloor_unique; lra.
Qed.

Section Fields.

Variables h m s ms : Z.
Hypothesis Hh : (0 <= h < 100)%Z.
Hypothesis Hm : (0 <= m < 60)%Z.
Hypothesis Hs : (0 <= s < 60)%Z.
Hypothesis Hms : (0 <= ms < 1000)%Z.

Let hQ := inject_Z h.
Let mQ := inject_Z m.
Let sQ := inject_Z s.
Let msQ := inject_Z ms.
Let nQ := 3600 * hQ + 60 * mQ + sQ.

(** The value [parseTimestamp] computes: the whole seconds exactly when the
    millisecond field is 000, and otherwise within 0.00004 of the value
    of the text. *)
Definition near (x : Q) : Prop :=
  (ms = 0%Z /\ x == nQ)
  \/ ((1 <= ms)%Z
      /\ nQ + msQ * (1 # 1000) - (4 # 100000) <= x
      /\ x <= nQ + msQ * (1 # 1000) + (4 # 100000)).

Lemma bounds :
  0 <= hQ /\ hQ <= 99 /\ 0 <= mQ /\ mQ <= 59 /\ 0 <= sQ /\ sQ <= 59
  /\ 0 <= msQ /\ msQ <= 999.
Proof.
  unfold hQ, mQ, sQ, msQ.
  change 0 with (inject_Z 0). change 99 with (inject_Z 99).
  change 59 with (inject_Z 59). change 999 with (inject_Z 999).
  rewrite <- !Zle_Qle. lia.
Qed.

Lemma nQ_inject : nQ == inject_Z (3600 * h + 60 * m + s).
Proof.
  unfold nQ, hQ, mQ, sQ. rewrite !inject_Z_plus, !inject_Z_mult. reflexivity.
Qed.

Lemma parsed_near :
  exists X,
    Val (JS.of_Z h * 3600 + JS.of_Z m * 60 + JS.of_Z s + JS.of_Z ms / 1000)%float X
    /\ near X.
Proof.
  destruct bounds as (B1 & B2 & B3 & B4 & B5 & B6 & B7 & B8).
  destruct Val_literals as (L3600 & L60 & L1000 & _).
  pose proof (Val_mul_integer _ _ h 3600 (Val_of_Z h ltac:(lia)) L3600
                ltac:(lia) ltac:(lia) ltac:(lia)) as V1.
  pose proof (Val_mul_integer _ _ m 60 (Val_of_Z m ltac:(lia)) L60
                ltac:(lia) ltac:(lia) ltac:(lia)) as V2.
  pose proof (Val_add_integer _ _ _ _ V1 V2 ltac:(lia) ltac:(lia) ltac:(lia)) as V3.
  pose proof (Val_add_integer _ _ _ _ V3 (Val_of_Z s ltac:(lia))
                ltac:(lia) ltac:(lia) ltac:(lia)) as V4.
  set (xi := (JS.of_Z h * 3600 + JS.of_Z m * 60 + JS.of_Z s)%float) in *.
  assert (EI : inject_Z (h * 3600 + m * 60 + s) == nQ).
  { unfold nQ, hQ, mQ, sQ. rewrite !inject_Z_plus, !inject_Z_mult.
    change (inject_Z 3600) with 3600. change (inject_Z 60) with 60. ring. }
  apply (fun V => Val_ext _ _ _ V EI) in V4.
  assert (RI : InRange nQ).
  { apply (InRange_ext (inject_Z (h * 3600 + m * 60 + s))); [|exact EI].
    apply InRange_integer. lia. }
  pose proof (Val_of_Z ms ltac:(lia)) as Vms. fold msQ in Vms.
  assert (Rms : InRange msQ) by (apply InRange_integer; lia).
  assert (Q0 : msQ / 1000 == msQ * (1 # 1000)) by reflexivity.
  unfold near. destruct (Z.eq_dec ms 0%Z) as [Z0|NZ].
  - assert (M0 : msQ == 0) by (unfold msQ; rewrite Z0; reflexivity).
    assert (D1 : msQ / 1000 == 0 \/ small <= msQ / 1000)
      by (left; rewrite Q0, M0; reflexivity).
    assert (D2 : msQ / 1000 <= big) by (unfold big; rewrite Q0; lra).
    destruct (Val_div _ _ _ _ Vms L1000 Rms ltac:(unfold small; lra)
                ltac:(unfold big; lra) D1 D2) as (c & Vc & _ & _ & Nc).
    assert (C0 : c == 0).
    { apply (Nc 0%Z). rewrite Q0, M0. reflexivity. }
    assert (D3 : InRange c) by (left; exact C0).
    assert (D4 : nQ + c <= big) by (unfold big; rewrite C0; unfold nQ; lra).
    destruct (Val_add _ _ _ _ V4 Vc RI D3 D4) as (X & VX & _ & _ & NX).
    exists X. split; [exact VX|]. left. split; [exact Z0|].
    rewrite <- EI. apply NX. rewrite C0, <- EI. ring.
  - assert (B9 : 1 <= msQ).
    { unfold msQ. change 1 with (inject_Z 1). rewrite <- Zle_Qle. lia. }
    assert (D1 : msQ / 1000 == 0 \/ small <= msQ / 1000)
      by (right; unfold small; rewrite Q0; lra).
    assert (D2 : msQ / 1000 <= big) by (unfold big; rewrite Q0; lra).
    destruct (Val_div _ _ _ _ Vms L1000 Rms ltac:(unfold small; lra)
                ltac:(unfold big; lra) D1 D2) as (c & Vc & C1 & C2 & _).
    rewrite Q0 in C1, C2. unfold eps in C1, C2.
    assert (D3 : InRange c) by (right; unfold small, big; split; lra).
    assert (D4 : nQ + c <= big) by (unfold big, nQ; lra).
    destruct (Val_add _ _ _ _ V4 Vc RI D3 D4) as (X & VX & X1 & X2 & _).
    unfold eps in X1, X2.
    exists X. split; [exact VX|]. right. split; [lia|].
    unfold nQ in *. split; lra.
Qed.

Variable x : float.
Variable X : Q.
Hypothesis Vx : Val x X.
Hypothesis Hx : near X.

(** [X] lies in the second of the text. *)
Lemma near_second : nQ <= X /\ X <= nQ + 1 - (9 # 10000).
Proof.
  destruct bounds as (B1 & B2 & B3 & B4 & B5 & B6 & B7 & B8).
  destruct Hx as [[_ E] | (H1 & Hl & Hu)].
  - rewrite E. lra.
  - assert (B9 : 1 <= msQ).
    { unfold msQ. change 1 with (inject_Z 1). rewrite <- Zle_Qle. lia. }
    lra.
Qed.

(** Zero, or well above the smallest value the arithmetic is exact to. *)
Definition sizable (v : Q) : Prop :=
  v == 0 \/ ((9 # 10000) <= v /\ v <= 400000).

Lemma sizable_InRange v : sizable v -> InRange v.
Proof.
  intros [H|[H1 H2]]; [left; exact H|right]. unfold small, big. split; lra.
Qed.

(** The part of [X] above [k * j] seconds, where the whole seconds above
    them are [i]. *)
Lemma above_sizable (k : Q) (j i : Z) :
  (0 <= i <= 399000)%Z -> nQ - k * inject_Z j == inject_Z i ->
  sizable (X - k * inject_Z j).
Proof.
  intros Hi Ei.
  destruct bounds as (B1 & B2 & B3 & B4 & B5 & B6 & B7 & B8).
  assert (I0 : 0 <= inject_Z i)
    by (change 0 with (inject_Z 0); rewrite <- Zle_Qle; lia).
  assert (I1 : inject_Z i <= 399000)
    by (change 399000 with (inject_Z 399000); rewrite <- Zle_Qle; lia).
  destruct Hx as [[Z0 E] | (H2 & Hl & Hu)].
  - destruct (Z.eq_dec i 0%Z) as [Zi|Zi].
    + left. rewrite E, Ei, Zi. reflexivity.
    + right. rewrite E, Ei.
      assert (1 <= inject_Z i)
        by (change 1 with (inject_Z 1); rewrite <- Zle_Qle; lia).
      split; lra.
  - assert (B9 : 1 <= msQ).
    { unfold msQ. change 1 with (inject_Z 1). rewrite <- Zle_Qle. lia. }
    right. split; lra.
Qed.

Lemma near_sizable : sizable X.
Proof.
  assert (E : X - 0 * inject_Z 0 == X) by ring.
  destruct (above_sizable 0 0 (3600 * h + 60 * m + s)) as [H|H].
  - lia.
  - rewrite nQ_inject. ring.
  - left. rewrite <- E. exact H.
  - right. rewrite <- E. exact H.
Qed.

Lemma near_InRange : InRange X.
Proof. apply sizable_InRange, near_sizable. Qed.

Lemma floor_3600 : Qfloor (X / 3600) = h.
Proof.
  destruct bounds as (B1 & B2 & B3 & B4 & B5 & B6 & B7 & B8).
  destruct near_second as [Hl Hu]. unfold nQ in *.
  assert (E : X / 3600 == X * (1 # 3600)) by reflexivity.
  rewrite (Qfloor_comp _ _ E).
  apply Qfloor_unique; fold hQ; lra.
Qed.

Lemma floor_60 : Qfloor (X / 60) = (60 * h + m)%Z.
Proof.
  destruct bounds as (B1 & B2 & B3 & B4 & B5 & B6 & B7 & B8).
  destruct near_second as [Hl Hu]. unfold nQ in *.
  assert (E : X / 60 == X * (1 # 60)) by reflexivity.
  rewrite (Qfloor_comp _ _ E).
  apply Qfloor_unique; rewrite inject_Z_plus, inject_Z_mult; fold hQ mQ;
    change (inject_Z 60) with 60; lra.
Qed.

Lemma floor_1 : Qfloor (X / 1) = (3600 * h + 60 * m + s)%Z.
Proof.
  destruct near_second as [Hl Hu]. rewrite nQ_inject in Hl, Hu.
  assert (E : X / 1 == X) by (unfold Qdiv; change (/ 1) with 1; ring).
  rewrite (Qfloor_comp _ _ E).
  apply Qfloor_unique; lra.
Qed.

Lemma hours_field :
  numberToString (JS.Math_floor (x / 3600)%float) = decimal h.
Proof.
  destruct bounds as (B1 & B2 & B3 & B4 & B5 & B6 & B7 & B8).
  destruct Val_literals as (L3600 & _).
  destruct near_second as [Hl Hu].
  assert (Q0 : X / 3600 == X * (1 # 3600)) by reflexivity.
  assert (D1 : X / 3600 == 0 \/ small <= X / 3600).
  { destruct near_sizable as [E|[E _]]; [left|right].
    - rewrite Q0, E. reflexivity.
    - unfold small in *. rewrite Q0. lra. }
  assert (D2 : X / 3600 <= big) by (unfold big; rewrite Q0; unfold nQ in *; lra).
  destruct (Val_div _ _ _ _ Vx L3600 near_InRange ltac:(unfold small; lra)
              ltac:(unfold big; lra) D1 D2) as (r & Vr & Nr).
  destruct (floor_near _ r h Nr ltac:(lia)) as [F B].
  - rewrite Q0. fold hQ.
    destruct Hx as [[_ E] | (H1 & Hl' & Hu')].
    + destruct (Z.eq_dec (60 * m + s)%Z 0%Z) as [Z0 | NZ].
      * left. rewrite E. unfold nQ.
        assert (E0 : 60 * mQ + sQ == 0).
        { unfold mQ, sQ. change 60 with (inject_Z 60).
          rewrite <- inject_Z_mult, <- inject_Z_plus, Z0. reflexivity. }
        lra.
      * right. rewrite E. unfold nQ.
        assert (B9 : 1 <= 60 * mQ + sQ).
        { unfold mQ, sQ. change 60 with (inject_Z 60). change 1 with (inject_Z 1).
          rewrite <- inject_Z_mult, <- inject_Z_plus, <- Zle_Qle. lia. }
        lra.
    + right.
      assert (B9 : 1 <= msQ).
      { unfold msQ. change 1 with (inject_Z 1). rewrite <- Zle_Qle. lia. }
      unfold nQ in *. lra.
  - rewrite (floor_string _ r Vr B), F. reflexivity.
Qed.

Lemma minutes_field :
  numberToString (JS.Math_floor (JS.rem x 3600 / 60)%float) = decimal m.
Proof.
  destruct bounds as (B1 & B2 & B3 & B4 & B5 & B6 & B7 & B8).
  destruct Val_literals as (L3600 & L60 & _).
  destruct near_second as [Hl Hu].
  pose proof (Val_rem _ _ _ _ Vx L3600 near_InRange) as Vr.
  rewrite floor_3600 in Vr. fold hQ in Vr.
  specialize (Vr ltac:(unfold small; lra) ltac:(unfold big; lra)).
  set (Y := X - 3600 * hQ) in *.
  assert (CY : sizable Y).
  { apply (above_sizable 3600 h (60 * m + s)); [lia|].
    unfold nQ. fold hQ. rewrite inject_Z_plus, inject_Z_mult. fold mQ sQ.
    change (inject_Z 60) with 60. ring. }
  pose proof (sizable_InRange _ CY) as RY.
  assert (Q0 : Y / 60 == Y * (1 # 60)) by reflexivity.
  assert (D1 : Y / 60 == 0 \/ small <= Y / 60).
  { destruct CY as [E|[E _]]; [left|right].
    - rewrite Q0, E. reflexivity.
    - unfold small in *. rewrite Q0. lra. }
  assert (D2 : Y / 60 <= big) by (unfold big; rewrite Q0; unfold Y, nQ in *; lra).
  destruct (Val_div _ _ _ _ Vr L60 RY ltac:(unfold small; lra)
              ltac:(unfold big; lra) D1 D2) as (r & Vq & Nr).
  destruct (floor_near _ r m Nr ltac:(lia)) as [F B].
  - rewrite Q0. fold mQ. unfold Y.
    destruct Hx as [[_ E] | (H1 & Hl' & Hu')].
    + destruct (Z.eq_dec s 0%Z) as [Z0 | NZ].
      * left. rewrite E. unfold nQ.
        assert (E0 : sQ == 0) by (unfold sQ; rewrite Z0; reflexivity).
        lra.
      * right. rewrite E. unfold nQ.
        assert (B9 : 1 <= sQ).
        { unfold sQ. change 1 with (inject_Z 1). rewrite <- Zle_Qle. lia. }
        lra.
    + right.
      assert (B9 : 1 <= msQ).
      { unfold msQ. change 1 with (inject_Z 1). rewrite <- Zle_Qle. lia. }
      unfold nQ in *. lra.
  - rewrite (floor_string _ r Vq B), F. reflexivity.
Qed.

Lemma seconds_field :
  numberToString (JS.Math_floor (JS.rem x 60)) = decimal s.
Proof.
  destruct bounds as (B1 & B2 & B3 & B4 & B5 & B6 & B7 & B8).
  destruct Val_literals as (_ & L60 & _).
  destruct near_second as [Hl Hu].
  pose proof (Val_rem _ _ _ _ Vx L60 near_InRange) as Vr.
  rewrite floor_60 in Vr.
  specialize (Vr ltac:(unfold small; lra) ltac:(unfold big; lra)).
  rewrite inject_Z_plus, inject_Z_mult in Vr. fold hQ mQ in Vr.
  change (inject_Z 60) with 60 in Vr.
  rewrite (floor_string _ _ Vr) by (unfold big, nQ in *; lra).
  f_equal. unfold nQ in *. apply Qfloor_unique; fold sQ; lra.
Qed.

Lemma milliseconds_field :
  exists ms', (ms' = ms \/ (ms' = ms - 1 /\ 1 <= ms))%Z
              /\ numberToString (JS.Math_floor (JS.rem x 1 * 1000)%float)
                 = decimal ms'.
Proof.
  destruct bounds as (B1 & B2 & B3 & B4 & B5 & B6 & B7 & B8).
  destruct Val_literals as (_ & _ & L1000 & L1).
  destruct near_second as [Hl Hu].
  pose proof (Val_rem _ _ _ _ Vx L1 near_InRange) as Vr.
  rewrite floor_1 in Vr.
  specialize (Vr ltac:(unfold small; lra) ltac:(unfold big; lra)).
  assert (EY : X - 1 * inject_Z (3600 * h + 60 * m + s) == X - nQ).
  { rewrite nQ_inject. ring. }
  apply (fun V => Val_ext _ _ _ V EY) in Vr.
  set (Y := X - nQ) in *.
  assert (CY : sizable Y).
  { unfold Y. destruct Hx as [[Z0 E] | (H2 & Hl' & Hu')].
    - left. rewrite E. ring.
    - assert (B9 : 1 <= msQ).
      { unfold msQ. change 1 with (inject_Z 1). rewrite <- Zle_Qle. lia. }
      right. split; lra. }
  pose proof (sizable_InRange _ CY) as RY.
  assert (D0 : InRange 1000) by (right; unfold small, big; split; lra).
  assert (D1 : Y * 1000 == 0 \/ small <= Y * 1000).
  { destruct CY as [E|[E _]]; [left|right].
    - rewrite E. ring.
    - unfold small in *. lra. }
  assert (D2 : Y * 1000 <= big) by (unfold big, Y; lra).
  destruct (Val_mul _ _ _ _ Vr L1000 RY D0 D1 D2) as (r & Vq & N1 & N2 & N3).
  unfold eps in N1, N2.
  destruct Hx as [[Z0 E] | (H1 & Hl' & Hu')].
  - exists ms. split; [left; reflexivity|].
    assert (R0 : r == inject_Z 0).
    { apply N3. unfold Y. rewrite E. change (inject_Z 0) with 0. ring. }
    rewrite (floor_string _ r Vq) by (unfold big; rewrite R0; discriminate).
    rewrite (Qfloor_comp _ _ R0), Z0. reflexivity.
  - assert (B9 : 1 <= msQ).
    { unfold msQ. change 1 with (inject_Z 1). rewrite <- Zle_Qle. lia. }
    unfold Y in *.
    assert (Br : r <= big) by (unfold big; lra).
    rewrite (floor_string _ r Vq Br).
    destruct (Qlt_le_dec r msQ) as [Lt | Ge].
    + exists (ms - 1)%Z. split; [right; split; [reflexivity | lia]|].
      assert (E1 : inject_Z (ms - 1) == msQ - 1).
      { unfold Z.sub, msQ. rewrite inject_Z_plus. reflexivity. }
      f_equal. apply Qfloor_unique; rewrite E1; lra.
    + exists ms. split; [left; reflexivity|].
      f_equal. apply Qfloor_unique; fold msQ; lra.
Qed.

End Fields.

End RoundTrip.



(* ===================================================================== *)
(** ** Cues in playing order *)
(* ===================================================================== *)

Module FloatOrderFacts.

(** The comparison of two numbers below or at each other composes. *)
Lemma SFcompare_trans x y z c1 c2 :
  SFcompare x y = Some c1 -> c1 <> Gt ->
  SFcompare y z = Some c2 -> c2 <> Gt ->
  exists c3, SFcompare x z = Some c3 /\ c3 <> Gt
             /\ (c1 = Lt \/ c2 = Lt -> c3 = Lt).
Proof.
  destruct x as [[]|[]| |[] mx ex], y as [[]|[]| |[] my ey],
           z as [[]|[]| |[] mz ez]; simpl; try discriminate;
    intros [= <-] Hc1 [= <-] Hc2; try congruence;
    try (eexists; split; [reflexivity|]; split; [discriminate|]; tauto);
    try (eexists; split; [reflexivity|]; split; [discriminate|];
         intros [|]; congruence);
    change (Pos.compare_cont Eq mx my) with (Pos.compare mx my) in *;
    change (Pos.compare_cont Eq my mz) with (Pos.compare my mz) in *;
    change (Pos.compare_cont Eq mx mz) with (Pos.compare mx mz) in *;
    eexists; (split; [reflexivity|]);
    revert Hc1 Hc2;
    destruct (Z.compare_spec ex ey), (Z.compare_spec ey ez),
             (Z.compare_spec ex ez); try lia;
    destruct (Pos.compare_spec mx my), (Pos.compare_spec my mz),
             (Pos.compare_spec mx mz); try lia; simpl;
    intros Hc1 Hc2; try congruence;
    (split; [discriminate|]); intros [|]; congruence.
Qed.

Lemma leb_trans a b c :
  PrimFloat.leb a b = true -> PrimFloat.leb b c = true ->
  PrimFloat.leb a c = true.
Proof.
  rewrite !FloatAxioms.leb_spec. unfold SFleb.
  destruct (SFcompare (Prim2SF a) (Prim2SF b)) as [c1|] eqn:E1; [|discriminate].
  destruct (SFcompare (Prim2SF b) (Prim2SF c)) as [c2|] eqn:E2; [|discriminate].
  intros H1 H2.
  destruct (SFcompare_trans _ _ _ _ _ E1 ltac:(destruct c1; congruence)
              E2 ltac:(destruct c2; congruence)) as (c3 & -> & H3 & _).
  destruct c3; congruence.
Qed.

Lemma ltb_leb_trans a b c :
  PrimFloat.ltb a b = true -> PrimFloat.leb b c = true ->
  PrimFloat.ltb a c = true.
Proof.
  rewrite !FloatAxioms.leb_spec, !FloatAxioms.ltb_spec. unfold SFleb, SFltb.
  destruct (SFcompare (Prim2SF a) (Prim2SF b)) as [c1|] eqn:E1; [|discriminate].
  destruct (SFcompare (Prim2SF b) (Prim2SF c)) as [c2|] eqn:E2; [|discriminate].
  intros H1 H2.
  destruct (SFcompare_trans _ _ _ _ _ E1 ltac:(destruct c1; congruence)
              E2 ltac:(destruct c2; congruence)) as (c3 & -> & _ & H3).
  destruct c1; try discriminate. rewrite H3; auto.
Qed.

Lemma leb_ltb_trans a b c :
  PrimFloat.leb a b = true -> PrimFloat.ltb b c = true ->
  PrimFloat.ltb a c = true.
Proof.
  rewrite !FloatAxioms.leb_spec, !FloatAxioms.ltb_spec. unfold SFleb, SFltb.
  destruct (SFcompare (Prim2SF a) (Prim2SF b)) as [c1|] eqn:E1; [|discriminate].
  destruct (SFcompare (Prim2SF b) (Prim2SF c)) as [c2|] eqn:E2; [|discriminate].
  intros H1 H2.
  destruct (SFcompare_trans _ _ _ _ _ E1 ltac:(destruct c1; congruence)
              E2 ltac:(destruct c2; congruence)) as (c3 & -> & _ & H3).
  destruct c2; try discriminate. rewrite H3; auto.
Qed.

(** Two numbers compare unless one of them is NaN. *)
Lemma SFcompare_total x y :
  SFcompare x x = Some Eq -> SFcompare y y = Some Eq ->
  exists c, SFcompare x y = Some c.
Proof.
  destruct x as [[]|[]| |[] mx ex], y as [[]|[]| |[] my ey]; simpl;
    try discriminate; eauto.
Qed.

Lemma is_nan_spec a :
  PrimFloat.is_nan a = false <-> SFcompare (Prim2SF a) (Prim2SF a) = Some Eq.
Proof.
  unfold PrimFloat.is_nan. rewrite FloatAxioms.eqb_spec. unfold SFeqb.
  destruct (Prim2SF a) as [[]|[]| |[] m e]; simpl; try tauto;
    try (split; [discriminate|discriminate]);
    rewrite Z.compare_refl;
    change (Pos.compare_cont Eq m m) with (Pos.compare m m);
    rewrite Pos.compare_refl; simpl; tauto.
Qed.

(** Of two numbers, the first is below the second or the second is at or
    below the first. *)
Lemma ltb_or_leb a b :
  PrimFloat.is_nan a = false -> PrimFloat.is_nan b = false ->
  PrimFloat.ltb a b = false -> PrimFloat.leb b a = true.
Proof.
  rewrite !is_nan_spec, FloatAxioms.leb_spec, FloatAxioms.ltb_spec.
  unfold SFleb, SFltb. intros Ha Hb.
  destruct (SFcompare_total _ _ Ha Hb) as [c E]. rewrite E.
  rewrite (FloatOrder.SFcompare_antisym _ _ _ E).
  destruct c; simpl; congruence.
Qed.

Lemma leb_not_nan_l a b : PrimFloat.leb a b = true -> PrimFloat.is_nan a = false.
Proof.
  rewrite is_nan_spec, FloatAxioms.leb_spec. unfold SFleb.
  destruct (SFcompare (Prim2SF a) (Prim2SF b)) as [c|] eqn:E; [|discriminate].
  intros _. eapply FloatOrder.SFcompare_self; eassumption.
Qed.

Lemma leb_not_nan_r a b : PrimFloat.leb a b = true -> PrimFloat.is_nan b = false.
Proof.
  rewrite is_nan_spec, FloatAxioms.leb_spec. unfold SFleb.
  destruct (SFcompare (Prim2SF a) (Prim2SF b)) as [c|] eqn:E; [|discriminate].
  intros _. apply FloatOrder.SFcompare_antisym in E.
  eapply FloatOrder.SFcompare_self; eassumption.
Qed.

End FloatOrderFacts.

Section OrderedCues.

Import Resolver.

Lemma inOrder_tail c rest : inOrder (c :: rest) = true -> inOrder rest = true.
Proof. simpl. rewrite !andb_true_iff. tauto. Qed.

Lemma inOrder_proper cues c :
  inOrder cues = true -> c ∈ cues -> JS.le (cue_start c) (cue_end c) = true.
Proof.
  induction cues as [|x rest IH]; intros H Hc; [inversion Hc|].
  apply elem_of_cons in Hc as [->|Hc].
  - simpl in H. rewrite !andb_true_iff in H. tauto.
  - apply IH; [eapply inOrder_tail; eassumption|assumption].
Qed.

Lemma inOrder_head c rest (j : nat) cj :
  inOrder (c :: rest) = true -> rest !! j = Some cj ->
  JS.le (cue_end c) (cue_start cj) = true.
Proof.
  revert c j. induction rest as [|n rest IH]; intros c j H Hj; [discriminate|].
  pose proof (inOrder_tail _ _ H) as Ht.
  simpl in H. rewrite !andb_true_iff in H.
  destruct H as [[_ H2] [[H3 _] _]].
  destruct j as [|j]; [injection Hj as <-; exact H2|].
  simpl in Hj. pose proof (IH n j Ht Hj) as H4.
  unfold JS.le in *.
  eauto using FloatOrderFacts.leb_trans.
Qed.

(** A cue ends before every later cue starts. *)
Lemma inOrder_before cues (i j : nat) ci cj :
  inOrder cues = true -> cues !! i = Some ci -> cues !! j = Some cj ->
  (i < j)%nat -> JS.le (cue_end ci) (cue_start cj) = true.
Proof.
  revert i j. induction cues as [|x rest IH]; intros i j H Hi Hj Hlt;
    [discriminate|].
  destruct j as [|j]; [lia|]. simpl in Hj.
  destruct i as [|i].
  - injection Hi as ->. eapply inOrder_head; eassumption.
  - simpl in Hi.
    apply (IH i j); [eapply inOrder_tail; eassumption|assumption|assumption|lia].
Qed.

Variable cues : list SubtitleCue.
Variable time : JS.number.
Variable j : nat.
Variable cj : SubtitleCue.
Hypothesis Hord : inOrder cues = true.
Hypothesis Hj : cues !! j = Some cj.
Hypothesis Hact : activeAt cj time = true.

Lemma cueAt_nat (i : nat) : cueAt cues (Z.of_nat i) = cues !! i.
Proof.
  unfold cueAt. destruct (Z.ltb_spec (Z.of_nat i) 0); [lia|].
  rewrite Nat2Z.id. reflexivity.
Qed.

(** A cue in front of the active one: [time] is past its end. *)
Lemma earlier_cue (i : nat) ci :
  cues !! i = Some ci -> (i < j)%nat ->
  JS.ge time (cue_start ci) = true
  /\ JS.lt time (cue_end ci) = false
  /\ JS.lt time (cue_start ci) = false.
Proof.
  intros Hi Hlt. unfold activeAt in Hact.
  apply andb_true_iff in Hact as [Hs He].
  pose proof (inOrder_before _ _ _ _ _ Hord Hi Hj Hlt) as Hb.
  pose proof (inOrder_proper _ _ Hord (list_elem_of_lookup_2 _ _ _ Hi)) as Hp.
  unfold JS.ge, JS.lt, JS.le in *.
  assert (Hend : PrimFloat.leb (cue_end ci) time = true)
    by (eapply FloatOrderFacts.leb_trans; eassumption).
  assert (Hstart : PrimFloat.leb (cue_start ci) time = true)
    by (eapply FloatOrderFacts.leb_trans; eassumption).
  auto using FloatOrder.leb_not_ltb.
Qed.

(** A cue behind the active one: [time] is before its start. *)
Lemma later_cue (i : nat) ci :
  cues !! i = Some ci -> (j < i)%nat ->
  JS.lt time (cue_start ci) = true
  /\ JS.ge time (cue_start ci) = false
  /\ JS.ge time (cue_end ci) = false.
Proof.
  intros Hi Hlt. unfold activeAt in Hact.
  apply andb_true_iff in Hact as [Hs He].
  pose proof (inOrder_before _ _ _ _ _ Hord Hj Hi Hlt) as Hb.
  pose proof (inOrder_proper _ _ Hord (list_elem_of_lookup_2 _ _ _ Hi)) as Hp.
  unfold JS.ge, JS.lt, JS.le in *.
  assert (Hstart : PrimFloat.ltb time (cue_start ci) = true)
    by (eapply FloatOrderFacts.ltb_leb_trans; eassumption).
  assert (Hend : PrimFloat.ltb time (cue_end ci) = true)
    by (eapply FloatOrderFacts.ltb_leb_trans; eassumption).
  auto using FloatOrder.ltb_not_leb.
Qed.

(** Only the active cue contains [time]. *)
Lemma active_unique (i : nat) ci :
  cues !! i = Some ci ->
  JS.ge time (cue_start ci) && JS.lt time (cue_end ci) = true -> i = j.
Proof.
  intros Hi H. apply andb_true_iff in H as [Hs He].
  destruct (lt_eq_lt_dec i j) as [[Hlt|]|Hlt]; [|assumption|].
  - destruct (earlier_cue _ _ Hi Hlt) as (_ & E & _). congruence.
  - destruct (later_cue _ _ Hi Hlt) as (_ & E & _). congruence.
Qed.

Lemma binarySearch_finds fuel left right result :
  0 <= left <= Z.of_nat j -> Z.of_nat j <= right < Z.of_nat (length cues) ->
  right - left + 1 <= Z.of_nat fuel ->
  binarySearch fuel cues time left right result = Z.of_nat j.
Proof.
  revert left right result.
  induction fuel as [|fuel IH]; intros left right result Hl Hr Hf; [lia|].
  simpl. destruct (Z.leb_spec left right); [|lia].
  set (mid := (left + right) / 2).
  assert (Hmid : left <= mid <= right)
    by (split; [apply Z.div_le_lower_bound|apply Z.div_le_upper_bound]; lia).
  replace mid with (Z.of_nat (Z.to_nat mid)) in * by lia.
  set (k := Z.to_nat mid) in *.
  rewrite cueAt_nat.
  destruct (cues !! k) as [ck|] eqn:Hk;
    [|apply lookup_ge_None in Hk; lia].
  destruct (lt_eq_lt_dec k j) as [[Hlt|Heq]|Hlt].
  - destruct (earlier_cue _ _ Hk Hlt) as (E1 & E2 & E3).
    rewrite E1, E2, E3. simpl. apply IH; lia.
  - rewrite Heq in Hk. rewrite Hj in Hk. injection Hk as <-.
    unfold activeAt in Hact. rewrite Hact. lia.
  - destruct (later_cue _ _ Hk Hlt) as (E1 & E2 & E3).
    rewrite E1, E2. simpl. apply IH; lia.
Qed.

Lemma hintPath_finds hintIndex r :
  hintPath cues time hintIndex = Some r -> r = Z.of_nat j.
Proof.
  unfold hintPath.
  destruct (Z.leb_spec 0 hintIndex); [|discriminate].
  destruct (Z.ltb_spec hintIndex (Z.of_nat (length cues))); [|discriminate].
  simpl.
  replace hintIndex with (Z.of_nat (Z.to_nat hintIndex)) in * by lia.
  set (h := Z.to_nat hintIndex) in *.
  replace (Z.of_nat h + 1) with (Z.of_nat (S h)) by lia.
  rewrite !cueAt_nat.
  destruct (cues !! h) as [c|] eqn:Hc; [|apply lookup_ge_None in Hc; lia].
  destruct (JS.ge time (cue_start c) && JS.lt time (cue_end c)) eqn:A.
  { intros [= <-]. f_equal. eapply active_unique; eassumption. }
  destruct (Z.ltb_spec (Z.of_nat (S h)) (Z.of_nat (length cues)));
    [|discriminate].
  destruct (cues !! S h) as [n|] eqn:Hn; [|apply lookup_ge_None in Hn; lia].
  destruct (JS.ge time (cue_start n) && JS.lt time (cue_end n)) eqn:B.
  { intros [= <-]. f_equal. eapply active_unique; eassumption. }
  destruct (lt_eq_lt_dec h j) as [[Hlt|Heq]|Hlt].
  - destruct (Nat.eq_dec (S h) j) as [Heq|Hne].
    + rewrite Heq, Hj in Hn. injection Hn as <-.
      unfold activeAt in Hact. congruence.
    + destruct (earlier_cue _ _ Hn ltac:(lia)) as (_ & _ & ->).
      rewrite andb_false_r. discriminate.
  - rewrite Heq, Hj in Hc. injection Hc as <-.
    unfold activeAt in Hact. congruence.
  - destruct (later_cue _ _ Hc Hlt) as (_ & _ & ->). discriminate.
Qed.

End OrderedCues.

Lemma findIndexAtTime_finds_core cues time (j : nat) cj hintIndex :
  inOrder cues = true ->
  cues !! j = Some cj ->
  activeAt cj time = true ->
  Resolver.findIndexAtTime cues time hintIndex = Z.of_nat j.
Proof.
  intros Hord Hj Hact. unfold Resolver.findIndexAtTime. cbv zeta.
  pose proof (lookup_lt_Some _ _ _ Hj) as Hlen.
  destruct (Z.eqb_spec (Z.of_nat (length cues)) 0); [lia|].
  destruct (Resolver.hintPath cues time hintIndex) as [r|] eqn:Hh.
  - eapply hintPath_finds; eassumption.
  - eapply binarySearch_finds; try eassumption; lia.
Qed.

(** X1: on cues in playing order, [findIndexAtTime] answers the index of
    the cue that contains [time], whatever the hint. *)
Theorem findIndexAtTime_finds_active cues time (j : nat) cj hintIndex :
  inOrder cues = true ->
  cues !! j = Some cj ->
  activeAt cj time = true ->
  Resolver.findIndexAtTime cues time hintIndex = Z.of_nat j.
Proof. apply findIndexAtTime_finds_core. Qed.

Lemma findIndexAtTime_finds_active_witness :
  Resolver.findIndexAtTime gapCues 2.5 0 = 1
  /\ Resolver.findIndexAtTime gapCues 2.5 (-1) = 1.
Proof.
  split.
  - exact (findIndexAtTime_finds_active gapCues 2.5 1 (Resolver.span 1 2 3) 0
             eq_refl eq_refl eq_refl).
  - exact (findIndexAtTime_finds_active gapCues 2.5 1 (Resolver.span 1 2 3) (-1)
             eq_refl eq_refl eq_refl).
Defined.

Section ClosestCue.

Import Resolver.

Variable cues : list SubtitleCue.
Variable time : JS.number.
Variable j : nat.
Variable cj : SubtitleCue.
Hypothesis Hord : inOrder cues = true.
Hypothesis Hj : cues !! j = Some cj.
Hypothesis Hge : JS.ge time (cue_start cj) = true.
Hypothesis Hnext :
  forall n, cues !! S j = Some n -> JS.lt time (cue_start n) = true.

Lemma before_closest (i : nat) ci :
  cues !! i = Some ci -> (i < j)%nat ->
  JS.ge time (cue_start ci) = true
  /\ JS.lt time (cue_end ci) = false
  /\ JS.lt time (cue_start ci) = false.
Proof.
  intros Hi Hlt.
  pose proof (inOrder_before _ _ _ _ _ Hord Hi Hj Hlt) as Hb.
  pose proof (inOrder_proper _ _ Hord (list_elem_of_lookup_2 _ _ _ Hi)) as Hp.
  unfold JS.ge, JS.lt, JS.le in *.
  assert (Hend : PrimFloat.leb (cue_end ci) time = true)
    by (eapply FloatOrderFacts.leb_trans; eassumption).
  assert (Hstart : PrimFloat.leb (cue_start ci) time = true)
    by (eapply FloatOrderFacts.leb_trans; eassumption).
  auto using FloatOrder.leb_not_ltb.
Qed.

Lemma after_closest (i : nat) ci :
  cues !! i = Some ci -> (j < i)%nat ->
  JS.lt time (cue_start ci) = true /\ JS.ge time (cue_start ci) = false.
Proof.
  intros Hi Hlt.
  assert (H : JS.lt time (cue_start ci) = true).
  { destruct (cues !! S j) as [n|] eqn:Hn;
      [|apply lookup_ge_None in Hn; apply lookup_lt_Some in Hi; lia].
    pose proof (Hnext n eq_refl) as Hlt'.
    destruct (Nat.eq_dec (S j) i) as [<-|Hne]; [congruence|].
    pose proof (inOrder_before _ _ _ _ _ Hord Hn Hi ltac:(lia)) as Hb.
    pose proof (inOrder_proper _ _ Hord (list_elem_of_lookup_2 _ _ _ Hn)) as Hp.
    unfold JS.ge, JS.lt, JS.le in *.
    eapply FloatOrderFacts.ltb_leb_trans; [exact Hlt'|].
    eapply FloatOrderFacts.leb_trans; eassumption. }
  split; [exact H|]. unfold JS.ge, JS.lt in *.
  apply FloatOrder.ltb_not_leb. exact H.
Qed.

Lemma binarySearch_closest fuel left right result :
  0 <= left ->
  (left <= Z.of_nat j \/ (left = Z.of_nat j + 1 /\ result = Z.of_nat j)) ->
  Z.of_nat j <= right < Z.of_nat (length cues) ->
  right - left + 1 <= Z.of_nat fuel ->
  binarySearch fuel cues time left right result = Z.of_nat j.
Proof.
  revert left right result.
  induction fuel as [|fuel IH]; intros left right result H0 Hl Hr Hf.
  { simpl. lia. }
  simpl. destruct (Z.leb_spec left right); [|lia].
  set (mid := (left + right) / 2).
  assert (Hmid : left <= mid <= right)
    by (split; [apply Z.div_le_lower_bound|apply Z.div_le_upper_bound]; lia).
  replace mid with (Z.of_nat (Z.to_nat mid)) in * by lia.
  set (k := Z.to_nat mid) in *.
  rewrite cueAt_nat.
  destruct (cues !! k) as [ck|] eqn:Hk;
    [|apply lookup_ge_None in Hk; lia].
  destruct (lt_eq_lt_dec k j) as [[Hlt|Heq]|Hlt].
  - destruct (before_closest _ _ Hk Hlt) as (E1 & E2 & E3).
    rewrite E1, E2, E3. simpl. apply IH; lia.
  - rewrite Heq in Hk. rewrite Hj in Hk. injection Hk as <-.
    rewrite Hge. simpl.
    destruct (JS.lt time (cue_end cj)); [lia|].
    unfold JS.ge, JS.lt in *. rewrite (FloatOrder.leb_not_ltb _ _ Hge).
    apply IH; lia.
  - destruct (after_closest _ _ Hk Hlt) as (E1 & E2).
    rewrite E1, E2. simpl. apply IH; lia.
Qed.

End ClosestCue.

(** X2: on cues in playing order, the search without a hint answers the
    last cue that starts at or before [time]: the cue that contains
    [time], or else the cue before the gap [time] lies in, or the last cue
    when [time] is past the end. *)
Theorem findIndexAtTime_closest cues time (j : nat) cj hintIndex :
  inOrder cues = true ->
  cues !! j = Some cj ->
  JS.ge time (cue_start cj) = true ->
  (forall n, cues !! S j = Some n -> JS.lt time (cue_start n) = true) ->
  hintIndex < 0 ->
  Resolver.findIndexAtTime cues time hintIndex = Z.of_nat j.
Proof.
  intros Hord Hj Hge Hnext Hhint. unfold Resolver.findIndexAtTime. cbv zeta.
  pose proof (lookup_lt_Some _ _ _ Hj) as Hlen.
  destruct (Z.eqb_spec (Z.of_nat (length cues)) 0); [lia|].
  unfold Resolver.hintPath.
  destruct (Z.leb_spec 0 hintIndex); [lia|]. simpl.
  eapply binarySearch_closest; try eassumption; lia.
Qed.

Lemma findIndexAtTime_closest_witness :
  Resolver.findIndexAtTime gapCues 1.5 (-1) = 0
  /\ Resolver.findIndexAtTime gapCues 7 (-1) = 1.
Proof.
  split.
  - apply (findIndexAtTime_closest gapCues 1.5 0 (Resolver.span 0 0 1) (-1));
      [reflexivity|reflexivity|reflexivity| |lia].
    intros n [= <-]. reflexivity.
  - apply (findIndexAtTime_closest gapCues 7 1 (Resolver.span 1 2 3) (-1));
      [reflexivity|reflexivity|reflexivity| |lia].
    intros n [=].
Defined.

Section LeftCue.

Import Resolver.

Variable cues : list SubtitleCue.
Variable time : JS.number.
Variable j : nat.
Variable cj : SubtitleCue.
Hypothesis Hord : inOrder cues = true.
Hypothesis Hj : cues !! j = Some cj.
Hypothesis Hge : JS.ge time (cue_start cj) = true.
Hypothesis Hleft : JS.lt time (cue_end cj) = false.
Hypothesis Hnext :
  forall n, cues !! S j = Some n -> JS.lt time (cue_start n) = true.

(** No cue contains [time]. *)
Lemma left_inactive (i : nat) ci :
  cues !! i = Some ci ->
  JS.ge time (cue_start ci) && JS.lt time (cue_end ci) = false.
Proof.
  intros Hi. destruct (lt_eq_lt_dec i j) as [[Hlt|Heq]|Hlt].
  - destruct (before_closest cues time j cj Hord Hj Hge i ci Hi Hlt)
      as (_ & -> & _). apply andb_false_r.
  - subst i. rewrite Hj in Hi. injection Hi as <-. rewrite Hleft.
    apply andb_false_r.
  - destruct (after_closest cues time j cj Hord Hge Hnext i ci Hi Hlt) as (_ & ->).
    reflexivity.
Qed.

(** [time] is at or past the end of the cue it has left. *)
Lemma left_past_end : JS.ge time (cue_end cj) = true.
Proof.
  pose proof (inOrder_proper _ _ Hord (list_elem_of_lookup_2 _ _ _ Hj)) as Hp.
  unfold JS.ge, JS.lt, JS.le in *.
  apply FloatOrderFacts.ltb_or_leb; [|exact (FloatOrderFacts.leb_not_nan_r _ _ Hp)|exact Hleft].
  exact (FloatOrderFacts.leb_not_nan_r _ _ Hge).
Qed.

(** The hint path answers only in the gap behind the hinted cue. *)
Lemma hintPath_left hintIndex :
  hintPath cues time hintIndex
  = if (hintIndex =? Z.of_nat j) && (Z.of_nat (S j) <? Z.of_nat (length cues))
    then Some (-1) else None.
Proof.
  pose proof (lookup_lt_Some _ _ _ Hj) as Hlen.
  unfold hintPath.
  destruct (Z.leb_spec 0 hintIndex) as [H0|H0]; simpl;
    [|destruct (Z.eqb_spec hintIndex (Z.of_nat j)); [lia|reflexivity]].
  destruct (Z.ltb_spec hintIndex (Z.of_nat (length cues))) as [H1|H1];
    [|destruct (Z.eqb_spec hintIndex (Z.of_nat j)); [lia|reflexivity]].
  replace hintIndex with (Z.of_nat (Z.to_nat hintIndex)) by lia.
  set (h := Z.to_nat hintIndex).
  assert (Hh : (h < length cues)%nat) by lia.
  replace (Z.of_nat h + 1) with (Z.of_nat (S h)) by lia.
  rewrite !cueAt_nat.
  destruct (cues !! h) as [ch|] eqn:Hch; [|apply lookup_ge_None in Hch; lia].
  rewrite (left_inactive h ch Hch).
  destruct (Z.ltb_spec (Z.of_nat (S h)) (Z.of_nat (length cues))) as [H2|H2].
  - destruct (cues !! S h) as [cn|] eqn:Hcn; [|apply lookup_ge_None in Hcn; lia].
    rewrite (left_inactive (S h) cn Hcn).
    destruct (lt_eq_lt_dec h j) as [[Hlt|Heq]|Hlt].
    + assert (Hs : JS.lt time (cue_start cn) = false).
      { destruct (Nat.eq_dec (S h) j) as [E|E].
        - rewrite E, Hj in Hcn. injection Hcn as <-.
          unfold JS.ge, JS.lt in *. apply FloatOrder.leb_not_ltb. exact Hge.
        - apply (before_closest cues time j cj Hord Hj Hge (S h) cn Hcn). lia. }
      rewrite Hs, andb_false_r.
      destruct (Z.eqb_spec (Z.of_nat h) (Z.of_nat j)); [lia|reflexivity].
    + subst h. rewrite Heq in *. rewrite Hj in Hch. injection Hch as <-.
      rewrite left_past_end, (Hnext cn Hcn). simpl.
      rewrite Z.eqb_refl. destruct (Z.ltb_spec (Z.of_nat (S j)) (Z.of_nat (length cues)));
        [reflexivity|lia].
    + destruct (after_closest cues time j cj Hord Hge Hnext h ch Hch Hlt) as (Hs & _).
      pose proof (inOrder_proper _ _ Hord (list_elem_of_lookup_2 _ _ _ Hch)) as Hp.
      assert (He : JS.ge time (cue_end ch) = false).
      { unfold JS.ge, JS.lt, JS.le in *. apply FloatOrder.ltb_not_leb.
        eapply FloatOrderFacts.ltb_leb_trans; eassumption. }
      rewrite He. simpl.
      destruct (Z.eqb_spec (Z.of_nat h) (Z.of_nat j)); [lia|reflexivity].
  - destruct (Z.eqb_spec (Z.of_nat h) (Z.of_nat j)) as [E|E]; [|reflexivity].
    assert (h = j) by lia. subst h. rewrite H in *.
    destruct (Z.ltb_spec (Z.of_nat (S j)) (Z.of_nat (length cues)));
      [lia|reflexivity].
Qed.

Lemma findIndexAtTime_left hintIndex :
  findIndexAtTime cues time hintIndex
  = if (hintIndex =? Z.of_nat j) && (Z.of_nat (S j) <? Z.of_nat (length cues))
    then -1 else Z.of_nat j.
Proof.
  pose proof (lookup_lt_Some _ _ _ Hj) as Hlen.
  unfold findIndexAtTime. cbv zeta.
  destruct (Z.eqb_spec (Z.of_nat (length cues)) 0); [lia|].
  rewrite hintPath_left.
  destruct (_ && _); [reflexivity|].
  eapply binarySearch_closest; try eassumption; lia.
Qed.

End LeftCue.




(* ===================================================================== *)
(** ** Merged cues *)
(* ===================================================================== *)

Section SameTimes.

Import Resolver.

Variable f : SubtitleCue -> SubtitleCue.
Hypothesis f_start : forall c, cue_start (f c) = cue_start c.
Hypothesis f_end : forall c, cue_end (f c) = cue_end c.

Lemma cueAt_map cues i : cueAt (map f cues) i = option_map f (cueAt cues i).
Proof.
  unfold cueAt. destruct (i <? 0); [reflexivity|].
  rewrite list_lookup_fmap. reflexivity.
Qed.

Lemma binarySearch_map fuel cues time left right result :
  binarySearch fuel (map f cues) time left right result
  = binarySearch fuel cues time left right result.
Proof.
  revert left right result.
  induction fuel as [|fuel IH]; intros left right result; simpl; [reflexivity|].
  rewrite cueAt_map.
  destruct (cueAt cues ((left + right) / 2)) as [c|]; simpl; [|reflexivity].
  rewrite f_start, f_end, !IH. reflexivity.
Qed.

Lemma hintPath_map cues time hintIndex :
  hintPath (map f cues) time hintIndex = hintPath cues time hintIndex.
Proof.
  unfold hintPath. rewrite length_map, !cueAt_map.
  destruct (cueAt cues hintIndex) as [c|],
           (cueAt cues (hintIndex + 1)) as [n|]; simpl;
    rewrite ?f_start, ?f_end; reflexivity.
Qed.

Lemma findIndexAtTime_map cues time hintIndex :
  findIndexAtTime (map f cues) time hintIndex
  = findIndexAtTime cues time hintIndex.
Proof.
  unfold findIndexAtTime.
  rewrite hintPath_map, binarySearch_map, length_map. reflexivity.
Qed.

End SameTimes.

(** X3: [SubtitleParser.mergeBilingual] keeps the English cues, one for one and in
    order, with their id, index, times and text; [textEn] is the text.  So
    the cue found at a time is the same before and after merging, whatever
    the Chinese cues are. *)
Theorem mergeBilingual_keeps_english enCues zhCues :
  map (fun c => (cue_id c, cue_index c, cue_start c, cue_end c, cue_text c,
                 cue_textEn c))
      (SubtitleParser.mergeBilingual enCues zhCues)
  = map (fun c => (cue_id c, cue_index c, cue_start c, cue_end c, cue_text c,
                   Some (cue_text c)))
        enCues
  /\ forall time hintIndex,
       Resolver.findIndexAtTime (SubtitleParser.mergeBilingual enCues zhCues) time hintIndex
       = Resolver.findIndexAtTime enCues time hintIndex.
Proof.
  split.
  - unfold SubtitleParser.mergeBilingual. rewrite map_map. reflexivity.
  - intros time hintIndex. unfold SubtitleParser.mergeBilingual.
    apply findIndexAtTime_map; reflexivity.
Qed.

(** X4: the Chinese text of the [k]-th merged cue is the text of the
    first Chinese cue, in list order, whose start is less than 0.5 s away
    from the start of the [k]-th English cue; it is missing exactly when no
    Chinese cue starts that near. *)
Theorem mergeBilingual_pairs enCues zhCues (k : nat) en m :
  enCues !! k = Some en ->
  SubtitleParser.mergeBilingual enCues zhCues !! k = Some m ->
  let near zh :=
    JS.lt (JS.Math_abs (cue_start zh - cue_start en)%float) 0.5 in
  (cue_textZh m = None <-> forall zh, zh ∈ zhCues -> near zh = false)
  /\ (forall t, cue_textZh m = Some t ->
        exists (i : nat) zh,
          zhCues !! i = Some zh /\ near zh = true /\ t = cue_text zh
          /\ forall (i' : nat) zh', (i' < i)%nat -> zhCues !! i' = Some zh' ->
                                    near zh' = false).
Proof.
  intros Hen Hm near. unfold SubtitleParser.mergeBilingual in Hm.
  rewrite list_lookup_fmap, Hen in Hm. injection Hm as <-. simpl.
  fold near. clear Hen.
  induction zhCues as [|z zs IH]; simpl.
  - split; [split; [intros _ zh Hzh; inversion Hzh|reflexivity]|discriminate].
  - destruct (near z) eqn:Hz; simpl.
    + split.
      * split; [discriminate|]. intros H.
        rewrite (H z) in Hz by apply list_elem_of_here. discriminate.
      * intros t [= <-]. exists 0%nat, z.
        split; [reflexivity|]. split; [exact Hz|]. split; [reflexivity|].
        intros i' zh' Hlt. lia.
    + destruct IH as [IH1 IH2]. split.
      * rewrite IH1. split.
        -- intros H zh Hzh. apply elem_of_cons in Hzh as [->|Hzh]; auto.
        -- intros H zh Hzh. apply H. apply list_elem_of_further. exact Hzh.
      * intros t Ht. destruct (IH2 t Ht) as (i & zh & Hi & Hn & -> & Hfirst).
        exists (S i), zh. split; [exact Hi|]. split; [exact Hn|].
        split; [reflexivity|].
        intros [|i'] zh' Hlt; simpl.
        -- intros [= <-]. exact Hz.
        -- apply Hfirst. lia.
Qed.

(** Next to [gapCues], Chinese cues that start at 2.2 s and 2.4 s leave
    the English cue at 0 s without Chinese text. *)
Lemma mergeBilingual_pairs_witness :
  cue_textZh
    (nth 0 (SubtitleParser.mergeBilingual gapCues
              [Resolver.span 0 2.2 3; Resolver.span 1 2.4 3])
       (Resolver.span 0 0 0))
  = None.
Proof.
  refine (proj2 (proj1 (mergeBilingual_pairs gapCues
            [Resolver.span 0 2.2 3; Resolver.span 1 2.4 3] 0
            (Resolver.span 0 0 1) _ eq_refl eq_refl)) _).
  intros zh Hzh.
  apply elem_of_cons in Hzh as [->|Hzh]; [reflexivity|].
  apply elem_of_cons in Hzh as [->|Hzh]; [reflexivity|].
  inversion Hzh.
Defined.

(* ===================================================================== *)
(** ** Indices and times of the parsed cues *)
(* ===================================================================== *)

Section IndexFacts.

Import SubtitleParser.

Variable f : Z -> string -> option SubtitleCue.
Hypothesis f_index : forall i b c, f i b = Some c -> cue_index c = i.

Lemma parseBlocks_from i blocks :
  Forall (fun c => i <= cue_index c) (parseBlocks f i blocks).
Proof.
  revert i. induction blocks as [|b blocks IH]; intros i; simpl; [constructor|].
  assert (Forall (fun c => i <= cue_index c) (parseBlocks f (i + 1) blocks)).
  { eapply Forall_impl; [apply IH|]. simpl. intros; lia. }
  destruct (f i b) as [c|] eqn:E; [|assumption].
  constructor; [rewrite (f_index _ _ _ E); lia|assumption].
Qed.

Lemma parseBlocks_sorted i blocks :
  StronglySorted Z.lt (map cue_index (parseBlocks f i blocks)).
Proof.
  revert i. induction blocks as [|b blocks IH]; intros i; simpl; [constructor|].
  destruct (f i b) as [c|] eqn:E; [|apply IH].
  simpl. constructor; [apply IH|].
  rewrite Forall_fmap. eapply Forall_impl; [apply (parseBlocks_from (i + 1))|].
  simpl. intros x Hx. rewrite (f_index _ _ _ E). lia.
Qed.

Lemma parseBlocks_position i blocks (k : nat) c :
  parseBlocks f i blocks !! k = Some c -> i + Z.of_nat k <= cue_index c.
Proof.
  revert i k. induction blocks as [|b blocks IH]; intros i k; simpl;
    [discriminate|].
  destruct (f i b) as [c'|] eqn:E.
  - destruct k as [|k]; simpl.
    + intros [= <-]. rewrite (f_index _ _ _ E). lia.
    + intros H. apply IH in H. lia.
  - intros H. apply IH in H. lia.
Qed.

End IndexFacts.

Section ParseIndices.

Import SubtitleParser.

Variable separateLanguages : string -> list (string * string).
Variable detectLanguage : string -> string.

Lemma parseSRTBlock_index i b c :
  parseSRTBlock separateLanguages detectLanguage i b = Some c ->
  cue_index c = i.
Proof.
  unfold parseSRTBlock.
  repeat match goal with
         | |- context [match ?x with _ => _ end] => destruct x; try discriminate
         end.
  intros [= <-]. reflexivity.
Qed.

Lemma parseVTTBlock_index i b c :
  parseVTTBlock separateLanguages detectLanguage i b = Some c ->
  cue_index c = i.
Proof.
  unfold parseVTTBlock.
  destruct (String.eqb b ""); [discriminate|].
  destruct (findTimeLine _ 0) as [k|]; [|discriminate].
  destruct (String.eqb (nth k _ _) ""); [discriminate|].
  destruct (matchTimeRange _ _) as [[m1 m2]|]; [|discriminate].
  intros [= <-]. reflexivity.
Qed.

End ParseIndices.

(** X5: the [index] fields of the cues [parse] returns increase strictly
    along the list, and the cue at position [k] has an index of at least
    [k]: the index is the position of the block of the cue among the blocks
    of the file, the skipped ones counted. *)
Theorem parse_indices_increase separateLanguages detectLanguage text format :
  let cues := SubtitleParser.parse separateLanguages detectLanguage text format in
  StronglySorted Z.lt (map cue_index cues)
  /\ forall (k : nat) c, cues !! k = Some c -> Z.of_nat k <= cue_index c.
Proof.
  unfold SubtitleParser.parse.
  destruct (_ || _); [split; [constructor|discriminate]|].
  destruct (match format with
            | Some f => f
            | None => SubtitleParser.detectFormat text
            end); try (split; [constructor|discriminate]).
  - split.
    + apply parseBlocks_sorted, parseSRTBlock_index.
    + intros k c H.
      apply (parseBlocks_position _ (parseSRTBlock_index _ _)) in H. lia.
  - split.
    + apply parseBlocks_sorted, parseVTTBlock_index.
    + intros k c H.
      apply (parseBlocks_position _ (parseVTTBlock_index _ _)) in H. lia.
Qed.

Section StampFacts.

Import SubtitleParser Str.
Local Open Scope string_scope.

Local Arguments eqc : simpl never.
Local Arguments isDigit : simpl never.
Local Arguments isSpace : simpl never.
Local Arguments Ascii.eqb : simpl never.

Lemma isDigit_isDigitChar c : isDigit c = true -> isDigitChar c.
Proof.
  destruct c as [[] [] [] [] [] [] [] []]; intros H;
    try discriminate H; constructor; reflexivity.
Qed.

Lemma digit_range c : isDigit c = true -> (0 <= digit c <= 9)%Z.
Proof.
  destruct c as [[] [] [] [] [] [] [] []]; intros H;
    try discriminate H; vm_compute; split; discriminate.
Qed.

(** What [\d{2}:\d{2}:\d{2}<sep>\d{3}] matches at the head of a string. *)
Lemma timestampRe_inv (sep : ascii) s r :
  timestampRe (String sep "") s = Some r ->
  exists c1 c2 c3 c4 c5 c6 c7 c8 c9,
    Forall (fun c => isDigit c = true) [c1; c2; c3; c4; c5; c6; c7; c8; c9]
    /\ takeChars 12 s = stamp c1 c2 c3 c4 c5 c6 c7 c8 c9 sep.
Proof.
  unfold timestampRe, sequence, times, andThen, one, lit, stamp.
  destruct s as [|c1 s]; [discriminate|].
  destruct (isDigit c1) eqn:D1; [|discriminate].
  destruct s as [|c2 s]; [discriminate|].
  destruct (isDigit c2) eqn:D2; [|discriminate].
  destruct s as [|k1 s]; [discriminate|]. simpl. unfold eqc.
  destruct (Ascii.eqb_spec ":" k1) as [<-|]; [|discriminate].
  destruct s as [|c3 s]; [discriminate|].
  destruct (isDigit c3) eqn:D3; [|discriminate].
  destruct s as [|c4 s]; [discriminate|].
  destruct (isDigit c4) eqn:D4; [|discriminate].
  destruct s as [|k2 s]; [discriminate|]. simpl. unfold eqc.
  destruct (Ascii.eqb_spec ":" k2) as [<-|]; [|discriminate].
  destruct s as [|c5 s]; [discriminate|].
  destruct (isDigit c5) eqn:D5; [|discriminate].
  destruct s as [|c6 s]; [discriminate|].
  destruct (isDigit c6) eqn:D6; [|discriminate].
  destruct s as [|k3 s]; [discriminate|]. simpl.
  unfold eqc. destruct (Ascii.eqb_spec sep k3) as [<-|]; [|discriminate].
  destruct s as [|c7 s]; [discriminate|].
  destruct (isDigit c7) eqn:D7; [|discriminate].
  destruct s as [|c8 s]; [discriminate|].
  destruct (isDigit c8) eqn:D8; [|discriminate].
  destruct s as [|c9 s]; [discriminate|].
  destruct (isDigit c9) eqn:D9; [|discriminate].
  intros _. exists c1, c2, c3, c4, c5, c6, c7, c8, c9.
  split; [repeat constructor; assumption|reflexivity].
Qed.

(** The time a matched timestamp is read as. *)
Definition stampTime (t : JS.number) : Prop :=
  exists h m s ms,
    (0 <= h < 100 /\ 0 <= m < 100 /\ 0 <= s < 100 /\ 0 <= ms < 1000)%Z
    /\ t = secondsOfFields h m s ms.

Lemma parseTimestamp_matched (sep : ascii) s r :
  sep = ","%char \/ sep = "."%char ->
  timestampRe (String sep "") s = Some r ->
  stampTime (parseTimestamp (takeChars 12 s)).
Proof.
  intros Hsep H.
  destruct (timestampRe_inv _ _ _ H)
    as (c1 & c2 & c3 & c4 & c5 & c6 & c7 & c8 & c9 & D & ->).
  repeat match goal with
         | H : Forall _ (_ :: _) |- _ => apply Forall_cons in H as [? H]
         end.
  rewrite parseTimestamp_stamp by (auto using isDigit_isDigitChar).
  repeat match goal with
         | H : isDigit ?c = true |- _ => apply digit_range in H
         end.
  exists (10 * digit c1 + digit c2)%Z, (10 * digit c3 + digit c4)%Z,
    (10 * digit c5 + digit c6)%Z,
    (100 * digit c7 + 10 * digit c8 + digit c9)%Z.
  split; [lia|reflexivity].
Qed.

Lemma timeRangeAt_times (sep : ascii) s m1 m2 :
  sep = ","%char \/ sep = "."%char ->
  timeRangeAt (String sep "") s = Some (m1, m2) ->
  stampTime (parseTimestamp m1) /\ stampTime (parseTimestamp m2).
Proof.
  intros Hsep. unfold timeRangeAt.
  destruct (timestampRe (String sep "") s) as [r|] eqn:E1; [|discriminate].
  destruct (lit "-->" (many isSpace r)) as [r'|]; [|discriminate].
  destruct (timestampRe (String sep "") (many isSpace r')) as [r''|] eqn:E2;
    [|discriminate].
  intros [= <- <-]. eauto using parseTimestamp_matched.
Qed.

Lemma matchTimeRange_times (sep : ascii) s m1 m2 :
  sep = ","%char \/ sep = "."%char ->
  matchTimeRange (String sep "") s = Some (m1, m2) ->
  stampTime (parseTimestamp m1) /\ stampTime (parseTimestamp m2).
Proof.
  intros Hsep. induction s as [|c s IH]; simpl.
  - discriminate.
  - destruct (timeRangeAt (String sep "") (String c s)) as [g|] eqn:E.
    + intros [= ->]. eapply timeRangeAt_times; eassumption.
    + exact IH.
Qed.

Variable separateLanguages : string -> list (string * string).
Variable detectLanguage : string -> string.

Lemma parseSRTBlock_times i b c :
  parseSRTBlock separateLanguages detectLanguage i b = Some c ->
  stampTime (cue_start c) /\ stampTime (cue_end c).
Proof.
  unfold parseSRTBlock.
  destruct (String.eqb b ""); [discriminate|].
  destruct (_ <? _)%nat; [discriminate|].
  destruct (String.eqb (nth 0 _ _) ""); [discriminate|].
  destruct (JS.isNaN _); [discriminate|].
  destruct (String.eqb (nth 1 _ _) ""); [discriminate|].
  destruct (matchTimeRange "," _) as [[m1 m2]|] eqn:E; [|discriminate].
  intros [= <-]. simpl.
  apply (matchTimeRange_times ","%char) in E; auto.
Qed.

Lemma parseVTTBlock_times i b c :
  parseVTTBlock separateLanguages detectLanguage i b = Some c ->
  stampTime (cue_start c) /\ stampTime (cue_end c).
Proof.
  unfold parseVTTBlock.
  destruct (String.eqb b ""); [discriminate|].
  destruct (findTimeLine _ 0) as [k|]; [|discriminate].
  destruct (String.eqb (nth k _ _) ""); [discriminate|].
  destruct (matchTimeRange "." _) as [[m1 m2]|] eqn:E; [|discriminate].
  intros [= <-]. simpl.
  apply (matchTimeRange_times "."%char) in E; auto.
Qed.

End StampFacts.

(** X6: the start and the end of every cue [parse] returns are read from
    a matched timestamp: each is [h*3600 + m*60 + s + ms/1000], computed in
    binary64, for fields [h], [m], [s] below 100 and [ms] below 1000.  The
    answer of [parseTimestamp] to a text without timestamp, 0, never
    reaches a cue. *)
Theorem parse_times_from_stamps separateLanguages detectLanguage text format :
  Forall
    (fun c =>
       (exists h m s ms,
          (0 <= h < 100 /\ 0 <= m < 100 /\ 0 <= s < 100 /\ 0 <= ms < 1000)
          /\ cue_start c = secondsOfFields h m s ms)
       /\ (exists h m s ms,
             (0 <= h < 100 /\ 0 <= m < 100 /\ 0 <= s < 100 /\ 0 <= ms < 1000)
             /\ cue_end c = secondsOfFields h m s ms))
    (SubtitleParser.parse separateLanguages detectLanguage text format).
Proof.
  unfold SubtitleParser.parse.
  destruct (_ || _); [constructor|].
  destruct (match format with
            | Some f => f
            | None => SubtitleParser.detectFormat text
            end); try constructor.
  - apply parseBlocks_Forall. intros i b c. apply parseSRTBlock_times.
  - apply parseBlocks_Forall. intros i b c. apply parseVTTBlock_times.
Qed.

(** X7: [parseTimestamp] reads [HH:MM:SS,mmm] and [HH:MM:SS.mmm] as
    [HH*3600 + MM*60 + SS + mmm/1000] in binary64, for all two-digit
    fields, also minutes and seconds from 60 to 99. *)
Theorem parseTimestamp_fields h m s ms (sep : ascii) :
  0 <= h < 100 -> 0 <= m < 100 -> 0 <= s < 100 -> 0 <= ms < 1000 ->
  sep = ","%char \/ sep = "."%char ->
  SubtitleParser.parseTimestamp (SubtitleParser.render h m s ms (String sep ""))
  = secondsOfFields h m s ms.
Proof.
  intros Hh Hm Hs Hms Hsep.
  rewrite parseTimestamp_render by assumption. reflexivity.
Qed.

Lemma parseTimestamp_fields_witness :
  SubtitleParser.parseTimestamp "01:02:03,250" = 3723.25%float.
Proof.
  exact (parseTimestamp_fields 1 2 3 250 ","%char
           ltac:(lia) ltac:(lia) ltac:(lia) ltac:(lia) (or_introl eq_refl)).
Defined.

(* ===================================================================== *)
(** ** The store under its actions *)
(* ===================================================================== *)

Import MediaStore.

(** What every state of the store satisfies. *)
Record Consistent (s : MediaState) : Prop := {
  modes_exclusive : (length (activeModes s) <= 1)%nat;
  index_valid :
    activeIndex s = -1
    \/ 0 <= activeIndex s < Z.of_nat (length (subtitles s));
  points_set :
    (abRepeatEnabled s = true \/ pointB s <> None) -> pointA s <> None;
  points_enabled : abRepeatEnabled s = true -> pointB s <> None;
  volume_range : withinOrNaN 0 1 (volume s);
  rate_range : withinOrNaN 0.25 2 (playbackRate s)
}.

Section ClampFacts.

(** A number that equals zero is a zero. *)
Lemma is_zero_spec a :
  PrimFloat.is_zero a = true -> exists s, Prim2SF a = S754_zero s.
Proof.
  unfold PrimFloat.is_zero. rewrite FloatAxioms.eqb_spec.
  change (Prim2SF 0) with (S754_zero false). unfold SFeqb.
  destruct (Prim2SF a) as [s|s| |s m e]; simpl; eauto; try discriminate;
    destruct s; discriminate.
Qed.

Lemma leb_refl a : PrimFloat.is_nan a = false -> PrimFloat.leb a a = true.
Proof.
  rewrite FloatOrderFacts.is_nan_spec, FloatAxioms.leb_spec. unfold SFleb.
  intros ->. reflexivity.
Qed.

Lemma ltb_leb a b : PrimFloat.ltb a b = true -> PrimFloat.leb a b = true.
Proof.
  rewrite FloatAxioms.leb_spec, FloatAxioms.ltb_spec. unfold SFleb, SFltb.
  destruct (SFcompare _ _) as [[]|]; congruence.
Qed.

(** Two numbers neither of which is below the other are equal. *)
Lemma not_ltb_eqb a b :
  PrimFloat.is_nan a = false -> PrimFloat.is_nan b = false ->
  PrimFloat.ltb a b = false -> PrimFloat.ltb b a = false ->
  SFcompare (Prim2SF a) (Prim2SF b) = Some Eq.
Proof.
  rewrite !FloatOrderFacts.is_nan_spec, !FloatAxioms.ltb_spec. unfold SFltb.
  intros Ha Hb.
  destruct (FloatOrderFacts.SFcompare_total _ _ Ha Hb) as [c E]. rewrite E.
  rewrite (FloatOrder.SFcompare_antisym _ _ _ E).
  destruct c; simpl; congruence.
Qed.

(** The sum of two zeros is a zero. *)
Lemma add_zeros a b sa sb :
  Prim2SF a = S754_zero sa -> Prim2SF b = S754_zero sb ->
  exists s, Prim2SF (a + b)%float = S754_zero s.
Proof.
  intros Ha Hb. rewrite FloatAxioms.add_spec, Ha, Hb.
  destruct sa, sb; vm_compute; eauto.
Qed.

End ClampFacts.

Section Clamp.

Variables lo hi : JS.number.
Hypothesis Hlo : JS.isNaN lo = false.
Hypothesis Hhi : JS.isNaN hi = false.
Hypothesis Hlt : JS.lt lo hi = true.
Hypothesis Hz : PrimFloat.is_zero hi = false.

(** [Math.max(lo, Math.min(hi, x))] lies between [lo] and [hi], and is
    NaN for NaN. *)
Lemma clamp_within x :
  withinOrNaN lo hi (JS.Math_max lo (JS.Math_min hi x)).
Proof.
  unfold withinOrNaN, JS.Math_max, JS.Math_min, JS.isNaN, JS.lt, JS.le in *.
  rewrite Hlo, Hhi, Hz. simpl.
  destruct (PrimFloat.is_nan x) eqn:Hx; [left; reflexivity|].
  assert (Hlohi : PrimFloat.leb lo hi = true) by (apply ltb_leb; exact Hlt).
  assert (Hhihi : PrimFloat.leb hi hi = true) by (apply leb_refl; exact Hhi).
  assert (Hlolo : PrimFloat.leb lo lo = true) by (apply leb_refl; exact Hlo).
  set (m := if PrimFloat.ltb hi x then hi
            else if PrimFloat.ltb x hi then x else hi).
  assert (Hm : PrimFloat.is_nan m = false /\ PrimFloat.leb m hi = true).
  { subst m. destruct (PrimFloat.ltb hi x); [auto|].
    destruct (PrimFloat.ltb x hi) eqn:E; [auto using ltb_leb|auto]. }
  destruct Hm as [Hm1 Hm2]. rewrite Hm1.
  right.
  destruct (PrimFloat.ltb lo m) eqn:E1; [auto using ltb_leb|].
  destruct (PrimFloat.ltb m lo) eqn:E2; [auto|].
  destruct (PrimFloat.is_zero lo) eqn:E3; [|auto].
  pose proof (not_ltb_eqb _ _ Hlo Hm1 E1 E2) as Heq.
  destruct (is_zero_spec _ E3) as [sl Hsl].
  assert (exists sm, Prim2SF m = S754_zero sm) as [sm Hsm].
  { rewrite Hsl in Heq.
    destruct (Prim2SF m) as [s|s| |s mm e]; eauto; simpl in Heq;
      try discriminate; destruct s; discriminate. }
  destruct (add_zeros _ _ _ _ Hsl Hsm) as [sr Hsr].
  rewrite !FloatAxioms.leb_spec in *. rewrite Hsr. rewrite Hsl in *.
  split; [reflexivity|].
  revert Hlohi. unfold SFleb. destruct (Prim2SF hi) as [s|s| |s mm e]; auto.
Qed.

(** A number between [lo] and [hi] is kept, up to the sign of a zero. *)
Lemma clamp_keeps x :
  JS.le lo x = true -> JS.le x hi = true ->
  PrimFloat.eqb (JS.Math_max lo (JS.Math_min hi x)) x = true.
Proof.
  unfold JS.Math_max, JS.Math_min, JS.isNaN, JS.lt, JS.le in *.
  intros H1 H2.
  pose proof (FloatOrderFacts.leb_not_nan_r _ _ H1) as Hx.
  rewrite Hlo, Hhi, Hx, Hz. simpl.
  rewrite (FloatOrder.leb_not_ltb _ _ H2).
  assert (Hxx : PrimFloat.eqb x x = true).
  { unfold PrimFloat.is_nan in Hx. destruct (PrimFloat.eqb x x); auto. }
  destruct (PrimFloat.ltb x hi) eqn:E.
  - rewrite Hx. destruct (PrimFloat.ltb lo x) eqn:E1; [exact Hxx|].
    rewrite (FloatOrder.leb_not_ltb _ _ H1).
    pose proof (not_ltb_eqb _ _ Hlo Hx E1 (FloatOrder.leb_not_ltb _ _ H1)) as Heq.
    destruct (PrimFloat.is_zero lo) eqn:E3.
    + destruct (is_zero_spec _ E3) as [sl Hsl].
      assert (exists sx, Prim2SF x = S754_zero sx) as [sx Hsx].
      { rewrite Hsl in Heq.
        destruct (Prim2SF x) as [s|s| |s mm e]; eauto; simpl in Heq;
          try discriminate; destruct s; discriminate. }
      destruct (add_zeros _ _ _ _ Hsl Hsx) as [sr Hsr].
      rewrite FloatAxioms.eqb_spec, Hsr, Hsx. reflexivity.
    + rewrite FloatAxioms.eqb_spec. unfold SFeqb. rewrite Heq. reflexivity.
  - rewrite Hhi, Hlt.
    pose proof (not_ltb_eqb _ _ Hhi Hx (FloatOrder.leb_not_ltb _ _ H2) E) as Heq.
    rewrite FloatAxioms.eqb_spec. unfold SFeqb. rewrite Heq. reflexivity.
Qed.

Lemma ltb_asym a b : PrimFloat.ltb a b = true -> PrimFloat.ltb b a = false.
Proof.
  intros H. pose proof (FloatOrder.ltb_not_leb _ _ H) as Hn.
  destruct (PrimFloat.ltb b a) eqn:E; [|reflexivity].
  rewrite (ltb_leb _ _ E) in Hn. discriminate.
Qed.

(** A number below [lo] is moved to [lo]. *)
Lemma clamp_below x :
  JS.lt x lo = true -> JS.Math_max lo (JS.Math_min hi x) = lo.
Proof.
  unfold JS.Math_max, JS.Math_min, JS.isNaN, JS.lt in *. intros H.
  pose proof (FloatOrder.ltb_not_nan_l _ _ H) as Hx.
  assert (Hxhi : PrimFloat.ltb x hi = true)
    by (eapply FloatOrderFacts.ltb_leb_trans; [exact H|apply ltb_leb; exact Hlt]).
  rewrite Hhi, Hx, (ltb_asym _ _ Hxhi), Hxhi, Hlo. simpl.
  rewrite Hx, (ltb_asym _ _ H), H. reflexivity.
Qed.

(** A number above [hi] is moved to [hi]. *)
Lemma clamp_above x :
  JS.lt hi x = true -> JS.Math_max lo (JS.Math_min hi x) = hi.
Proof.
  unfold JS.Math_max, JS.Math_min, JS.isNaN, JS.lt in *. intros H.
  pose proof (FloatOrder.ltb_not_nan_r _ _ H) as Hx.
  rewrite Hhi, Hx, H, Hlo. simpl. rewrite Hhi, Hlt. reflexivity.
Qed.

(** A number is never turned into NaN. *)
Lemma clamp_not_nan x :
  JS.isNaN x = false -> JS.isNaN (JS.Math_max lo (JS.Math_min hi x)) = false.
Proof.
  intros Hx.
  destruct (JS.lt x lo) eqn:E1; [rewrite clamp_below by exact E1; exact Hlo|].
  destruct (JS.lt hi x) eqn:E2; [rewrite clamp_above by exact E2; exact Hhi|].
  unfold JS.isNaN, JS.lt in Hx, E1, E2, Hlo, Hhi.
  pose proof (FloatOrderFacts.ltb_or_leb _ _ Hx Hlo E1) as H1.
  pose proof (FloatOrderFacts.ltb_or_leb _ _ Hhi Hx E2) as H2.
  pose proof (clamp_keeps x H1 H2) as H.
  unfold JS.isNaN. apply FloatOrderFacts.is_nan_spec.
  rewrite FloatAxioms.eqb_spec in H. unfold SFeqb in H.
  destruct (SFcompare _ (Prim2SF x)) as [c|] eqn:E; [|discriminate].
  eapply FloatOrder.SFcompare_self; eassumption.
Qed.

End Clamp.

(** X8: [setVolume] keeps the volume between 0 and 1 and [setPlaybackRate]
    the rate between 0.25 and 2.  The stored number is in the range or NaN;
    a number in the range is stored as it is (up to the sign of a zero); a
    number below the range, [-Infinity] included, is stored as the lower
    bound and a number above it, [Infinity] included, as the upper bound;
    NaN, and only NaN, is stored as NaN. *)
Theorem setVolume_setPlaybackRate_clamp x s :
  withinOrNaN 0 1 (volume (setVolume x s))
  /\ withinOrNaN 0.25 2 (playbackRate (setPlaybackRate x s))
  /\ (JS.le 0 x = true -> JS.le x 1 = true ->
      PrimFloat.eqb (volume (setVolume x s)) x = true)
  /\ (JS.le 0.25 x = true -> JS.le x 2 = true ->
      PrimFloat.eqb (playbackRate (setPlaybackRate x s)) x = true)
  /\ (JS.isNaN x = true ->
      JS.isNaN (volume (setVolume x s)) = true
      /\ JS.isNaN (playbackRate (setPlaybackRate x s)) = true)
  /\ (JS.lt x 0 = true -> volume (setVolume x s) = 0%float)
  /\ (JS.gt x 1 = true -> volume (setVolume x s) = 1%float)
  /\ (JS.lt x 0.25 = true -> playbackRate (setPlaybackRate x s) = 0.25%float)
  /\ (JS.gt x 2 = true -> playbackRate (setPlaybackRate x s) = 2%float)
  /\ (JS.isNaN x = false ->
      JS.isNaN (volume (setVolume x s)) = false
      /\ JS.isNaN (playbackRate (setPlaybackRate x s)) = false).
Proof.
  split; [apply clamp_within; reflexivity|].
  split; [apply clamp_within; reflexivity|].
  split; [apply clamp_keeps; reflexivity|].
  split; [apply clamp_keeps; reflexivity|].
  split.
  { intros Hx. simpl. unfold JS.Math_max, JS.Math_min. rewrite Hx. simpl.
    split; reflexivity. }
  split; [apply clamp_below; reflexivity|].
  split; [apply clamp_above; reflexivity|].
  split; [apply clamp_below; reflexivity|].
  split; [apply clamp_above; reflexivity|].
  intros Hx. split; apply clamp_not_nan; (reflexivity || exact Hx).
Qed.

Section Invariant.

(** The fields an action may change without touching the invariant. *)
Definition sameCore (s s' : MediaState) : Prop :=
  activeModes s' = activeModes s
  /\ activeIndex s' = activeIndex s /\ subtitles s' = subtitles s
  /\ abRepeatEnabled s' = abRepeatEnabled s
  /\ pointA s' = pointA s /\ pointB s' = pointB s
  /\ volume s' = volume s /\ playbackRate s' = playbackRate s.

Lemma sameCore_consistent s s' :
  sameCore s s' -> Consistent s -> Consistent s'.
Proof.
  intros (Hm & Hi & Hs & Hab & Ha & Hb & Hv & Hr) [].
  constructor; rewrite ?Hm, ?Hi, ?Hs, ?Hab, ?Ha, ?Hb, ?Hv, ?Hr; assumption.
Qed.

(** An action that only changes which modes are on, leaving at most one
    on and A/B repeat on only if it was. *)
Definition modesOnly (s s' : MediaState) : Prop :=
  (length (activeModes s') <= 1)%nat
  /\ (abRepeatEnabled s' = true -> abRepeatEnabled s = true)
  /\ activeIndex s' = activeIndex s /\ subtitles s' = subtitles s
  /\ pointA s' = pointA s /\ pointB s' = pointB s
  /\ volume s' = volume s /\ playbackRate s' = playbackRate s.

Lemma modesOnly_consistent s s' :
  modesOnly s s' -> Consistent s -> Consistent s'.
Proof.
  intros (Hm & Hab & Hi & Hs & Ha & Hb & Hv & Hr) [].
  constructor; rewrite ?Hi, ?Hs, ?Ha, ?Hb, ?Hv, ?Hr; try assumption.
  - intros [H|H]; auto.
  - auto.
Qed.

Lemma initialState_consistent : Consistent initialState.
Proof.
  constructor; simpl; auto;
    try (right; split; reflexivity); try (intros [|]); congruence.
Qed.

Lemma enableLoop_modesOnly start end_ s :
  Consistent s -> modesOnly s (enableLoop start end_ s).
Proof.
  intros _. destruct s. unfold modesOnly.
  flags; repeat split; simpl; (lia || congruence).
Qed.

Lemma startSegmentLoop_modesOnly start end_ count index w :
  Consistent (store w) ->
  modesOnly (store w) (store (startSegmentLoop start end_ count index w)).
Proof.
  intros _. destruct w as [s c]. destruct s as [? ? ? ? ? ? ? [r|]];
    unfold modesOnly; flags; repeat split; simpl; (lia || congruence).
Qed.

Lemma cueAt_bounds cues i c :
  cueAt cues i = Some c -> 0 <= i < Z.of_nat (length cues).
Proof.
  unfold cueAt. destruct (Z.ltb_spec i 0); [discriminate|].
  intros Hc. apply lookup_lt_Some in Hc. lia.
Qed.

Lemma set_activeIndex_consistent i s :
  i = -1 \/ 0 <= i < Z.of_nat (length (subtitles s)) ->
  Consistent s -> Consistent (set_activeIndex i s).
Proof. intros Hi []. constructor; assumption. Qed.

Lemma playNextSegment_consistent w :
  Consistent (store w) -> Consistent (store (playNextSegment w)).
Proof.
  intros H. unfold playNextSegment.
  destruct (_ =? 0); [exact H|].
  destruct (_ <=? _); [exact H|].
  destruct (cueAt _ _) as [next|] eqn:Hn; [|exact H].
  destruct (negb _).
  - eapply modesOnly_consistent; [|exact H].
    set (w1 := onStore _ (match playerRef _ with Some _ => _ | None => _ end)).
    assert (Hc : Consistent (store w1)).
    { subst w1. destruct H.
      destruct (playerRef _); constructor; simpl; try assumption;
        destruct w as [s c]; destruct s; simpl in *; flags; simpl in *; lia. }
    pose proof (startSegmentLoop_modesOnly (cue_start next) (cue_end next)
                  (segmentLoopTotal (store w)) (segmentLoopIndex (store w) + 1)
                  w1 Hc) as (M1 & M2 & M3 & M4 & M5 & M6 & M7 & M8).
    assert (E : abRepeatEnabled (store w1) = abRepeatEnabled (store w)
                /\ activeIndex (store w1) = activeIndex (store w)
                /\ subtitles (store w1) = subtitles (store w)
                /\ pointA (store w1) = pointA (store w)
                /\ pointB (store w1) = pointB (store w)
                /\ volume (store w1) = volume (store w)
                /\ playbackRate (store w1) = playbackRate (store w)).
    { subst w1. destruct (playerRef _); repeat split. }
    destruct E as (E1 & E2 & E3 & E4 & E5 & E6 & E7).
    unfold modesOnly. rewrite <- E1, <- E2, <- E3, <- E4, <- E5, <- E6, <- E7.
    repeat split; assumption.
  - apply cueAt_bounds in Hn.
    destruct (playerRef _) eqn:Hp; simpl; rewrite ?Hp;
      apply set_activeIndex_consistent; auto.
Qed.

Lemma playPreviousSegment_consistent w :
  Consistent (store w) -> Consistent (store (playPreviousSegment w)).
Proof.
  intros H. unfold playPreviousSegment.
  destruct (_ =? 0); [exact H|].
  destruct (_ <? 0); [exact H|].
  destruct (cueAt _ _) as [prev|] eqn:Hn; [|exact H].
  destruct (negb _).
  - eapply modesOnly_consistent; [|exact H].
    set (w1 := onStore _ (match playerRef _ with Some _ => _ | None => _ end)).
    assert (Hc : Consistent (store w1)).
    { subst w1. destruct H.
      destruct (playerRef _); constructor; simpl; try assumption;
        destruct w as [s c]; destruct s; simpl in *; flags; simpl in *; lia. }
    pose proof (startSegmentLoop_modesOnly (cue_start prev) (cue_end prev)
                  (segmentLoopTotal (store w)) (segmentLoopIndex (store w) - 1)
                  w1 Hc) as (M1 & M2 & M3 & M4 & M5 & M6 & M7 & M8).
    assert (E : abRepeatEnabled (store w1) = abRepeatEnabled (store w)
                /\ activeIndex (store w1) = activeIndex (store w)
                /\ subtitles (store w1) = subtitles (store w)
                /\ pointA (store w1) = pointA (store w)
                /\ pointB (store w1) = pointB (store w)
                /\ volume (store w1) = volume (store w)
                /\ playbackRate (store w1) = playbackRate (store w)).
    { subst w1. destruct (playerRef _); repeat split. }
    destruct E as (E1 & E2 & E3 & E4 & E5 & E6 & E7).
    unfold modesOnly. rewrite <- E1, <- E2, <- E3, <- E4, <- E5, <- E6, <- E7.
    repeat split; assumption.
  - apply cueAt_bounds in Hn.
    destruct (playerRef _) eqn:Hp; simpl; rewrite ?Hp;
      apply set_activeIndex_consistent; auto.
Qed.

Lemma setActiveIndex_consistent i s :
  Consistent s -> Consistent (setActiveIndex i s).
Proof.
  intros H. unfold setActiveIndex.
  destruct (_ =? i); [exact H|].
  destruct (Z.leb_spec 0 i), (Z.ltb_spec i (Z.of_nat (length (subtitles s))));
    simpl.
  1: destruct H; constructor; simpl; auto.
  all: destruct (i =? -1); [|exact H];
    destruct (_ || _); [|exact H];
    destruct H; constructor; simpl; auto.
Qed.

(** Switching modes off leaves at most one on. *)
Ltac modes_off :=
  match goal with
  | H : Consistent ?s |- _ =>
    destruct H as [H _ _ _ _ _]; revert H; unfold activeModes; simpl;
    destruct (loopEnabled s), (segmentLoopEnabled s), (abRepeatEnabled s),
      (shadowingEnabled s); simpl; intros H;
    repeat split; (lia || congruence || reflexivity)
  end.

Lemma disableLoop_modesOnly s : Consistent s -> modesOnly s (disableLoop s).
Proof. intros H. unfold modesOnly. modes_off. Qed.

Lemma stopSegmentLoop_modesOnly s :
  Consistent s -> modesOnly s (stopSegmentLoop s).
Proof. intros H. unfold modesOnly. modes_off. Qed.

Lemma disableABRepeat_modesOnly s :
  Consistent s -> modesOnly s (disableABRepeat s).
Proof. intros H. unfold modesOnly. modes_off. Qed.

Lemma disableShadowing_modesOnly s :
  Consistent s -> modesOnly s (disableShadowing s).
Proof. intros H. unfold modesOnly. modes_off. Qed.

Lemma playSegment_modesOnly start end_ s :
  Consistent s -> modesOnly s (playSegment start end_ s).
Proof.
  intros _. destruct s. unfold modesOnly. flags; repeat split; simpl; lia.
Qed.

Lemma enableShadowing_modesOnly s :
  Consistent s -> modesOnly s (enableShadowing s).
Proof.
  intros _. destruct s. unfold modesOnly.
  flags; repeat split; simpl; (lia || congruence).
Qed.

Lemma toggleLoop_consistent s : Consistent s -> Consistent (toggleLoop s).
Proof.
  intros H. unfold toggleLoop.
  destruct (loopEnabled s) eqn:E.
  - eapply modesOnly_consistent; [|exact H]. apply disableLoop_modesOnly, H.
  - destruct (_ && _); [|exact H].
    destruct (cueAt _ _) as [cue|]; [|exact H].
    eapply modesOnly_consistent; [|exact H].
    apply enableLoop_modesOnly. exact H.
Qed.

Lemma enableABRepeat_rest s :
  activeIndex (enableABRepeat s) = activeIndex s
  /\ subtitles (enableABRepeat s) = subtitles s
  /\ pointA (enableABRepeat s) = pointA s
  /\ pointB (enableABRepeat s) = pointB s
  /\ volume (enableABRepeat s) = volume s
  /\ playbackRate (enableABRepeat s) = playbackRate s.
Proof.
  destruct s as [? ? ? ? ? ? ? ? ? ? ? ? ? ? ? ? ? ? ? ? ? ? [a|] [b|]];
    unfold enableABRepeat; simpl; try (repeat split; fail).
  destruct (JS.gt b a); [|repeat split].
  flags; repeat split.
Qed.

Lemma enableABRepeat_consistent s :
  Consistent s -> Consistent (enableABRepeat s).
Proof.
  intros H. destruct (pointsInOrder s) eqn:P.
  - pose proof (enableABRepeat_modes s P) as Hm.
    destruct (enableABRepeat_rest s) as (E1 & E2 & E3 & E4 & E5 & E6).
    assert (pointA s <> None /\ pointB s <> None) as [Ha Hb].
    { unfold pointsInOrder in P.
      destruct (pointA s), (pointB s); try discriminate; split; discriminate. }
    destruct H.
    constructor; rewrite ?Hm, ?E1, ?E2, ?E3, ?E4, ?E5, ?E6; auto.
  - rewrite enableABRepeat_ignored; assumption.
Qed.

Lemma setPointB_consistent t s : Consistent s -> Consistent (setPointB t s).
Proof.
  intros H. unfold setPointB.
  destruct (_ || _); [exact H|].
  destruct (pointA s) as [a|] eqn:Ha; [|exact H].
  destruct (JS.gt t a); [|exact H].
  destruct H. constructor; simpl; auto; congruence.
Qed.

Lemma setPointA_consistent t s : Consistent s -> Consistent (setPointA t s).
Proof.
  intros H. unfold setPointA.
  destruct (_ || _); [exact H|].
  destruct H. constructor; simpl; auto; congruence.
Qed.

Lemma dispatch_consistent a w :
  Consistent (store w) -> Consistent (store (dispatch a w)).
Proof.
  intros H.
  pose proof (sameCore_consistent (store w)) as Core.
  pose proof (modesOnly_consistent (store w)) as Modes.
  destruct a; simpl.
  - (* setCurrentTime *) apply Core; [repeat split|exact H].
  - (* setDuration *) apply Core; [repeat split|exact H].
  - (* setPlaying *) apply Core; [repeat split|exact H].
  - (* setVolume *)
    destruct H. constructor; simpl; auto. apply clamp_within; reflexivity.
  - (* setPlaybackRate *)
    destruct H. constructor; simpl; auto. apply clamp_within; reflexivity.
  - (* setVideoFit *) apply Core; [repeat split|exact H].
  - (* setShowInlineSubtitles *) apply Core; [repeat split|exact H].
  - (* setPlayerRef *) apply Core; [repeat split|exact H].
  - (* setSubtitles *) destruct H. constructor; simpl; auto.
  - (* setActiveIndex *) apply setActiveIndex_consistent, H.
  - (* setActiveWordIndex *)
    unfold setActiveWordIndex. destruct (_ =? _); [exact H|].
    apply Core; [repeat split|exact H].
  - (* updateSubtitleConfig *) apply Core; [repeat split|exact H].
  - (* enableLoop *) apply Modes; [apply enableLoop_modesOnly, H|exact H].
  - (* disableLoop *) apply Modes; [apply disableLoop_modesOnly, H|exact H].
  - (* toggleLoop *) apply toggleLoop_consistent, H.
  - (* playSegment *) apply Modes; [apply playSegment_modesOnly, H|exact H].
  - (* startSegmentLoop *)
    apply Modes; [apply startSegmentLoop_modesOnly, H|exact H].
  - (* stopSegmentLoop *)
    apply Modes; [apply stopSegmentLoop_modesOnly, H|exact H].
  - (* incrementLoopCount *) apply Core; [repeat split|exact H].
  - (* playNextSegment *) apply playNextSegment_consistent, H.
  - (* playPreviousSegment *) apply playPreviousSegment_consistent, H.
  - (* setPointA *) apply setPointA_consistent, H.
  - (* setPointB *) apply setPointB_consistent, H.
  - (* enableABRepeat *) apply enableABRepeat_consistent, H.
  - (* disableABRepeat *)
    apply Modes; [apply disableABRepeat_modesOnly, H|exact H].
  - (* clearABPoints *)
    destruct H as [Hm Hi _ _ Hv Hr].
    constructor; simpl;
      [|exact Hi|intros [|]; congruence|congruence|exact Hv|exact Hr].
    revert Hm. unfold activeModes. simpl.
    destruct (loopEnabled _), (segmentLoopEnabled _), (abRepeatEnabled _),
      (shadowingEnabled _); simpl; lia.
  - (* toggleShadowing *)
    unfold toggleShadowing. destruct (shadowingEnabled _);
      (apply Modes; [|exact H]);
      [apply disableShadowing_modesOnly, H|apply enableShadowing_modesOnly, H].
  - (* enableShadowing *)
    apply Modes; [apply enableShadowing_modesOnly, H|exact H].
  - (* disableShadowing *)
    apply Modes; [apply disableShadowing_modesOnly, H|exact H].
  - (* setShadowingPauseFactor *) apply Core; [repeat split|exact H].
  - (* reset *)
    destruct H. constructor; simpl; auto;
      try (right; split; reflexivity); try (intros [|]); congruence.
Qed.

Lemma dispatchAll_consistent actions w :
  Consistent (store w) -> Consistent (store (dispatchAll actions w)).
Proof.
  revert w. induction actions as [|a actions IH]; intros w H; [exact H|].
  apply IH, dispatch_consistent, H.
Qed.

End Invariant.

(* ===================================================================== *)
(** ** The store under the driver *)
(* ===================================================================== *)

Import MediaStore MediaSync.

Section DriverInvariant.

Variable p : Props.

Definition Good (d : Driver) : Prop := Consistent (store (world d)).

Lemma onState_good f d :
  (forall s, Consistent s -> Consistent (f s)) -> Good d -> Good (onState f d).
Proof. unfold Good. simpl. auto. Qed.

Lemma onRefs_good f d : Good d -> Good (onRefs f d).
Proof. exact id. Qed.

Lemma call_good c d : Good d -> Good (onWorld (call c) d).
Proof. exact id. Qed.

Lemma sameCore_good f d :
  (forall s, sameCore s (f s)) -> Good d -> Good (onState f d).
Proof.
  intros Hf. apply onState_good. intros s. apply sameCore_consistent, Hf.
Qed.

Lemma setActiveWordIndex_good i d :
  Good d -> Good (onState (setActiveWordIndex i) d).
Proof.
  apply onState_good. intros s H. unfold setActiveWordIndex.
  destruct (_ =? _); [exact H|].
  eapply sameCore_consistent; [|exact H]. repeat split.
Qed.

Lemma setActiveIndex_good i d :
  Good d -> Good (onState (setActiveIndex i) d).
Proof. apply onState_good. intros s. apply setActiveIndex_consistent. Qed.

Lemma syncSubtitles_good t state d :
  Good d -> Good (syncSubtitles p t state d).
Proof.
  intros H. unfold syncSubtitles.
  assert (Hreset : forall d', Good d' -> Good
            (if negb (activeWordIndex state =? -1)
             then onState (setActiveWordIndex (-1)) d' else d')).
  { intros d' H'. destruct (negb _); [apply setActiveWordIndex_good|]; exact H'. }
  destruct (0 <? _); [|apply Hreset, H].
  set (newIndex := Resolver.findIndexAtTime _ _ _).
  set (d1 := if negb (newIndex =? activeIndex state)
             then onState (setActiveIndex newIndex) d else d).
  assert (H1 : Good d1).
  { subst d1. destruct (negb (newIndex =? activeIndex state));
      [apply setActiveIndex_good|]; exact H. }
  destruct (_ && _ && _); [|apply Hreset, H1].
  destruct (cueAt _ newIndex) as [cue|]; [|exact H1].
  set (d2 := if bool_decide _ then d1 else _).
  assert (H2 : Good d2).
  { subst d2. destruct (bool_decide _); exact H1. }
  destruct (_ && _); [|apply Hreset, H2].
  destruct (JS.toInteger _) as [z|]; [|exact H2].
  destruct (negb (z =? activeWordIndex state));
    [apply setActiveWordIndex_good|]; exact H2.
Qed.

Lemma syncShadowing_good t state d :
  Good d -> Good (syncShadowing p t state d).
Proof.
  intros H. unfold syncShadowing.
  destruct (_ && _ && _ && _).
  - destruct (cueAt _ _); [|exact H].
    destruct (_ && _ && _); [|exact H].
    apply onRefs_good, onRefs_good.
    apply sameCore_good; [repeat split|]. apply call_good, H.
  - destruct (_ && _); exact H.
Qed.

Lemma syncLoopControl_good t state d :
  Good d -> Good (syncLoopControl p t state d).
Proof.
  intros H. unfold syncLoopControl.
  assert (Hrest : Good
    (if segmentLoopEnabled state && JS.ge t (loopEnd state)
     then
      if segmentLoopCurrent state <? segmentLoopTotal state - 1
      then onState incrementLoopCount
             (onWorld (call (SeekTo (loopStart state))) d)
      else if autoPlayNext p then onWorld playNextSegment d
           else onState stopSegmentLoop (onWorld (call PauseVideo) d)
     else if loopEnabled state && JS.ge t (hookLoopEnd p)
          then onWorld (call (SeekTo (loopStart state))) d else d)).
  { destruct (_ && _).
    - destruct (_ <? _).
      + apply sameCore_good; [repeat split|]. exact H.
      + destruct (autoPlayNext p).
        * apply playNextSegment_consistent, H.
        * apply onState_good; [|exact H].
          intros s Hs. eapply modesOnly_consistent; [|exact Hs].
          apply stopSegmentLoop_modesOnly, Hs.
    - destruct (_ && _); exact H. }
  destruct (abRepeatEnabled state); [|exact Hrest].
  destruct (pointA state); [|exact Hrest].
  destruct (pointB state); [|exact Hrest].
  clear Hrest. destruct (JS.ge _ _); [exact H|]. destruct (JS.lt _ _); exact H.
Qed.

Lemma syncSegmentPlay_good t d : Good d -> Good (syncSegmentPlay t d).
Proof.
  intros H. unfold syncSegmentPlay. destruct (_ && _); [|exact H].
  apply sameCore_good; [repeat split|]. exact H.
Qed.

Lemma syncLoop_good t now d : Good d -> Good (syncLoop p t now d).
Proof.
  intros H. unfold syncLoop.
  destruct (negb _); [exact H|]. destruct (JS.lt _ _); [exact H|].
  apply onRefs_good, syncSegmentPlay_good, syncLoopControl_good,
    syncShadowing_good, syncSubtitles_good.
  destruct (JS.gt _ _); [|exact H].
  apply onRefs_good. apply sameCore_good; [repeat split|]. exact H.
Qed.

Lemma checkPausedSubtitle_good t d : Good d -> Good (checkPausedSubtitle p t d).
Proof.
  intros H. unfold checkPausedSubtitle. destruct (_ && _ && _); [|exact H].
  apply sameCore_good; [repeat split|].
  destruct (negb _); [apply setActiveIndex_good|]; exact H.
Qed.

Lemma shadowingResume_good t d : Good d -> Good (shadowingResume p t d).
Proof.
  intros H. unfold shadowingResume. apply onRefs_good.
  destruct (_ <? _); [|exact H].
  destruct (cueAt _ _); [|exact H].
  destruct (player p); [|exact H].
  apply sameCore_good; [repeat split|]. exact H.
Qed.

Lemma syncStep_good e d : Good d -> Good (syncStep p e d).
Proof.
  intros H. destruct e; simpl.
  - apply dispatch_consistent, H.
  - apply syncLoop_good, H.
  - apply checkPausedSubtitle_good, H.
  - destruct (shadowingTimeout _); [apply shadowingResume_good|]; exact H.
  - unfold onPlayingChange. destruct (_ && _); [exact H|].
    destruct (_ && _); exact H.
Qed.

Lemma syncRun_good events d : Good d -> Good (syncRun p events d).
Proof.
  revert d. induction events as [|e events IH]; intros d H; [exact H|].
  apply IH, syncStep_good, H.
Qed.

Lemma reachable_consistent events :
  Consistent (store (world (syncRun p events initialDriver))).
Proof. apply syncRun_good, initialState_consistent. Qed.

End DriverInvariant.

(** X9: at most one of the four playback modes (simple loop, segment
    loop, A/B repeat, shadowing) is on in every state the store reaches,
    whatever actions are dispatched and whatever frames, polls and timers
    the driver runs in between. *)
Theorem modes_stay_exclusive p events :
  (length (activeModes (store (world (syncRun p events initialDriver)))) <= 1)%nat.
Proof. apply reachable_consistent. Qed.

(** X10: in every state the store reaches, [activeIndex] is -1 or a
    position in [subtitles]; so [selectCurrentSubtitle] answers [null]
    exactly when [activeIndex] is -1. *)
Theorem activeIndex_stays_valid p events :
  let s := store (world (syncRun p events initialDriver)) in
  (activeIndex s = -1 \/ 0 <= activeIndex s < Z.of_nat (length (subtitles s)))
  /\ (selectCurrentSubtitle s = None <-> activeIndex s = -1).
Proof.
  intros s. pose proof (index_valid _ (reachable_consistent p events)) as H.
  fold s in H. split; [exact H|].
  unfold selectCurrentSubtitle, cueAt.
  destruct H as [->|H]; [split; reflexivity|].
  destruct (Z.leb_spec 0 (activeIndex s)); [|lia].
  destruct (Z.ltb_spec (activeIndex s) (Z.of_nat (length (subtitles s)))); [|lia].
  destruct (Z.ltb_spec (activeIndex s) 0); [lia|]. simpl.
  split; [|lia]. intros Hn. apply lookup_ge_None in Hn. lia.
Qed.

(** X11: in every state the store reaches, A/B repeat is on only while
    both points are set, and point B is set only while point A is; so
    [selectIsABRepeating] is [abRepeatEnabled]. *)
Theorem abRepeat_has_points p events :
  let s := store (world (syncRun p events initialDriver)) in
  (abRepeatEnabled s = true -> pointA s <> None /\ pointB s <> None)
  /\ (pointB s <> None -> pointA s <> None)
  /\ selectIsABRepeating s = abRepeatEnabled s.
Proof.
  intros s. destruct (reachable_consistent p events) as [_ _ H1 H2 _ _].
  fold s in H1, H2.
  split; [auto|]. split; [auto|].
  unfold selectIsABRepeating.
  destruct (abRepeatEnabled s) eqn:E; [|reflexivity].
  rewrite !bool_decide_eq_true_2 by auto. reflexivity.
Qed.

(* ===================================================================== *)
(** ** Frames of the driver *)
(* ===================================================================== *)

Import MediaStore MediaSync.

Section FrameFacts.

Variable p : Props.
Variables t now : JS.number.
Variable d : Driver.
Hypothesis Hplayer : player p = true.
Hypothesis Hmoved :
  JS.lt (JS.Math_abs (t - lastTime (refs d))%float) 0.01 = false.

Let s := store (world d).

(** A frame of A/B repeat. *)
Lemma abRepeat_frame_calls a b :
  abRepeatEnabled s = true -> pointA s = Some a -> pointB s = Some b ->
  shadowingEnabled s = false -> segmentPlayEnabled s = false ->
  calls (world (syncLoop p t now d))
  = calls (world d) ++ (if JS.ge t b || JS.lt t a then [SeekTo a] else [])
  /\ modeFields (store (world (syncLoop p t now d))) = modeFields s.
Proof.
  intros Hab Ha Hb Hsh Hsp.
  destruct (syncLoop_frame p t now d Hplayer Hmoved Hsh)
    as (before & Hbm & Hbc & Hbt & ->).
  fold s in Hbm |- *.
  unfold syncLoopControl. rewrite Hab, Ha, Hb.
  assert (Hsp' : segmentPlayEnabled (store (world before)) = false).
  { rewrite <- Hsp. apply modeFields_segmentPlay. exact Hbm. }
  destruct (JS.ge t b); simpl.
  - rewrite syncSegmentPlay_quiet by exact Hsp'. simpl.
    rewrite Hbc. auto.
  - destruct (JS.lt t a); rewrite syncSegmentPlay_quiet by exact Hsp'; simpl;
      rewrite Hbc, ?app_nil_r; auto.
Qed.

(** A frame of the simple loop. *)
Lemma loop_frame_calls :
  loopEnabled s = true -> abRepeatEnabled s = false ->
  segmentLoopEnabled s = false ->
  shadowingEnabled s = false -> segmentPlayEnabled s = false ->
  calls (world (syncLoop p t now d))
  = calls (world d)
    ++ (if JS.ge t (hookLoopEnd p) then [SeekTo (loopStart s)] else [])
  /\ modeFields (store (world (syncLoop p t now d))) = modeFields s.
Proof.
  intros Hl Hab Hsl Hsh Hsp.
  destruct (syncLoop_frame p t now d Hplayer Hmoved Hsh)
    as (before & Hbm & Hbc & Hbt & ->).
  fold s in Hbm |- *.
  unfold syncLoopControl. rewrite Hab, Hsl, Hl. simpl.
  assert (Hsp' : segmentPlayEnabled (store (world before)) = false).
  { rewrite <- Hsp. apply modeFields_segmentPlay. exact Hbm. }
  destruct (JS.ge t (hookLoopEnd p));
    rewrite syncSegmentPlay_quiet by exact Hsp';
    simpl; rewrite Hbc, ?app_nil_r; auto.
Qed.

End FrameFacts.

(** X12: while A/B repeat is on, with shadowing off and no play-once
    segment pending, a frame seeks the player to point A when the time has
    reached point B or lies before point A, and does nothing to the player
    otherwise; the modes stay as they are.  A/B repeat is looked at first:
    the loop and the segment loop are not consulted. *)
Theorem abRepeat_frame p t now d a b :
  player p = true ->
  JS.lt (JS.Math_abs (t - lastTime (refs d))%float) 0.01 = false ->
  abRepeatEnabled (store (world d)) = true ->
  pointA (store (world d)) = Some a -> pointB (store (world d)) = Some b ->
  shadowingEnabled (store (world d)) = false ->
  segmentPlayEnabled (store (world d)) = false ->
  calls (world (syncLoop p t now d))
  = calls (world d) ++ (if JS.ge t b || JS.lt t a then [SeekTo a] else [])
  /\ modeFields (store (world (syncLoop p t now d)))
     = modeFields (store (world d)).
Proof. intros. apply abRepeat_frame_calls; assumption. Qed.

Lemma abRepeat_frame_witness :
  calls (world (syncLoop (mkProps true true false false [] 0) 4.5 0 repeating2to4))
  = [SeekTo 2]
  /\ calls (world (syncLoop (mkProps true true false false [] 0) 3 0 repeating2to4))
     = [].
Proof.
  split.
  - exact (proj1 (abRepeat_frame (mkProps true true false false [] 0) 4.5 0
                    repeating2to4 2 4 eq_refl eq_refl eq_refl eq_refl eq_refl
                    eq_refl eq_refl)).
  - exact (proj1 (abRepeat_frame (mkProps true true false false [] 0) 3 0
                    repeating2to4 2 4 eq_refl eq_refl eq_refl eq_refl eq_refl
                    eq_refl eq_refl)).
Defined.

(** X13: [setPointA] does not look at point B.  When point A is moved to
    or past point B while A/B repeat is on (shadowing off, no play-once
    segment pending), the mode stays on, and from then on every frame seeks
    the player to point A, wherever the playback is. *)
Theorem abRepeat_inverted_points p t now d s0 a b :
  player p = true ->
  JS.lt (JS.Math_abs (t - lastTime (refs d))%float) 0.01 = false ->
  JS.isNaN t = false ->
  abRepeatEnabled s0 = true -> pointB s0 = Some b ->
  shadowingEnabled s0 = false -> segmentPlayEnabled s0 = false ->
  JS.isNaN a = false -> JS.lt a 0 = false -> JS.le b a = true ->
  store (world d) = setPointA a s0 ->
  abRepeatEnabled (store (world d)) = true
  /\ pointsInOrder (store (world d)) = false
  /\ calls (world (syncLoop p t now d)) = calls (world d) ++ [SeekTo a].
Proof.
  intros Hp Hmoved Ht Hab Hb Hsh Hsp Ha1 Ha2 Hba Hd.
  assert (E : setPointA a s0 = set_pointA (Some a) s0).
  { unfold setPointA. rewrite Ha1, Ha2. reflexivity. }
  rewrite E in Hd.
  assert (Hord : JS.gt b a = false).
  { unfold JS.gt, JS.le in *. apply FloatOrder.leb_not_ltb. exact Hba. }
  split; [rewrite Hd; exact Hab|].
  split; [rewrite Hd; unfold pointsInOrder; simpl; rewrite Hb; exact Hord|].
  destruct (abRepeat_frame_calls p t now d Hp Hmoved a b) as [-> _];
    try (rewrite Hd; assumption); try (rewrite Hd; reflexivity).
  unfold JS.ge, JS.lt, JS.le, JS.isNaN in *.
  destruct (PrimFloat.leb b t) eqn:E1; [reflexivity|].
  assert (E2 : PrimFloat.ltb t b = true).
  { destruct (PrimFloat.ltb t b) eqn:E2; [reflexivity|].
    rewrite (FloatOrderFacts.ltb_or_leb t b Ht
               (FloatOrderFacts.leb_not_nan_l _ _ Hba) E2) in E1.
    discriminate. }
  rewrite (FloatOrderFacts.ltb_leb_trans _ _ _ E2 Hba). reflexivity.
Qed.

Lemma abRepeat_inverted_points_witness :
  let d := mkDriver
             (mkWorld (setPointA 5
                         (enableABRepeat
                            (setPointB 4 (setPointA 2 initialState)))) [])
             initialRefs in
  calls (world (syncLoop (mkProps true true false false [] 0) 7 0 d)) = [SeekTo 5]
  /\ calls (world (syncLoop (mkProps true true false false [] 0) 1 0 d)) = [SeekTo 5].
Proof.
  intros d. split.
  - exact (proj2 (proj2 (abRepeat_inverted_points
             (mkProps true true false false [] 0) 7 0 d
             (enableABRepeat (setPointB 4 (setPointA 2 initialState))) 5 4
             eq_refl eq_refl eq_refl eq_refl eq_refl eq_refl eq_refl eq_refl
             eq_refl eq_refl eq_refl))).
  - exact (proj2 (proj2 (abRepeat_inverted_points
             (mkProps true true false false [] 0) 1 0 d
             (enableABRepeat (setPointB 4 (setPointA 2 initialState))) 5 4
             eq_refl eq_refl eq_refl eq_refl eq_refl eq_refl eq_refl eq_refl
             eq_refl eq_refl eq_refl))).
Defined.

(** X14: while the simple loop is the mode that is on, a frame seeks the
    player to the [loopStart] of the store exactly when the time is at or
    past the [loopEnd] that the frame loop closed over, the one of the
    render that started the loop, whatever the [loopEnd] of the store is by
    then; the loop stays on.  A loop that is enabled while the frame loop is
    running is therefore tested against the end that was in the store
    before. *)
Theorem loop_frame p t now d :
  player p = true ->
  JS.lt (JS.Math_abs (t - lastTime (refs d))%float) 0.01 = false ->
  activeModes (store (world d)) = [SimpleLoop] ->
  segmentPlayEnabled (store (world d)) = false ->
  calls (world (syncLoop p t now d))
  = calls (world d)
    ++ (if JS.ge t (hookLoopEnd p)
        then [SeekTo (loopStart (store (world d)))] else [])
  /\ modeFields (store (world (syncLoop p t now d)))
     = modeFields (store (world d)).
Proof.
  intros Hp Hmoved Hm Hsp.
  assert (loopEnabled (store (world d)) = true
          /\ segmentLoopEnabled (store (world d)) = false
          /\ abRepeatEnabled (store (world d)) = false
          /\ shadowingEnabled (store (world d)) = false)
    as (H1 & H2 & H3 & H4).
  { revert Hm. unfold activeModes. simpl.
    destruct (loopEnabled _), (segmentLoopEnabled _), (abRepeatEnabled _),
      (shadowingEnabled _); simpl; intros [=]; repeat split. }
  apply loop_frame_calls; assumption.
Qed.

(** A loop over [10, 12): a frame loop that was started after the loop was
    enabled seeks at 12.5 s and not at 11 s; one that was started before,
    when [loopEnd] was 0, seeks at 11 s too. *)
Lemma loop_frame_witness :
  let d := mkDriver (mkWorld (enableLoop 10 12 initialState) []) initialRefs in
  calls (world (syncLoop (mkProps true true false false [] 12) 12.5 0 d))
  = [SeekTo 10]
  /\ calls (world (syncLoop (mkProps true true false false [] 12) 11 0 d)) = []
  /\ calls (world (syncLoop (mkProps true true false false [] 0) 11 0 d))
     = [SeekTo 10].
Proof.
  intros d. split; [|split].
  - exact (proj1 (loop_frame (mkProps true true false false [] 12) 12.5 0 d
                    eq_refl eq_refl eq_refl eq_refl)).
  - exact (proj1 (loop_frame (mkProps true true false false [] 12) 11 0 d
                    eq_refl eq_refl eq_refl eq_refl)).
  - exact (proj1 (loop_frame (mkProps true true false false [] 0) 11 0 d
                    eq_refl eq_refl eq_refl eq_refl)).
Defined.

(** A step that leaves alone the modes, the player, [playing], the
    subtitles and the refs of shadowing. *)
Definition calm (d d' : Driver) : Prop :=
  quiet d d'
  /\ playing (store (world d')) = playing (store (world d))
  /\ isShadowingWaiting (refs d') = isShadowingWaiting (refs d)
  /\ lastShadowingSubtitleIndex (refs d') = lastShadowingSubtitleIndex (refs d)
  /\ shadowingTimeout (refs d') = shadowingTimeout (refs d).

Section CalmFacts.

Lemma calm_refl d : calm d d.
Proof. repeat split. Qed.

Lemma calm_trans d1 d2 d3 : calm d1 d2 -> calm d2 d3 -> calm d1 d3.
Proof.
  intros (Q1 & A1 & B1 & C1 & D1) (Q2 & A2 & B2 & C2 & D2).
  split; [eapply quiet_trans; eassumption|].
  rewrite A2, B2, C2, D2. auto.
Qed.

Lemma setActiveIndex_calm i d : calm d (onState (setActiveIndex i) d).
Proof.
  split; [apply setActiveIndex_quiet|].
  unfold onState, onWorld, onStore, setActiveIndex. simpl.
  repeat match goal with
         | |- context [if ?b then _ else _] => destruct b
         end; repeat split.
Qed.

Lemma setActiveWordIndex_calm i d : calm d (onState (setActiveWordIndex i) d).
Proof.
  split; [apply setActiveWordIndex_quiet|].
  unfold onState, onWorld, onStore, setActiveWordIndex. simpl.
  destruct (_ =? _); repeat split.
Qed.

Lemma syncSubtitles_calm p t state d : calm d (syncSubtitles p t state d).
Proof.
  unfold syncSubtitles.
  assert (Hreset : forall d', calm d d' -> calm d
            (if negb (activeWordIndex state =? -1)
             then onState (setActiveWordIndex (-1)) d' else d')).
  { intros d' H. destruct (negb (activeWordIndex state =? -1)); [|exact H].
    eapply calm_trans; [exact H | apply setActiveWordIndex_calm]. }
  destruct (0 <? _); [|apply Hreset, calm_refl].
  set (newIndex := Resolver.findIndexAtTime _ _ _).
  set (d1 := if negb (newIndex =? activeIndex state)
             then onState (setActiveIndex newIndex) d else d).
  assert (H1 : calm d d1).
  { subst d1. destruct (negb (newIndex =? activeIndex state));
      [apply setActiveIndex_calm | apply calm_refl]. }
  destruct (_ && _ && _); [|apply Hreset, H1].
  destruct (cueAt _ newIndex) as [cue|]; [|exact H1].
  set (d2 := if bool_decide _ then d1 else _).
  assert (H2 : calm d d2).
  { subst d2. destruct (bool_decide _); [exact H1|].
    eapply calm_trans; [exact H1 | repeat split]. }
  destruct (_ && _); [|apply Hreset, H2].
  destruct (JS.toInteger _) as [z|]; [|exact H2].
  destruct (negb (z =? activeWordIndex state)); [|exact H2].
  eapply calm_trans; [exact H2 | apply setActiveWordIndex_calm].
Qed.

(** What a frame does before it looks at shadowing. *)
Lemma syncLoop_head p t now d :
  player p = true ->
  JS.lt (JS.Math_abs (t - lastTime (refs d))%float) 0.01 = false ->
  exists before,
    modeFields (store (world before)) = modeFields (store (world d))
    /\ calls (world before) = calls (world d)
    /\ playing (store (world before)) = playing (store (world d))
    /\ isShadowingWaiting (refs before) = isShadowingWaiting (refs d)
    /\ lastShadowingSubtitleIndex (refs before)
       = lastShadowingSubtitleIndex (refs d)
    /\ shadowingTimeout (refs before) = shadowingTimeout (refs d)
    /\ syncLoop p t now d
       = onRefs (set_rafId true)
           (syncSegmentPlay t
              (syncLoopControl p t (store (world d))
                 (syncShadowing p t (store (world d)) before))).
Proof.
  intros Hp Hnew. unfold syncLoop. rewrite Hp, Hnew. simpl.
  set (d0 := onRefs (set_lastTime t) d).
  set (d1 := if JS.gt _ _ then _ else d0).
  assert (H1 : calm d0 d1).
  { subst d1. destruct (JS.gt _ _); repeat split. }
  change (store (world d0)) with (store (world d)).
  set (d2 := syncSubtitles p t (store (world d)) d1).
  assert (H2 : calm d1 d2) by apply syncSubtitles_calm.
  destruct (calm_trans _ _ _ H1 H2) as ((Hm & Hc & _) & Hpl & Hw & Hl & Ht).
  exists d2. repeat split; assumption.
Qed.

End CalmFacts.

Section ShadowingFacts.

Lemma activeModes_shadowing s :
  activeModes s = [Shadowing] ->
  loopEnabled s = false /\ segmentLoopEnabled s = false
  /\ abRepeatEnabled s = false /\ shadowingEnabled s = true.
Proof.
  unfold activeModes. simpl.
  destruct (loopEnabled s), (segmentLoopEnabled s), (abRepeatEnabled s),
    (shadowingEnabled s); simpl; intros [=]; repeat split.
Qed.

Lemma modeFields_subtitles s s' :
  modeFields s = modeFields s' -> subtitles s = subtitles s'.
Proof. unfold modeFields. intros [=]. assumption. Qed.

End ShadowingFacts.

(** X15: shadowing at the end of a sentence.  The frame reads the cue at
    the [activeIndex] of the store in the cue list it closed over, the
    [subtitles] of the render that started the frame loop.  While
    shadowing is the mode that is on, the frame that finds the time within
    0.1 s of the end of that cue pauses the player, sets [playing] to false
    and arms the resume timer with the pause of that sentence.  When the
    timer fires, the player is sent to the start of the next cue of that
    same list and plays again; after its last cue it stays paused. *)
Theorem shadowing_pause_and_resume p t now d (i : nat) c :
  player p = true -> isBlocked p = false ->
  JS.lt (JS.Math_abs (t - lastTime (refs d))%float) 0.01 = false ->
  activeModes (store (world d)) = [Shadowing] ->
  segmentPlayEnabled (store (world d)) = false ->
  activeIndex (store (world d)) = Z.of_nat i ->
  hookSubtitles p !! i = Some c ->
  isShadowingWaiting (refs d) = false ->
  lastShadowingSubtitleIndex (refs d) <> Z.of_nat i ->
  JS.ge t (cue_end c - 0.1)%float = true ->
  let d1 := syncLoop p t now d in
  let d2 := syncStep p ResumeTimer d1 in
  (calls (world d1) = calls (world d) ++ [PauseVideo]
   /\ playing (store (world d1)) = false
   /\ isShadowingWaiting (refs d1) = true
   /\ shadowingTimeout (refs d1)
      = Some (mkTimeout
                (dynamicPauseDuration (cue_end c - cue_start c)%float
                   (shadowingPauseFactor (store (world d))))
                (Z.of_nat i) (hookSubtitles p)))
  /\ isShadowingWaiting (refs d2) = false
  /\ shadowingTimeout (refs d2) = None
  /\ match hookSubtitles p !! S i with
     | Some next =>
         calls (world d2)
         = calls (world d1) ++ [SeekTo (cue_start next); PlayVideo]
         /\ playing (store (world d2)) = true
     | None =>
         calls (world d2) = calls (world d1)
         /\ playing (store (world d2)) = false
     end.
Proof.
  intros Hp Hblk Hmoved Hm Hsp Hi Hc Hw Hlast Hend d1 d2.
  destruct (activeModes_shadowing _ Hm) as (Hl & Hsl & Hab & Hsh).
  destruct (syncLoop_head p t now d Hp Hmoved)
    as (b & Hbm & Hbc & Hbp & Hbw & Hbl & Hbt & E).
  assert (Hlen : (i < length (hookSubtitles p))%nat)
    by (eapply lookup_lt_Some; eassumption).
  set (tm := mkTimeout
               (dynamicPauseDuration (cue_end c - cue_start c)%float
                  (shadowingPauseFactor (store (world d)))) (Z.of_nat i)
               (hookSubtitles p)).
  set (b1 := onRefs (set_shadowingTimeout (Some tm))
               (onRefs (fun r => set_lastShadowingSubtitleIndex (Z.of_nat i)
                                   (set_isShadowingWaiting true r))
                  (onState (setPlaying false) (onWorld (call PauseVideo) b)))).
  assert (E1 : syncShadowing p t (store (world d)) b = b1).
  { unfold syncShadowing. rewrite Hblk, Hsh, Hi. simpl.
    destruct (Z.leb_spec 0 (Z.of_nat i)); [|lia].
    destruct (Z.ltb_spec (Z.of_nat i)
                (Z.of_nat (length (hookSubtitles p)))); [|lia].
    simpl. unfold cueAt.
    destruct (Z.ltb_spec (Z.of_nat i) 0); [lia|].
    rewrite Nat2Z.id, Hc, Hbw, Hbl, Hend. simpl.
    destruct (Z.eqb_spec (lastShadowingSubtitleIndex (refs d)) (Z.of_nat i));
      [contradiction|]. rewrite Hw. reflexivity. }
  assert (E2 : syncLoopControl p t (store (world d)) b1 = b1).
  { unfold syncLoopControl. rewrite Hab, Hsl, Hl. reflexivity. }
  assert (E3 : syncSegmentPlay t b1 = b1).
  { apply syncSegmentPlay_quiet. subst b1. simpl.
    rewrite <- Hsp. apply modeFields_segmentPlay. exact Hbm. }
  assert (Ed1 : d1 = onRefs (set_rafId true) b1).
  { subst d1. rewrite E, E1, E2, E3. reflexivity. }
  split.
  { rewrite Ed1. subst b1. simpl. rewrite Hbc. repeat split. }
  assert (Ed2 : d2 = shadowingResume p tm d1).
  { subst d2. simpl. rewrite Ed1. reflexivity. }
  rewrite Ed2. unfold shadowingResume.
  split; [reflexivity|]. split; [reflexivity|].
  destruct (hookSubtitles p !! S i) as [next|] eqn:Hn;
    simpl timeout_activeIndex; simpl timeout_subtitles;
    replace (Z.of_nat i + 1) with (Z.of_nat (S i)) by lia;
    unfold cueAt; (destruct (Z.ltb_spec (Z.of_nat (S i)) 0); [lia|]);
    rewrite Nat2Z.id, Hn.
  - pose proof (lookup_lt_Some _ _ _ Hn).
    destruct (Z.ltb_spec (Z.of_nat (S i))
                (Z.of_nat (length (hookSubtitles p)))); [|lia].
    rewrite Hp. simpl. rewrite <- app_assoc. split; reflexivity.
  - assert (playing (store (world d1)) = false)
      by (rewrite Ed1; reflexivity).
    destruct (_ <? _); simpl; auto.
Qed.

Lemma shadowing_pause_and_resume_witness :
  let p := mkProps true true false false gapCues 0 in
  let d1 := syncLoop p 0.95 0 shadowingAtFirst in
  calls (world d1) = [PauseVideo]
  /\ calls (world (syncStep p ResumeTimer d1)) = [PauseVideo; SeekTo 2; PlayVideo].
Proof.
  intros p d1.
  pose proof (shadowing_pause_and_resume p 0.95 0 shadowingAtFirst 0
                (Resolver.span 0 0 1) eq_refl eq_refl eq_refl eq_refl eq_refl
                eq_refl eq_refl eq_refl ltac:(discriminate) eq_refl)
    as [[H1 _] (_ & _ & H2)].
  split; [exact H1|].
  change (calls (world (syncStep p ResumeTimer d1))
          = calls (world d1) ++ [SeekTo 2; PlayVideo]
          /\ playing (store (world (syncStep p ResumeTimer d1))) = true) in H2.
  destruct H2 as [H2 _].
  exact (eq_trans H2 (f_equal (fun l => l ++ [SeekTo 2; PlayVideo]) H1)).
Defined.

(** X16: [playSegment] plays once.  After it no mode is on; a frame
    that comes right after it and finds the time at or past the end of the
    segment pauses the player and clears the flag, so that the frame after
    it leaves the player alone. *)
Theorem playSegment_pauses_once p start end_ s0 cs r0 t1 now1 t2 now2 :
  player p = true ->
  JS.lt (JS.Math_abs (t1 - lastTime r0)%float) 0.01 = false ->
  JS.lt (JS.Math_abs (t2 - t1)%float) 0.01 = false ->
  JS.ge t1 end_ = true ->
  let d0 := mkDriver (mkWorld (playSegment start end_ s0) cs) r0 in
  let d1 := syncLoop p t1 now1 d0 in
  let d2 := syncLoop p t2 now2 d1 in
  activeModes (store (world d0)) = []
  /\ calls (world d1) = cs ++ [PauseVideo]
  /\ segmentPlayEnabled (store (world d1)) = false
  /\ calls (world d2) = calls (world d1).
Proof.
  intros Hp Hm1 Hm2 Hend d0 d1 d2.
  assert (F0 : activeModes (store (world d0)) = []
               /\ segmentPlayEnabled (store (world d0)) = true
               /\ segmentPlayEnd (store (world d0)) = end_
               /\ loopEnabled (store (world d0)) = false
               /\ segmentLoopEnabled (store (world d0)) = false
               /\ abRepeatEnabled (store (world d0)) = false
               /\ shadowingEnabled (store (world d0)) = false
               /\ calls (world d0) = cs
               /\ lastTime (refs d0) = lastTime r0).
  { subst d0. destruct s0. simpl.
    repeat match goal with b : bool |- _ => destruct b end; repeat split. }
  destruct F0 as (M0 & P0 & Pe0 & L0 & S0 & A0 & H0 & C0 & T0).
  split; [exact M0|].
  clearbody d0. rewrite <- T0 in Hm1.
  destruct (syncLoop_frame p t1 now1 d0 Hp Hm1 H0)
    as (b & Hbm & Hbc & Hbt & E1).
  assert (C1 : syncLoopControl p t1 (store (world d0)) b = b).
  { unfold syncLoopControl. rewrite A0, S0, L0. reflexivity. }
  assert (Fb : segmentPlayEnabled (store (world b)) = true
               /\ segmentPlayEnd (store (world b)) = end_).
  { revert Hbm. unfold modeFields. intros [=]. split; congruence. }
  destruct Fb as [Pb Peb].
  assert (Ed1 : d1 = onRefs (set_rafId true)
                       (onState (set_segmentPlayEnabled false)
                          (onWorld (call PauseVideo) b))).
  { subst d1. rewrite E1, C1. unfold syncSegmentPlay.
    rewrite Pb, Peb, Hend. reflexivity. }
  assert (F1 : calls (world d1) = cs ++ [PauseVideo]
               /\ segmentPlayEnabled (store (world d1)) = false
               /\ lastTime (refs d1) = t1
               /\ loopEnabled (store (world d1)) = false
               /\ segmentLoopEnabled (store (world d1)) = false
               /\ abRepeatEnabled (store (world d1)) = false
               /\ shadowingEnabled (store (world d1)) = false).
  { rewrite Ed1. simpl. rewrite Hbc.
    revert Hbm. unfold modeFields. intros [=].
    repeat split; try congruence. }
  destruct F1 as (Fc & Fp & Ft & L1 & S1 & A1 & H1).
  split; [exact Fc|]. split; [exact Fp|].
  clearbody d1.
  assert (Hm2' : JS.lt (JS.Math_abs (t2 - lastTime (refs d1))%float) 0.01 = false)
    by (rewrite Ft; exact Hm2).
  destruct (syncLoop_frame p t2 now2 d1 Hp Hm2' H1)
    as (b2 & Hbm2 & Hbc2 & Hbt2 & E2).
  subst d2. rewrite E2.
  unfold syncLoopControl. rewrite A1, S1, L1. simpl.
  rewrite syncSegmentPlay_quiet.
  - simpl. exact Hbc2.
  - rewrite <- Fp. apply modeFields_segmentPlay. exact Hbm2.
Qed.

Lemma playSegment_pauses_once_witness :
  let p := mkProps true true false false [] 0 in
  let d0 := mkDriver (mkWorld (playSegment 10 12 initialState) []) initialRefs in
  calls (world (syncLoop p 12.3 0 (syncLoop p 12 0 d0))) = [PauseVideo].
Proof.
  intros p d0.
  pose proof (playSegment_pauses_once p 10 12 initialState [] initialRefs
                12 0 12.3 0 eq_refl eq_refl eq_refl eq_refl)
    as (_ & H1 & _ & H2).
  exact (eq_trans H2 H1).
Defined.

Section HighlightFacts.

Variable p : Props.
Variable t : JS.number.
Variable v : Z.

(** The store shows cue [v] as the active one. *)
Definition shows (d : Driver) : Prop :=
  activeIndex (store (world d)) = v.

Lemma setActiveWordIndex_shows i d :
  shows d -> shows (onState (setActiveWordIndex i) d).
Proof.
  unfold shows, onState, onWorld, onStore, setActiveWordIndex. simpl.
  destruct (_ =? _); auto.
Qed.

Lemma setActiveIndex_shows d :
  0 <= v < Z.of_nat (length (subtitles (store (world d)))) ->
  shows (onState (setActiveIndex v) d).
Proof.
  intros Hj. unfold shows, onState, onWorld, onStore, setActiveIndex. simpl.
  destruct (Z.eqb_spec (activeIndex (store (world d))) v);
    [assumption|].
  destruct (Z.leb_spec 0 v); [|lia].
  destruct (Z.ltb_spec v
              (Z.of_nat (length (subtitles (store (world d)))))); [|lia].
  reflexivity.
Qed.

Lemma wordHighlight_shows state (newIndex : Z) d :
  shows d ->
  shows
    (if wordByWordHighlight (subtitleConfig state)
        && (0 <=? newIndex) && (newIndex <? Z.of_nat (length (hookSubtitles p)))
     then
       match cueAt (hookSubtitles p) newIndex with
       | Some currentCue =>
         let relativeTime := (t - cue_start currentCue)%float in
         let duration_ := (cue_end currentCue - cue_start currentCue)%float in
         let d :=
           if bool_decide (lastSubtitleId (refs d) = Some (cue_id currentCue))
           then d
           else onRefs (set_wordCache (Some (cue_id currentCue))
                          (wordsOf currentCue)) d in
         let words := cachedWords (refs d) in
         let n := Z.of_nat (length words) in
         if (0 <? n) && JS.gt duration_ 0 then
           let timePerWord := (duration_ / JS.of_Z n)%float in
           let wordIndex := JS.Math_floor (relativeTime / timePerWord)%float in
           match JS.toInteger
                   (JS.Math_min (JS.Math_max 0 wordIndex) (JS.of_Z (n - 1))) with
           | Some safeWordIndex =>
             if negb (safeWordIndex =? activeWordIndex state) then
               onState (setActiveWordIndex safeWordIndex) d
             else d
           | None => d
           end
         else if negb (activeWordIndex state =? -1) then
                onState (setActiveWordIndex (-1)) d
              else d
       | None => d
       end
     else if negb (activeWordIndex state =? -1) then
            onState (setActiveWordIndex (-1)) d
          else d).
Proof.
  intros H1.
  assert (Hreset : forall d', shows d' -> shows
            (if negb (activeWordIndex state =? -1)
             then onState (setActiveWordIndex (-1)) d' else d')).
  { intros d' H'. destruct (negb (activeWordIndex state =? -1));
      [apply setActiveWordIndex_shows|]; exact H'. }
  destruct (_ && _ && _); [|apply Hreset, H1].
  destruct (cueAt _ newIndex) as [cue|]; [|exact H1].
  cbv zeta.
  set (d2 := if bool_decide _ then d else _).
  assert (H2 : shows d2).
  { subst d2. destruct (bool_decide _); exact H1. }
  destruct (_ && _); [|apply Hreset, H2].
  destruct (JS.toInteger _) as [z|]; [|exact H2].
  destruct (negb (z =? activeWordIndex state));
    [apply setActiveWordIndex_shows|]; exact H2.
Qed.

(** The frame shows the cue it finds in the cue list of the closure, when
    that is a position of the cue list of the store. *)
Lemma syncSubtitles_shows state d :
  hookSubtitles p <> [] ->
  Resolver.findIndexAtTime (hookSubtitles p) t (activeIndex state) = v ->
  0 <= v < Z.of_nat (length (subtitles (store (world d)))) ->
  activeIndex (store (world d)) = activeIndex state ->
  shows (syncSubtitles p t state d).
Proof.
  intros Hne Hfind Hv Hi. unfold syncSubtitles.
  destruct (Z.ltb_spec 0 (Z.of_nat (length (hookSubtitles p)))) as [_|Hl];
    [|destruct (hookSubtitles p); [contradiction|simpl in Hl; lia]].
  rewrite Hfind. apply wordHighlight_shows.
  destruct (Z.eqb_spec v (activeIndex state)); simpl.
  - unfold shows. congruence.
  - apply setActiveIndex_shows. exact Hv.
Qed.

(** Without cues in the closure the frame leaves the active cue alone. *)
Lemma syncSubtitles_keeps state d :
  hookSubtitles p = [] -> shows d -> shows (syncSubtitles p t state d).
Proof.
  intros He H. unfold syncSubtitles. rewrite He. simpl.
  destruct (negb _); [apply setActiveWordIndex_shows|]; exact H.
Qed.

Lemma syncShadowing_shows state d :
  shows d -> shows (syncShadowing p t state d).
Proof.
  intros H. unfold syncShadowing.
  destruct (_ && _ && _ && _).
  - destruct (cueAt _ _); [|exact H].
    destruct (_ && _ && _); exact H.
  - destruct (_ && _); exact H.
Qed.

Lemma syncLoopControl_shows state d :
  autoPlayNext p = false \/ segmentLoopEnabled state = false ->
  shows d -> shows (syncLoopControl p t state d).
Proof.
  intros Hno H. unfold syncLoopControl.
  assert (Hrest : shows
    (if segmentLoopEnabled state && JS.ge t (loopEnd state)
     then
      if segmentLoopCurrent state <? segmentLoopTotal state - 1
      then onState incrementLoopCount
             (onWorld (call (SeekTo (loopStart state))) d)
      else if autoPlayNext p then onWorld playNextSegment d
           else onState stopSegmentLoop (onWorld (call PauseVideo) d)
     else if loopEnabled state && JS.ge t (hookLoopEnd p)
          then onWorld (call (SeekTo (loopStart state))) d else d)).
  { destruct Hno as [-> | ->]; simpl.
    - destruct (_ && _); [destruct (_ <? _)|destruct (_ && _)]; exact H.
    - destruct (_ && _); exact H. }
  destruct (abRepeatEnabled state); [|exact Hrest].
  destruct (pointA state); [|exact Hrest].
  destruct (pointB state); [|exact Hrest].
  clear Hrest. destruct (JS.ge _ _); [exact H|]. destruct (JS.lt _ _); exact H.
Qed.

Lemma syncSegmentPlay_shows d : shows d -> shows (syncSegmentPlay t d).
Proof.
  intros H. unfold syncSegmentPlay. destruct (_ && _); exact H.
Qed.

End HighlightFacts.

(** X17: the highlight follows the playback, in the cue list the frame
    loop closed over.  A frame looks the time up in the [subtitles] of the
    render that started the frame loop: when they are in playing order and
    the time lies in their cue [j], the frame leaves [j] as the active
    index of the store, whatever was active before, provided [j] is a
    position of the cue list of the store; when the closure has no cues,
    also after cues were loaded into the store, the frame leaves the active
    index as it is.  The 100 ms poll of a paused playback looks the time up
    in the cue list of the store.  (A frame that ends a segment loop with
    auto-advance moves on to the next cue instead.) *)
Theorem highlight_follows_time p t now d (j : nat) cj :
  player p = true ->
  activeAt cj t = true ->
  (inOrder (hookSubtitles p) = true ->
   hookSubtitles p !! j = Some cj ->
   (j < length (subtitles (store (world d))))%nat ->
   JS.lt (JS.Math_abs (t - lastTime (refs d))%float) 0.01 = false ->
   autoPlayNext p = false \/ segmentLoopEnabled (store (world d)) = false ->
   activeIndex (store (world (syncLoop p t now d))) = Z.of_nat j)
  /\ (hookSubtitles p = [] ->
      JS.lt (JS.Math_abs (t - lastTime (refs d))%float) 0.01 = false ->
      autoPlayNext p = false \/ segmentLoopEnabled (store (world d)) = false ->
      activeIndex (store (world (syncLoop p t now d)))
      = activeIndex (store (world d)))
  /\ (inOrder (subtitles (store (world d))) = true ->
      subtitles (store (world d)) !! j = Some cj ->
      playing (store (world d)) = false ->
      activeIndex (store (world (checkPausedSubtitle p t d))) = Z.of_nat j).
Proof.
  intros Hp Hact. split; [|split].
  - intros Hord Hj Hlen Hmoved Hno.
    pose proof (findIndexAtTime_finds_core _ _ _ _
                  (activeIndex (store (world d))) Hord Hj Hact) as Hfind.
    unfold syncLoop. rewrite Hp, Hmoved. simpl.
    apply syncSegmentPlay_shows, syncLoopControl_shows; [exact Hno|].
    apply syncShadowing_shows, syncSubtitles_shows.
    + intros E. rewrite E in Hj. discriminate.
    + exact Hfind.
    + destruct (JS.gt _ _); simpl; lia.
    + destruct (JS.gt _ _); reflexivity.
  - intros He Hmoved Hno. unfold syncLoop. rewrite Hp, Hmoved. simpl.
    apply syncSegmentPlay_shows, syncLoopControl_shows; [exact Hno|].
    apply syncShadowing_shows, syncSubtitles_keeps; [exact He|].
    unfold shows. destruct (JS.gt _ _); reflexivity.
  - intros Hord Hj Hpl.
    pose proof (lookup_lt_Some _ _ _ Hj) as Hlen.
    pose proof (findIndexAtTime_finds_core _ _ _ _
                  (activeIndex (store (world d))) Hord Hj Hact) as Hfind.
    unfold checkPausedSubtitle. rewrite Hpl, Hp. simpl.
    destruct (Z.ltb_spec 0 (Z.of_nat (length (subtitles (store (world d))))));
      [|lia].
    rewrite Hfind. simpl.
    destruct (Z.eqb_spec (Z.of_nat j) (activeIndex (store (world d)))); simpl.
    + congruence.
    + apply (setActiveIndex_shows (Z.of_nat j)). lia.
Qed.

(** Two cues in the store, at 2.5 s: a frame loop that closed over them
    shows cue 1; one that was started when the store had no cues shows
    none; the poll shows cue 0 at 0.5 s. *)
Lemma highlight_follows_time_witness :
  let d := mkDriver (mkWorld (setSubtitles gapCues initialState) [])
             initialRefs in
  activeIndex
    (store (world (syncLoop (mkProps true true false false gapCues 0) 2.5 0 d)))
  = 1
  /\ activeIndex
       (store (world (syncLoop (mkProps true true false false [] 0) 2.5 0 d)))
     = -1
  /\ activeIndex
       (store (world (checkPausedSubtitle (mkProps true true false false [] 0)
                        0.5 d)))
     = 0.
Proof.
  intros d. split; [|split].
  - exact (proj1 (highlight_follows_time
                    (mkProps true true false false gapCues 0) 2.5 0 d 1
                    (Resolver.span 1 2 3) eq_refl eq_refl)
             eq_refl eq_refl ltac:(simpl; lia) eq_refl (or_introl eq_refl)).
  - exact (proj1 (proj2 (highlight_follows_time
                           (mkProps true true false false [] 0) 2.5 0 d 1
                           (Resolver.span 1 2 3) eq_refl eq_refl))
             eq_refl eq_refl (or_introl eq_refl)).
  - exact (proj2 (proj2 (highlight_follows_time
                           (mkProps true true false false [] 0) 0.5 0 d 0
                           (Resolver.span 0 0 1) eq_refl eq_refl))
             eq_refl eq_refl eq_refl).
Defined.

(* ===================================================================== *)
(** ** Segment navigation *)
(* ===================================================================== *)

Import MediaStore.

Section SegmentNavigation.

Lemma cueAt_of_nat cues (i : nat) : cueAt cues (Z.of_nat i) = cues !! i.
Proof.
  unfold cueAt. destruct (Z.ltb_spec (Z.of_nat i) 0); [lia|].
  rewrite Nat2Z.id. reflexivity.
Qed.

Lemma set_activeIndex_same s : set_activeIndex (activeIndex s) s = s.
Proof. destruct s. reflexivity. Qed.

Lemma playNextSegment_plain w (i : nat) next :
  segmentLoopIndex (store w) = -1 ->
  activeIndex (store w) = Z.of_nat i ->
  subtitles (store w) !! S i = Some next ->
  playNextSegment w
  = mkWorld (set_activeIndex (Z.of_nat (S i)) (store w))
      (calls w ++ match playerRef (store w) with
                  | Some _ => [SeekTo (cue_start next)]
                  | None => []
                  end).
Proof.
  intros Hloop Hi Hn.
  pose proof (lookup_lt_Some _ _ _ Hn) as Hlen.
  unfold playNextSegment. rewrite Hloop, Hi. simpl.
  destruct (Z.eqb_spec (Z.of_nat (length (subtitles (store w)))) 0); [lia|].
  destruct (Z.leb_spec (Z.of_nat (length (subtitles (store w))))
              (Z.of_nat i + 1)); [lia|].
  replace (Z.of_nat i + 1) with (Z.of_nat (S i)) by lia.
  rewrite cueAt_of_nat, Hn.
  destruct (playerRef (store w)); simpl; rewrite ?app_nil_r;
    destruct w; reflexivity.
Qed.

Lemma playPreviousSegment_plain w (i : nat) prev :
  segmentLoopIndex (store w) = -1 ->
  activeIndex (store w) = Z.of_nat (S i) ->
  subtitles (store w) !! i = Some prev ->
  playPreviousSegment w
  = mkWorld (set_activeIndex (Z.of_nat i) (store w))
      (calls w ++ match playerRef (store w) with
                  | Some _ => [SeekTo (cue_start prev)]
                  | None => []
                  end).
Proof.
  intros Hloop Hi Hn.
  pose proof (lookup_lt_Some _ _ _ Hn) as Hlen.
  unfold playPreviousSegment. rewrite Hloop, Hi. simpl.
  destruct (Z.eqb_spec (Z.of_nat (length (subtitles (store w)))) 0); [lia|].
  replace (Z.of_nat (S i) - 1) with (Z.of_nat i) by lia.
  destruct (Z.ltb_spec (Z.of_nat i) 0); [lia|].
  rewrite cueAt_of_nat, Hn.
  destruct (playerRef (store w)); simpl; rewrite ?app_nil_r;
    destruct w; reflexivity.
Qed.

End SegmentNavigation.

(** X18: outside a segment loop, [playNextSegment] makes the next cue
    the active one and seeks the player to its start, and
    [playPreviousSegment] undoes it: after both the store is as it was, and
    the player has been sent to the start of the next cue and back to the
    start of the current one. *)
Theorem next_then_previous w (i : nat) current next :
  segmentLoopIndex (store w) = -1 ->
  activeIndex (store w) = Z.of_nat i ->
  subtitles (store w) !! i = Some current ->
  subtitles (store w) !! S i = Some next ->
  let seek c :=
    match playerRef (store w) with Some _ => [SeekTo (cue_start c)] | None => [] end in
  playNextSegment w
  = mkWorld (set_activeIndex (Z.of_nat (S i)) (store w)) (calls w ++ seek next)
  /\ playPreviousSegment (playNextSegment w)
     = mkWorld (store w) (calls w ++ seek next ++ seek current).
Proof.
  intros Hloop Hi Hc Hn seek. subst seek.
  rewrite (playNextSegment_plain w i next Hloop Hi Hn).
  split; [reflexivity|].
  rewrite (playPreviousSegment_plain
             (mkWorld (set_activeIndex (Z.of_nat (S i)) (store w)) _)
             i current Hloop eq_refl Hc).
  cbn [store calls].
  change (set_activeIndex (Z.of_nat i)
            (set_activeIndex (Z.of_nat (S i)) (store w)))
    with (set_activeIndex (Z.of_nat i) (store w)).
  change (playerRef (set_activeIndex (Z.of_nat (S i)) (store w)))
    with (playerRef (store w)).
  rewrite <- Hi, set_activeIndex_same, app_assoc. reflexivity.
Qed.

Lemma next_then_previous_witness :
  let w := mkWorld (set_playerRef (Some ThePlayer)
                      (set_activeIndex 0 (setSubtitles gapCues initialState)))
             [] in
  playPreviousSegment (playNextSegment w)
  = mkWorld (store w) [SeekTo 2; SeekTo 0].
Proof.
  intros w.
  exact (proj2 (next_then_previous w 0 (Resolver.span 0 0 1)
                  (Resolver.span 1 2 3) eq_refl eq_refl eq_refl eq_refl)).
Defined.

(** X19: [playNextSegment] and [playPreviousSegment] at the ends.  With
    no subtitles, or with no cue after the current one, [playNextSegment]
    changes nothing and calls nothing; so does [playPreviousSegment] with
    no subtitles or at the first cue.  The current cue is that of the
    segment loop when one was started with an index, else the active
    one. *)
Theorem segment_navigation_stops_at_ends w :
  let s := store w in
  let currentIndex :=
    if segmentLoopIndex s =? -1 then activeIndex s else segmentLoopIndex s in
  (Z.of_nat (length (subtitles s)) <= currentIndex + 1 ->
   playNextSegment w = w)
  /\ (currentIndex <= 0 -> playPreviousSegment w = w)
  /\ (subtitles s = [] -> playNextSegment w = w /\ playPreviousSegment w = w).
Proof.
  intros s currentIndex. subst currentIndex s.
  split; [|split]; intros H;
    [| |unfold playNextSegment, playPreviousSegment; rewrite H; split; reflexivity].
  - unfold playNextSegment.
    destruct (Z.eqb_spec (Z.of_nat (length (subtitles (store w)))) 0);
      [reflexivity|].
    destruct (segmentLoopIndex (store w) =? -1); simpl in *;
      match goal with
      | |- context [?a <=? ?b] => destruct (Z.leb_spec a b)
      end; (reflexivity || lia).
  - unfold playPreviousSegment.
    destruct (Z.eqb_spec (Z.of_nat (length (subtitles (store w)))) 0);
      [reflexivity|].
    destruct (segmentLoopIndex (store w) =? -1); simpl in *;
      match goal with
      | |- context [?a <? ?b] => destruct (Z.ltb_spec a b)
      end; (reflexivity || lia).
Qed.

(** What [playNextSegment] does inside a segment loop with a next cue. *)
Lemma playNextSegment_loop w (i : nat) next :
  segmentLoopIndex (store w) = Z.of_nat i ->
  subtitles (store w) !! S i = Some next ->
  let w' := playNextSegment w in
  activeModes (store w') = [SegmentLoop]
  /\ segmentLoopIndex (store w') = Z.of_nat (S i)
  /\ loopStart (store w') = cue_start next
  /\ loopEnd (store w') = cue_end next
  /\ segmentLoopTotal (store w') = segmentLoopTotal (store w)
  /\ segmentLoopCurrent (store w') = 0
  /\ playing (store w') = true
  /\ activeIndex (store w') = activeIndex (store w)
  /\ calls w'
     = calls w
       ++ match playerRef (store w) with
          | Some _ => [SeekTo (cue_start next); PlayVideo; SeekTo (cue_start next)]
          | None => []
          end.
Proof.
  intros Hi Hn w'.
  pose proof (lookup_lt_Some _ _ _ Hn) as Hlen.
  assert (E : w' =
    startSegmentLoop (cue_start next) (cue_end next)
      (segmentLoopTotal (store w)) (Z.of_nat (S i))
      (onStore (fun s => set_segmentLoopCurrent 0 (set_segmentLoopEnabled false s))
         (match playerRef (store w) with
          | Some _ => call PlayVideo (call (SeekTo (cue_start next))
                                        (onStore (set_playing true) w))
          | None => onStore (set_playing true) w
          end))).
  { subst w'. unfold playNextSegment. rewrite Hi. simpl.
    destruct (Z.eqb_spec (Z.of_nat (length (subtitles (store w)))) 0); [lia|].
    destruct (Z.eqb_spec (Z.of_nat i) (-1)); [lia|]. simpl.
    destruct (Z.leb_spec (Z.of_nat (length (subtitles (store w))))
                (Z.of_nat i + 1)); [lia|].
    replace (Z.of_nat i + 1) with (Z.of_nat (S i)) by lia.
    rewrite cueAt_of_nat, Hn. reflexivity. }
  rewrite E. clear E w'.
  destruct w as [s c]. destruct s as [? ? ? ? ? ? ? [r|]]; simpl in *.
  all: repeat match goal with b : bool |- _ => destruct b end.
  all: simpl; rewrite <- ?app_assoc, ?app_nil_r; repeat split.
Qed.

(** X20: inside a segment loop that was started with an index,
    [playNextSegment] moves the loop to the next cue: the segment loop is
    the only mode on, it runs over the next cue with the same number of
    repetitions, none of them counted yet, and [playing] is set.  The
    player, when there is one, is sent to the start of the next cue, told
    to play, and sent to the start once more by [startSegmentLoop]. *)
Theorem playNextSegment_moves_loop w (i : nat) next :
  segmentLoopIndex (store w) = Z.of_nat i ->
  subtitles (store w) !! S i = Some next ->
  let w' := playNextSegment w in
  activeModes (store w') = [SegmentLoop]
  /\ segmentLoopIndex (store w') = Z.of_nat (S i)
  /\ loopStart (store w') = cue_start next
  /\ loopEnd (store w') = cue_end next
  /\ segmentLoopTotal (store w') = segmentLoopTotal (store w)
  /\ segmentLoopCurrent (store w') = 0
  /\ playing (store w') = true
  /\ activeIndex (store w') = activeIndex (store w)
  /\ calls w'
     = calls w
       ++ match playerRef (store w) with
          | Some _ => [SeekTo (cue_start next); PlayVideo; SeekTo (cue_start next)]
          | None => []
          end.
Proof. apply playNextSegment_loop. Qed.

Lemma playNextSegment_moves_loop_witness :
  let w := startSegmentLoop 0 1 3 0
             (mkWorld (set_playerRef (Some ThePlayer)
                         (setSubtitles gapCues initialState)) []) in
  segmentLoopIndex (store (playNextSegment w)) = 1
  /\ loopStart (store (playNextSegment w)) = 2%float
  /\ loopEnd (store (playNextSegment w)) = 3%float.
Proof.
  intros w.
  pose proof (playNextSegment_moves_loop w 0 (Resolver.span 1 2 3)
                eq_refl eq_refl) as (_ & H1 & H2 & H3 & _).
  exact (conj H1 (conj H2 H3)).
Defined.




(* ===================================================================== *)
(** ** The manager under its events *)
(* ===================================================================== *)

Section DecimalFacts.

Import Str.
Local Open Scope string_scope.

Local Arguments isDigit : simpl never.
Local Arguments isSpace : simpl never.
Local Arguments eqc : simpl never.
Local Arguments digitChar : simpl never.
Local Arguments Z.mul : simpl never.
Local Arguments Z.add : simpl never.

(** Ten to the number of digits [decimalAux] writes. *)
Fixpoint scale (fuel : nat) (n : Z) : Z :=
  match fuel with
  | O => 1
  | S f => if (n / 10 =? 0)%Z then 10 else 10 * scale f (n / 10)
  end.

Lemma digitsValue_digitChar d r acc :
  (0 <= d <= 9)%Z ->
  digitsValue (String (digitChar d) r) acc = digitsValue r (10 * acc + d).
Proof.
  intros Hd. destruct (digitChar_isDigitChar d Hd) as [[D _ _ _ _] E].
  simpl. rewrite D. unfold digit in E. rewrite E. reflexivity.
Qed.

Lemma digitsValue_decimalAux fuel n acc a :
  (0 <= n < 2 ^ Z.of_nat fuel)%Z ->
  digitsValue (decimalAux fuel n acc) a
  = digitsValue acc (a * scale fuel n + n).
Proof.
  revert n acc a. induction fuel as [|fuel IH]; intros n acc a Hn.
  - simpl in *. f_equal. lia.
  - cbn [decimalAux scale].
    assert (Hd : (0 <= n mod 10 <= 9)%Z) by (pose proof (Z.mod_pos_bound n 10); lia).
    destruct (Z.eqb_spec (n / 10) 0) as [E|E].
    + rewrite digitsValue_digitChar by exact Hd. f_equal.
      pose proof (Z.div_mod n 10). lia.
    + rewrite IH.
      * rewrite digitsValue_digitChar by exact Hd. f_equal.
        pose proof (Z.div_mod n 10). lia.
      * rewrite Nat2Z.inj_succ, Z.pow_succ_r in Hn by lia.
        split; [apply Z.div_pos; lia|].
        apply Z.div_lt_upper_bound; lia.
Qed.

Lemma decimalAux_head fuel n acc :
  exists d r, (0 <= d <= 9)%Z
              /\ decimalAux (S fuel) n acc = String (digitChar d) r.
Proof.
  revert n acc. induction fuel as [|fuel IH]; intros n acc.
  - exists (n mod 10)%Z, acc.
    split; [pose proof (Z.mod_pos_bound n 10); lia|].
    simpl. destruct (_ =? _)%Z; reflexivity.
  - cbn [decimalAux]. destruct (n / 10 =? 0)%Z.
    + exists (n mod 10)%Z, acc.
      split; [pose proof (Z.mod_pos_bound n 10); lia|reflexivity].
    + apply IH.
Qed.

(** The integer read from the digits of [n] is [n]. *)
Lemma integerOf_decimal n : (0 <= n)%Z -> integerOf (decimal n) = Some n.
Proof.
  intros Hn. unfold decimal. destruct (Z.ltb_spec n 0); [lia|].
  replace (Z.to_nat (Z.log2 n) + 1)%nat with (S (Z.to_nat (Z.log2 n))) by lia.
  destruct (decimalAux_head (Z.to_nat (Z.log2 n)) n "") as (d & r & Hd & E).
  destruct (digitChar_isDigitChar d Hd) as [[D1 D2 _ D4 D5] _].
  unfold integerOf. rewrite E. cbn [trimStart]. rewrite D2, D4, D5, D1.
  rewrite <- E, digitsValue_decimalAux; [reflexivity|].
  split; [exact Hn|].
  destruct (Z.eq_dec n 0) as [->|Hz]; [reflexivity|].
  rewrite Nat2Z.inj_succ, Z2Nat.id by apply Z.log2_nonneg.
  apply Z.log2_spec. lia.
Qed.

(** The digits of a natural number read as the number nearest to it. *)
Lemma parseInt_decimal n : (0 <= n)%Z -> parseInt (decimal n) = JS.ofInteger n.
Proof.
  intros Hn. unfold parseInt. rewrite integerOf_decimal by exact Hn.
  destruct (Z.eqb_spec n 0) as [->|Hz]; reflexivity.
Qed.

(** An integer below [2^53] is written with its digits. *)
Lemma numberToString_ofInteger n :
  (0 <= n < 2 ^ 53)%Z -> numberToString (JS.ofInteger n) = decimal n.
Proof.
  intros Hn. unfold numberToString.
  rewrite Rounding.toInteger_ofInteger by exact Hn.
  destruct (Z.ltb_spec (Z.abs n) (2 ^ 53)); [reflexivity|lia].
Qed.

Lemma decimal_inj a b :
  (0 <= a)%Z -> (0 <= b)%Z -> decimal a = decimal b -> a = b.
Proof.
  intros Ha Hb E. apply (f_equal integerOf) in E.
  rewrite !integerOf_decimal in E by assumption. congruence.
Qed.

End DecimalFacts.

Import SubtitleWorkerManager.

(** What holds of a manager however it was used. *)
Record Sound (m : Manager) : Prop := {
  counter_nonneg : 0 <= requestIdCounter m;
  pending_unsettled :
    forall id, is_Some (pendingRequests m !! id) -> settled m !! id = None;
  known_ids :
    forall id, is_Some (pendingRequests m !! id) \/ is_Some (settled m !! id) ->
               exists k, 0 <= k < requestIdCounter m /\ id = requestId k;
  idle_without_worker : worker m = false -> pendingRequests m = ∅;
  posted_ids :
    map req_id (posted m)
    = map (fun k => requestId (Z.of_nat k))
        (seq 0 (Z.to_nat (requestIdCounter m)))
}.

Section ManagerFacts.

Lemma requestId_inj a b : 0 <= a -> 0 <= b -> requestId a = requestId b -> a = b.
Proof.
  unfold requestId. intros Ha Hb E. simpl in E. injection E as E.
  apply decimal_inj; assumption.
Qed.

Lemma initial_sound supported : Sound (initial supported).
Proof.
  constructor; simpl; [lia|reflexivity| |reflexivity|reflexivity].
  intros id [[x Hx]|[x Hx]]; rewrite lookup_empty in Hx; discriminate.
Qed.

Lemma settle_fresh id o m :
  settled m !! id = None ->
  settle id o m
  = mkManager (worker m) (pendingRequests m) (requestIdCounter m)
      (isSupported m) (<[id := o]> (settled m)) (posted m) (progressSeen m).
Proof. intros H. unfold settle. rewrite H. reflexivity. Qed.

Lemma parse_sound text format onProgress m :
  Sound m -> Sound (snd (parse text format onProgress m)).
Proof.
  intros [H0 H1 H2 H3 H4]. unfold parse.
  destruct (negb (isSupported m) || negb (worker m)) eqn:E; simpl;
    [constructor; assumption|].
  apply orb_false_iff in E as [_ Ew]. apply negb_false_iff in Ew.
  fold (requestId (requestIdCounter m)).
  assert (Hfresh : pendingRequests m !! requestId (requestIdCounter m) = None
                   /\ settled m !! requestId (requestIdCounter m) = None).
  { split.
    - destruct (pendingRequests m !! _) eqn:Hp; [|reflexivity].
      destruct (H2 (requestId (requestIdCounter m))) as (k & Hk & Ek);
        [left; eauto|]. apply requestId_inj in Ek; lia.
    - destruct (settled m !! _) eqn:Hp; [|reflexivity].
      destruct (H2 (requestId (requestIdCounter m))) as (k & Hk & Ek);
        [right; eauto|]. apply requestId_inj in Ek; lia. }
  destruct Hfresh as [Hf1 Hf2].
  constructor; simpl.
  - lia.
  - intros id [x Hx].
    destruct (decide (id = requestId (requestIdCounter m))) as [->|Hne];
      [exact Hf2|].
    rewrite lookup_insert_ne in Hx by congruence. eauto.
  - intros id [[x Hx]|Hs].
    + destruct (decide (id = requestId (requestIdCounter m))) as [->|Hne].
      * exists (requestIdCounter m). split; [lia|reflexivity].
      * rewrite lookup_insert_ne in Hx by congruence.
        destruct (H2 id) as (k & Hk & Ek); [left; eauto|].
        exists k. split; [lia|exact Ek].
    + destruct (H2 id) as (k & Hk & Ek); [right; exact Hs|].
      exists k. split; [lia|exact Ek].
  - congruence.
  - rewrite map_app, H4. simpl.
    replace (Z.to_nat (requestIdCounter m + 1))
      with (S (Z.to_nat (requestIdCounter m))) by lia.
    rewrite seq_S, map_app. simpl. rewrite Z2Nat.id by lia. reflexivity.
Qed.

(** Taking a pending request out and settling it. *)
Lemma settle_pending_sound id o m :
  Sound m -> is_Some (pendingRequests m !! id) ->
  Sound (set_pending (delete id (pendingRequests m)) (settle id o m))
  /\ settled (set_pending (delete id (pendingRequests m)) (settle id o m)) !! id
     = Some o.
Proof.
  intros [H0 H1 H2 H3 H4] Hp.
  rewrite (settle_fresh _ _ _ (H1 _ Hp)). simpl. split.
  - constructor; simpl; try assumption.
    + intros id' [x Hx].
      destruct (decide (id' = id)) as [->|Hne];
        [rewrite lookup_delete_eq in Hx; discriminate|].
      rewrite lookup_delete_ne in Hx by congruence.
      rewrite lookup_insert_ne by congruence. eauto.
    + intros id' [[x Hx]|[x Hx]].
      * destruct (decide (id' = id)) as [->|Hne];
          [rewrite lookup_delete_eq in Hx; discriminate|].
        rewrite lookup_delete_ne in Hx by congruence. eauto.
      * destruct (decide (id' = id)) as [->|Hne]; [eauto|].
        rewrite lookup_insert_ne in Hx by congruence. eauto.
    + intros Hw. rewrite (H3 Hw) in Hp. destruct Hp as [x Hx].
      rewrite lookup_empty in Hx. discriminate.
  - apply lookup_insert_eq.
Qed.

Lemma handleMessage_sound r m : Sound m -> Sound (handleMessage r m).
Proof.
  intros H. unfold handleMessage.
  destruct (pendingRequests m !! resp_id r) as [pending|] eqn:Hp; [|exact H].
  destruct (resp_type r).
  - destruct (resp_data r); [|exact H].
    apply settle_pending_sound; eauto.
  - apply settle_pending_sound; eauto.
  - destruct (hasOnProgress pending), (resp_progress r); try exact H.
    destruct H. constructor; assumption.
Qed.

Lemma timeout_eq id m :
  Sound m -> is_Some (pendingRequests m !! id) ->
  timeout id m
  = set_pending (delete id (pendingRequests m))
      (settle id (Rejected "Worker timeout after 30s") m).
Proof.
  intros H [x Hx]. unfold timeout. rewrite Hx.
  assert (Hs : settled m !! id = None)
    by (apply (pending_unsettled _ H); eauto).
  rewrite (settle_fresh _ _ _ Hs). unfold settle. simpl. rewrite Hs.
  reflexivity.
Qed.

Lemma timeout_sound id m : Sound m -> Sound (timeout id m).
Proof.
  intros H. destruct (pendingRequests m !! id) as [x|] eqn:Hp.
  - rewrite timeout_eq by eauto. apply settle_pending_sound; eauto.
  - unfold timeout. rewrite Hp. exact H.
Qed.

(** [handleError], entry by entry: the pending requests that are not
    settled are rejected, the settled ones and the rest stay. *)
Lemma handleError_settled message m id :
  settled (handleError message m) !! id
  = match settled m !! id, pendingRequests m !! id with
    | Some o, _ => Some o
    | None, Some _ => Some (Rejected ("Worker error: " ++ message))
    | None, None => None
    end
  /\ worker (handleError message m) = worker m
  /\ requestIdCounter (handleError message m) = requestIdCounter m
  /\ posted (handleError message m) = posted m
  /\ isSupported (handleError message m) = isSupported m
  /\ pendingRequests (handleError message m) = ∅.
Proof.
  unfold handleError. simpl.
  set (f := fun (id : string) (_ : PendingRequest) acc =>
              settle id (Rejected ("Worker error: " ++ message)) acc).
  assert (H : forall pend,
    settled (map_fold f m pend) !! id
    = match settled m !! id, pend !! id with
      | Some o, _ => Some o
      | None, Some _ => Some (Rejected ("Worker error: " ++ message))
      | None, None => None
      end
    /\ worker (map_fold f m pend) = worker m
    /\ requestIdCounter (map_fold f m pend) = requestIdCounter m
    /\ posted (map_fold f m pend) = posted m
    /\ isSupported (map_fold f m pend) = isSupported m).
  { intros pend.
    apply (map_fold_weak_ind
             (fun acc pend =>
                settled acc !! id
                = match settled m !! id, pend !! id with
                  | Some o, _ => Some o
                  | None, Some _ => Some (Rejected ("Worker error: " ++ message))
                  | None, None => None
                  end
                /\ worker acc = worker m
                /\ requestIdCounter acc = requestIdCounter m
                /\ posted acc = posted m
                /\ isSupported acc = isSupported m)).
    - rewrite lookup_empty. destruct (settled m !! id); repeat split.
    - intros i x pend' acc Hi (IH & IH1 & IH2 & IH3 & IH4).
      subst f. cbv beta. unfold settle.
      destruct (settled acc !! i) eqn:Hsi.
      + split; [|auto].
        destruct (decide (i = id)) as [->|Hne].
        * rewrite lookup_insert_eq. rewrite IH in Hsi |- *. rewrite Hi in Hsi |- *.
          destruct (settled m !! id); [reflexivity|discriminate].
        * rewrite lookup_insert_ne by exact Hne. exact IH.
      + simpl. split; [|auto].
        destruct (decide (i = id)) as [->|Hne].
        * rewrite !lookup_insert_eq. rewrite IH, Hi in Hsi.
          destruct (settled m !! id); [discriminate|reflexivity].
        * rewrite !lookup_insert_ne by exact Hne. exact IH. }
  destruct (H (pendingRequests m)) as (H1 & H2 & H3 & H4 & H5).
  repeat split; assumption.
Qed.

Lemma handleError_sound message m : Sound m -> Sound (handleError message m).
Proof.
  intros [H0 H1 H2 H3 H4].
  pose proof (handleError_settled message m) as E.
  destruct (E "") as (_ & Ew & Ec & Ep & _ & Epend).
  constructor; rewrite ?Ew, ?Ec, ?Ep, ?Epend; try assumption.
  - intros id [x Hx]. rewrite lookup_empty in Hx. discriminate.
  - intros id [[x Hx]|[x Hx]]; [rewrite lookup_empty in Hx; discriminate|].
    destruct (E id) as (Es & _). rewrite Es in Hx.
    destruct (settled m !! id) eqn:Hs; [apply H2; right; eauto|].
    destruct (pendingRequests m !! id) eqn:Hp; [apply H2; left; eauto|].
    discriminate.
  - reflexivity.
Qed.

Lemma terminate_sound m : Sound m -> Sound (terminate m).
Proof.
  intros [H0 H1 H2 H3 H4]. constructor; simpl; try assumption; try reflexivity.
  - intros id [x Hx]. rewrite lookup_empty in Hx. discriminate.
  - intros id [[x Hx]|Hs]; [rewrite lookup_empty in Hx; discriminate|].
    apply H2. right. exact Hs.
Qed.

Lemma step_sound e m : Sound m -> Sound (step e m).
Proof.
  destruct e; simpl.
  - apply parse_sound.
  - apply handleMessage_sound.
  - apply handleError_sound.
  - apply timeout_sound.
  - apply terminate_sound.
Qed.

Lemma run_sound es m : Sound m -> Sound (run es m).
Proof.
  revert m. induction es as [|e es IH]; intros m H; [exact H|].
  apply IH, step_sound, H.
Qed.

Lemma settle_keeps id' o' id o m :
  settled m !! id = Some o -> settled (settle id' o' m) !! id = Some o.
Proof.
  intros H. unfold settle. destruct (settled m !! id') eqn:E; [exact H|].
  simpl. rewrite lookup_insert_ne; [exact H|]. congruence.
Qed.

Lemma step_keeps e m id o :
  settled m !! id = Some o -> settled (step e m) !! id = Some o.
Proof.
  intros H. destruct e as [text format onProgress|r|message|id'|]; cbn [step].
  - unfold parse. destruct (_ || _); exact H.
  - unfold handleMessage.
    destruct (pendingRequests m !! resp_id r) as [pending|]; [|exact H].
    destruct (resp_type r).
    + destruct (resp_data r); [|exact H]. apply settle_keeps, H.
    + apply settle_keeps, H.
    + destruct (hasOnProgress pending), (resp_progress r); exact H.
  - destruct (handleError_settled message m id) as [-> _]. rewrite H.
    reflexivity.
  - unfold timeout. destruct (pendingRequests m !! id'); [|exact H].
    apply settle_keeps. exact H.
  - exact H.
Qed.

Lemma run_keeps es m id o :
  settled m !! id = Some o -> settled (run es m) !! id = Some o.
Proof.
  revert m. induction es as [|e es IH]; intros m H; [exact H|].
  apply IH, step_keeps, H.
Qed.

End ManagerFacts.

(** X21: the manager settles a request once.  In every state it reaches,
    a request whose promise is resolved or rejected is no longer in the
    table of pending requests, and whatever happens afterwards (messages,
    worker errors, timers, terminate) leaves its outcome as it is. *)
Theorem request_settled_once supported es es' id o :
  let m := run es (initial supported) in
  settled m !! id = Some o ->
  pendingRequests m !! id = None
  /\ settled (run es' m) !! id = Some o.
Proof.
  intros m H. split; [|apply run_keeps, H].
  pose proof (run_sound es _ (initial_sound supported)) as S. fold m in S.
  destruct (pendingRequests m !! id) as [x|] eqn:Hp; [|reflexivity].
  rewrite (pending_unsettled _ S id) in H by eauto. discriminate.
Qed.

Lemma request_settled_once_witness :
  let answer := mkParseResponse result "request-0" (Some gapCues) None None in
  settled (run [Parse "text" None false; Message answer; TimerFired "request-0";
                WorkerError "late"; Terminate]
             (initial true)) !! "request-0"%string
  = Some (Resolved gapCues).
Proof.
  intros answer.
  refine (proj2 (request_settled_once true
            [Parse "text" None false; Message answer]
            [TimerFired "request-0"%string; WorkerError "late"; Terminate]
            "request-0"%string (Resolved gapCues) _)).
  vm_compute. reflexivity.
Defined.

(** X22: a worker error rejects every request that is pending, with the
    message of the error, and empties the table; the requests that were
    settled before keep their outcome. *)
Theorem handleError_rejects_pending supported es message id pending :
  let m := run es (initial supported) in
  pendingRequests m !! id = Some pending ->
  settled (handleError message m) !! id
  = Some (Rejected ("Worker error: " ++ message))
  /\ pendingRequests (handleError message m) = ∅
  /\ forall id' o, settled m !! id' = Some o ->
                   settled (handleError message m) !! id' = Some o.
Proof.
  intros m Hp.
  pose proof (run_sound es _ (initial_sound supported)) as S. fold m in S.
  destruct (handleError_settled message m id) as (E & _ & _ & _ & _ & Ep).
  rewrite E, Hp, (pending_unsettled _ S id) by eauto.
  split; [reflexivity|]. split; [exact Ep|].
  intros id' o Ho. exact (step_keeps (WorkerError message) m id' o Ho).
Qed.

Lemma handleError_rejects_pending_witness :
  settled (handleError "boom"
             (run [Parse "a" None false; Parse "b" None false] (initial true)))
    !! "request-1"%string
  = Some (Rejected "Worker error: boom").
Proof.
  refine (proj1 (handleError_rejects_pending true
            [Parse "a" None false; Parse "b" None false] "boom"
            "request-1"%string (mkPendingRequest false) _)).
  vm_compute. reflexivity.
Defined.

(** X23: what settles a pending request.  A [result] message that
    carries data resolves it with the data; the 30 s timer rejects it, and
    the messages that arrive for it afterwards are dropped; a [result]
    message without data changes nothing, the request stays pending. *)
Theorem pending_request_outcome supported es id pending :
  let m := run es (initial supported) in
  pendingRequests m !! id = Some pending ->
  (forall data e pr,
     let m' := handleMessage (mkParseResponse result id (Some data) e pr) m in
     settled m' !! id = Some (Resolved data)
     /\ pendingRequests m' !! id = None)
  /\ (settled (timeout id m) !! id = Some (Rejected "Worker timeout after 30s")
      /\ forall r, resp_id r = id ->
                   handleMessage r (timeout id m) = timeout id m)
  /\ (forall e pr,
        handleMessage (mkParseResponse result id None e pr) m = m).
Proof.
  intros m Hp.
  pose proof (run_sound es _ (initial_sound supported)) as S. fold m in S.
  assert (Hs : is_Some (pendingRequests m !! id)) by eauto.
  split; [|split].
  - intros data e pr m'. subst m'. unfold handleMessage. simpl. rewrite Hp.
    split; [apply settle_pending_sound; assumption|].
    simpl. apply lookup_delete_eq.
  - rewrite (timeout_eq _ _ S Hs).
    split; [apply settle_pending_sound; assumption|].
    intros r <-. unfold handleMessage. simpl.
    rewrite lookup_delete_eq. reflexivity.
  - intros e pr. unfold handleMessage. simpl. rewrite Hp. reflexivity.
Qed.

Lemma pending_request_outcome_witness :
  let m := run [Parse "text" None false] (initial true) in
  settled (timeout "request-0" m) !! "request-0"%string
  = Some (Rejected "Worker timeout after 30s").
Proof.
  intros m.
  refine (proj1 (proj1 (proj2 (pending_request_outcome true
            [Parse "text" None false] "request-0"%string
            (mkPendingRequest false) _)))).
  vm_compute. reflexivity.
Defined.

(** X24: the requests are numbered in the order they are posted: the
    [k]-th message posted to the worker carries the id [request-k], the
    counter is the number of messages posted, and no id is used twice. *)
Theorem request_ids_in_order supported es :
  let m := run es (initial supported) in
  requestIdCounter m = Z.of_nat (length (posted m))
  /\ (forall (k : nat) r, posted m !! k = Some r ->
                          req_id r = requestId (Z.of_nat k))
  /\ NoDup (map req_id (posted m)).
Proof.
  intros m.
  destruct (run_sound es _ (initial_sound supported)) as [H0 _ _ _ H4].
  fold m in H0, H4.
  assert (Hlen : length (posted m) = Z.to_nat (requestIdCounter m)).
  { rewrite <- (length_map req_id), H4, length_map, length_seq. reflexivity. }
  split; [lia|]. split.
  - intros k r Hk.
    assert (E : map req_id (posted m) !! k = Some (req_id r))
      by (rewrite list_lookup_fmap, Hk; reflexivity).
    rewrite H4, list_lookup_fmap in E.
    destruct (seq 0 (Z.to_nat (requestIdCounter m)) !! k) as [k'|] eqn:Hk';
      [|discriminate].
    apply lookup_seq in Hk' as [-> _]. simpl in E. congruence.
  - rewrite H4. apply NoDup_fmap_2_strong; [|apply NoDup_seq].
    intros a b _ _ E. apply requestId_inj in E; lia.
Qed.

(** X25: without a worker, every [parse] is answered at once with the
    empty list and nothing is posted, whatever the text: in an environment
    without [Worker], and after [terminate], for every later call too. *)
Theorem parse_without_worker_is_empty m0 es text format onProgress :
  (let m := run es (terminate m0) in
   parse text format onProgress m = (Fulfilled [], m))
  /\ (let m := run es (initial false) in
      parse text format onProgress m = (Fulfilled [], m)).
Proof.
  split; intros m.
  - destruct (run_after_terminate es (terminate m0) eq_refl eq_refl)
      as (Hw & _ & _). fold m in Hw.
    unfold parse. rewrite Hw, orb_true_r. reflexivity.
  - destruct (run_after_terminate es (initial false) eq_refl eq_refl)
      as (Hw & _ & _). fold m in Hw.
    unfold parse. rewrite Hw, orb_true_r. reflexivity.
Qed.

(* ===================================================================== *)
(** ** Reading a cue back *)
(* ===================================================================== *)

Section StringFacts.

Import Str.
Local Open Scope string_scope.

Local Arguments isDigit : simpl never.
Local Arguments isSpace : simpl never.
Local Arguments eqc : simpl never.

Lemma str_app_cons c a b : String c a ++ b = String c (a ++ b).
Proof. reflexivity. Qed.

Lemma str_app_nil_l b : "" ++ b = b.
Proof. reflexivity. Qed.

Lemma str_app_empty_r a : a ++ "" = a.
Proof.
  induction a as [|c a IH]; [reflexivity|]. rewrite str_app_cons, IH. reflexivity.
Qed.

Lemma str_app_assoc a b c : a ++ (b ++ c) = (a ++ b) ++ c.
Proof.
  induction a as [|x a IH]; [reflexivity|].
  rewrite !str_app_cons, IH. reflexivity.
Qed.

Lemma str_length_app a b :
  String.length (a ++ b) = (String.length a + String.length b)%nat.
Proof.
  induction a as [|x a IH]; [reflexivity|].
  rewrite str_app_cons. simpl. rewrite IH. reflexivity.
Qed.

Lemma str_rev_onto_app s acc : rev_onto s acc = rev_onto s "" ++ acc.
Proof.
  revert acc. induction s as [|c s IH]; intros acc; simpl; [reflexivity|].
  rewrite IH, (IH (String c "")). rewrite <- str_app_assoc. reflexivity.
Qed.

Lemma str_rev_app a b : rev (a ++ b) = rev b ++ rev a.
Proof.
  unfold rev. induction a as [|c a IH].
  - rewrite str_app_nil_l, str_app_empty_r. reflexivity.
  - rewrite str_app_cons. simpl.
    rewrite str_rev_onto_app, IH, (str_rev_onto_app a (String c "")).
    rewrite str_app_assoc. reflexivity.
Qed.

Lemma str_rev_cons c s : rev (String c s) = rev s ++ String c "".
Proof. unfold rev. simpl. apply str_rev_onto_app. Qed.

Lemma str_rev_involutive s : rev (rev s) = s.
Proof.
  induction s as [|c s IH]; [reflexivity|].
  rewrite str_rev_cons, str_rev_app, IH. reflexivity.
Qed.

Lemma str_rev_onto_rev s acc : rev (rev_onto s acc) = rev acc ++ s.
Proof.
  rewrite str_rev_onto_app, str_rev_app. fold (rev s). rewrite str_rev_involutive.
  reflexivity.
Qed.

(** A string that starts with a character that is not white space is its
    own [trimStart]. *)
Lemma trimStart_head c s : isSpace c = false -> trimStart (String c s) = String c s.
Proof. intros H. simpl. rewrite H. reflexivity. Qed.

Lemma trimStart_length s : (String.length (trimStart s) <= String.length s)%nat.
Proof.
  induction s as [|c s IH]; simpl; [lia|].
  destruct (isSpace c); simpl; lia.
Qed.

Lemma str_rev_length s : String.length (rev s) = String.length s.
Proof.
  induction s as [|c s IH]; [reflexivity|].
  rewrite str_rev_cons, str_length_app, IH. simpl. lia.
Qed.

Lemma trimStart_fixed s :
  String.length (trimStart s) = String.length s -> trimStart s = s.
Proof.
  destruct s as [|c s]; [reflexivity|]. simpl.
  destruct (isSpace c); [|reflexivity].
  pose proof (trimStart_length s). simpl. lia.
Qed.

(** A trimmed, non-empty string starts with a character that is not white
    space. *)
Lemma trim_fixed_head s :
  trim s = s -> s <> "" -> exists c r, s = String c r /\ isSpace c = false.
Proof.
  intros Ht Hne.
  assert (Hs : trimStart s = s).
  { apply trimStart_fixed.
    pose proof (trimStart_length s).
    pose proof (trimStart_length (rev (trimStart s))).
    assert (String.length (trim s) <= String.length (trimStart s))%nat.
    { unfold trim, trimEnd. rewrite str_rev_length.
      rewrite str_rev_length in H0. exact H0. }
    rewrite Ht in H1. lia. }
  destruct s as [|c r]; [contradiction|].
  exists c, r. split; [reflexivity|].
  simpl in Hs. destruct (isSpace c) eqn:E; [|reflexivity].
  pose proof (trimStart_length r). rewrite Hs in H. simpl in H. lia.
Qed.

Lemma trimEnd_last a d :
  isSpace d = false -> trimEnd (a ++ String d "") = a ++ String d "".
Proof.
  intros Hd. unfold trimEnd. rewrite str_rev_app.
  change (rev (String d "")) with (String d "").
  rewrite str_app_cons, str_app_nil_l, trimStart_head by exact Hd.
  rewrite str_rev_cons, str_rev_involutive. reflexivity.
Qed.

(** A string with a character that is not white space at each end is its
    own [trim]. *)
Lemma trim_ends c s d :
  isSpace c = false -> isSpace d = false ->
  trim (String c (s ++ String d "")) = String c (s ++ String d "").
Proof.
  intros Hc Hd. unfold trim. rewrite trimStart_head by exact Hc.
  rewrite <- str_app_cons. apply trimEnd_last. exact Hd.
Qed.

Lemma trim_one c : isSpace c = false -> trim (String c "") = String c "".
Proof.
  intros H. unfold trim. rewrite trimStart_head by exact H.
  apply (trimEnd_last "" c H).
Qed.

Lemma splitChar_oneLine a rest cur :
  oneLine a = true ->
  splitChar LF (a ++ rest) cur = splitChar LF rest (rev_onto a cur).
Proof.
  revert cur. induction a as [|c a IH]; intros cur H; [reflexivity|].
  unfold oneLine in H. simpl in H. apply andb_true_iff in H as [Hc Ha].
  apply negb_true_iff in Hc. simpl. rewrite Hc. apply IH. exact Ha.
Qed.

Lemma split_line a rest :
  oneLine a = true ->
  split (a ++ String LF rest) LF = a :: split rest LF.
Proof.
  intros H. unfold split. rewrite splitChar_oneLine by exact H.
  simpl. change (eqc LF LF) with true. cbv iota.
  fold (rev a). rewrite <- (str_rev_involutive a) at 2. reflexivity.
Qed.

Lemma split_last a : oneLine a = true -> split a LF = [a].
Proof.
  intros H. unfold split.
  rewrite <- (str_app_empty_r a) at 1.
  rewrite splitChar_oneLine by exact H. simpl.
  fold (rev a). rewrite str_rev_involutive. reflexivity.
Qed.

(** The pattern matches nowhere in the string. *)
Fixpoint never (p : pattern) (s : string) : Prop :=
  match s with
  | "" => True
  | String _ r => p s = None /\ never p r
  end.

Lemma scan_never {A} (p : pattern) (onPiece onMatch : string -> A -> A)
    s piece finish :
  never p s ->
  scan p onPiece onMatch s 0 piece "" finish = finish (rev piece ++ s).
Proof.
  revert piece. induction s as [|c s IH]; intros piece H; simpl.
  - rewrite str_app_empty_r. reflexivity.
  - destruct H as [Hp Hs]. simpl in Hp. rewrite Hp.
    rewrite IH by exact Hs. rewrite str_rev_cons, <- str_app_assoc.
    reflexivity.
Qed.

Lemma splitRe_never p s : never p s -> splitRe p s = [s].
Proof. intros H. unfold splitRe. rewrite scan_never by exact H. reflexivity. Qed.

End StringFacts.

Section SrtBlock.

Import Str SubtitleParser.
Local Open Scope string_scope.

Local Arguments isDigit : simpl never.
Local Arguments isSpace : simpl never.
Local Arguments eqc : simpl never.
Local Arguments digitChar : simpl never.

(** Every character of the string is a digit. *)
Definition allDigits (s : string) : bool :=
  forallb isDigit (list_ascii_of_string s).

Lemma isDigit_facts c :
  isDigit c = true -> isSpace c = false /\ eqc c LF = false.
Proof.
  destruct c as [[] [] [] [] [] [] [] []]; intros H;
    try discriminate H; split; reflexivity.
Qed.

Lemma decimalAux_allDigits fuel n acc :
  (0 <= n)%Z -> allDigits acc = true -> allDigits (decimalAux fuel n acc) = true.
Proof.
  revert n acc. induction fuel as [|fuel IH]; intros n acc Hn Hacc; [exact Hacc|].
  cbn [decimalAux].
  assert (Hd : (0 <= n mod 10 <= 9)%Z)
    by (pose proof (Z.mod_pos_bound n 10); lia).
  destruct (digitChar_isDigitChar _ Hd) as [[D _ _ _ _] _].
  assert (H' : allDigits (String (digitChar (n mod 10)) acc) = true).
  { unfold allDigits. simpl. rewrite D. exact Hacc. }
  destruct (n / 10 =? 0)%Z; [exact H'|].
  apply IH; [apply Z.div_pos; lia|exact H'].
Qed.

Lemma decimal_allDigits n :
  (0 <= n)%Z -> allDigits (decimal n) = true /\ decimal n <> "".
Proof.
  intros Hn. unfold decimal. destruct (Z.ltb_spec n 0); [lia|].
  split; [apply decimalAux_allDigits; [exact Hn|reflexivity]|].
  replace (Z.to_nat (Z.log2 n) + 1)%nat with (S (Z.to_nat (Z.log2 n))) by lia.
  destruct (decimalAux_head (Z.to_nat (Z.log2 n)) n "") as (d & r & _ & ->).
  discriminate.
Qed.

Lemma allDigits_oneLine s : allDigits s = true -> oneLine s = true.
Proof.
  unfold allDigits, oneLine. induction s as [|c s IH]; simpl; [reflexivity|].
  rewrite !andb_true_iff. intros [Hc Hs].
  destruct (isDigit_facts c Hc) as [_ ->]. auto.
Qed.

(** A non-empty string ends with a character. *)
Lemma last_char s : s <> "" -> exists a d, s = a ++ String d "".
Proof.
  induction s as [|c s IH]; [contradiction|]. intros _.
  destruct s as [|c' s'].
  - exists "", c. reflexivity.
  - destruct IH as (a & d & E); [discriminate|].
    exists (String c a), d. rewrite E. reflexivity.
Qed.

Lemma allDigits_app a d :
  allDigits (a ++ String d "") = true -> isDigit d = true.
Proof.
  unfold allDigits. induction a as [|c a IH].
  - rewrite str_app_nil_l. simpl. rewrite andb_true_r. auto.
  - rewrite str_app_cons. simpl. rewrite andb_true_iff. intros [_ H]. auto.
Qed.

Lemma trim_allDigits s : allDigits s = true -> trim s = s.
Proof.
  intros H. destruct s as [|c s]; [reflexivity|].
  assert (Hc : isDigit c = true).
  { unfold allDigits in H. simpl in H. apply andb_true_iff in H. tauto. }
  destruct (isDigit_facts c Hc) as [Sc _].
  destruct s as [|c' s'].
  - apply trim_one. exact Sc.
  - destruct (last_char (String c' s')) as (a & d & E); [discriminate|].
    rewrite E in *. rewrite <- str_app_cons in H.
    destruct (isDigit_facts d (allDigits_app _ _ H)) as [Sd _].
    apply trim_ends; assumption.
Qed.

(** A trimmed, non-empty string stays as it is behind any prefix. *)
Lemma trimEnd_app a b :
  trim b = b -> b <> "" -> trimEnd (a ++ b) = a ++ b.
Proof.
  intros Ht Hne.
  destruct (trim_fixed_head b Ht Hne) as (c & r & -> & Hc).
  assert (He : trimEnd (String c r) = String c r).
  { unfold trim in Ht. rewrite trimStart_head in Ht by exact Hc. exact Ht. }
  destruct (last_char (String c r)) as (x & d & E); [discriminate|].
  rewrite E in *.
  assert (Hd : isSpace d = false).
  { unfold trimEnd in He. rewrite str_rev_app in He.
    change (rev (String d "")) with (String d "") in He.
    rewrite str_app_cons, str_app_nil_l in He. simpl in He.
    destruct (isSpace d); [|reflexivity].
    apply (f_equal String.length) in He.
    rewrite str_rev_length, str_length_app in He. simpl in He.
    pose proof (trimStart_length (rev x)). rewrite str_rev_length in H. lia. }
  rewrite str_app_assoc. apply trimEnd_last. exact Hd.
Qed.

Lemma never_oneLine_end a : oneLine a = true -> never BLANK_LINE_REGEX (a ++ "").
Proof.
  induction a as [|c a IH]; intros H; [exact I|].
  unfold oneLine in H. simpl in H. apply andb_true_iff in H as [Hc Ha].
  apply negb_true_iff in Hc. rewrite str_app_cons. split; [|apply IH; assumption].
  simpl. rewrite Hc. reflexivity.
Qed.

Lemma trimStart_app u v :
  trimStart u <> "" -> trimStart (u ++ v) = trimStart u ++ v.
Proof.
  induction u as [|c u IH]; intros H; [contradiction|].
  rewrite str_app_cons. simpl in *. destruct (isSpace c); [auto|reflexivity].
Qed.

(** What [trimEnd] leaves of a string stays as it is behind any prefix. *)
Lemma trimEnd_behind a b :
  trimEnd b <> "" -> trimEnd (a ++ b) = a ++ trimEnd b.
Proof.
  intros H. unfold trimEnd in *. rewrite str_rev_app.
  rewrite trimStart_app.
  - rewrite str_rev_app, str_rev_involutive. reflexivity.
  - intros E. rewrite E in H. apply H. reflexivity.
Qed.

Lemma trimStart_last u c : isSpace c = false -> trimStart (u ++ String c "") <> "".
Proof.
  intros Hc. induction u as [|x u IH].
  - rewrite str_app_nil_l, trimStart_head by exact Hc. discriminate.
  - rewrite str_app_cons. simpl. destruct (isSpace x); [exact IH|discriminate].
Qed.

(** A string that starts with a character that is not white space is not
    trimmed away. *)
Lemma trimEnd_head c s : isSpace c = false -> trimEnd (String c s) <> "".
Proof.
  intros Hc. unfold trimEnd. rewrite str_rev_cons.
  intros E. apply (f_equal rev) in E. rewrite str_rev_involutive in E.
  apply (trimStart_last (rev s) c Hc). exact E.
Qed.

Lemma lastLF_oneLine s pos found : oneLine s = true -> lastLF s pos found = found.
Proof.
  revert pos. induction s as [|c s IH]; intros pos H; [reflexivity|].
  unfold oneLine in H. simpl in H. apply andb_true_iff in H as [Hc Hs].
  apply negb_true_iff in Hc. simpl. rewrite Hc.
  destruct (isSpace c); [apply IH; exact Hs|reflexivity].
Qed.

(** No blank line starts at the line feed before a last line. *)
Lemma never_lastLine s : oneLine s = true -> never BLANK_LINE_REGEX (String LF s).
Proof.
  intros H. split.
  - simpl. change (eqc LF LF) with true. cbv iota.
    rewrite lastLF_oneLine by exact H. reflexivity.
  - rewrite <- (str_app_empty_r s). apply never_oneLine_end. exact H.
Qed.

Lemma never_oneLine a rest :
  oneLine a = true -> never BLANK_LINE_REGEX rest ->
  never BLANK_LINE_REGEX (a ++ rest).
Proof.
  induction a as [|c a IH]; intros H Hr; [exact Hr|].
  unfold oneLine in H. simpl in H. apply andb_true_iff in H as [Hc Ha].
  apply negb_true_iff in Hc. rewrite str_app_cons. split; [|apply IH; assumption].
  simpl. rewrite Hc. reflexivity.
Qed.

Lemma never_lineFeed c r :
  isSpace c = false -> never BLANK_LINE_REGEX (String c r) ->
  never BLANK_LINE_REGEX (String LF (String c r)).
Proof.
  intros Hc H. split; [|exact H].
  simpl. change (eqc LF LF) with true. cbv iota. rewrite Hc. reflexivity.
Qed.

Lemma plus_allDigits s :
  allDigits s = true -> s <> "" -> plus isDigit s = Some "".
Proof.
  intros H Hne. destruct s as [|c s]; [contradiction|].
  unfold allDigits in H. simpl in H. apply andb_true_iff in H as [Hc Hs].
  unfold plus, one. rewrite Hc. f_equal.
  clear Hc Hne. induction s as [|c' s IH]; [reflexivity|].
  simpl in Hs. apply andb_true_iff in Hs as [Hc' Hs].
  simpl. rewrite Hc'. apply IH. exact Hs.
Qed.

End SrtBlock.

Section TimeLine.

Import Str SubtitleParser.
Local Open Scope string_scope.

Local Arguments eqc : simpl nomatch.
Local Arguments isDigit : simpl nomatch.
Local Arguments isSpace : simpl nomatch.

Variables c1 c2 c3 c4 c5 c6 c7 c8 c9 : ascii.
Variables e1 e2 e3 e4 e5 e6 e7 e8 e9 : ascii.
Hypothesis C : Forall (fun c => isDigit c = true)
                 [c1; c2; c3; c4; c5; c6; c7; c8; c9].
Hypothesis E : Forall (fun c => isDigit c = true)
                 [e1; e2; e3; e4; e5; e6; e7; e8; e9].

Let startStamp := stamp c1 c2 c3 c4 c5 c6 c7 c8 c9 ",".
Let endStamp := stamp e1 e2 e3 e4 e5 e6 e7 e8 e9 ",".

(** The second line of an SRT block. *)
Definition timeLine : string := startStamp ++ " --> " ++ endStamp.

Lemma timeLine_chars :
  timeLine
  = String c1 (String c2 (String ":" (String c3 (String c4 (String ":"
      (String c5 (String c6 (String "," (String c7 (String c8 (String c9
      (String " " (String "-" (String "-" (String ">" (String " "
      (String e1 (String e2 (String ":" (String e3 (String e4 (String ":"
      (String e5 (String e6 (String "," (String e7 (String e8
      (String e9 "")))))))))))))))))))))))))))).
Proof. reflexivity. Qed.

Ltac digit_facts :=
  pose proof C as C'; pose proof E as E';
  repeat (apply Forall_cons in C' as [? C']);
  repeat (apply Forall_cons in E' as [? E']);
  clear C' E';
  repeat match goal with
         | H : isDigit ?c = true |- _ =>
           let S := fresh in let L := fresh in
           destruct (isDigit_facts c H) as [S L];
           apply isDigit_isDigitChar in H
         end.

Lemma matchTimeRange_timeLine :
  matchTimeRange "," timeLine = Some (startStamp, endStamp).
Proof.
  rewrite timeLine_chars. subst startStamp endStamp. unfold stamp.
  digit_facts.
  unfold matchTimeRange, timeRangeAt, timestampRe, sequence, times, andThen,
    one, lit.
  repeat (simpl;
          repeat match goal with
                 | H : isDigitChar ?c |- context [isDigit ?c] =>
                   rewrite (dc_digit _ H)
                 | H : isSpace ?c = false |- context [isSpace ?c] =>
                   rewrite H
                 end).
  reflexivity.
Qed.

Lemma timeLine_facts :
  trim timeLine = timeLine /\ oneLine timeLine = true
  /\ isSpace c1 = false /\ timeLine <> "".
Proof.
  digit_facts.
  split; [|split; [|split]].
  - rewrite timeLine_chars.
    match goal with
    | |- trim (String ?a ?r) = _ =>
      change (String a r) with
        (String c1
           ((String c2 (String ":" (String c3 (String c4 (String ":"
              (String c5 (String c6 (String "," (String c7 (String c8
              (String c9 (String " " (String "-" (String "-" (String ">"
              (String " " (String e1 (String e2 (String ":" (String e3
              (String e4 (String ":" (String e5 (String e6 (String ","
              (String e7 (String e8 "")))))))))))))))))))))))))))
            ++ String e9 ""))
    end.
    apply trim_ends; assumption.
  - rewrite timeLine_chars. unfold oneLine. simpl.
    repeat match goal with
           | H : eqc ?c LF = false |- context [eqc ?c LF] => rewrite H
           end.
    reflexivity.
  - assumption.
  - rewrite timeLine_chars. discriminate.
Qed.

End TimeLine.

Section SrtCue.

Import Str SubtitleParser.
Local Open Scope string_scope.

Local Arguments isDigit : simpl never.
Local Arguments isSpace : simpl never.
Local Arguments eqc : simpl never.
Local Arguments digitChar : simpl never.

Lemma render_stamp h m s ms (sep : ascii) :
  (0 <= h < 100)%Z -> (0 <= m < 100)%Z -> (0 <= s < 100)%Z ->
  (0 <= ms < 1000)%Z ->
  exists c1 c2 c3 c4 c5 c6 c7 c8 c9,
    Forall (fun c => isDigit c = true) [c1; c2; c3; c4; c5; c6; c7; c8; c9]
    /\ render h m s ms (String sep "") = stamp c1 c2 c3 c4 c5 c6 c7 c8 c9 sep.
Proof.
  intros Hh Hm Hs Hms. unfold render.
  rewrite (pad2_digits h Hh), (pad2_digits m Hm), (pad2_digits s Hs),
    (pad3_digits ms Hms).
  assert (D : forall d, (0 <= d <= 9)%Z -> isDigit (digitChar d) = true).
  { intros d Hd. destruct (digitChar_isDigitChar d Hd) as [[H _ _ _ _] _].
    exact H. }
  eexists _, _, _, _, _, _, _, _, _. split; [|reflexivity].
  repeat constructor; apply D; Z.to_euclidean_division_equations; lia.
Qed.

Variables (idx line body : string).
Variables (m1 m2 : string).
Hypothesis idx_digits : allDigits idx = true.
Hypothesis idx_nonempty : idx <> "".
Hypothesis line_match : matchTimeRange "," line = Some (m1, m2).
Hypothesis line_trim : trim line = line.
Hypothesis line_oneLine : oneLine line = true.
Hypothesis line_nonempty : line <> "".
Hypothesis body_oneLine : oneLine body = true.

Let text := idx ++ String LF (line ++ String LF body).

Lemma block_lines : map trim (split text LF) = [idx; line; trim body].
Proof.
  subst text.
  rewrite split_line by (apply allDigits_oneLine; exact idx_digits).
  rewrite split_line by exact line_oneLine.
  rewrite split_last by exact body_oneLine.
  simpl. rewrite (trim_allDigits idx idx_digits), line_trim.
  reflexivity.
Qed.

(** Trimming the block keeps its first line and the line feed after it. *)
Lemma block_trim :
  exists rest, trim text = idx ++ String LF rest.
Proof.
  destruct idx as [|c r] eqn:Ei; [contradiction|].
  assert (Hc : isSpace c = false).
  { unfold allDigits in idx_digits. simpl in idx_digits.
    apply andb_true_iff in idx_digits as [Hc _].
    apply isDigit_facts in Hc. tauto. }
  destruct (trim_fixed_head line line_trim line_nonempty) as (l & lr & El & Hl).
  assert (Hr : trimEnd (line ++ String LF body) <> "").
  { rewrite El, str_app_cons. apply trimEnd_head. exact Hl. }
  exists (trimEnd (line ++ String LF body)).
  unfold trim. subst text. rewrite str_app_cons, trimStart_head by exact Hc.
  rewrite <- str_app_cons.
  change (String LF (line ++ String LF body))
    with (String LF "" ++ (line ++ String LF body)).
  pose proof (trimEnd_behind (String LF "") _ Hr) as H2.
  rewrite trimEnd_behind by (rewrite H2; discriminate).
  rewrite H2. reflexivity.
Qed.

Lemma block_never : never BLANK_LINE_REGEX text.
Proof.
  subst text.
  destruct (trim_fixed_head line line_trim line_nonempty) as (c & r & El & Hc).
  apply never_oneLine; [apply allDigits_oneLine; exact idx_digits|].
  rewrite El, str_app_cons. apply never_lineFeed; [exact Hc|].
  rewrite <- str_app_cons, <- El.
  apply never_oneLine; [exact line_oneLine|].
  apply never_lastLine. exact body_oneLine.
Qed.

Lemma block_split : splitBlocks text = [text].
Proof.
  unfold splitBlocks. rewrite splitRe_never by exact block_never.
  simpl. destruct block_trim as [rest ->].
  destruct idx; [contradiction|reflexivity].
Qed.

Lemma block_nonempty : text <> "".
Proof. subst text. destruct idx; [contradiction|discriminate]. Qed.

Lemma block_parseSRT separateLanguages detectLanguage :
  JS.isNaN (parseInt idx) = false ->
  parseSRT separateLanguages detectLanguage text
  = [makeCue separateLanguages detectLanguage
       ("srt-" ++ numberToString (parseInt idx)) 0
       (parseTimestamp m1) (parseTimestamp m2) (trim body)].
Proof.
  intros Hn. unfold parseSRT. rewrite block_split. simpl.
  unfold parseSRTBlock. rewrite block_lines.
  destruct (String.eqb_spec text ""); [exfalso; apply block_nonempty; assumption|].
  simpl.
  destruct (String.eqb_spec idx ""); [contradiction|].
  rewrite Hn.
  destruct (String.eqb_spec line ""); [contradiction|].
  rewrite line_match. reflexivity.
Qed.

Lemma block_detectFormat : detectFormat text = srt.
Proof.
  unfold detectFormat. destruct block_trim as [rest ->].
  destruct idx as [|c r] eqn:Ei; [contradiction|].
  assert (Hc : isDigit c = true).
  { unfold allDigits in idx_digits. simpl in idx_digits.
    apply andb_true_iff in idx_digits. tauto. }
  assert (Hw : startsWith (String c r ++ String LF rest) "WEBVTT" = false).
  { rewrite str_app_cons. unfold startsWith. simpl.
    destruct c as [[] [] [] [] [] [] [] []]; try discriminate Hc; reflexivity. }
  rewrite Hw.
  assert (Hl : hd "" (split (String c r ++ String LF rest) LF) = String c r).
  { rewrite split_line; [reflexivity|].
    apply allDigits_oneLine. exact idx_digits. }
  rewrite Hl. simpl.
  unfold isIndexLine. cbn [indexLineFrom]. unfold indexLineAt.
  rewrite (plus_allDigits _ idx_digits) by discriminate. reflexivity.
Qed.

Lemma block_parse separateLanguages detectLanguage :
  JS.isNaN (parseInt idx) = false ->
  parse separateLanguages detectLanguage text None
  = [makeCue separateLanguages detectLanguage
       ("srt-" ++ numberToString (parseInt idx)) 0
       (parseTimestamp m1) (parseTimestamp m2) (trim body)].
Proof.
  intros Hn. unfold parse.
  destruct (String.eqb_spec text ""); [exfalso; apply block_nonempty; assumption|].
  destruct block_trim as [rest Er].
  destruct (Nat.eqb_spec (String.length (trim text)) 0) as [Hl|_].
  { rewrite Er in Hl. destruct idx; [contradiction|discriminate Hl]. }
  simpl orb. cbv iota. rewrite block_detectFormat.
  apply block_parseSRT. exact Hn.
Qed.

End SrtCue.

(** A cue written in SRT with any one line of text is read back with the
    text trimmed, whatever the order of its two times. *)
Lemma parse_srtCue separateLanguages detectLanguage
    n h1 m1 s1 ms1 h2 m2 s2 ms2 body :
  0 <= n ->
  0 <= h1 < 100 -> 0 <= m1 < 100 -> 0 <= s1 < 100 -> 0 <= ms1 < 1000 ->
  0 <= h2 < 100 -> 0 <= m2 < 100 -> 0 <= s2 < 100 -> 0 <= ms2 < 1000 ->
  oneLine body = true ->
  SubtitleParser.parse separateLanguages detectLanguage
    (srtCue n h1 m1 s1 ms1 h2 m2 s2 ms2 body) None
  = [SubtitleParser.makeCue separateLanguages detectLanguage
       ("srt-" ++ Str.numberToString (JS.ofInteger n))%string 0
       (secondsOfFields h1 m1 s1 ms1) (secondsOfFields h2 m2 s2 ms2)
       (Str.trim body)].
Proof.
  intros Hn Hh1 Hm1 Hs1 Hms1 Hh2 Hm2 Hs2 Hms2 Hb1.
  destruct (decimal_allDigits n Hn) as [Hd Hne].
  destruct (render_stamp h1 m1 s1 ms1 ","%char Hh1 Hm1 Hs1 Hms1)
    as (c1 & c2 & c3 & c4 & c5 & c6 & c7 & c8 & c9 & C & EC).
  destruct (render_stamp h2 m2 s2 ms2 ","%char Hh2 Hm2 Hs2 Hms2)
    as (e1 & e2 & e3 & e4 & e5 & e6 & e7 & e8 & e9 & E & EE).
  destruct (timeLine_facts c1 c2 c3 c4 c5 c6 c7 c8 c9
              e1 e2 e3 e4 e5 e6 e7 e8 e9 C E) as (L1 & L2 & _ & L4).
  pose proof (matchTimeRange_timeLine c1 c2 c3 c4 c5 c6 c7 c8 c9
                e1 e2 e3 e4 e5 e6 e7 e8 e9 C E) as L0.
  unfold timeLine in L0, L1, L2, L4. rewrite <- EC, <- EE in L0, L1, L2, L4.
  unfold srtCue.
  rewrite (block_parse _ _ _ _ _ Hd Hne L0 L1 L2 L4 Hb1
             separateLanguages detectLanguage)
    by (rewrite (parseInt_decimal n Hn); apply Rounding.isNaN_ofInteger; exact Hn).
  rewrite (parseInt_decimal n Hn).
  rewrite (parseTimestamp_render h1 m1 s1 ms1 ","%char) by auto.
  rewrite (parseTimestamp_render h2 m2 s2 ms2 ","%char) by auto.
  reflexivity.
Qed.

(** C4 (amended): [parse] does not check the cues it emits.  A text in
    SRT made of a cue number, a line with two timestamps and one line of
    text is parsed to exactly one cue, with the two times as they are
    written, in whatever order, and the line of text trimmed, be it empty.
    For every input, each cue of the output has a non-empty id; an end
    after the start and a non-empty text hold for the cues of an output
    that [validate] accepts. *)
Theorem parse_emits_without_check separateLanguages detectLanguage
    n h1 m1 s1 ms1 h2 m2 s2 ms2 body text format :
  0 <= n ->
  0 <= h1 < 100 -> 0 <= m1 < 100 -> 0 <= s1 < 100 -> 0 <= ms1 < 1000 ->
  0 <= h2 < 100 -> 0 <= m2 < 100 -> 0 <= s2 < 100 -> 0 <= ms2 < 1000 ->
  oneLine body = true ->
  let cues := SubtitleParser.parse separateLanguages detectLanguage text format in
  SubtitleParser.parse separateLanguages detectLanguage
    (srtCue n h1 m1 s1 ms1 h2 m2 s2 ms2 body) None
  = [SubtitleParser.makeCue separateLanguages detectLanguage
       ("srt-" ++ Str.numberToString (JS.ofInteger n))%string 0
       (secondsOfFields h1 m1 s1 ms1) (secondsOfFields h2 m2 s2 ms2)
       (Str.trim body)]
  /\ Forall (fun c => cue_id c <> ""%string) cues
  /\ (SubtitleParser.validate cues = true ->
      Forall (fun c => JS.le (cue_end c) (cue_start c) = false
                       /\ cue_text c <> ""%string) cues).
Proof.
  intros Hn Hh1 Hm1 Hs1 Hms1 Hh2 Hm2 Hs2 Hms2 Hb cues.
  split; [apply parse_srtCue; assumption|].
  split; [apply parse_ids|].
  intros Hv. apply validate_spec in Hv as [_ Hv].
  eapply Forall_impl; [exact Hv|]. simpl. tauto.
Qed.

(** The amended C4 on a cue from 5 s to 1 s with a blank line of text. *)
Lemma parse_emits_without_check_witness :
  map (fun c => (cue_id c, cue_start c, cue_end c, cue_text c))
    (SubtitleParser.parse latinLanguages latinLanguage
       (srtCue 1 0 0 5 0 0 0 1 0 " ") None)
  = [("srt-1"%string, 5%float, 1%float, ""%string)].
Proof.
  rewrite (proj1 (parse_emits_without_check latinLanguages latinLanguage
                    1 0 0 5 0 0 0 1 0 " " "" None
                    ltac:(lia) ltac:(lia) ltac:(lia) ltac:(lia) ltac:(lia)
                    ltac:(lia) ltac:(lia) ltac:(lia) ltac:(lia) eq_refl)).
  reflexivity.
Defined.

(** X26: [parse] reads back a cue written in SRT.  For a cue number [n]
    below [2^53], two timestamps with two-digit fields and one line of text
    that is not empty and has no white space at its ends, the text of the
    cue is detected as SRT and parsed to exactly one cue: id [srt-n], index
    0, the two times, and the line of text.  (A cue number from [2^53] up is
    first rounded to a number: its id is written with the digits of that
    number.) *)
Theorem parse_reads_srt_cue separateLanguages detectLanguage
    n h1 m1 s1 ms1 h2 m2 s2 ms2 body :
  0 <= n < 2 ^ 53 ->
  0 <= h1 < 100 -> 0 <= m1 < 100 -> 0 <= s1 < 100 -> 0 <= ms1 < 1000 ->
  0 <= h2 < 100 -> 0 <= m2 < 100 -> 0 <= s2 < 100 -> 0 <= ms2 < 1000 ->
  oneLine body = true -> body <> ""%string -> Str.trim body = body ->
  SubtitleParser.parse separateLanguages detectLanguage
    (srtCue n h1 m1 s1 ms1 h2 m2 s2 ms2 body) None
  = [SubtitleParser.makeCue separateLanguages detectLanguage
       ("srt-" ++ Str.decimal n)%string 0
       (secondsOfFields h1 m1 s1 ms1) (secondsOfFields h2 m2 s2 ms2) body].
Proof.
  intros Hn Hh1 Hm1 Hs1 Hms1 Hh2 Hm2 Hs2 Hms2 Hb1 Hb2 Hb3.
  rewrite parse_srtCue by (assumption || lia).
  rewrite (numberToString_ofInteger n Hn), Hb3. reflexivity.
Qed.

Lemma parse_reads_srt_cue_witness :
  SubtitleParser.parse latinLanguages latinLanguage
    (srtCue 7 0 0 1 0 0 1 2 500 "Hello world") None
  = [SubtitleParser.makeCue latinLanguages latinLanguage "srt-7" 0
       1%float 62.5%float "Hello world"].
Proof.
  exact (parse_reads_srt_cue latinLanguages latinLanguage
           7 0 0 1 0 0 1 2 500 "Hello world"
           ltac:(lia) ltac:(lia) ltac:(lia) ltac:(lia) ltac:(lia)
           ltac:(lia) ltac:(lia) ltac:(lia) ltac:(lia)
           eq_refl ltac:(discriminate) eq_refl).
Defined.

(* ===================================================================== *)
(** ** The cache of the loader *)
(* ===================================================================== *)

Section CacheFacts.

Import SubtitleLoader.

Context {V : Type}.
Implicit Types (m : JSMap V) (key : string).

Lemma mapGet_mapSet key (v : V) m : mapGet key (mapSet key v m) = Some v.
Proof.
  induction m as [|[k x] m IH]; simpl.
  - rewrite String.eqb_refl. reflexivity.
  - destruct (String.eqb_spec k key) as [->|Hk]; simpl.
    + rewrite String.eqb_refl. reflexivity.
    + destruct (String.eqb_spec k key); [contradiction|exact IH].
Qed.

Lemma mapGet_mapSet_ne key key' (v : V) m :
  key' <> key -> mapGet key' (mapSet key v m) = mapGet key' m.
Proof.
  intros Hne. induction m as [|[k x] m IH]; simpl.
  - destruct (String.eqb_spec key key'); [congruence|reflexivity].
  - destruct (String.eqb_spec k key) as [->|Hk]; simpl.
    + destruct (String.eqb_spec key key'); [congruence|reflexivity].
    + destruct (String.eqb_spec k key'); [reflexivity|exact IH].
Qed.

Lemma mapDelete_cons key k (x : V) m :
  mapDelete key ((k, x) :: m)
  = if String.eqb k key then mapDelete key m else (k, x) :: mapDelete key m.
Proof. unfold mapDelete. simpl. destruct (String.eqb k key); reflexivity. Qed.

Lemma mapGet_mapDelete key m : mapGet key (mapDelete key m) = None.
Proof.
  induction m as [|[k x] m IH]; [reflexivity|].
  rewrite mapDelete_cons.
  destruct (String.eqb_spec k key) as [->|Hk]; simpl; [exact IH|].
  destruct (String.eqb_spec k key); [contradiction|exact IH].
Qed.

Lemma mapGet_mapDelete_ne key key' m :
  key' <> key -> mapGet key' (mapDelete key m) = mapGet key' m.
Proof.
  intros Hne. induction m as [|[k x] m IH]; [reflexivity|].
  rewrite mapDelete_cons.
  destruct (String.eqb_spec k key) as [->|Hk]; simpl.
  - destruct (String.eqb_spec key key'); [congruence|exact IH].
  - destruct (String.eqb_spec k key'); [reflexivity|exact IH].
Qed.

Lemma mapGet_None key m : mapGet key m = None <-> key ∉ map fst m.
Proof.
  induction m as [|[k x] m IH]; simpl.
  - split; [intros _; apply not_elem_of_nil|reflexivity].
  - rewrite not_elem_of_cons.
    destruct (String.eqb_spec k key) as [->|Hk].
    + split; [discriminate|intros [H _]; contradiction].
    + rewrite IH. split; [intros H; split; [congruence|exact H]|tauto].
Qed.

Lemma mapDelete_keys key m :
  map fst (mapDelete key m)
  = List.filter (fun k => negb (String.eqb k key)) (map fst m).
Proof.
  induction m as [|[k x] m IH]; [reflexivity|].
  rewrite mapDelete_cons. simpl.
  destruct (String.eqb k key); simpl; rewrite IH; reflexivity.
Qed.

Lemma mapDelete_length key m : (length (mapDelete key m) <= length m)%nat.
Proof. apply List.filter_length_le. Qed.

Lemma mapDelete_elem key k m :
  k ∈ map fst (mapDelete key m) <-> k ∈ map fst m /\ k <> key.
Proof.
  rewrite mapDelete_keys, !list_elem_of_In, List.filter_In.
  destruct (String.eqb_spec k key); simpl; split; intros []; split;
    auto; discriminate.
Qed.

Lemma mapDelete_NoDup key m :
  NoDup (map fst m) -> NoDup (map fst (mapDelete key m)).
Proof.
  rewrite mapDelete_keys, !NoDup_ListNoDup. apply List.NoDup_filter.
Qed.

Lemma mapDelete_absent key m : key ∉ map fst m -> mapDelete key m = m.
Proof.
  induction m as [|[k x] m IH]; [reflexivity|].
  rewrite mapDelete_cons. cbn [map fst].
  rewrite not_elem_of_cons. intros [Hk Hm].
  destruct (String.eqb_spec k key); [congruence|].
  rewrite IH by exact Hm. reflexivity.
Qed.

Lemma mapSet_keys key (v : V) m :
  map fst (mapSet key v m)
  = if decide (key ∈ map fst m) then map fst m else map fst m ++ [key].
Proof.
  induction m as [|[k x] m IH]; simpl.
  - destruct (decide (key ∈ [])) as [H|_]; [inversion H|reflexivity].
  - destruct (String.eqb_spec k key) as [->|Hk]; simpl.
    + destruct (decide (key ∈ key :: map fst m)) as [_|H]; [reflexivity|].
      exfalso. apply H. apply list_elem_of_here.
    + rewrite IH. destruct (decide (key ∈ map fst m)) as [H|H];
        destruct (decide (key ∈ k :: map fst m)) as [H'|H']; try reflexivity.
      * exfalso. apply H'. apply list_elem_of_further. exact H.
      * exfalso. apply elem_of_cons in H' as [->|H']; contradiction.
Qed.

Lemma mapSet_length key (v : V) m :
  length (mapSet key v m)
  = if decide (key ∈ map fst m) then length m else S (length m).
Proof.
  rewrite <- (length_map fst (mapSet key v m)), mapSet_keys.
  destruct (decide (key ∈ map fst m)).
  - apply length_map.
  - rewrite List.length_app, length_map. simpl. lia.
Qed.

Lemma mapSet_NoDup key (v : V) m :
  NoDup (map fst m) -> NoDup (map fst (mapSet key v m)).
Proof.
  intros H. rewrite mapSet_keys. destruct (decide (key ∈ map fst m)) as [|Hn].
  - exact H.
  - apply NoDup_app. split; [exact H|]. split.
    + intros k Hk Hk'. apply list_elem_of_singleton in Hk'. subst. contradiction.
    + apply NoDup_singleton.
Qed.

Lemma mapSet_elem key k (v : V) m :
  k ∈ map fst (mapSet key v m) <-> k = key \/ k ∈ map fst m.
Proof.
  rewrite mapSet_keys. destruct (decide (key ∈ map fst m)) as [H|H].
  - split; [auto|]. intros [->|]; assumption.
  - rewrite elem_of_app, list_elem_of_singleton. tauto.
Qed.

End CacheFacts.

Section LoaderFacts.

Import SubtitleLoader.

(** What the cache keeps: distinct keys, none of them empty, and no more
    entries than [maxCacheSize]. *)
Record Bounded (cache : Cache) : Prop := {
  keys_distinct : NoDup (map fst cache);
  keys_named : Forall (fun key => key <> ""%string) (map fst cache);
  size_bounded : (length cache <= 50)%nat
}.

Lemma empty_bounded : Bounded [].
Proof.
  split; simpl; [apply NoDup_nil_2|apply Forall_nil_2|lia].
Qed.

Lemma mapDelete_bounded key cache : Bounded cache -> Bounded (mapDelete key cache).
Proof.
  intros [H1 H2 H3]. split.
  - apply mapDelete_NoDup. exact H1.
  - rewrite Forall_forall in *. intros k Hk.
    apply mapDelete_elem in Hk as [Hk _]. auto.
  - pose proof (mapDelete_length key cache). lia.
Qed.

Lemma getFromCache_bounded now key cache :
  Bounded cache -> Bounded (snd (getFromCache now key cache)).
Proof.
  intros H. unfold getFromCache. destruct (mapGet key cache) as [entry|]; [|exact H].
  destruct (_ >? _); [apply mapDelete_bounded|]; exact H.
Qed.

Lemma mapDelete_head_length {V} key (x : V) (m : JSMap V) :
  NoDup (map fst ((key, x) :: m)) ->
  mapDelete key ((key, x) :: m) = m.
Proof.
  intros H. rewrite mapDelete_cons, String.eqb_refl.
  apply mapDelete_absent. simpl in H. apply NoDup_cons in H as [H _]. exact H.
Qed.

Lemma setCache_bounded now key data_ cache :
  key <> ""%string -> Bounded cache -> Bounded (setCache now key data_ cache).
Proof.
  intros Hkey H. unfold setCache.
  set (cache1 := if Z.of_nat (length cache) >=? maxCacheSize then _ else _).
  assert (H1 : Bounded cache1 /\ (length cache1 < 50)%nat).
  { subst cache1. unfold maxCacheSize.
    destruct (Z.geb_spec (Z.of_nat (length cache)) 50) as [Hfull|Hroom].
    - destruct cache as [|[oldestKey oldest] rest]; [simpl in Hfull; lia|].
      destruct H as [H1 H2 H3].
      destruct (String.eqb_spec oldestKey "") as [->|_].
      { simpl in H2. apply Forall_cons in H2 as [H2 _]. contradiction. }
      rewrite mapDelete_head_length by exact H1. simpl in *.
      split; [|lia]. split.
      + apply NoDup_cons in H1 as [_ H1]. exact H1.
      + apply Forall_cons in H2 as [_ H2]. exact H2.
      + lia.
    - split; [exact H|lia]. }
  destruct H1 as [[H1 H2 H3] H4]. split.
  - apply mapSet_NoDup. exact H1.
  - rewrite Forall_forall in *. intros k Hk.
    apply mapSet_elem in Hk as [->|Hk]; auto.
  - rewrite mapSet_length. destruct (decide _); lia.
Qed.

Lemma clearCacheForSource_bounded source_ cache :
  Bounded cache -> Bounded (clearCacheForSource source_ cache).
Proof.
  unfold clearCacheForSource.
  generalize (List.filter (fun key => Str.includes key source_) (map fst cache)).
  intros keys. revert cache. induction keys as [|k keys IH]; intros cache H.
  - exact H.
  - simpl. apply IH. apply mapDelete_bounded. exact H.
Qed.

Lemma cacheStep_bounded op cache :
  namedKey op -> Bounded cache -> Bounded (cacheStep op cache).
Proof.
  intros Hop H. destruct op as [now key|now key data_| |source_]; simpl.
  - apply getFromCache_bounded. exact H.
  - apply setCache_bounded; assumption.
  - apply empty_bounded.
  - apply clearCacheForSource_bounded. exact H.
Qed.

Lemma cacheRun_bounded ops cache :
  Forall namedKey ops -> Bounded cache -> Bounded (cacheRun ops cache).
Proof.
  revert cache. induction ops as [|op ops IH]; intros cache Hops H.
  - exact H.
  - apply Forall_cons in Hops as [Hop Hops]. simpl. apply IH; [exact Hops|].
    apply cacheStep_bounded; assumption.
Qed.

End LoaderFacts.

(** X27: the cache of the loader never holds more than 50 subtitles, and
    no key twice, however it is used (read, written, cleared, cleared for a
    source), as long as no subtitle is cached under the empty key; the keys
    of the loader start with [vault:], [local:], [url:] or [text:]. *)
Theorem cache_holds_at_most_50 ops :
  Forall namedKey ops ->
  let cache := SubtitleLoader.cacheRun ops [] in
  (length cache <= 50)%nat /\ NoDup (map fst cache).
Proof.
  intros Hops cache.
  destruct (cacheRun_bounded ops [] Hops empty_bounded) as [H1 _ H3].
  split; assumption.
Qed.

Lemma cache_holds_at_most_50_witness :
  (length (SubtitleLoader.cacheRun sixtyWrites []) <= 50)%nat.
Proof.
  refine (proj1 (cache_holds_at_most_50 sixtyWrites _)).
  unfold sixtyWrites. apply Forall_fmap, Forall_forall. intros k _.
  simpl. discriminate.
Defined.

Section CacheRoundTrip.

Import SubtitleLoader.

Lemma mapGet_setCache now key data_ cache :
  mapGet key (setCache now key data_ cache)
  = Some (mkSubtitleCacheEntry data_ now).
Proof. unfold setCache. apply mapGet_mapSet. Qed.

Lemma getFromCache_setCache now now' key data_ cache :
  now' - now <= 300000 ->
  getFromCache now' key (setCache now key data_ cache)
  = (Some data_, setCache now key data_ cache).
Proof.
  intros Hage. unfold getFromCache. rewrite mapGet_setCache. simpl.
  unfold cacheMaxAge. destruct (Z.gtb_spec (now' - now) (5 * 60 * 1000)); [lia|].
  reflexivity.
Qed.

Lemma getFromCache_expired now now' key data_ cache :
  300000 < now' - now ->
  getFromCache now' key (setCache now key data_ cache)
  = (None, mapDelete key (setCache now key data_ cache)).
Proof.
  intros Hage. unfold getFromCache. rewrite mapGet_setCache. simpl.
  unfold cacheMaxAge. destruct (Z.gtb_spec (now' - now) (5 * 60 * 1000)); [|lia].
  reflexivity.
Qed.

End CacheRoundTrip.

(** X28: what [setCache] stores, [getFromCache] gives back for five
    minutes: a read of the key no later than 300000 ms after the write
    answers the subtitle written and leaves the cache as it is, whatever
    the cache held before, full or not.  A later read answers [null] and
    removes the entry, so that the reads after it answer [null] whatever
    the clock says then. *)
Theorem setCache_then_getFromCache now now' key data_ cache :
  let written := SubtitleLoader.setCache now key data_ cache in
  (now' - now <= 300000 ->
   SubtitleLoader.getFromCache now' key written = (Some data_, written))
  /\ (300000 < now' - now ->
      fst (SubtitleLoader.getFromCache now' key written) = None
      /\ forall now'',
           fst (SubtitleLoader.getFromCache now'' key
                  (snd (SubtitleLoader.getFromCache now' key written)))
           = None).
Proof.
  intros written. split; intros Hage.
  - apply getFromCache_setCache. exact Hage.
  - subst written. rewrite getFromCache_expired by exact Hage. simpl.
    split; [reflexivity|]. intros now''.
    unfold SubtitleLoader.getFromCache. rewrite mapGet_mapDelete. reflexivity.
Qed.

(** X29: a write to a full cache drops the entry that was inserted first,
    read or not since, also when the key written is cached already and the
    cache would not grow; the other entries stay.  (When the key written is
    the one inserted first, it is dropped and stored anew.)  The cache then
    holds one entry less when the key written was that of one of the other
    entries, and as many as before otherwise. *)
Theorem setCache_drops_first_inserted now key data_ oldestKey oldest rest :
  (50 <= S (length rest))%nat ->
  NoDup (oldestKey :: map fst rest) ->
  oldestKey <> ""%string ->
  let cache := (oldestKey, oldest) :: rest in
  let cache' := SubtitleLoader.setCache now key data_ cache in
  (key <> oldestKey -> SubtitleLoader.mapGet oldestKey cache' = None)
  /\ (forall k, k <> key -> k <> oldestKey ->
                SubtitleLoader.mapGet k cache' = SubtitleLoader.mapGet k cache)
  /\ length cache'
     = if decide (key ∈ map fst rest) then length rest else S (length rest).
Proof.
  intros Hfull Hdup Hname cache cache'.
  assert (E : cache'
              = SubtitleLoader.mapSet key
                  (SubtitleLoader.mkSubtitleCacheEntry data_ now) rest).
  { subst cache' cache. unfold SubtitleLoader.setCache.
    unfold SubtitleLoader.maxCacheSize.
    destruct (Z.geb_spec (Z.of_nat (length ((oldestKey, oldest) :: rest))) 50)
      as [_|Hroom]; [|simpl in Hroom; lia].
    destruct (String.eqb_spec oldestKey ""); [contradiction|].
    rewrite mapDelete_head_length by exact Hdup. reflexivity. }
  rewrite E. clear E cache'.
  apply NoDup_cons in Hdup as [Hold Hdup].
  split; [|split].
  - intros Hne. rewrite mapGet_mapSet_ne by congruence.
    apply mapGet_None. exact Hold.
  - intros k Hk Hk'. rewrite mapGet_mapSet_ne by exact Hk.
    subst cache. simpl.
    destruct (String.eqb_spec oldestKey k); [congruence|reflexivity].
  - apply mapSet_length.
Qed.

Lemma setCache_drops_first_inserted_witness :
  let d := SubtitleLoader.mkLoadedSubtitle gapCues "file" srt 0 in
  SubtitleLoader.mapGet "0" (SubtitleLoader.setCache 1 "7" d fiftyEntries) = None
  /\ length (SubtitleLoader.setCache 1 "7" d fiftyEntries) = 49%nat.
Proof.
  intros d.
  pose proof (setCache_drops_first_inserted 1 "7" d "0"
                (SubtitleLoader.mkSubtitleCacheEntry d 0) (tail fiftyEntries)
                ltac:(vm_compute; lia)
                ltac:(apply (bool_decide_unpack _); vm_compute; exact I)
                ltac:(discriminate)) as (H1 & _ & H3).
  split.
  - exact (H1 ltac:(discriminate)).
  - exact H3.
Defined.

(** X30: [loadFromText] finds a text in the cache by its hash alone.
    After a text was loaded and cached, a call within five minutes for any
    text with the same [hashString], the same text or another one, is
    answered from the cache: with the cues, the source and the loading time
    of the first text.  Its own text is not parsed and its own source is
    not used. *)
Theorem loadFromText_same_hash separateLanguages detectLanguage
    t1 t2 t3 t4 t5 t6 content1 source1 content2 source2 cache r cache1 :
  SubtitleLoader.mapGet ("text:" ++ SubtitleLoader.hashString content1)%string
    cache = None ->
  SubtitleLoader.loadFromText separateLanguages detectLanguage t1 t2 t3
    content1 source1 cache = (Some r, cache1) ->
  SubtitleLoader.hashString content2 = SubtitleLoader.hashString content1 ->
  t4 - t3 <= 300000 ->
  SubtitleLoader.loadFromText separateLanguages detectLanguage t4 t5 t6
    content2 source2 cache1 = (Some r, cache1)
  /\ SubtitleLoader.cues r
     = SubtitleParser.parse separateLanguages detectLanguage content1 None
  /\ SubtitleLoader.cues r <> []
  /\ SubtitleLoader.source r = source1
  /\ SubtitleLoader.loadedAt r = t2.
Proof.
  intros Hnew Hfirst Hhash Hage.
  unfold SubtitleLoader.loadFromText in Hfirst.
  unfold SubtitleLoader.getFromCache in Hfirst at 1. rewrite Hnew in Hfirst.
  destruct (_ || _) in Hfirst; [discriminate|].
  destruct (SubtitleParser.parse separateLanguages detectLanguage content1 None)
    as [|c cs] eqn:Ecues; [discriminate|].
  simpl in Hfirst. injection Hfirst as <- <-.
  split; [|simpl; repeat split; discriminate].
  unfold SubtitleLoader.loadFromText. rewrite Hhash.
  rewrite getFromCache_setCache by exact Hage. reflexivity.
Qed.

Lemma loadFromText_same_hash_witness :
  let first := srtCue 1 0 0 1 0 0 0 2 0 "Aa" in
  let second := srtCue 1 0 0 1 0 0 0 2 0 "BB" in
  let cache1 :=
    snd (SubtitleLoader.loadFromText latinLanguages latinLanguage 0 0 0
           first "text" []) in
  option_map SubtitleLoader.cues
    (fst (SubtitleLoader.loadFromText latinLanguages latinLanguage
            1000 1000 1000 second "text" cache1))
  = Some (SubtitleParser.parse latinLanguages latinLanguage first None).
Proof.
  intros first second cache1.
  pose proof (loadFromText_same_hash latinLanguages latinLanguage
                0 0 0 1000 1000 1000 first "text" second "text" []
                (SubtitleLoader.mkLoadedSubtitle
                   (SubtitleParser.parse latinLanguages latinLanguage first None)
                   "text" srt 0)
                cache1
                eq_refl ltac:(vm_compute; reflexivity)
                ltac:(vm_compute; reflexivity) ltac:(lia)) as [H _].
  rewrite H. reflexivity.
Defined.
